(** * Narrative generation, model fallback and output polishing

    A shallow embedding of the narrative-generation layer of the audit
    report generator: the Puter adapter and its fallback chain
    (old/puter_adapter.js), the per-placeholder executor
    (lib/llm_executor.js and its later revision with the HTML polish pass),
    and the batch executor (llm_batch_executor.js).

    Conventions.
    - A JavaScript string is a list of 8-bit code units ([jstring]); the
      texts handled here are ASCII apart from what a model may return.
    - A JavaScript call either returns, throws, or leaves the fragment
      covered here ([completion]).
    - Objects carry their own properties.  The members they inherit from
      their prototypes are functions and accessors, which the documents
      here do not hold: an access that would reach one leaves the fragment.
    - JSON numbers are integers. *)

From Stdlib Require Import ZArith Ascii String Lia Sorted.
From stdpp Require Import base list gmap strings.

Set Warnings "-register-all".
Local Open Scope Z_scope.

(** ** Strings *)

Definition jstring := list ascii.

(** [js "abc"] is the JavaScript string literal 'abc'. *)
Definition js (s : string) : jstring := list_ascii_of_string s.

Definition ch_eqb (a b : ascii) : bool := Ascii.eqb a b.

(** [starts_with p s]: [s.startsWith(p)]. *)
Fixpoint starts_with (p s : jstring) : bool :=
  match p, s with
  | [], _ => true
  | _ :: _, [] => false
  | a :: p', b :: s' => ch_eqb a b && starts_with p' s'
  end.

(** [includes needle s]: [s.includes(needle)]. *)
Fixpoint includes (needle s : jstring) : bool :=
  starts_with needle s ||
  match s with
  | [] => false
  | _ :: s' => includes needle s'
  end.

(** ** Completions of a call *)

Record Error := mkError { message : jstring }.

Inductive completion (A : Type) : Type :=
| Return (a : A)          (* normal completion *)
| Throw (e : Error)       (* an exception propagates *)
| Stuck.                  (* outside the modelled fragment, or out of fuel *)
Arguments Return {A} a.
Arguments Throw {A} e.
Arguments Stuck {A}.

Definition TypeError (m : string) : Error := mkError (js m).

(** ** The Puter adapter's fallback chain (old/puter_adapter.js) *)

Module Puter.

Definition PUTER_FALLBACK_ORDER : list jstring :=
  [js "gpt-4o-mini"; js "claude-3-haiku"; js "gemini-2.0-flash"; js "llama-3.1-70b"].

Record PuterAdapter := mkPuterAdapter { model : jstring }.

(** [Array.prototype.indexOf]: position of the first element strictly equal
    to [x], or -1. *)
Fixpoint indexOf_from (i : Z) (xs : list jstring) (x : jstring) : Z :=
  match xs with
  | [] => -1
  | y :: ys => if decide (y = x) then i else indexOf_from (i + 1) ys x
  end.

Definition indexOf (xs : list jstring) (x : jstring) : Z := indexOf_from 0 xs x.

(** getNextFallbackModel: [None] stands for the returned [null]. *)
Definition getNextFallbackModel (this : PuterAdapter) : completion (option jstring) :=
  let currentIdx := indexOf PUTER_FALLBACK_ORDER (model this) in
  if (currentIdx <? 0) || (currentIdx >=? Z.of_nat (length PUTER_FALLBACK_ORDER) - 1)
  then Return None
  else Return (PUTER_FALLBACK_ORDER !! Z.to_nat (currentIdx + 1)).

End Puter.

(** ** Characters and numerals *)

Definition is_digit (c : ascii) : bool :=
  let n := nat_of_ascii c in (48 <=? n)%nat && (n <=? 57)%nat.

Definition is_upper (c : ascii) : bool :=
  let n := nat_of_ascii c in (65 <=? n)%nat && (n <=? 90)%nat.

Definition is_lower (c : ascii) : bool :=
  let n := nat_of_ascii c in (97 <=? n)%nat && (n <=? 122)%nat.

Definition is_letter (c : ascii) : bool := is_upper c || is_lower c.

(** White space and line terminators below code unit 256: what [\s] matches
    and what [trim] and [Number] skip. *)
Definition is_space (c : ascii) : bool :=
  let n := nat_of_ascii c in
  ((9 <=? n)%nat && (n <=? 13)%nat) || (n =? 32)%nat || (n =? 160)%nat.

(** Line terminators below code unit 256. *)
Definition is_line_terminator (c : ascii) : bool :=
  let n := nat_of_ascii c in (n =? 10)%nat || (n =? 13)%nat.

Definition to_lower (c : ascii) : ascii :=
  if is_upper c then ascii_of_nat (nat_of_ascii c + 32) else c.

(** Equality of two code units under the [i] flag, for ASCII patterns. *)
Definition ch_eqb_ci (a b : ascii) : bool := ch_eqb (to_lower a) (to_lower b).

Fixpoint drop_while (p : ascii -> bool) (s : jstring) : jstring :=
  match s with
  | [] => []
  | c :: s' => if p c then drop_while p s' else s
  end.

Fixpoint take_while (p : ascii -> bool) (s : jstring) : jstring :=
  match s with
  | [] => []
  | c :: s' => if p c then c :: take_while p s' else []
  end.

Definition trim_start (s : jstring) : jstring := drop_while is_space s.
Definition trim_end (s : jstring) : jstring := rev (drop_while is_space (rev s)).

(** [String.prototype.trim]. *)
Definition trim (s : jstring) : jstring := trim_end (trim_start s).

Definition digit_value (c : ascii) : Z := Z.of_nat (nat_of_ascii c) - 48.

(** Value of a run of decimal digits. *)
Definition digits_value (ds : jstring) : Z :=
  fold_left (fun acc c => 10 * acc + digit_value c) ds 0.

Definition digit_char (d : Z) : ascii := ascii_of_nat (Z.to_nat (48 + d)).

Fixpoint nat_digits (fuel : nat) (n : Z) (acc : jstring) : jstring :=
  match fuel with
  | O => acc
  | S fuel' =>
      let acc' := digit_char (n mod 10) :: acc in
      if n <? 10 then acc' else nat_digits fuel' (n / 10) acc'
  end.

(** Number-to-string conversion of an integer, as in a template literal. *)
Definition Z_to_js (n : Z) : jstring :=
  if n <? 0 then "-"%char :: nat_digits (S (Z.to_nat (Z.log2 (- n)))) (- n) []
  else nat_digits (S (Z.to_nat (Z.log2 n))) n [].

(** An array index is a canonical numeric string below 2^32 - 1. *)
Definition array_index (k : jstring) : option Z :=
  match k with
  | [] => None
  | c :: rest =>
      if forallb is_digit k && (negb (ch_eqb c "0") || match rest with [] => true | _ => false end)
      then let n := digits_value k in
           if n <? 4294967295 then Some n else None
      else None
  end.

(** ** Regular expressions

    Each regular expression of the source is written as a [pattern]: a
    function that tries to match at one position, given the code unit before
    that position ([None] at the start of the input) and the rest of the
    input, and yields the length of the match and what it captures. None of
    the expressions used here matches the empty string. *)

Definition pattern (A : Type) := option ascii -> jstring -> option (nat * A).

Inductive piece (A : Type) : Type :=
| Lit (c : ascii)                (* a code unit outside every match *)
| Hit (m : jstring) (a : A).     (* a match and its capture *)
Arguments Lit {A} c.
Arguments Hit {A} m a.

(** Successive matches from left to right, as a [g]-flagged expression finds
    them; [skip] code units of the last match remain to be passed over. *)
Fixpoint scan_from {A} (p : pattern A) (skip : nat) (prev : option ascii)
    (s : jstring) : list (piece A) :=
  match s with
  | [] => []
  | c :: s' =>
      match skip with
      | S k => scan_from p k (Some c) s'
      | O =>
          match p prev s with
          | Some (n, a) => Hit (take n s) a :: scan_from p (Nat.pred n) (Some c) s'
          | None => Lit c :: scan_from p 0 (Some c) s'
          end
      end
  end.

Definition scan {A} (p : pattern A) (s : jstring) : list (piece A) :=
  scan_from p 0 None s.

Definition piece_text {A} (f : jstring -> A -> jstring) (x : piece A) : jstring :=
  match x with
  | Lit c => [c]
  | Hit m a => f m a
  end.

(** [s.replace(/p/g, f)]. *)
Definition replace_all {A} (p : pattern A) (f : jstring -> A -> jstring)
    (s : jstring) : jstring :=
  flat_map (piece_text f) (scan p s).

Definition hits {A} (xs : list (piece A)) : list (jstring * A) :=
  flat_map (fun x => match x with Lit _ => [] | Hit m a => [(m, a)] end) xs.

(** [s.match(/p/g) || []]. *)
Definition match_all {A} (p : pattern A) (s : jstring) : list jstring :=
  map fst (hits (scan p s)).

(** [s.match(/p/)] without the [g] flag: the first match, if any. *)
Definition match_first {A} (p : pattern A) (s : jstring) : option (jstring * A) :=
  head (hits (scan p s)).

(** A literal, compared code unit by code unit. *)
Definition lit_pattern (w : jstring) : pattern unit :=
  fun _ s => if starts_with w s then Some (length w, tt) else None.

Fixpoint starts_with_ci (p s : jstring) : bool :=
  match p, s with
  | [], _ => true
  | _ :: _, [] => false
  | a :: p', b :: s' => ch_eqb_ci a b && starts_with_ci p' s'
  end.

(** A literal under the [i] flag. *)
Definition lit_ci_pattern (w : jstring) : pattern unit :=
  fun _ s => if starts_with_ci w s then Some (length w, tt) else None.

Definition not_close_bracket (c : ascii) : bool := negb (ch_eqb c "]").

(** [String.prototype.split] on a one-unit separator. *)
Fixpoint split_on (sep : ascii) (s : jstring) : list jstring :=
  match s with
  | [] => [[]]
  | c :: s' =>
      if ch_eqb c sep then [] :: split_on sep s'
      else match split_on sep s' with
           | [] => [[c]]
           | x :: xs => (c :: x) :: xs
           end
  end.

(** ** Numeric strings: [isNaN] applied to a string *)

Definition strip_sign (s : jstring) : jstring :=
  match s with
  | c :: t => if ch_eqb c "+" || ch_eqb c "-" then t else s
  | [] => []
  end.

Definition nonempty (s : jstring) : bool :=
  match s with [] => false | _ => true end.

Definition exponent_ok (s : jstring) : bool :=
  match s with
  | [] => true
  | e :: t =>
      (ch_eqb e "e" || ch_eqb e "E") &&
      (let t' := strip_sign t in nonempty t' && forallb is_digit t')
  end.

Definition unsigned_decimal_ok (s : jstring) : bool :=
  if decide (s = js "Infinity") then true
  else
    let ip := take_while is_digit s in
    match drop_while is_digit s with
    | "."%char :: r =>
        (nonempty ip || nonempty (take_while is_digit r)) &&
        exponent_ok (drop_while is_digit r)
    | r => nonempty ip && exponent_ok r
    end.

Definition is_bin_digit (c : ascii) : bool := ch_eqb c "0" || ch_eqb c "1".
Definition is_oct_digit (c : ascii) : bool :=
  let n := nat_of_ascii c in (48 <=? n)%nat && (n <=? 55)%nat.
Definition is_hex_digit (c : ascii) : bool :=
  let n := nat_of_ascii (to_lower c) in
  is_digit c || ((97 <=? n)%nat && (n <=? 102)%nat).

Definition non_decimal_ok (s : jstring) : bool :=
  match s with
  | "0"%char :: x :: ds =>
      nonempty ds &&
      (if ch_eqb (to_lower x) "b" then forallb is_bin_digit ds
       else if ch_eqb (to_lower x) "o" then forallb is_oct_digit ds
       else if ch_eqb (to_lower x) "x" then forallb is_hex_digit ds
       else false)
  | _ => false
  end.

(** [isNaN(s)] for a string [s]: [Number(s)] is NaN unless [s], trimmed, is
    empty or a numeric literal. *)
Definition isNaN_str (s : jstring) : bool :=
  let t := trim s in
  negb (match t with
        | [] => true
        | _ => unsigned_decimal_ok (strip_sign t) || non_decimal_ok t
        end).

(** ** Documents

    A report is a JSON-like tree.  An object is its list of own properties
    in insertion order; an array is an object of kind [Arr len] whose
    elements are the properties named by array indices, so that a missing
    index is a hole and an assignment past the end extends the array. *)

Inductive kind : Type :=
| Plain
| Arr (len : Z).

Inductive value : Type :=
| VUndef
| VNull
| VBool (b : bool)
| VNum (n : Z)
| VStr (s : jstring)
| VObj (k : kind) (props : list (jstring * value)).

Fixpoint lookup_prop (k : jstring) (props : list (jstring * value)) : option value :=
  match props with
  | [] => None
  | (k', v) :: rest => if decide (k' = k) then Some v else lookup_prop k rest
  end.

Fixpoint update_prop (k : jstring) (v : value) (props : list (jstring * value))
    : list (jstring * value) :=
  match props with
  | [] => []
  | (k', v') :: rest =>
      if decide (k' = k) then (k', v) :: rest else (k', v') :: update_prop k v rest
  end.

Definition put_prop (k : jstring) (v : value) (props : list (jstring * value))
    : list (jstring * value) :=
  match lookup_prop k props with
  | Some _ => update_prop k v props
  | None => props ++ [(k, v)]
  end.

(** The array literal [[v0, v1, ...]]. *)
Definition mk_array (l : list value) : value :=
  VObj (Arr (Z.of_nat (length l))) (imap (fun i v => (Z_to_js (Z.of_nat i), v)) l).

Definition empty_object : value := VObj Plain [].
Definition empty_array : value := VObj (Arr 0) [].

Definition isArray (v : value) : bool :=
  match v with
  | VObj (Arr _) _ => true
  | _ => false
  end.

Definition is_length (k : jstring) : bool := bool_decide (k = js "length").

(** The names of the members that objects, arrays, strings, numbers and
    booleans inherit from [Object.prototype], [Array.prototype],
    [String.prototype], [Number.prototype] and [Boolean.prototype]
    (ECMAScript 2025 with its Annex B).  Apart from [length] they are
    functions, and [__proto__] is an accessor. *)
Definition PROTOTYPE_MEMBERS : list jstring :=
  map js
    [ "constructor"; "__defineGetter__"; "__defineSetter__"; "hasOwnProperty";
      "__lookupGetter__"; "__lookupSetter__"; "isPrototypeOf"; "propertyIsEnumerable";
      "toString"; "valueOf"; "__proto__"; "toLocaleString";
      "length"; "at"; "concat"; "copyWithin"; "fill"; "find"; "findIndex"; "findLast";
      "findLastIndex"; "lastIndexOf"; "pop"; "push"; "reverse"; "shift"; "unshift";
      "slice"; "sort"; "splice"; "includes"; "indexOf"; "join"; "keys"; "entries";
      "values"; "forEach"; "filter"; "flat"; "flatMap"; "map"; "every"; "some";
      "reduce"; "reduceRight"; "toReversed"; "toSorted"; "toSpliced"; "with";
      "anchor"; "big"; "blink"; "bold"; "charAt"; "charCodeAt"; "codePointAt";
      "endsWith"; "fontcolor"; "fontsize"; "fixed"; "isWellFormed"; "italics"; "link";
      "localeCompare"; "match"; "matchAll"; "normalize"; "padEnd"; "padStart";
      "repeat"; "replace"; "replaceAll"; "search"; "small"; "split"; "strike"; "sub";
      "substr"; "substring"; "sup"; "startsWith"; "toWellFormed"; "trim"; "trimStart";
      "trimLeft"; "trimEnd"; "trimRight"; "toLocaleLowerCase"; "toLocaleUpperCase";
      "toLowerCase"; "toUpperCase";
      "toExponential"; "toFixed"; "toPrecision" ]%string.

(** [k] may name an inherited member. *)
Definition inherited (k : jstring) : bool := bool_decide (k ∈ PROTOTYPE_MEMBERS).
Arguments inherited : simpl never.

Definition is_proto (k : jstring) : bool := bool_decide (k = js "__proto__").

(** [k] names no inherited member: on any value it is an own property or
    no property at all. *)
Definition own_name (k : jstring) : bool := negb (inherited k).

(** [o[k]] where [o] has no own property [k]: [undefined], unless the name
    is that of an inherited member. *)
Definition absent (k : jstring) : completion value :=
  if inherited k then Stuck else Return VUndef.

(** [k in o].  Whether a name of an inherited member is found depends on
    the kind of [o] and the edition of the language. *)
Definition has_property (k : jstring) (o : value) : completion bool :=
  match o with
  | VObj kd props =>
      let own := bool_decide (is_Some (lookup_prop k props))
                 || match kd with Arr _ => is_length k | Plain => false end in
      if negb own && inherited k then Stuck else Return own
  | _ => Throw (TypeError "Cannot use 'in' operator to search for a key in a primitive")
  end.

(** [o[k]]. *)
Definition get_property (o : value) (k : jstring) : completion value :=
  match o with
  | VObj kd props =>
      match lookup_prop k props, kd with
      | Some v, _ => Return v
      | None, Arr len => if is_length k then Return (VNum len) else absent k
      | None, Plain => absent k
      end
  | VStr s =>
      if is_length k then Return (VNum (Z.of_nat (length s)))
      else match array_index k with
           | Some i =>
               match s !! Z.to_nat i with
               | Some c => Return (VStr [c])
               | None => Return VUndef
               end
           | None => absent k
           end
  | VNum _ | VBool _ => absent k
  | VNull | VUndef => Throw (TypeError "Cannot read properties of null or undefined")
  end.

(** [o[k] = v] in strict code: the completion and the object afterwards.
    An assignment to [__proto__], unless it is an own property, runs the
    setter of [Object.prototype], and an assignment to the [length] of an
    array truncates or extends it: both are outside the fragment. *)
Definition set_property (o : value) (k : jstring) (v : value) : completion unit * value :=
  match o with
  | VObj Plain props =>
      if is_proto k && negb (bool_decide (is_Some (lookup_prop k props))) then (Stuck, o)
      else (Return tt, VObj Plain (put_prop k v props))
  | VObj (Arr len) props =>
      if is_length k then (Stuck, o)
      else if is_proto k && negb (bool_decide (is_Some (lookup_prop k props)))
      then (Stuck, o)
      else
        let len' := match array_index k with
                    | Some i => Z.max len (i + 1)
                    | None => len
                    end in
        (Return tt, VObj (Arr len') (put_prop k v props))
  | VNull | VUndef => (Throw (TypeError "Cannot set properties of null or undefined"), o)
  | _ =>
      if is_proto k then (Stuck, o)
      else (Throw (TypeError "Cannot create property on a primitive"), o)
  end.

(** The object [o] once its property [k], an object mutated in place, holds
    [child]. *)
Definition store_child (o : value) (k : jstring) (child : value) : value :=
  match o with
  | VObj kd props => VObj kd (update_prop k child props)
  | _ => o
  end.

(** *** Paths *)

(** [/\[(\d+)\]/]: a bracketed run of digits, capturing the digits. *)
Definition bracket_index : pattern jstring :=
  fun _ s =>
    match s with
    | "["%char :: t =>
        let ds := take_while is_digit t in
        match ds, drop_while is_digit t with
        | _ :: _, "]"%char :: _ => Some (S (S (length ds)), ds)
        | _, _ => None
        end
    | _ => None
    end.

(** [path.replace(/\[(\d+)\]/g, '.$1').split('.')]. *)
Definition path_parts (path : jstring) : list jstring :=
  split_on "." (replace_all bracket_index (fun _ ds => "."%char :: ds) path).

(** The loop and final assignment of setAtPath, on the parts of the path:
    the completion and [current] afterwards. *)
Fixpoint set_parts (current : value) (parts : list jstring) (v : value)
    : completion unit * value :=
  match parts with
  | [] => (Return tt, current)
  | [last] => set_property current last v
  | part :: ((next :: _) as rest) =>
      match has_property part current with
      | Return present =>
          let '(r, current1) :=
            if present then (Return tt, current)
            else set_property current part
                   (if isNaN_str next then empty_object else empty_array) in
          match r with
          | Return _ =>
              match get_property current1 part with
              | Return child =>
                  let '(r', child') := set_parts child rest v in
                  (r', store_child current1 part child')
              | Throw e => (Throw e, current1)
              | Stuck => (Stuck, current1)
              end
          | Throw e => (Throw e, current1)
          | Stuck => (Stuck, current1)
          end
      | Throw e => (Throw e, current)
      | Stuck => (Stuck, current)
      end
  end.

(** setAtPath (lib/llm_executor.js): the completion and [obj] afterwards. *)
Definition setAtPath (obj : value) (path : jstring) (v : value) : completion unit * value :=
  set_parts obj (path_parts path) v.

Fixpoint get_parts (current : value) (parts : list jstring) : completion value :=
  match parts with
  | [] => Return current
  | part :: rest =>
      match current with
      | VUndef | VNull => Return VUndef
      | _ =>
          match get_property current part with
          | Return v => get_parts v rest
          | other => other
          end
      end
  end.

(** getAtPath (lib/llm_executor.js). *)
Definition getAtPath (obj : value) (path : jstring) : completion value :=
  get_parts obj (path_parts path).

(** *** Enumeration order and JSON copies *)

Definition index_props (props : list (jstring * value)) : list (Z * (jstring * value)) :=
  flat_map (fun kv => match array_index (fst kv) with
                      | Some i => [(i, kv)]
                      | None => []
                      end) props.

Fixpoint insert_by_index {A} (x : Z * A) (l : list (Z * A)) : list (Z * A) :=
  match l with
  | [] => [x]
  | y :: l' => if fst x <? fst y then x :: l else y :: insert_by_index x l'
  end.

Definition sort_by_index {A} (l : list (Z * A)) : list (Z * A) :=
  foldr insert_by_index [] l.

(** Own properties in enumeration order: array indices in ascending order,
    then the other names in insertion order. *)
Definition ordered_props {A} (props : list (jstring * A)) : list (jstring * A) :=
  map snd (sort_by_index
             (flat_map (fun kv => match array_index (fst kv) with
                                  | Some i => [(i, kv)]
                                  | None => []
                                  end) props))
  ++ filter (fun kv => array_index (fst kv) = None) props.

(** The elements [forEach] visits: array indices in ascending order. *)
Definition ordered_elements {A} (props : list (jstring * A)) : list (jstring * A) :=
  map snd (sort_by_index
             (flat_map (fun kv => match array_index (fst kv) with
                                  | Some i => [(i, kv)]
                                  | None => []
                                  end) props)).

Definition is_undefined (v : value) : bool :=
  match v with VUndef => true | _ => false end.

(** What [JSON.parse(JSON.stringify(v))] builds for a [v] other than
    [undefined]: properties holding [undefined] are dropped, holes and
    [undefined] elements become [null], other properties of arrays are lost. *)
Fixpoint json_copy (v : value) : value :=
  match v with
  | VObj Plain props =>
      VObj Plain
        (ordered_props
           (filter (fun kv => is_undefined (snd kv) = false)
                   (map (fun kv => (fst kv, json_copy (snd kv))) props)))
  | VObj (Arr len) props =>
      let props' := map (fun kv => (fst kv, json_copy (snd kv))) props in
      mk_array
        (map (fun i => match lookup_prop (Z_to_js (Z.of_nat i)) props' with
                       | Some VUndef | None => VNull
                       | Some x => x
                       end)
             (seq 0 (Z.to_nat len)))
  | other => other
  end.

Definition SyntaxError (m : string) : Error := mkError (js m).

(** [JSON.parse(JSON.stringify(v))]. *)
Definition json_clone (v : value) : completion value :=
  match v with
  | VUndef => Throw (SyntaxError "undefined is not valid JSON")
  | _ => Return (json_copy v)
  end.

(** *** Placeholders *)

Record Placeholder := mkPlaceholder {
  path : jstring;
  placeholderName : jstring;
  fullMatch : jstring
}.

Definition MARKER_PREFIX : jstring := js "[LLM_PLACEHOLDER:".

(** [/\[LLM_PLACEHOLDER:\s*([^\]]+)\]/], capturing the field name. *)
Definition placeholder_marker : pattern jstring :=
  fun _ s =>
    if starts_with MARKER_PREFIX s then
      let t := drop (length MARKER_PREFIX) s in
      let body := take_while not_close_bracket t in
      match body, drop_while not_close_bracket t with
      | _ :: _, "]"%char :: _ =>
          Some (length MARKER_PREFIX + length body + 1,
                match drop_while is_space body with
                | [] => drop (Nat.pred (length body)) body
                | g => g
                end)%nat
      | _, _ => None
      end
    else None.

(** findPlaceholders (lib/llm_executor.js). *)
Fixpoint findPlaceholders (obj : value) (path : jstring) : list Placeholder :=
  match obj with
  | VStr s =>
      if includes (js "[LLM_PLACEHOLDER") s then
        match match_first placeholder_marker s with
        | Some (m, name) => [mkPlaceholder path (trim name) m]
        | None => []
        end
      else []
  | VObj (Arr _) props =>
      flat_map snd
        (ordered_elements
           (map (fun kv => (fst kv,
                            findPlaceholders (snd kv)
                              (path ++ js "[" ++ fst kv ++ js "]"))) props))
  | VObj Plain props =>
      flat_map snd
        (ordered_props
           (map (fun kv => (fst kv,
                            findPlaceholders (snd kv)
                              (if nonempty path then path ++ js "." ++ fst kv
                               else fst kv))) props))
  | _ => []
  end.

(** [s.indexOf(needle)]. *)
Fixpoint index_of_from (i : Z) (needle s : jstring) : Z :=
  if starts_with needle s then i
  else match s with
       | [] => -1
       | _ :: s' => index_of_from (i + 1) needle s'
       end.

Definition index_of (needle s : jstring) : Z := index_of_from 0 needle s.

(** getBasePlaceholderName. *)
Definition getBasePlaceholderName (fullName : jstring) : jstring :=
  let forIndex := index_of (js " for ") fullName in
  if 0 <? forIndex then take (Z.to_nat forIndex) fullName else fullName.

(** [/^(.+)\[\d+\]$/]: the path of the array an element path points into. *)
Definition array_parent_path (targetPath : jstring) : option jstring :=
  match rev targetPath with
  | "]"%char :: r =>
      let ds := take_while is_digit r in
      match ds, drop_while is_digit r with
      | _ :: _, "["%char :: ((_ :: _) as pre) =>
          if forallb (fun c => negb (is_line_terminator c)) pre
          then Some (rev pre) else None
      | _, _ => None
      end
  | _ => None
  end.

(** ** [JSON.parse]

    The JSON grammar with integer numbers; a number with a fraction or an
    exponent, and a [\u] escape above code unit 255, are outside the
    fragment. *)

Definition cbind {A B} (c : completion A) (f : A -> completion B) : completion B :=
  match c with
  | Return a => f a
  | Throw e => Throw e
  | Stuck => Stuck
  end.

(** The double quote. *)
Definition DQUOTE : ascii := ascii_of_nat 34.

Definition is_json_ws (c : ascii) : bool :=
  let n := nat_of_ascii c in
  (n =? 32)%nat || (n =? 9)%nat || (n =? 10)%nat || (n =? 13)%nat.

Definition skip_ws (s : jstring) : jstring := drop_while is_json_ws s.

Definition hex_value (c : ascii) : Z :=
  if is_digit c then digit_value c
  else Z.of_nat (nat_of_ascii (to_lower c)) - 87.

(** The characters of a string literal after its opening quote, and the
    input after its closing quote. *)
Fixpoint parse_string_body (s : jstring) (acc : jstring) : completion (jstring * jstring) :=
  match s with
  | [] => Throw (SyntaxError "Unterminated string in JSON")
  | c :: r =>
      if ch_eqb c DQUOTE then Return (rev acc, r)
      else if ch_eqb c "\"%char then
        match r with
        | e :: r' =>
            if ch_eqb e DQUOTE || ch_eqb e "\"%char || ch_eqb e "/"%char
            then parse_string_body r' (e :: acc)
            else if ch_eqb e "b" then parse_string_body r' (ascii_of_nat 8 :: acc)
            else if ch_eqb e "f" then parse_string_body r' (ascii_of_nat 12 :: acc)
            else if ch_eqb e "n" then parse_string_body r' (ascii_of_nat 10 :: acc)
            else if ch_eqb e "r" then parse_string_body r' (ascii_of_nat 13 :: acc)
            else if ch_eqb e "t" then parse_string_body r' (ascii_of_nat 9 :: acc)
            else if ch_eqb e "u" then
              match r' with
              | h1 :: h2 :: h3 :: h4 :: r'' =>
                  if forallb is_hex_digit [h1; h2; h3; h4] then
                    let code := 4096 * hex_value h1 + 256 * hex_value h2
                                + 16 * hex_value h3 + hex_value h4 in
                    if code <? 256
                    then parse_string_body r'' (ascii_of_nat (Z.to_nat code) :: acc)
                    else Stuck
                  else Throw (SyntaxError "Bad Unicode escape in JSON")
              | _ => Throw (SyntaxError "Bad Unicode escape in JSON")
              end
            else Throw (SyntaxError "Bad escaped character in JSON")
        | [] => Throw (SyntaxError "Unterminated string in JSON")
        end
      else if (nat_of_ascii c <? 32)%nat
      then Throw (SyntaxError "Bad control character in string literal in JSON")
      else parse_string_body r (c :: acc)
  end.

(** An unsigned integer literal at the head of the input. *)
Definition parse_unsigned (s : jstring) : completion (Z * jstring) :=
  match s with
  | c :: r =>
      if is_digit c then
        let ds := if ch_eqb c "0" then [c] else c :: take_while is_digit r in
        let rest := if ch_eqb c "0" then r else drop_while is_digit r in
        match rest with
        | x :: _ =>
            if ch_eqb x "." || ch_eqb x "e" || ch_eqb x "E" then Stuck
            else Return (digits_value ds, rest)
        | [] => Return (digits_value ds, rest)
        end
      else Throw (SyntaxError "Unexpected token in JSON")
  | [] => Throw (SyntaxError "Unexpected end of JSON input")
  end.

Fixpoint parse_value (fuel : nat) (s : jstring) : completion (value * jstring) :=
  match fuel with
  | O => Stuck
  | S f =>
      match skip_ws s with
      | [] => Throw (SyntaxError "Unexpected end of JSON input")
      | c :: r =>
          if ch_eqb c "{" then
            match skip_ws r with
            | "}"%char :: r' => Return (VObj Plain [], r')
            | r1 => parse_members f r1 []
            end
          else if ch_eqb c "[" then
            match skip_ws r with
            | "]"%char :: r' => Return (mk_array [], r')
            | r1 => parse_elements f r1 []
            end
          else if ch_eqb c DQUOTE then
            cbind (parse_string_body r []) (fun '(str, r') => Return (VStr str, r'))
          else if starts_with (js "true") (c :: r) then Return (VBool true, drop 4 (c :: r))
          else if starts_with (js "false") (c :: r) then Return (VBool false, drop 5 (c :: r))
          else if starts_with (js "null") (c :: r) then Return (VNull, drop 4 (c :: r))
          else if ch_eqb c "-" then
            cbind (parse_unsigned r) (fun '(n, r') => Return (VNum (- n), r'))
          else cbind (parse_unsigned (c :: r)) (fun '(n, r') => Return (VNum n, r'))
      end
  end
with parse_members (fuel : nat) (s : jstring) (acc : list (jstring * value))
    : completion (value * jstring) :=
  match fuel with
  | O => Stuck
  | S f =>
      match skip_ws s with
      | q :: r =>
          if ch_eqb q DQUOTE then
            cbind (parse_string_body r []) (fun '(key, r1) =>
            match skip_ws r1 with
            | ":"%char :: r2 =>
                cbind (parse_value f r2) (fun '(v, r3) =>
                match skip_ws r3 with
                | ","%char :: r4 => parse_members f r4 (put_prop key v acc)
                | "}"%char :: r4 => Return (VObj Plain (put_prop key v acc), r4)
                | _ => Throw (SyntaxError "Expected ',' or '}' in JSON")
                end)
            | _ => Throw (SyntaxError "Expected ':' after property name in JSON")
            end)
          else Throw (SyntaxError "Expected property name in JSON")
      | [] => Throw (SyntaxError "Expected property name in JSON")
      end
  end
with parse_elements (fuel : nat) (s : jstring) (acc : list value)
    : completion (value * jstring) :=
  match fuel with
  | O => Stuck
  | S f =>
      cbind (parse_value f s) (fun '(v, r1) =>
      match skip_ws r1 with
      | ","%char :: r2 => parse_elements f r2 (v :: acc)
      | "]"%char :: r2 => Return (mk_array (rev (v :: acc)), r2)
      | _ => Throw (SyntaxError "Expected ',' or ']' in JSON")
      end)
  end.

(** [JSON.parse(text)]. *)
Definition JSON_parse (text : jstring) : completion value :=
  cbind (parse_value (S (length text)) text) (fun '(v, rest) =>
  match skip_ws rest with
  | [] => Return v
  | _ => Throw (SyntaxError "Unexpected non-whitespace character after JSON")
  end).

(** ** Cleaning model output (lib/llm_executor.js) *)

Definition at_line_start (prev : option ascii) : bool :=
  match prev with
  | None => true
  | Some c => is_line_terminator c
  end.

Definition at_line_end (s : jstring) : bool :=
  match s with
  | [] => true
  | c :: _ => is_line_terminator c
  end.

(** Length of the first alternative that matches under the [i] flag, 0 when
    none does. *)
Fixpoint first_alt_ci (alts : list jstring) (s : jstring) : nat :=
  match alts with
  | [] => O
  | a :: rest => if starts_with_ci a s then length a else first_alt_ci rest s
  end.

Definition FENCE : jstring := js "```".

(** [/^```(?:l1|l2|...)?\s*\n?/gim]. *)
Definition opening_fence (langs : list jstring) : pattern unit :=
  fun prev s =>
    if at_line_start prev && starts_with FENCE s then
      let t := drop 3 s in
      let n := first_alt_ci langs t in
      Some (3 + n + length (take_while is_space (drop n t)), tt)%nat
    else None.

(** [/\n?```$/gim]. *)
Definition closing_fence : pattern unit :=
  fun _ s =>
    match s with
    | c :: t =>
        if ch_eqb c (ascii_of_nat 10) && starts_with FENCE t && at_line_end (drop 3 t)
        then Some (4%nat, tt)
        else if starts_with FENCE s && at_line_end (drop 3 s) then Some (3%nat, tt)
        else None
    | [] => None
    end.

Definition erase {A} (_ : jstring) (_ : A) : jstring := [].

(** stripMarkdown. *)
Definition stripMarkdown (text : jstring) : jstring :=
  trim (replace_all closing_fence erase
          (replace_all (opening_fence [js "json"; js "html"; js "text"; js "markdown"])
             erase text)).

(** The first match of [/o[\s\S]*c/]: from the first [o] to the last [c]. *)
Definition span_between (o c : ascii) (s : jstring) : option jstring :=
  match drop_while (fun x => negb (ch_eqb x o)) s with
  | [] => None
  | _ :: t =>
      match rev (drop_while (fun x => negb (ch_eqb x c)) (rev t)) with
      | [] => None
      | r => Some (o :: r)
      end
  end.

(** [line.replace(/^[\d\.\-\*]\s*/, '')]. *)
Definition strip_bullet (line : jstring) : jstring :=
  match line with
  | c :: t =>
      if is_digit c || ch_eqb c "." || ch_eqb c "-" || ch_eqb c "*"
      then drop_while is_space t else line
  | [] => []
  end.

(** parseArrayOutput. *)
Definition parseArrayOutput (output : jstring) : completion value :=
  let cleaned := stripMarkdown output in
  let by_lines :=
    mk_array
      (map VStr
         (filter (fun line => nonempty line = true
                              /\ starts_with (js "[") line = false
                              /\ starts_with (js "]") line = false)
                 (map (fun line => trim (strip_bullet line))
                      (split_on (ascii_of_nat 10) cleaned)))) in
  match span_between "[" "]" cleaned with
  | Some m =>
      match JSON_parse m with
      | Return v => Return v
      | Throw _ => Return by_lines
      | Stuck => Stuck
      end
  | None => Return by_lines
  end.

(** ** The executor and its world *)

Record Prompt := mkPrompt {
  prompt_id : jstring;
  system_prompt : jstring;
  user_prompt_template : jstring;
  max_tokens : Z;
  output_type : jstring;
  approval_required : bool;
  approval_gate : value
}.

(** What model_config.js exports, apart from getNextFallbackModel; the file
    is not among the sources. *)
Record ModelConfig := mkModelConfig {
  MODEL_FALLBACK_ORDER : list jstring;
  getModelDelay : jstring -> bool -> Z;
  isRateLimitError : Error -> bool;
  parseRetryAfter : Error -> Z
}.

(** Modelled from the spec: getNextFallbackModel of model_config.js, which is
    not among the sources.  "Returns the descriptor immediately after
    [current] in rank order, or none if [current] is last or unknown." *)
Fixpoint next_in_chain (chain : list jstring) (current : jstring) : option jstring :=
  match chain with
  | [] => None
  | m :: rest => if decide (m = current) then head rest else next_in_chain rest current
  end.

(** Modelled from the spec: getNextFallbackModel(currentModel) of
    model_config.js, over the chain MODEL_FALLBACK_ORDER. *)
Definition getNextFallbackModel (cfg : ModelConfig) (current : jstring) : option jstring :=
  next_in_chain (MODEL_FALLBACK_ORDER cfg) current.

(** The outcome of one request to the generation service, as callLLM sees
    it: the text and token count of the answer, or the error thrown. *)
Inductive Response : Type :=
| Success (content : jstring) (tokens : Z)
| Failure (e : Error).

(** What lies outside the executor: the service, the passing of time, and
    the two steps that only read the report to build the request text
    (buildContextForPlaceholder, which formats dates through the host's
    locale, and the Mustache library). *)
Record Host := mkHost {
  respond : nat -> jstring -> jstring -> Response;
  elapse : nat -> Z;
  buildContextForPlaceholder : Placeholder -> value -> completion value;
  Mustache_render : jstring -> value -> completion jstring;
  (* the batch executor's prompt builders, which read the report only *)
  buildMasterPrompt : value -> completion jstring;
  buildRefinementPrompt : value -> value -> completion jstring;
  (* GroqAdapter.generate (groq_adapter.js is not among the sources): the
     answer as a string, and the adapter's token count *)
  groq_generate : jstring -> jstring -> completion (jstring * Z)
}.

Record FallbackInfo := mkFallbackInfo {
  fb_from : jstring;
  fb_to : jstring;
  fb_timestamp : Z
}.

Record ErrorEntry := mkErrorEntry {
  err_prompt_id : jstring;
  err_model : jstring;
  err_error : jstring
}.

Record ApprovalEntry := mkApprovalEntry {
  ap_path : jstring;
  ap_prompt_id : jstring;
  ap_approval_gate : value
}.

Record Stats := mkStats {
  promptsExecuted : Z;
  tokensUsed : Z;
  errors : list ErrorEntry;
  approvalRequired : list ApprovalEntry;
  modelUsed : jstring;
  fallbacks : list FallbackInfo
}.

Record LLMExecutor := mkLLMExecutor {
  apiKey : option jstring;
  maxRetries : Z;
  dryRun : bool;
  usePaidTier : bool;
  currentModel : jstring;
  fallbackHistory : list FallbackInfo;
  modelSwitches : Z;
  promptRegistry : list Prompt;
  stats : Stats
}.

(** What the run does to its surroundings, in order. *)
Inductive Event : Type :=
| Requested (model : jstring) (at_ms : Z)   (* a request is sent *)
| Slept (ms : Z)                            (* [sleep(ms)] was awaited *)
| Called (model : jstring) (at_ms : Z)      (* fillPlaceholders starts a callLLM *)
| Switched (previous next : jstring).       (* [currentModel] is assigned *)

(** The state a run threads: the executor object, the documents in memory,
    the clock, and what has happened so far.  A document is a tree owned by
    one reference; two variables alias when they hold the same reference. *)
Record World (E : Type) := mkWorld {
  executor : E;
  heap : gmap nat value;
  clock : Z;
  steps : nat;
  sent : nat;
  trace : list Event
}.
Arguments mkWorld {E}.
Arguments executor {E}.
Arguments heap {E}.
Arguments clock {E}.
Arguments steps {E}.
Arguments sent {E}.
Arguments trace {E}.

(** *** Computations over the world *)

Definition M (E A : Type) : Type := World E -> completion A * World E.

Definition ret {E A} (a : A) : M E A := fun w => (Return a, w).

Definition bind {E A B} (m : M E A) (f : A -> M E B) : M E B :=
  fun w =>
    match m w with
    | (Return a, w') => f a w'
    | (Throw e, w') => (Throw e, w')
    | (Stuck, w') => (Stuck, w')
    end.

Definition throw {E A} (e : Error) : M E A := fun w => (Throw e, w).

Definition stuck {E A} : M E A := fun w => (Stuck, w).

(** [try { m } catch (err) { h err }]. *)
Definition try_catch {E A} (m : M E A) (h : Error -> M E A) : M E A :=
  fun w =>
    match m w with
    | (Throw e, w') => h e w'
    | other => other
    end.

Definition lift {E A} (c : completion A) : M E A := fun w => (c, w).

Notation "x <- m ;; k" := (bind m (fun x => k))
  (at level 100, m at next level, right associativity).
Notation "m ;;; k" := (bind m (fun _ => k))
  (at level 100, right associativity).

Definition this {E} : M E E := fun w => (Return (executor w), w).

Definition set_this {E} (e : E) : M E unit :=
  fun w => (Return tt, mkWorld e (heap w) (clock w) (steps w) (sent w) (trace w)).

Definition log {E} (ev : Event) : M E unit :=
  fun w => (Return tt,
            mkWorld (executor w) (heap w) (clock w) (steps w) (sent w) (trace w ++ [ev])).

(** Time passes: the next duration the host reports, never negative. *)
Definition pass_time {E} (host : Host) : M E unit :=
  fun w => (Return tt,
            mkWorld (executor w) (heap w) (clock w + Z.abs (elapse host (steps w)))
                    (S (steps w)) (sent w) (trace w)).

(** [Date.now()]. *)
Definition Date_now {E} (host : Host) : M E Z :=
  pass_time host ;;; (fun w : World E => (Return (clock w), w)).

(** [await this.sleep(ms)]: the timer fires no earlier than [ms] from now. *)
Definition sleep {E} (host : Host) (ms : Z) : M E unit :=
  log (Slept ms) ;;;
  (fun w => (Return tt,
             mkWorld (executor w) (heap w) (clock w + Z.max ms 0) (steps w) (sent w)
                     (trace w))) ;;;
  pass_time host.

(** One request to the service, and its answer. *)
Definition request {E} (host : Host) (model text : jstring) : M E Response :=
  pass_time host ;;;
  (fun w => (Return (respond host (sent w) model text),
             mkWorld (executor w) (heap w) (clock w) (steps w) (S (sent w))
                     (trace w ++ [Requested model (clock w)]))) .

Definition read_doc {E} (r : nat) : M E value :=
  fun w => match heap w !! r with
           | Some v => (Return v, w)
           | None => (Stuck, w)
           end.

Definition write_doc {E} (r : nat) (v : value) : M E unit :=
  fun w => (Return tt,
            mkWorld (executor w) (<[r := v]> (heap w)) (clock w) (steps w) (sent w)
                    (trace w)).

(** A reference no document is stored under yet. *)
Definition alloc_doc {E} (v : value) : M E nat :=
  fun w => let r := fresh (dom (heap w)) in
           (Return r,
            mkWorld (executor w) (<[r := v]> (heap w)) (clock w) (steps w) (sent w)
                    (trace w)).

(** *** Executor fields *)

Definition with_currentModel (m : jstring) (e : LLMExecutor) : LLMExecutor :=
  mkLLMExecutor (apiKey e) (maxRetries e) (dryRun e) (usePaidTier e) m
    (fallbackHistory e) (modelSwitches e) (promptRegistry e) (stats e).

Definition with_fallback (info : FallbackInfo) (e : LLMExecutor) : LLMExecutor :=
  let s := stats e in
  mkLLMExecutor (apiKey e) (maxRetries e) (dryRun e) (usePaidTier e) (currentModel e)
    (fallbackHistory e ++ [info]) (modelSwitches e + 1) (promptRegistry e)
    (mkStats (promptsExecuted s) (tokensUsed s) (errors s) (approvalRequired s)
       (modelUsed s) (fallbacks s ++ [info])).

Definition with_stats (s : Stats) (e : LLMExecutor) : LLMExecutor :=
  mkLLMExecutor (apiKey e) (maxRetries e) (dryRun e) (usePaidTier e) (currentModel e)
    (fallbackHistory e) (modelSwitches e) (promptRegistry e) s.

Definition record_success (tokens : Z) (e : LLMExecutor) : LLMExecutor :=
  let s := stats e in
  with_stats (mkStats (promptsExecuted s + 1) (tokensUsed s + tokens) (errors s)
                (approvalRequired s) (currentModel e) (fallbacks s)) e.

Definition record_error (entry : ErrorEntry) (e : LLMExecutor) : LLMExecutor :=
  let s := stats e in
  with_stats (mkStats (promptsExecuted s) (tokensUsed s) (errors s ++ [entry])
                (approvalRequired s) (modelUsed s) (fallbacks s)) e.

Definition record_approval (entry : ApprovalEntry) (e : LLMExecutor) : LLMExecutor :=
  let s := stats e in
  with_stats (mkStats (promptsExecuted s) (tokensUsed s) (errors s)
                (approvalRequired s ++ [entry]) (modelUsed s) (fallbacks s)) e.

(** fallbackToNextModel (lib/llm_executor.js); [!nextModel] holds of
    [null] and of the empty string. *)
Definition fallbackToNextModel (cfg : ModelConfig) (host : Host) : M LLMExecutor bool :=
  e <- this ;;
  match getNextFallbackModel cfg (currentModel e) with
  | Some ((_ :: _) as nextModel) =>
      let previousModel := currentModel e in
      set_this (with_currentModel nextModel e) ;;;
      log (Switched previousModel nextModel) ;;;
      now <- Date_now host ;;
      e' <- this ;;
      set_this (with_fallback (mkFallbackInfo previousModel nextModel now) e') ;;;
      ret true
  | _ => ret false
  end.

(** getPrompt. *)
Definition getPrompt (e : LLMExecutor) (promptId : jstring) : option Prompt :=
  List.find (fun p => bool_decide (prompt_id p = promptId)) (promptRegistry e).

(** renderPrompt. *)
Definition renderPrompt (host : Host) (prompt : Prompt) (context : value) : M LLMExecutor jstring :=
  lift (Mustache_render host (user_prompt_template prompt) context).

(** *** callLLM (lib/llm_executor.js) *)

Definition isRetryable (err : Error) : bool :=
  includes (js "fetch failed") (message err)
  || includes (js "network") (message err)
  || includes (js "ECONNRESET") (message err)
  || includes (js "timeout") (message err).

(** How the retry loop is left: by the [return] inside it, or with the last
    error once it breaks or runs out of attempts. *)
Inductive LoopExit : Type :=
| Answered (content : jstring) (tokens : Z)
| GaveUp (lastError : option Error).

(** The retry loop, from the test of its condition; [fuel] bounds the number
    of iterations. *)
Fixpoint callLLM_loop (cfg : ModelConfig) (host : Host) (fuel : nat)
    (fullPrompt : jstring) (attempt : Z) (fallbackAttempted : bool)
    (lastError : option Error) : M LLMExecutor LoopExit :=
  match fuel with
  | O => stuck
  | S fuel' =>
      e <- this ;;
      if attempt <=? maxRetries e then
        r <- request host (currentModel e) fullPrompt ;;
        match r with
        | Success content tokens =>
            e1 <- this ;;
            set_this (record_success tokens e1) ;;;
            ret (Answered content tokens)
        | Failure err =>
            if isRateLimitError cfg err && negb fallbackAttempted then
              switched <- fallbackToNextModel cfg host ;;
              if (switched : bool) then
                callLLM_loop cfg host fuel' fullPrompt 0 true (Some err)
              else
                sleep host (parseRetryAfter cfg err) ;;;
                callLLM_loop cfg host fuel' fullPrompt (attempt + 1) fallbackAttempted
                  (Some err)
            else if isRetryable err && (attempt <? maxRetries e) then
              sleep host (5000 * (attempt + 1)) ;;;
              callLLM_loop cfg host fuel' fullPrompt (attempt + 1) fallbackAttempted
                (Some err)
            else ret (GaveUp (Some err))
        end
      else ret (GaveUp lastError)
  end.

(** Iterations the loop can take: every attempt up to [maxRetries], once
    more after the single fallback, and the last test of the condition. *)
Definition callLLM_fuel (e : LLMExecutor) : nat :=
  S (2 * Z.to_nat (maxRetries e + 1)).

Definition NEWLINE : ascii := ascii_of_nat 10.

Definition callLLM (cfg : ModelConfig) (host : Host) (prompt : Prompt) (context : value)
    : M LLMExecutor (jstring * Z) :=
  userPrompt <- renderPrompt host prompt context ;;
  e <- this ;;
  if dryRun e then
    ret (js "[DRY_RUN: Would call LLM with prompt " ++ prompt_id prompt ++ js "]", 0)
  else
    match apiKey e with
    | Some (_ :: _) =>
        let fullPrompt :=
          if nonempty (system_prompt prompt)
          then system_prompt prompt ++ [NEWLINE; NEWLINE] ++ userPrompt
          else userPrompt in
        exit <- callLLM_loop cfg host (callLLM_fuel e) fullPrompt 0 false None ;;
        match exit with
        | Answered content tokens => ret (content, tokens)
        | GaveUp (Some lastError) =>
            e' <- this ;;
            set_this (record_error
                        (mkErrorEntry (prompt_id prompt) (currentModel e')
                           (message lastError)) e') ;;;
            throw lastError
        | GaveUp None =>
            throw (TypeError "Cannot read properties of undefined (reading 'message')")
        end
    | _ =>
        throw (mkError (js "Gemini API key not set. Set GEMINI_API_KEY or pass apiKey option."))
    end.

(** *** fillPlaceholders (lib/llm_executor.js) *)

Definition PLACEHOLDER_TO_PROMPT : list (jstring * jstring) :=
  [ (js "document_title", js "document_title_v1");
    (js "scope_statement", js "scope_statement_v1");
    (js "scope_items", js "scope_items_v1");
    (js "out_of_scope", js "out_of_scope_v1");
    (js "limitations", js "limitations_v1");
    (js "executive_summary", js "executive_summary_v1");
    (js "finding_summary", js "finding_summary_v1");
    (js "finding_risk", js "finding_risk_v1");
    (js "math_defender_text", js "math_defender_v1");
    (js "fix_problem", js "fix_problem_v1");
    (js "fix_solution", js "fix_solution_v1");
    (js "acceptance_criteria", js "acceptance_criteria_v1");
    (js "impact_basis", js "impact_basis_v1");
    (js "cta_headline", js "cta_headline_v1");
    (js "cta_subtext", js "cta_subtext_v1") ].

Fixpoint table_lookup (k : jstring) (t : list (jstring * jstring)) : option jstring :=
  match t with
  | [] => None
  | (k', v) :: rest => if decide (k' = k) then Some v else table_lookup k rest
  end.

Definition ARRAY_OF_STRINGS : jstring := js "array_of_strings".

(** The path written to: the parent array when an array replaces a
    placeholder that is an array element. *)
Definition target_path (prompt : Prompt) (output : value) (placeholder_path : jstring)
    : jstring :=
  if bool_decide (output_type prompt = ARRAY_OF_STRINGS) && isArray output then
    match array_parent_path placeholder_path with
    | Some parent => parent
    | None => placeholder_path
    end
  else placeholder_path.

(** [this.setAtPath(filledReport, targetPath, output)] on the document held
    under [filledReport]. *)
Definition setAtPath_in (filledReport : nat) (targetPath : jstring) (output : value)
    : M LLMExecutor unit :=
  doc <- read_doc filledReport ;;
  let '(r, doc') := setAtPath doc targetPath output in
  write_doc filledReport doc' ;;;
  lift r.

(** The wait before a call: the delay of the current model since the last
    call started. *)
Definition rate_limit_wait (cfg : ModelConfig) (host : Host) (lastRequestTime : Z)
    : M LLMExecutor unit :=
  e <- this ;;
  let requestDelayMs := getModelDelay cfg (currentModel e) (usePaidTier e) in
  now <- Date_now host ;;
  let timeSinceLastRequest := now - lastRequestTime in
  if (0 <? lastRequestTime) && (timeSinceLastRequest <? requestDelayMs)
  then sleep host (requestDelayMs - timeSinceLastRequest)
  else ret tt.

(** From the call to the write, for one placeholder.  validateOutput, which
    only collects messages for the log from the prompt's lists of phrases,
    is left out. *)
Definition call_and_write (cfg : ModelConfig) (host : Host) (filledReport : nat)
    (placeholder : Placeholder) (prompt : Prompt) (context : value) : M LLMExecutor unit :=
  result <- callLLM cfg host prompt context ;;
  let text := stripMarkdown (trim (fst result)) in
  output <- (if bool_decide (output_type prompt = ARRAY_OF_STRINGS)
             then lift (parseArrayOutput text)
             else ret (VStr text)) ;;
  setAtPath_in filledReport (target_path prompt output (path placeholder)) output.

(** The loop over the placeholders.  The body of the [try] is split where
    [lastRequestTime] is assigned: an exception before that point leaves it
    unchanged. *)
Fixpoint fill_each (cfg : ModelConfig) (host : Host) (skipApproval : bool)
    (filledReport : nat) (placeholders : list Placeholder) (lastRequestTime : Z)
    : M LLMExecutor unit :=
  match placeholders with
  | [] => ret tt
  | placeholder :: rest =>
      let baseName := getBasePlaceholderName (placeholderName placeholder) in
      match table_lookup baseName PLACEHOLDER_TO_PROMPT with
      | None => fill_each cfg host skipApproval filledReport rest lastRequestTime
      | Some promptId =>
          e <- this ;;
          match getPrompt e promptId with
          | None => fill_each cfg host skipApproval filledReport rest lastRequestTime
          | Some prompt =>
              (if approval_required prompt && negb skipApproval
               then set_this (record_approval
                                (mkApprovalEntry (path placeholder) promptId
                                   (approval_gate prompt)) e)
               else ret tt) ;;;
              ready <- try_catch
                         (rate_limit_wait cfg host lastRequestTime ;;;
                          doc <- read_doc filledReport ;;
                          context <- lift (buildContextForPlaceholder host placeholder doc) ;;
                          ret (Some context))
                         (fun _ => ret None) ;;
              match ready with
              | None => fill_each cfg host skipApproval filledReport rest lastRequestTime
              | Some context =>
                  now <- Date_now host ;;
                  e' <- this ;;
                  log (Called (currentModel e') now) ;;;
                  try_catch
                    (call_and_write cfg host filledReport placeholder prompt context)
                    (fun _ => ret tt) ;;;
                  fill_each cfg host skipApproval filledReport rest now
              end
          end
      end
  end.

(** fillPlaceholders: [reportJson] is the reference passed in, the result the
    reference of the filled report. *)
Definition fillPlaceholders (cfg : ModelConfig) (host : Host) (reportJson : nat)
    (skipApproval : bool) : M LLMExecutor nat :=
  doc <- read_doc reportJson ;;
  copy <- lift (json_clone doc) ;;
  filledReport <- alloc_doc copy ;;
  fill_each cfg host skipApproval filledReport (findPlaceholders copy []) 0 ;;;
  ret filledReport.

(** ** The HTML polish pass (llm_executor.js, later revision) *)

Record Change := mkChange {
  change_type : option jstring;
  change_count : option Z;
  change_reason : jstring
}.

Definition INSUFFICIENT_PREFIX : jstring := js "[INSUFFICIENT_EVIDENCE".

(** A prefix, then code units other than the closing bracket (at least
    [least] of them), then the closing bracket. *)
Definition bracketed (prefix_ok : jstring -> option nat) (least : nat) : pattern unit :=
  fun _ s =>
    match prefix_ok s with
    | Some n =>
        let t := drop n s in
        let body := take_while not_close_bracket t in
        match drop_while not_close_bracket t with
        | "]"%char :: _ =>
            if (least <=? length body)%nat then Some (n + length body + 1, tt)%nat
            else None
        | _ => None
        end
    | None => None
    end.

Definition literal_prefix (w : jstring) (s : jstring) : option nat :=
  if starts_with w s then Some (length w) else None.

(** [/\[INSUFFICIENT_EVIDENCE[^\]]*\]/g]. *)
Definition insufficient_marker : pattern unit :=
  bracketed (literal_prefix INSUFFICIENT_PREFIX) 0.

(** Length of the first alternative that matches, 0 when none does. *)
Fixpoint first_alt (alts : list jstring) (s : jstring) : nat :=
  match alts with
  | [] => O
  | a :: rest => if starts_with a s then length a else first_alt rest s
  end.

(** [/```(?:json|html|text)?/g]. *)
Definition code_fence : pattern unit :=
  fun _ s =>
    if starts_with FENCE s
    then Some (3 + first_alt [js "json"; js "html"; js "text"] (drop 3 s), tt)%nat
    else None.

(** [/\[LLM_PLACEHOLDER:[^\]]+\]/g]. *)
Definition unfilled_marker : pattern unit :=
  bracketed (literal_prefix MARKER_PREFIX) 1.

(** The default text for a field name. *)
Definition default_text (field : jstring) : jstring :=
  if includes (js "finding_summary") field then js "Issue identified requiring attention."
  else if includes (js "finding_risk") field
       then js "Risk: Potential impact on operations if not addressed."
  else if includes (js "fix_problem") field then js "Process inefficiency identified."
  else if includes (js "fix_solution") field
       then js "Implement automation to streamline workflow."
  else if includes (js "impact_basis") field
       then js "This fix will reduce manual effort and improve efficiency."
  else if includes (js "cta_headline") field then js "Ready to fix your workflow?"
  else if includes (js "cta_subtext") field
       then js "Schedule a call to discuss implementation."
  else if includes (js "executive_summary") field
       then js "Analysis reveals opportunities for process improvement."
  else if includes (js "scope_statement") field
       then js "This audit assessed the workflow processes."
  else if includes (js "math_defender") field
       then js "Calculations based on provided metrics."
  else js "See analysis details.".

Definition template_prefix (s : jstring) : option nat :=
  match s with
  | "["%char :: t =>
      match first_alt_ci [js "specific"; js "start"; js "end"; js "missing"; js "level"] t with
      | O => None
      | n => Some (S n)
      end
  | _ => None
  end.

(** [/\[(?:specific|start|end|missing|level)[^\]]*\]/gi]. *)
Definition template_variable : pattern unit := bracketed template_prefix 0.

(** The seven replacements of template variables, in order. *)
Definition TEMPLATE_TEXTS : list (jstring * jstring) :=
  [ (js "[specific data point]", js "key metrics");
    (js "[start date]", js "the analysis start date");
    (js "[end date]", js "the analysis end date");
    (js "[missing period/segment]", js "certain time periods");
    (js "[specific data category]", js "certain categories");
    (js "[level of detail]", js "detailed");
    (js "[specific area of impact]", js "specific areas") ].

Definition replace_template_variables (s : jstring) : jstring :=
  fold_left (fun acc wt => replace_all (lit_ci_pattern (fst wt)) (fun _ _ => snd wt) acc)
            TEMPLATE_TEXTS s.

Definition not_angle (c : ascii) : bool := negb (ch_eqb c "<" || ch_eqb c ">").

(** [/>([^<>]+[a-zA-Z])<\/(?:p|div|span|td)/g], capturing the text. *)
Definition broken_sentence : pattern jstring :=
  fun _ s =>
    match s with
    | ">"%char :: t =>
        let text := take_while not_angle t in
        let rest := drop_while not_angle t in
        match rev text with
        | z :: _ :: _ =>
            if is_letter z && starts_with (js "</") rest then
              match first_alt [js "p"; js "div"; js "span"; js "td"] (drop 2 rest) with
              | O => None
              | n => Some (1 + length text + 2 + n, text)%nat
              end
            else None
        | _ => None
        end
    | _ => None
    end.

(** [/[.!?:,]$/] matches [text]. *)
Definition ends_with_punctuation (text : jstring) : bool :=
  match rev text with
  | c :: _ => ch_eqb c "." || ch_eqb c "!" || ch_eqb c "?" || ch_eqb c ":" || ch_eqb c ","
  | [] => false
  end.

(** [/  +/g]: two spaces or more. *)
Definition double_spaces : pattern unit :=
  fun _ s =>
    match take_while (fun c => ch_eqb c " ") s with
    | (_ :: _ :: _) as run => Some (length run, tt)
    | _ => None
    end.

(** The first match of [p] at or after position [i], found at position
    [pos]: [(pos, length, capture)]. *)
Fixpoint find_at {A} (p : pattern A) (prev : option ascii) (s : jstring) (i pos : nat)
    : option (nat * nat * A) :=
  match i with
  | S i' =>
      match s with
      | [] => None
      | c :: s' => find_at p (Some c) s' i' (S pos)
      end
  | O =>
      match p prev s with
      | Some (n, a) => Some (pos, n, a)
      | None =>
          match s with
          | [] => None
          | c :: s' => find_at p (Some c) s' O (S pos)
          end
      end
  end.

(** [regex.exec(s)] for a [g]-flagged expression whose [lastIndex] is
    [lastIndex]. *)
Definition exec {A} (p : pattern A) (s : jstring) (lastIndex : nat)
    : option (nat * nat * A) :=
  find_at p None s lastIndex 0.

(** The special sequences of a replacement string. *)
Fixpoint expand_replacement (repl matched before after : jstring) : jstring :=
  match repl with
  | "$"%char :: ((x :: rest') as rest) =>
      if ch_eqb x "$" then "$"%char :: expand_replacement rest' matched before after
      else if ch_eqb x "&" then matched ++ expand_replacement rest' matched before after
      else if ch_eqb x "`" then before ++ expand_replacement rest' matched before after
      else if ch_eqb x "'" then after ++ expand_replacement rest' matched before after
      else "$"%char :: expand_replacement rest matched before after
  | c :: rest => c :: expand_replacement rest matched before after
  | [] => []
  end.

(** [s.replace(x, repl)] for a string [x]: the first occurrence only. *)
Fixpoint replace_first (before_rev : jstring) (s x repl : jstring) : jstring :=
  if starts_with x s
  then rev before_rev
       ++ expand_replacement repl x (rev before_rev) (drop (length x) s)
       ++ drop (length x) s
  else match s with
       | [] => rev before_rev
       | c :: s' => replace_first (c :: before_rev) s' x repl
       end.

(** [s.split(sep)] for a non-empty string [sep]. *)
Definition split_str (sep s : jstring) : list jstring :=
  foldr (fun x parts =>
           match x, parts with
           | Lit c, part :: others => (c :: part) :: others
           | Lit c, [] => [[c]]
           | Hit _ _, _ => [] :: parts
           end)
        [[]] (scan (lit_pattern sep) s).

(** manualPolishHTML, step by step: the text after the step and the change
    it records. *)

Definition count_matches {A} (p : pattern A) (s : jstring) : Z :=
  Z.of_nat (length (match_all p s)).

Definition QUOTED_DATA_NOT_AVAILABLE : jstring :=
  [DQUOTE] ++ js "Data not available" ++ [DQUOTE].

Definition fix_insufficient_evidence (polished : jstring) : jstring * list Change :=
  let n := count_matches insufficient_marker polished in
  if 0 <? n then
    (replace_all insufficient_marker (fun _ _ => js "Data not available") polished,
     [mkChange (Some (js "fix_insufficient_evidence")) (Some n)
        (js "Replaced " ++ Z_to_js n ++ js " insufficient evidence markers with "
         ++ QUOTED_DATA_NOT_AVAILABLE)])
  else (polished, []).

Definition remove_markdown (polished : jstring) : jstring * list Change :=
  let n := count_matches code_fence polished in
  if 0 <? n then
    (replace_all code_fence erase polished,
     [mkChange (Some (js "remove_markdown")) (Some n)
        (js "Removed " ++ Z_to_js n ++ js " markdown code block markers")])
  else (polished, []).

Definition fix_placeholders (polished : jstring) : jstring * list Change :=
  let n := count_matches unfilled_marker polished in
  if 0 <? n then
    (replace_all placeholder_marker (fun _ field => default_text field) polished,
     [mkChange (Some (js "fix_placeholders")) (Some n)
        (js "Replaced " ++ Z_to_js n ++ js " unfilled placeholders with default text")])
  else (polished, []).

Definition fix_template_vars (polished : jstring) : jstring * list Change :=
  let n := count_matches template_variable polished in
  if 0 <? n then
    (replace_template_variables polished,
     [mkChange (Some (js "fix_template_vars")) (Some n)
        (js "Replaced " ++ Z_to_js n ++ js " template variables with readable text")])
  else (polished, []).

(** The loop over broken sentences, from the call of [exec]; [fuel] bounds
    the number of iterations. *)
Fixpoint punctuate (fuel : nat) (polished : jstring) (lastIndex : nat) (brokenCount : Z)
    : completion (jstring * Z) :=
  match fuel with
  | O => Stuck
  | S fuel' =>
      match exec broken_sentence polished lastIndex with
      | None => Return (polished, brokenCount)
      | Some (pos, n, text) =>
          let match0 := take n (drop pos polished) in
          if (20 <? length text)%nat && negb (ends_with_punctuation text) then
            punctuate fuel'
              (replace_first [] polished match0
                 (js ">" ++ text ++ js ".</"
                  ++ nth 1 (split_str (js "</") match0) (js "undefined")))
              (pos + n) (brokenCount + 1)
          else punctuate fuel' polished (pos + n) brokenCount
      end
  end.

Definition fix_punctuation (fuel : nat) (polished : jstring)
    : completion (jstring * list Change) :=
  cbind (punctuate fuel polished 0 0) (fun '(polished', brokenCount) =>
  Return (polished',
          if 0 <? brokenCount then
            [mkChange (Some (js "fix_punctuation")) (Some brokenCount)
               (js "Added missing punctuation to " ++ Z_to_js brokenCount
                ++ js " sentences")]
          else [])).

Definition fix_whitespace (polished : jstring) : jstring * list Change :=
  let doubleSpaces := count_matches double_spaces polished in
  if 10 <? doubleSpaces then
    (replace_all double_spaces (fun _ _ => js " ") polished,
     [mkChange (Some (js "fix_whitespace")) (Some doubleSpaces)
        (js "Normalized whitespace")])
  else (polished, []).

Record PolishResult := mkPolishResult {
  result_html : jstring;
  result_changes : list Change
}.

Definition NO_CHANGES : Change :=
  mkChange (Some (js "no_changes")) None (js "HTML already clean, no manual fixes needed").

(** The text before the loop over broken sentences, and the changes
    recorded so far. *)
Definition polish_before_punctuation (html : jstring) : jstring * list Change :=
  let '(p1, c1) := fix_insufficient_evidence html in
  let '(p2, c2) := remove_markdown p1 in
  let '(p3, c3) := fix_placeholders p2 in
  let '(p4, c4) := fix_template_vars p3 in
  (p4, c1 ++ c2 ++ c3 ++ c4).

(** manualPolishHTML; [fuel] bounds the iterations of its loop. *)
Definition manualPolishHTML (fuel : nat) (html : jstring) : completion PolishResult :=
  let '(p4, c4) := polish_before_punctuation html in
  cbind (fix_punctuation fuel p4) (fun '(p5, c5) =>
  let '(p6, c6) := fix_whitespace p5 in
  let changes := c4 ++ c5 ++ c6 in
  Return (mkPolishResult p6
            (match changes with
             | [] => [NO_CHANGES]
             | _ => changes
             end))).


(** ** The batch executor (llm_batch_executor.js) *)

Module Batch.

Record Stats := mkStats {
  apiCalls : Z;
  tokensUsed : Z;
  generationTime : Z;
  refinementTime : Z;
  modelUsed : jstring;
  groqUsed : bool
}.

(** [groqAdapter] holds the adapter's model name when there is an adapter;
    the URL of the service follows [currentModel] and is left out. *)
Record BatchLLMExecutor := mkBatchLLMExecutor {
  apiKey : option jstring;
  maxRetries : Z;
  dryRun : bool;
  skipRefinement : bool;
  useGroq : bool;
  currentModel : jstring;
  fallbackHistory : list (jstring * jstring);
  groqAdapter : option jstring;
  stats : Stats
}.

Definition with_currentModel (m : jstring) (e : BatchLLMExecutor) : BatchLLMExecutor :=
  mkBatchLLMExecutor (apiKey e) (maxRetries e) (dryRun e) (skipRefinement e) (useGroq e)
    m (fallbackHistory e ++ [(currentModel e, m)]) (groqAdapter e) (stats e).

Definition with_stats (s : Stats) (e : BatchLLMExecutor) : BatchLLMExecutor :=
  mkBatchLLMExecutor (apiKey e) (maxRetries e) (dryRun e) (skipRefinement e) (useGroq e)
    (currentModel e) (fallbackHistory e) (groqAdapter e) s.

Definition GROQ_PREFIX : jstring := js "groq:".

(** The statistics after an answer of the adapter. *)
Definition record_groq (direct : bool) (model : jstring) (tokens : Z) (e : BatchLLMExecutor)
    : BatchLLMExecutor :=
  let s := stats e in
  with_stats (mkStats (apiCalls s + 1)
                (if direct then tokensUsed s + tokens else tokensUsed s)
                (generationTime s) (refinementTime s) (GROQ_PREFIX ++ model) true) e.

Definition record_success (tokens : Z) (e : BatchLLMExecutor) : BatchLLMExecutor :=
  let s := stats e in
  with_stats (mkStats (apiCalls s + 1) (tokensUsed s + tokens) (generationTime s)
                (refinementTime s) (currentModel e) (groqUsed s)) e.

(** fallbackToNextModel. *)
Definition fallbackToNextModel (cfg : ModelConfig) : M BatchLLMExecutor bool :=
  e <- this ;;
  match getNextFallbackModel cfg (currentModel e) with
  | Some ((_ :: _) as nextModel) => set_this (with_currentModel nextModel e) ;;; ret true
  | _ => ret false
  end.

Definition isRetryable (err : Error) : bool :=
  includes (js "fetch failed") (message err) || includes (js "network") (message err).

(** The retry loop of callLLM. *)
Fixpoint callLLM_loop (cfg : ModelConfig) (host : Host) (fuel : nat)
    (fullPrompt : jstring) (attempt : Z) (fallbackAttempted : bool)
    (lastError : option Error) : M BatchLLMExecutor LoopExit :=
  match fuel with
  | O => stuck
  | S fuel' =>
      e <- this ;;
      if attempt <=? maxRetries e then
        r <- request host (currentModel e) fullPrompt ;;
        match r with
        | Success content tokens =>
            e1 <- this ;;
            set_this (record_success tokens e1) ;;;
            ret (Answered content tokens)
        | Failure err =>
            if isRateLimitError cfg err then
              switched <- (if fallbackAttempted then ret false
                           else fallbackToNextModel cfg) ;;
              if (switched : bool) then
                callLLM_loop cfg host fuel' fullPrompt 0 true (Some err)
              else
                sleep host (parseRetryAfter cfg err) ;;;
                callLLM_loop cfg host fuel' fullPrompt (attempt + 1) fallbackAttempted
                  (Some err)
            else if isRetryable err && (attempt <? maxRetries e) then
              sleep host (5000 * (attempt + 1)) ;;;
              callLLM_loop cfg host fuel' fullPrompt (attempt + 1) fallbackAttempted
                (Some err)
            else ret (GaveUp (Some err))
        end
      else ret (GaveUp lastError)
  end.

Definition callLLM_fuel (e : BatchLLMExecutor) : nat :=
  S (2 * Z.to_nat (maxRetries e + 1)).

(** callLLM.  Leaving the loop without any error (a negative [maxRetries])
    throws [undefined], which is outside the fragment. *)
Definition callLLM (cfg : ModelConfig) (host : Host) (systemPrompt userPrompt : jstring)
    : M BatchLLMExecutor (jstring * Z) :=
  e <- this ;;
  if dryRun e then ret (js "{}", 0)
  else
    match useGroq e, groqAdapter e with
    | true, Some groqModel =>
        r <- lift (groq_generate host systemPrompt userPrompt) ;;
        e1 <- this ;;
        set_this (record_groq true groqModel (snd r) e1) ;;;
        ret r
    | _, _ =>
        match apiKey e with
        | Some (_ :: _) =>
            let fullPrompt := systemPrompt ++ [NEWLINE; NEWLINE] ++ userPrompt in
            exit <- callLLM_loop cfg host (callLLM_fuel e) fullPrompt 0 false None ;;
            match exit with
            | Answered content tokens => ret (content, tokens)
            | GaveUp None => stuck
            | GaveUp (Some lastError) =>
                match groqAdapter e with
                | Some groqModel =>
                    if isRateLimitError cfg lastError then
                      try_catch
                        (r <- lift (groq_generate host systemPrompt userPrompt) ;;
                         e1 <- this ;;
                         set_this (record_groq false groqModel (snd r) e1) ;;;
                         ret r)
                        (fun _ => throw lastError)
                    else throw lastError
                | None => throw lastError
                end
            end
        | _ => throw (mkError (js "Gemini API key not set"))
        end
    end.

(** parseJSON. *)
Definition parseJSON (text : jstring) : completion value :=
  let cleaned :=
    trim (replace_all closing_fence erase
            (replace_all (opening_fence [js "json"]) erase text)) in
  match span_between "{" "}" cleaned with
  | Some m => JSON_parse m
  | None => Throw (mkError (js "Could not parse JSON from LLM output"))
  end.

(** Truthiness. *)
Definition truthy (v : value) : bool :=
  match v with
  | VUndef | VNull | VBool false | VNum 0 | VStr [] => false
  | _ => true
  end.

(** [o?.k]. *)
Definition get_optional (o : value) (k : jstring) : completion value :=
  match o with
  | VUndef | VNull => Return VUndef
  | _ => get_property o k
  end.

(** The property key a value used as an index denotes; objects are outside
    the fragment. *)
Definition to_property_key (v : value) : completion jstring :=
  match v with
  | VStr s => Return s
  | VNum n => Return (Z_to_js n)
  | VBool true => Return (js "true")
  | VBool false => Return (js "false")
  | VNull => Return (js "null")
  | VUndef => Return (js "undefined")
  | VObj _ _ => Stuck
  end.

(** [o.k1.k2...kn]. *)
Fixpoint get_in (o : value) (keys : list jstring) : completion value :=
  match keys with
  | [] => Return o
  | k :: rest => cbind (get_property o k) (fun child => get_in child rest)
  end.

(** [o.k1.k2...kn = v]: the completion and [o] afterwards. *)
Fixpoint assign_in (o : value) (keys : list jstring) (v : value)
    : completion unit * value :=
  match keys with
  | [] => (Return tt, o)
  | [k] => set_property o k v
  | k :: rest =>
      match get_property o k with
      | Return child =>
          let '(r, child') := assign_in child rest v in
          (r, store_child o k child')
      | Throw e => (Throw e, o)
      | Stuck => (Stuck, o)
      end
  end.

(** The elements [forEach] visits; a value without [forEach] throws. *)
Definition forEach_elements (v : value) : completion (list value) :=
  match v with
  | VObj (Arr _) props => Return (map snd (ordered_elements props))
  | _ => Throw (TypeError "forEach is not a function")
  end.

Definition assign {E} (report : nat) (keys : list jstring) (v : value) : M E unit :=
  doc <- read_doc report ;;
  let '(r, doc') := assign_in doc keys v in
  write_doc report doc' ;;;
  lift r.

Definition read_in {E} (report : nat) (keys : list jstring) : M E value :=
  doc <- read_doc report ;;
  lift (get_in doc keys).

(** [if (generated[field]) report.k1...kn = generated[field]]. *)
Definition copy_field {E} (report : nat) (generated : value) (field : jstring)
    (keys : list jstring) : M E unit :=
  v <- lift (get_property generated field) ;;
  if truthy v then assign report keys v else ret tt.

Fixpoint for_each {E A} (f : A -> M E unit) (l : list A) : M E unit :=
  match l with
  | [] => ret tt
  | x :: rest => f x ;;; for_each f rest
  end.

(** [report.k1?.k2] is truthy. *)
Definition has_list {E} (report : nat) (k1 k2 : jstring) : M E bool :=
  doc <- read_doc report ;;
  o <- lift (get_property doc k1) ;;
  l <- lift (get_optional o k2) ;;
  ret (truthy l).

Definition apply_finding {E} (report : nat) (finding : value) : M E unit :=
  idx <- lift (get_property finding (js "row_index")) ;;
  key <- lift (to_property_key idx) ;;
  let here := [js "scorecard"; js "rows"; key] in
  row <- read_in report here ;;
  if truthy row then
    old <- lift (get_property row (js "finding")) ;;
    assign report (here ++ [js "finding"]) (if truthy old then old else empty_object) ;;;
    summary <- lift (get_property finding (js "summary")) ;;
    assign report (here ++ [js "finding"; js "summary"]) summary ;;;
    risk <- lift (get_property finding (js "risk")) ;;
    assign report (here ++ [js "finding"; js "risk"]) risk
  else ret tt.

Definition apply_fix {E} (report : nat) (fix_ : value) : M E unit :=
  idx <- lift (get_property fix_ (js "fix_index")) ;;
  key <- lift (to_property_key idx) ;;
  let here := [js "fixes"; js "items"; key] in
  item <- read_in report here ;;
  if truthy item then
    problem <- lift (get_property fix_ (js "problem")) ;;
    assign report (here ++ [js "problem"]) problem ;;;
    solution <- lift (get_property fix_ (js "solution")) ;;
    assign report (here ++ [js "solution"]) solution ;;;
    impact <- read_in report (here ++ [js "impact"]) ;;
    (if truthy impact then
       basis <- lift (get_property fix_ (js "impact_basis")) ;;
       assign report (here ++ [js "impact"; js "basis"]) basis
     else ret tt) ;;;
    criteria <- lift (get_property fix_ (js "acceptance_criteria")) ;;
    if truthy criteria then assign report (here ++ [js "acceptance_criteria"]) criteria
    else ret tt
  else ret tt.

(** applyGeneratedContent: the reference of the copy it fills. *)
Definition applyGeneratedContent {E} (reportJson : nat) (generated : value) : M E nat :=
  doc <- read_doc reportJson ;;
  copy <- lift (json_clone doc) ;;
  report <- alloc_doc copy ;;
  copy_field report generated (js "document_title") [js "document"; js "title"] ;;;
  copy_field report generated (js "scope_statement")
    [js "audit"; js "scope"; js "scope_statement"] ;;;
  copy_field report generated (js "in_scope") [js "audit"; js "scope"; js "in_scope"] ;;;
  copy_field report generated (js "out_of_scope")
    [js "audit"; js "scope"; js "out_of_scope"] ;;;
  copy_field report generated (js "limitations")
    [js "audit"; js "methodology"; js "limitations"] ;;;
  copy_field report generated (js "executive_summary")
    [js "scorecard"; js "executive_summary"; js "body"] ;;;
  findings <- lift (get_property generated (js "scorecard_findings")) ;;
  (if truthy findings then
     rows <- has_list report (js "scorecard") (js "rows") ;;
     if (rows : bool) then
       l <- lift (forEach_elements findings) ;;
       for_each (apply_finding report) l
     else ret tt
   else ret tt) ;;;
  copy_field report generated (js "math_defender") [js "bleed"; js "math_defender_text"] ;;;
  fixes <- lift (get_property generated (js "fixes")) ;;
  (if truthy fixes then
     items <- has_list report (js "fixes") (js "items") ;;
     if (items : bool) then
       l <- lift (forEach_elements fixes) ;;
       for_each (apply_fix report) l
     else ret tt
   else ret tt) ;;;
  copy_field report generated (js "cta_headline") [js "cta"; js "headline"] ;;;
  copy_field report generated (js "cta_subtext") [js "cta"; js "subtext"] ;;;
  ret report.

(** The opening sentences of the two system prompts; their wording plays no
    part here. *)
Definition MASTER_SYSTEM_PROMPT : jstring :=
  js "You are a professional business process auditor writing content for an AI Process Audit.".
Definition REFINEMENT_SYSTEM_PROMPT : jstring :=
  js "You are a quality assurance editor reviewing AI-generated content for a business report.".

Definition with_generationTime (t : Z) (e : BatchLLMExecutor) : BatchLLMExecutor :=
  let s := stats e in
  with_stats (mkStats (apiCalls s) (tokensUsed s) t (refinementTime s) (modelUsed s)
                (groqUsed s)) e.

Definition with_refinementTime (t : Z) (e : BatchLLMExecutor) : BatchLLMExecutor :=
  let s := stats e in
  with_stats (mkStats (apiCalls s) (tokensUsed s) (generationTime s) t (modelUsed s)
                (groqUsed s)) e.

(** The data the refinement prompt is built from. *)
Definition source_data (reportJson : value) : completion value :=
  cbind (get_property reportJson (js "audit")) (fun audit =>
  cbind (get_optional audit (js "workflows")) (fun workflows =>
  cbind (get_optional workflows (js "0")) (fun workflow =>
  cbind (get_optional workflow (js "measurements")) (fun measurements =>
  cbind (get_property reportJson (js "bleed")) (fun bleed =>
  cbind (get_property reportJson (js "prepared_for")) (fun prepared_for =>
  cbind (get_optional prepared_for (js "account_name")) (fun client =>
  Return (VObj Plain [(js "measurements", measurements); (js "bleed", bleed);
                      (js "client", client)])))))))).

(** The refinement pass: the content to apply. *)
Definition refine (cfg : ModelConfig) (host : Host) (reportJson : nat)
    (generatedContent : value) : M BatchLLMExecutor value :=
  refineStart <- Date_now host ;;
  doc <- read_doc reportJson ;;
  sourceData <- lift (source_data doc) ;;
  refinePrompt <- lift (buildRefinementPrompt host generatedContent sourceData) ;;
  refineResult <- callLLM cfg host REFINEMENT_SYSTEM_PROMPT refinePrompt ;;
  try_catch
    (refined <- lift (parseJSON (fst refineResult)) ;;
     now <- Date_now host ;;
     e <- this ;;
     set_this (with_refinementTime (now - refineStart) e) ;;;
     ret refined)
    (fun _ => ret generatedContent).

(** fillAllNarratives. *)
Definition fillAllNarratives (cfg : ModelConfig) (host : Host) (reportJson : nat)
    : M BatchLLMExecutor nat :=
  startTime <- Date_now host ;;
  doc <- read_doc reportJson ;;
  masterPrompt <- lift (buildMasterPrompt host doc) ;;
  genResult <- callLLM cfg host MASTER_SYSTEM_PROMPT masterPrompt ;;
  generatedContent <-
    try_catch (lift (parseJSON (fst genResult)))
              (fun _ => throw (mkError (js "LLM returned invalid JSON"))) ;;
  now <- Date_now host ;;
  e <- this ;;
  set_this (with_generationTime (now - startTime) e) ;;;
  content <- (if skipRefinement e then ret generatedContent
              else refine cfg host reportJson generatedContent) ;;
  applyGeneratedContent reportJson content.

End Batch.

(** ** The Puter adapter's generate (old/puter_adapter.js) *)

Module PuterAdapter.

Record Stats := mkStats {
  tokensUsed : Z;
  requestCount : Z;
  modelUsed : jstring
}.

(** The adapter object: the field getNextFallbackModel reads, and the
    statistics. *)
Record Adapter := mkAdapter {
  self : Puter.PuterAdapter;
  stats : Stats
}.

(** What [fetch] gives: a rejection, or a response with its status, its
    status text and its body. *)
Inductive Fetched : Type :=
| Rejected (e : Error)
| Responded (status : Z) (statusText : jstring) (body : jstring).

(** [response.ok]. *)
Definition ok (status : Z) : bool := (200 <=? status) && (status <=? 299).

(** One [fetch]: the service answers a request by its position and by the
    model named in its body. *)
Definition fetch {E} (host : Host) (net : nat -> jstring -> Fetched) (model : jstring)
    : M E Fetched :=
  pass_time host ;;;
  (fun w => (Return (net (sent w) model),
             mkWorld (executor w) (heap w) (clock w) (steps w) (S (sent w))
                     (trace w ++ [Requested model (clock w)]))).

(** A value inside a template literal; objects are outside the fragment. *)
Definition template_text (v : value) : completion jstring :=
  match v with
  | VStr s => Return s
  | VNum n => Return (Z_to_js n)
  | VBool true => Return (js "true")
  | VBool false => Return (js "false")
  | VNull => Return (js "null")
  | VUndef => Return (js "undefined")
  | VObj _ _ => Stuck
  end.

(** [data.choices?.[0]?.message?.content || data.content || '']. *)
Definition answer_text (data : value) : completion value :=
  cbind (get_property data (js "choices")) (fun choices =>
  cbind (Batch.get_optional choices (js "0")) (fun first =>
  cbind (Batch.get_optional first (js "message")) (fun msg =>
  cbind (Batch.get_optional msg (js "content")) (fun content =>
  if Batch.truthy content then Return content
  else cbind (get_property data (js "content")) (fun content' =>
       Return (if Batch.truthy content' then content' else VStr [])))))).

(** What [if (data.usage) this.stats.tokensUsed += data.usage.total_tokens || 0]
    adds; adding anything but a number is outside the fragment. *)
Definition usage_tokens (data : value) : completion Z :=
  cbind (get_property data (js "usage")) (fun usage =>
  if Batch.truthy usage then
    cbind (get_property usage (js "total_tokens")) (fun total =>
    if Batch.truthy total then
      match total with
      | VNum n => Return n
      | _ => Stuck
      end
    else Return 0)
  else Return 0).

(** [s.endsWith(suffix)]. *)
Definition ends_with (suffix s : jstring) : bool := starts_with (rev suffix) (rev s).

(** The text [JSON.parse] is tried on. *)
Definition json_text (text : jstring) : jstring :=
  let t0 := trim text in
  let t1 := if starts_with (js "```json") t0 then drop 7 t0 else t0 in
  let t2 := if starts_with (js "```") t1 then drop 3 t1 else t1 in
  let t3 := if ends_with (js "```") t2 then take (length t2 - 3) t2 else t2 in
  trim t3.

(** How one pass through the body of the loop ends: by the [return], by a
    [continue], or by the [break]; the last two with [lastError] as it then
    stands. *)
Inductive Step : Type :=
| Done (v : value)
| Continue (lastError : option Error)
| Break (lastError : option Error).

Definition isRetryable (err : Error) : bool :=
  includes (js "fetch failed") (message err)
  || includes (js "network") (message err)
  || includes (js "ECONNRESET") (message err).

Definition with_model (m : jstring) (a : Adapter) : Adapter :=
  mkAdapter (Puter.mkPuterAdapter m)
    (mkStats (tokensUsed (stats a)) (requestCount (stats a)) m).

Definition record_request (tokens : Z) (a : Adapter) : Adapter :=
  mkAdapter (self a)
    (mkStats (tokensUsed (stats a) + tokens) (requestCount (stats a) + 1)
       (modelUsed (stats a))).

(** The body of the [try]. *)
Definition attempt_body (host : Host) (net : nat -> jstring -> Fetched)
    (lastError : option Error) : M Adapter Step :=
  a <- this ;;
  response <- fetch host net (Puter.model (self a)) ;;
  match response with
  | Rejected e => throw e
  | Responded status statusText body =>
      if (status =? 429) || (status =? 503) then
        next <- lift (Puter.getNextFallbackModel (self a)) ;;
        match next with
        | Some ((_ :: _) as nextModel) =>
            set_this (with_model nextModel a) ;;;
            ret (Continue lastError)
        | _ => throw (mkError (js "Puter rate limited on all models"))
        end
      else
        data <- lift (JSON_parse body) ;;
        if negb (ok status) then
          detail <- lift (get_property data (js "error")) ;;
          m <- lift (Batch.get_optional detail (js "message")) ;;
          errorMsg <- lift (template_text (if Batch.truthy m then m else VStr statusText)) ;;
          throw (mkError (js "Puter API error " ++ Z_to_js status ++ js ": " ++ errorMsg))
        else
          text <- lift (answer_text data) ;;
          tokens <- lift (usage_tokens data) ;;
          a' <- this ;;
          set_this (record_request tokens a') ;;;
          match text with
          | VStr s =>
              match JSON_parse (json_text s) with
              | Return v => ret (Done v)
              | Throw _ => ret (Done (VStr (trim s)))
              | Stuck => stuck
              end
          | _ => throw (TypeError "text.trim is not a function")
          end
  end.

(** The [catch] clause. *)
Definition handle (host : Host) (maxRetries attempt : Z) (err : Error) : M Adapter Step :=
  if isRetryable err && (attempt <? maxRetries) then
    sleep host (1000 * (attempt + 1)) ;;;
    ret (Continue (Some err))
  else ret (Break (Some err)).

(** The [throw] after the loop; [lastError] is [undefined] when no pass
    through the loop has caught an error. *)
Definition fail_with (lastError : option Error) : M Adapter value :=
  match lastError with
  | Some e => throw (mkError (js "Puter API call failed: " ++ message e))
  | None => throw (TypeError "Cannot read properties of undefined (reading 'message')")
  end.

(** The loop, from the test of its condition; [fuel] bounds the number of
    iterations. *)
Fixpoint generate_loop (host : Host) (net : nat -> jstring -> Fetched) (fuel : nat)
    (maxRetries attempt : Z) (lastError : option Error) : M Adapter value :=
  match fuel with
  | O => stuck
  | S fuel' =>
      if attempt <=? maxRetries then
        step <- try_catch (attempt_body host net lastError)
                          (handle host maxRetries attempt) ;;
        match step with
        | Done v => ret v
        | Continue lastError' =>
            generate_loop host net fuel' maxRetries (attempt + 1) lastError'
        | Break lastError' => fail_with lastError'
        end
      else fail_with lastError
  end.

(** [options.maxRetries || 3]. *)
Definition retries_of (maxRetries : option Z) : Z :=
  match maxRetries with
  | Some n => if n =? 0 then 3 else n
  | None => 3
  end.

(** generate; [maxRetries] is [options.maxRetries].  The prompts, the
    temperature and the token limit go into the body of the request only. *)
Definition generate (host : Host) (net : nat -> jstring -> Fetched) (maxRetries : option Z)
    : M Adapter value :=
  generate_loop host net (S (Z.to_nat (retries_of maxRetries + 1)))
    (retries_of maxRetries) 0 None.

End PuterAdapter.

(** ** Checking an answer (lib/llm_executor.js) *)

(** [prompt.output_constraints]; an absent field is [None]. *)
Record OutputConstraints := mkOutputConstraints {
  max_length_chars : option Z;
  must_contain : option (list jstring);
  must_not_contain : option (list jstring)
}.

(** [toLowerCase] of one code unit below 256. *)
Definition lower_unit (c : ascii) : ascii :=
  let n := nat_of_ascii c in
  if ((65 <=? n)%nat && (n <=? 90)%nat)
     || ((192 <=? n)%nat && (n <=? 222)%nat && negb (n =? 215)%nat)
  then ascii_of_nat (n + 32) else c.

Definition toLowerCase (s : jstring) : jstring := map lower_unit s.

Definition INSUFFICIENT_EVIDENCE : jstring := js "[INSUFFICIENT_EVIDENCE]".

(** validateOutput, for the constraints of the prompt. *)
Definition validateOutput (output_constraints : option OutputConstraints) (output : jstring)
    : list jstring :=
  let constraints :=
    match output_constraints with
    | Some c => c
    | None => mkOutputConstraints None None None
    end in
  (match max_length_chars constraints with
   | Some n =>
       if negb (n =? 0) && (n <? Z.of_nat (length output))
       then [js "Output exceeds max length (" ++ Z_to_js (Z.of_nat (length output))
             ++ js " > " ++ Z_to_js n ++ js ")"]
       else []
   | None => []
   end)
  ++ (match must_contain constraints with
      | Some phrases =>
          flat_map (fun phrase =>
                      if negb (includes phrase output)
                      then [js "Output missing required phrase: " ++ [DQUOTE] ++ phrase
                            ++ [DQUOTE]]
                      else []) phrases
      | None => []
      end)
  ++ (match must_not_contain constraints with
      | Some phrases =>
          flat_map (fun phrase =>
                      if includes (toLowerCase phrase) (toLowerCase output)
                      then [js "Output contains forbidden phrase: " ++ [DQUOTE] ++ phrase
                            ++ [DQUOTE]]
                      else []) phrases
      | None => []
      end)
  ++ (if includes INSUFFICIENT_EVIDENCE output
      then [js "LLM reported insufficient evidence"] else []).

(** ** Sample data

    A small report with three placeholders, the prompts that resolve them,
    and a report with a string where a path expects an object. *)

Definition sample_report : value :=
  VObj Plain
    [ (js "title", VStr (js "[LLM_PLACEHOLDER: document_title]"));
      (js "a", VObj Plain
                 [(js "b", mk_array [VStr (js "[LLM_PLACEHOLDER: scope_items]")])]);
      (js "r", VStr (js "[LLM_PLACEHOLDER: finding_risk for Cat X]")) ].


(** The template of the sample prompts holds no tag. *)
Definition SAMPLE_TEMPLATE : jstring := js "Write the text of this field.".

Definition sample_prompt (id type : jstring) : Prompt :=
  mkPrompt id [] SAMPLE_TEMPLATE 200 type false VNull.

Definition sample_title_prompt : Prompt :=
  sample_prompt (js "document_title_v1") (js "string").
Definition sample_items_prompt : Prompt :=
  sample_prompt (js "scope_items_v1") ARRAY_OF_STRINGS.
Definition sample_risk_prompt : Prompt :=
  sample_prompt (js "finding_risk_v1") (js "string").

(** A chain of three models, a service that answers every request with a
    rate-limit error, and a live executor on the first model. *)
Definition sample_chain : list jstring :=
  [js "gemini-2.5-flash"; js "gemini-2.5-flash-lite"; js "gemma-3-27b"].

Definition sample_config : ModelConfig :=
  mkModelConfig sample_chain
    (fun _ paid => if (paid : bool) then 100 else 4000)
    (fun e => includes (js "429") (message e))
    (fun _ => 60000).

Definition quota_error : Error := mkError (js "Gemini API error 429: quota exceeded").

(** [Mustache.render] on a template without tags, which it returns as it
    is whatever the view; a template with a tag is not rendered here. *)
Definition render_plain (template : jstring) (view : value) : completion jstring :=
  if includes (js "{{") template then Stuck else Return template.

Definition sample_host (answer : nat -> jstring -> jstring -> Response) : Host :=
  mkHost answer (fun _ => 1)
    (fun _ doc => Return doc) render_plain
    (fun _ => Return (js "master")) (fun _ _ => Return (js "refine"))
    (fun _ _ => Throw (mkError (js "Groq is not configured"))).

Definition limited_host : Host := sample_host (fun _ _ _ => Failure quota_error).

Definition sample_executor : LLMExecutor :=
  mkLLMExecutor (Some (js "key")) 2 false false (js "gemini-2.5-flash") [] 0
    [sample_title_prompt; sample_items_prompt; sample_risk_prompt]
    (mkStats 0 0 [] [] [] []).

Definition sample_world : World LLMExecutor :=
  mkWorld sample_executor {[0%nat := sample_report]} 1000 0 0 [].

(** A service that answers every request. *)
Definition answering_host : Host :=
  sample_host (fun _ _ _ => Success (js "Audit of the intake workflow") 12).

(** ** Vocabulary of the properties *)

(** [P] before, [Q] after a normal completion, [X] after any other. *)
Definition triple {E A} (P : World E -> Prop) (m : M E A)
    (Q : A -> World E -> Prop) (X : World E -> Prop) : Prop :=
  forall w, P w ->
    match m w with
    | (Return a, w') => Q a w'
    | (_, w') => X w'
    end.

(** [I] is an invariant of [m]. *)
Definition keeps {E A} (I : World E -> Prop) (m : M E A) : Prop :=
  triple I m (fun _ => I) I.

(** The document held under [r] is [v]. *)
Definition doc_is {E} (r : nat) (v : value) (w : World E) : Prop := heap w !! r = Some v.

(** Position of a model in the fallback chain; the length of the chain for a
    model that is not in it. *)
Fixpoint rank_from (i : nat) (chain : list jstring) (m : jstring) : nat :=
  match chain with
  | [] => i
  | x :: rest => if decide (x = m) then i else rank_from (S i) rest m
  end.

Definition rank (cfg : ModelConfig) (m : jstring) : nat :=
  rank_from 0 (MODEL_FALLBACK_ORDER cfg) m.

(** The models requests were sent to, in order. *)
Definition requested (tr : list Event) : list jstring :=
  flat_map (fun ev => match ev with Requested m _ => [m] | _ => [] end) tr.

(** The sleeps awaited, in order. *)
Definition slept (tr : list Event) : list Z :=
  flat_map (fun ev => match ev with Slept ms => [ms] | _ => [] end) tr.

(** The calls fillPlaceholders started: model and start time, in order. *)
Definition called (tr : list Event) : list (jstring * Z) :=
  flat_map (fun ev => match ev with Called m t => [(m, t)] | _ => [] end) tr.

(** The trace replayed from the model [cur] the pointer starts on: every
    request goes to the model the pointer is on when it is sent, and every
    move of the pointer leaves that model for its successor in the chain.
    The result is the model the pointer ends on; [None] when a request or
    a move does not fit. *)
Fixpoint replay (cfg : ModelConfig) (cur : jstring) (tr : list Event) : option jstring :=
  match tr with
  | [] => Some cur
  | Requested m _ :: rest => if decide (m = cur) then replay cfg cur rest else None
  | Switched a b :: rest =>
      if decide (a = cur) then
        if decide (getNextFallbackModel cfg a = Some b) then replay cfg b rest else None
      else None
  | _ :: rest => replay cfg cur rest
  end.

(** An event that is neither a request nor a move of the pointer. *)
Definition passive (ev : Event) : bool :=
  match ev with
  | Requested _ _ | Switched _ _ => false
  | _ => true
  end.

(** So far the run has followed the pointer: replayed from [first], its
    trace ends on the current model, which is ranked no earlier than
    [start]. *)
Definition degrades_only (cfg : ModelConfig) (first : jstring) (start : nat)
    (w : World LLMExecutor) : Prop :=
  replay cfg first (trace w) = Some (currentModel (executor w))
  /\ (start <= rank cfg (currentModel (executor w)))%nat.

(** The fallback transitions the executor has recorded. *)
Definition transitions (w : World LLMExecutor) : nat :=
  length (fallbackHistory (executor w)).

(** What a call may have recorded when it started from [k] transitions:
    nothing once its fallback is spent, at most one transition before. *)
Definition recorded (fa : bool) (k : nat) (w : World LLMExecutor) : Prop :=
  if fa then transitions w = k else (k <= transitions w <= S k)%nat.

(** The executor is live (it has a key and is not a dry run), points at
    model [m], has recorded [k] transitions and retries [retries] times. *)
Definition at_model (m : jstring) (k : nat) (retries : Z) (w : World LLMExecutor) : Prop :=
  currentModel (executor w) = m /\ transitions w = k
  /\ (exists c key, apiKey (executor w) = Some (c :: key))
  /\ maxRetries (executor w) = retries
  /\ dryRun (executor w) = false.

(** Every call starts no earlier than the delay of its model after the
    start of the call before it. *)
Fixpoint spaced (cfg : ModelConfig) (paid : bool) (calls : list (jstring * Z)) : Prop :=
  match calls with
  | [] => True
  | (_, t1) :: rest =>
      match rest with
      | (m2, t2) :: _ => getModelDelay cfg m2 paid <= t2 - t1
      | [] => True
      end /\ spaced cfg paid rest
  end.

(** The state of the loop over the placeholders when [lastRequestTime] is
    [lrt]: the calls so far are spaced, the last of them started at [lrt],
    and the clock, which started after the epoch, has not gone back. *)
Definition pacing (cfg : ModelConfig) (paid : bool) (lrt : Z) (w : World LLMExecutor)
    : Prop :=
  spaced cfg paid (called (trace w))
  /\ (forall m t, last (called (trace w)) = Some (m, t) -> t = lrt /\ 0 < t)
  /\ lrt <= clock w /\ 0 < clock w
  /\ usePaidTier (executor w) = paid.

(** The wait before a call is over. *)
Definition waited (cfg : ModelConfig) (paid : bool) (lrt : Z) (w : World LLMExecutor)
    : Prop :=
  0 < lrt -> lrt + getModelDelay cfg (currentModel (executor w)) paid <= clock w.


(** A service that answers in prose, and a live batch executor. *)
Definition prose_host : Host :=
  sample_host (fun _ _ _ => Success (js "Sorry, I cannot produce that.") 12).

Definition batch_executor : Batch.BatchLLMExecutor :=
  Batch.mkBatchLLMExecutor (Some (js "key")) 2 false true false (js "gemini-2.5-flash")
    [] None (Batch.mkStats 0 0 0 0 [] false).

Definition batch_world : World Batch.BatchLLMExecutor :=
  mkWorld batch_executor {[0%nat := sample_report]} 1000 0 0 [].


(** Texts for the polish pass: a code fence inside the name of an
    insufficient-evidence marker, and a fenced sentence without its full
    stop. *)
Definition fenced_marker : jstring := js "[INSUFFICIENT_```EVIDENCE]".

Definition fenced_sentence : jstring :=
  js "```html<p>The intake workflow loses two days</p>".

(** A broken sentence whose text holds the special sequence for the match. *)
Definition dollar_sentence : jstring := js "<p>It costs $& more than we planned</p>".


(** A rendered page with a marker left in it, an executor in dry-run
    mode, and a page where a special sequence of a replacement string
    stands in a broken sentence. *)
Definition sample_page : jstring :=
  js "<p>[LLM_PLACEHOLDER: finding_summary]</p><p>Each run costs $12 and the team loses two days</p>".

Definition dry_world : World LLMExecutor :=
  mkWorld (mkLLMExecutor (Some (js "key")) 2 true false (js "gemini-2.5-flash") [] 0
             [sample_title_prompt] (mkStats 0 0 [] [] [] []))
          ∅ 1000 0 0 [].


(** ** Vocabulary for the polish pass *)

(** The text [replace_all] builds when [skip] code units of a match remain
    to be passed over. *)
Definition out_of {A} (p : pattern A) (f : jstring -> A -> jstring) (skip : nat)
    (prev : option ascii) (s : jstring) : jstring :=
  flat_map (piece_text f) (scan_from p skip prev s).

Definition is_close_bracket (c : ascii) : bool := ch_eqb c "]".

(** A code unit other than the closing bracket, and a closing bracket
    somewhere after it. *)
Definition closes (t : jstring) : bool :=
  match t with
  | c :: t' => not_close_bracket c && existsb is_close_bracket t'
  | [] => false
  end.

(** A well-formed marker starts [s]. *)
Definition marker_at (s : jstring) : bool :=
  starts_with MARKER_PREFIX s && closes (drop (length MARKER_PREFIX) s).

(** No well-formed marker starts anywhere in [s]. *)
Fixpoint marker_free (s : jstring) : bool :=
  match s with
  | [] => true
  | _ :: s' => negb (marker_at s) && marker_free s'
  end.

(** The non-empty suffixes of a text. *)
Fixpoint tails (s : jstring) : list jstring :=
  match s with
  | [] => []
  | _ :: s' => s :: tails s'
  end.

(** Neither text starts with the other. *)
Definition clash (u r : jstring) : bool := negb (starts_with u r || starts_with r u).

Definition no_bracket (c : ascii) : bool := negb (ch_eqb c "[") && negb (ch_eqb c "]").

(** A replacement text that can be no part of a marker: it is not empty,
    has no bracket, and neither continues nor is continued by any part of
    the head of a marker. *)
Definition inert (r : jstring) : bool :=
  nonempty r && forallb no_bracket r && forallb (fun u => clash u r) (tails MARKER_PREFIX).

(** The code units that make a dollar sign special in a replacement
    string. *)
Definition is_special (x : ascii) : bool :=
  ch_eqb x "$" || ch_eqb x "&" || ch_eqb x "`" || ch_eqb x "'".

(** No dollar sign of [s] is followed by one of them. *)
Fixpoint no_special (s : jstring) : bool :=
  match s with
  | [] => true
  | c :: rest =>
      negb (ch_eqb c "$" && match rest with x :: _ => is_special x | [] => false end)
      && no_special rest
  end.

(** The closing tags the loop over broken sentences looks for. *)
Definition TAGS : list jstring := [js "p"; js "div"; js "span"; js "td"].

Definition not_gt (c : ascii) : bool := negb (ch_eqb c ">").

(** The broken sentence that starts [s], if there is one, has a text of at
    most 20 code units: the loop leaves it as it is. *)
Definition short_at (s : jstring) : bool :=
  match broken_sentence None s with
  | Some (_, text) => (length text <=? 20)%nat
  | None => true
  end.

(** No broken sentence of [s] has a text of more than 20 code units. *)
Fixpoint settled (s : jstring) : bool :=
  match s with
  | [] => true
  | _ :: s' => short_at s && settled s'
  end.

(** The same, for the broken sentences that start before position [i]. *)
Definition settled_below (i : nat) (s : jstring) : Prop :=
  forall k, (k < i)%nat -> short_at (drop k s) = true.

(** [s'] is [s] with full stops put after some letters. *)
Inductive with_dots : jstring -> jstring -> Prop :=
| with_dots_none s : with_dots s s
| with_dots_more x z y s' :
    is_letter z = true ->
    with_dots (x ++ z :: "."%char :: y) s' ->
    with_dots (x ++ z :: y) s'.

(** The text with every run of two spaces or more made one space, as the
    last step writes it. *)
Definition squeeze (s : jstring) : jstring :=
  replace_all double_spaces (fun _ _ => js " ") s.

Definition is_open_bracket (c : ascii) : bool := ch_eqb c "[".

(** The backquotes a text starts with. *)
Definition ticks (s : jstring) : nat := length (take_while (fun c => ch_eqb c "`") s).

(** A replacement text that can be no part of a code fence: it is not
    empty and has no backquote. *)
Definition plain_text (r : jstring) : bool :=
  nonempty r && forallb (fun c => negb (ch_eqb c "`")) r.

(** ** Vocabulary of the further properties *)

(** The languages an opening fence may name. *)
Definition FENCE_LANGUAGES : list jstring :=
  [js "json"; js "html"; js "text"; js "markdown"].

(** The replacement ['.$1'] of a bracketed index. *)
Definition dotted (m ds : jstring) : jstring := "."%char :: ds.

(** What follows a path segment: a code unit that is neither a digit nor
    the closing bracket. *)
Definition breaks (y : jstring) : Prop :=
  match y with
  | c :: _ => is_digit c = false /\ c <> "]"%char
  | [] => True
  end.

(** A property name that a path can carry: not empty, without a dot or an
    opening bracket. *)
Definition plain_key (k : jstring) : bool :=
  nonempty k && forallb (fun c => negb (ch_eqb c "." || ch_eqb c "[")) k.

(** Every object of the document has distinct property names, and every
    plain object has names a path can carry. *)
Fixpoint well_keyed (v : value) : bool :=
  match v with
  | VObj kd props =>
      bool_decide (NoDup (map fst props))
      && match kd with
         | Plain => forallb plain_key (map fst props)
         | Arr _ => true
         end
      && forallb (fun kv => well_keyed (snd kv)) props
  | _ => true
  end.

(** Requests one call may still send: an attempt for every retry left, and
    a full round more while the fallback is unspent. *)
Definition attempts_left (retries attempt : Z) (fallbackAttempted : bool) : nat :=
  ((if fallbackAttempted then 0 else Z.to_nat (retries + 1))
   + Z.to_nat (retries + 1 - attempt))%nat.

(** The counters of the executor are in [w'] what they were in [w]. *)
Definition same_counters (w w' : World LLMExecutor) : Prop :=
  maxRetries (executor w') = maxRetries (executor w)
  /\ promptsExecuted (stats (executor w')) = promptsExecuted (stats (executor w))
  /\ tokensUsed (stats (executor w')) = tokensUsed (stats (executor w))
  /\ errors (stats (executor w')) = errors (stats (executor w)).

(** The executor runs dry, and nothing has been sent or counted since the
    world [w0]. *)
Definition dry_since (w0 w : World LLMExecutor) : Prop :=
  dryRun (executor w) = true
  /\ sent w = sent w0
  /\ requested (trace w) = requested (trace w0)
  /\ promptsExecuted (stats (executor w)) = promptsExecuted (stats (executor w0))
  /\ tokensUsed (stats (executor w)) = tokensUsed (stats (executor w0)).

(** A dry run over the sample report. *)
Definition dry_sample_world : World LLMExecutor :=
  mkWorld (executor dry_world) {[0%nat := sample_report]} 1000 0 0 [].

(** A batch executor in dry-run mode, with the refinement pass on. *)
Definition dry_batch_world : World Batch.BatchLLMExecutor :=
  mkWorld (Batch.mkBatchLLMExecutor (Some (js "key")) 2 true false false
             (js "gemini-2.5-flash") [] None (Batch.mkStats 0 0 0 0 [] false))
          {[0%nat := sample_report]} 1000 0 0 [].

(** The narrative fields applyGeneratedContent copies as they are, each with
    the place it goes to in the report. *)
Definition NARRATIVE_FIELDS : list (jstring * list jstring) :=
  [ (js "document_title", [js "document"; js "title"]);
    (js "scope_statement", [js "audit"; js "scope"; js "scope_statement"]);
    (js "in_scope", [js "audit"; js "scope"; js "in_scope"]);
    (js "out_of_scope", [js "audit"; js "scope"; js "out_of_scope"]);
    (js "limitations", [js "audit"; js "methodology"; js "limitations"]);
    (js "executive_summary", [js "scorecard"; js "executive_summary"; js "body"]);
    (js "math_defender", [js "bleed"; js "math_defender_text"]);
    (js "cta_headline", [js "cta"; js "headline"]);
    (js "cta_subtext", [js "cta"; js "subtext"]) ].

(** The places [keys] and [place] part ways at a property of [place] that
    is not the length of an array. *)
Fixpoint diverge (keys place : list jstring) : bool :=
  match keys, place with
  | k1 :: keys', k2 :: place' =>
      if decide (k1 = k2) then diverge keys' place' else negb (is_length k2)
  | _, _ => false
  end.

(** The document held under [report] has [v] at [place]. *)
Definition landed {E} (report : nat) (place : list jstring) (v : value) (w : World E)
    : Prop :=
  exists doc, heap w !! report = Some doc /\ Batch.get_in doc place = Return v.

(** A report with the places of the narrative, and an answer of the model
    with a title. *)
Definition skeleton_report : value :=
  VObj Plain
    [ (js "document", VObj Plain [(js "title", VStr (js "[LLM_PLACEHOLDER: document_title]"))]);
      (js "cta", VObj Plain []) ].

Definition skeleton_world : World Batch.BatchLLMExecutor :=
  mkWorld batch_executor {[0%nat := skeleton_report]} 1000 0 0 [].

Definition titled_answer : value :=
  VObj Plain [(js "document_title", VStr (js "Audit of the intake workflow"))].

Definition primitive (o : value) : Prop :=
  match o with
  | VObj _ _ => False
  | _ => True
  end.

(** What of the batch executor sets the length of a run. *)
Definition batch_settings (e : Batch.BatchLLMExecutor) : Z * bool :=
  (Batch.maxRetries e, Batch.skipRefinement e).

(** [m] leaves the executor alone and sends nothing. *)
Definition quiet {E A} (m : M E A) : Prop :=
  forall w, executor (snd (m w)) = executor w /\ sent (snd (m w)) = sent w.

(** Started with the settings [s0], [m] sends at most [k] requests and
    leaves the settings as they are. *)
Definition sends {E T A} (proj : E -> T) (s0 : T) (m : M E A) (k : nat) : Prop :=
  forall w, proj (executor w) = s0 ->
    (sent (snd (m w)) <= sent w + k)%nat /\ proj (executor (snd (m w))) = s0.

(** The placeholders fillPlaceholders finds in the document held under
    [r]. *)
Definition placeholders_in (h : gmap nat value) (r : nat) : list Placeholder :=
  match h !! r with
  | Some doc => findPlaceholders (json_copy doc) []
  | None => []
  end.

(** Where an adapter stands in the chain. *)
Definition puter_position (w : World PuterAdapter.Adapter) : Z :=
  Puter.indexOf Puter.PUTER_FALLBACK_ORDER (Puter.model (PuterAdapter.self (executor w))).

(** The requests an adapter has counted. *)
Definition puter_requests (w : World PuterAdapter.Adapter) : Z :=
  PuterAdapter.requestCount (PuterAdapter.stats (executor w)).

(** The adapter has not moved back in the chain between [w] and [w'], and
    an adapter outside the chain has kept its model. *)
Definition puter_forward (w w' : World PuterAdapter.Adapter) : Prop :=
  puter_position w <= puter_position w'
  /\ (puter_position w < 0 ->
      Puter.model (PuterAdapter.self (executor w'))
      = Puter.model (PuterAdapter.self (executor w))).

(** The models after [m] in the chain; none for a model outside it. *)
Definition models_after (m : jstring) : Z :=
  let i := Puter.indexOf Puter.PUTER_FALLBACK_ORDER m in
  if i <? 0 then 0 else Z.of_nat (length Puter.PUTER_FALLBACK_ORDER) - 1 - i.

(** An adapter on the first model of the chain. *)
Definition puter_world : World PuterAdapter.Adapter :=
  mkWorld (PuterAdapter.mkAdapter (Puter.mkPuterAdapter (js "gpt-4o-mini"))
             (PuterAdapter.mkStats 0 0 (js "gpt-4o-mini")))
          ∅ 1000 0 0 [].

(** A service that is over its limit for every model. *)
Definition busy_net : nat -> jstring -> PuterAdapter.Fetched :=
  fun _ _ => PuterAdapter.Responded 429 (js "Too Many Requests") [].

(** The error of generate when the chain is used up. *)
Definition RATE_LIMITED_ON_ALL : Error :=
  mkError (js "Puter API call failed: Puter rate limited on all models").

(** The error of reading [lastError.message] when [lastError] is
    [undefined]. *)
Definition LAST_ERROR_UNDEFINED : Error :=
  TypeError "Cannot read properties of undefined (reading 'message')".

(* ================================================================= *)
(** * Properties *)

(** ** Strings *)

Lemma ch_eqb_eq a b : ch_eqb a b = true <-> a = b.
Proof. apply Ascii.eqb_eq. Qed.

Lemma ch_eqb_refl a : ch_eqb a a = true.
Proof. apply Ascii.eqb_refl. Qed.

Lemma ch_eqb_neq a b : ch_eqb a b = false <-> a <> b.
Proof. apply Ascii.eqb_neq. Qed.

Lemma starts_with_spec p s : starts_with p s = true <-> exists t, s = p ++ t.
Proof.
  revert s. induction p as [|a p IH]; intros s; simpl.
  - split; eauto.
  - destruct s as [|b s]; simpl.
    + split; [discriminate | intros [t Ht]; discriminate].
    + rewrite andb_true_iff, ch_eqb_eq, IH. split.
      * intros [-> [t ->]]. eauto.
      * intros [t Ht]. injection Ht as -> ->. eauto.
Qed.

Lemma starts_with_app p t : starts_with p (p ++ t) = true.
Proof. apply starts_with_spec. eauto. Qed.

Lemma includes_spec needle s :
  includes needle s = true <-> exists a b, s = a ++ needle ++ b.
Proof.
  induction s as [|c s IH].
  - simpl. rewrite orb_false_r, starts_with_spec. split.
    + intros [t Ht]. exists [], t. exact Ht.
    + intros (a & b & H). destruct a; [|discriminate]. eauto.
  - cbn [includes]. rewrite orb_true_iff, starts_with_spec, IH. split.
    + intros [[t Ht] | (a & b & ->)].
      * exists [], t. exact Ht.
      * exists (c :: a), b. reflexivity.
    + intros (a & b & H). destruct a as [|c' a].
      * left. exists b. exact H.
      * right. injection H as -> ->. eauto.
Qed.

(** ** The Puter adapter's fallback chain *)

Lemma puter_indexOf_from_absent i xs x : x ∉ xs -> Puter.indexOf_from i xs x = -1.
Proof.
  revert i. induction xs as [|y ys IH]; intros i Hx; simpl; [reflexivity|].
  destruct (decide (y = x)) as [->|Hne].
  - exfalso. apply Hx. left.
  - apply IH. intros Hin. apply Hx. right. exact Hin.
Qed.

(** C7, as the code has it: getNextFallbackModel never throws; it returns
    [null] exactly when the adapter's model is absent from the chain or is
    the last of the chain. *)
Theorem puter_next_null_iff_unknown_or_last (a : Puter.PuterAdapter) :
  Puter.getNextFallbackModel a = Return None
  <-> (Puter.model a ∉ Puter.PUTER_FALLBACK_ORDER \/ Puter.model a = js "llama-3.1-70b").
Proof.
  destruct a as [m]. cbn [Puter.model].
  destruct (decide (m ∈ Puter.PUTER_FALLBACK_ORDER)) as [Hin|Hout].
  - unfold Puter.PUTER_FALLBACK_ORDER in Hin.
    repeat (apply elem_of_cons in Hin as [->|Hin]); [..|inversion Hin].
    all: split;
      [ intros H; first [ right; reflexivity | vm_compute in H; discriminate H ]
      | intros [H|H];
        first [ reflexivity
              | discriminate H
              | exfalso; apply H; unfold Puter.PUTER_FALLBACK_ORDER; set_solver ] ].
  - split; [tauto|]. intros _. unfold Puter.getNextFallbackModel, Puter.indexOf.
    cbn [Puter.model]. rewrite (puter_indexOf_from_absent _ _ _ Hout). reflexivity.
Qed.

(** C7 fails as stated: a model that is not in the chain gets [null], the
    answer the last model of the chain gets, and no error. *)
Lemma puter_unknown_model_returns_null :
  (js "gpt-4o" ∉ Puter.PUTER_FALLBACK_ORDER)
  /\ Puter.getNextFallbackModel (Puter.mkPuterAdapter (js "gpt-4o")) = Return None
  /\ Puter.getNextFallbackModel (Puter.mkPuterAdapter (js "llama-3.1-70b")) = Return None.
Proof.
  split; [|split; reflexivity].
  unfold Puter.PUTER_FALLBACK_ORDER. intros H.
  repeat (apply elem_of_cons in H as [H|H]; [discriminate H|]). inversion H.
Qed.

(** ** Documents and paths *)

Lemma lookup_update_prop k v props :
  is_Some (lookup_prop k props) -> lookup_prop k (update_prop k v props) = Some v.
Proof.
  induction props as [|[k' v'] rest IH]; simpl; intros [x Hx]; [discriminate|].
  destruct (decide (k' = k)) as [->|Hne]; simpl.
  - destruct (decide (k = k)); congruence.
  - destruct (decide (k' = k)); [congruence|]. apply IH. eauto.
Qed.

Lemma lookup_app_prop k props more :
  lookup_prop k (props ++ more)
  = match lookup_prop k props with Some v => Some v | None => lookup_prop k more end.
Proof.
  induction props as [|[k' v'] rest IH]; simpl; [reflexivity|].
  destruct (decide (k' = k)); [reflexivity | apply IH].
Qed.

Lemma lookup_put_prop k v props : lookup_prop k (put_prop k v props) = Some v.
Proof.
  unfold put_prop. destruct (lookup_prop k props) as [x|] eqn:E.
  - apply lookup_update_prop. rewrite E. eauto.
  - rewrite lookup_app_prop, E. simpl. destruct (decide (k = k)); congruence.
Qed.

Lemma set_property_get o k v o' :
  set_property o k v = (Return tt, o') ->
  get_property o' k = Return v /\ exists kd props, o' = VObj kd props /\ is_Some (lookup_prop k props).
Proof.
  destruct o as [| | | | |kd props]; cbn [set_property];
    try discriminate; try (destruct (is_proto k); discriminate).
  destruct kd as [|len].
  - destruct (_ && _); [discriminate|]. intros [= <-]. cbn [get_property].
    rewrite lookup_put_prop. split; [reflexivity|].
    eexists _, _. split; [reflexivity|]. rewrite lookup_put_prop. eauto.
  - destruct (is_length k); [discriminate|]. destruct (_ && _); [discriminate|].
    intros [= <-]. cbn [get_property].
    rewrite lookup_put_prop. split; [reflexivity|].
    eexists _, _. split; [reflexivity|]. rewrite lookup_put_prop. eauto.
Qed.

Lemma set_parts_return_obj parts : forall current v current',
  parts <> [] ->
  set_parts current parts v = (Return tt, current') ->
  exists kd props, current = VObj kd props.
Proof.
  destruct parts as [|part rest]; [congruence|]. intros current v current' _.
  destruct current as [| | | | |kd props]; eauto;
    destruct rest; cbn [set_parts set_property has_property];
    try discriminate; destruct (is_proto part); discriminate.
Qed.

Lemma set_parts_step current part next rest v :
  set_parts current (part :: next :: rest) v =
  match has_property part current with
  | Return present =>
      let '(r, current1) :=
        if present then (Return tt, current)
        else set_property current part
               (if isNaN_str next then empty_object else empty_array) in
      match r with
      | Return _ =>
          match get_property current1 part with
          | Return child =>
              let '(r', child') := set_parts child (next :: rest) v in
              (r', store_child current1 part child')
          | Throw e => (Throw e, current1)
          | Stuck => (Stuck, current1)
          end
      | Throw e => (Throw e, current1)
      | Stuck => (Stuck, current1)
      end
  | Throw e => (Throw e, current)
  | Stuck => (Stuck, current)
  end.
Proof. reflexivity. Qed.

Lemma set_parts_get_parts parts : forall current v current',
  parts <> [] ->
  set_parts current parts v = (Return tt, current') ->
  get_parts current' parts = Return v.
Proof.
  induction parts as [|part rest IH]; [congruence|].
  intros current v current' _ Hset.
  destruct rest as [|next rest'].
  - (* the final assignment *)
    cbn [set_parts] in Hset. apply set_property_get in Hset as [Hget (kd & props & -> & _)].
    cbn [get_parts]. rewrite Hget. reflexivity.
  - rewrite set_parts_step in Hset.
    destruct (has_property part current) as [present| |] eqn:Hhas; try discriminate.
    destruct (if present then (Return tt, current)
              else set_property current part
                     (if isNaN_str next then empty_object else empty_array))
      as [r current1] eqn:Hcreate.
    destruct r as [[]| |]; try discriminate.
    destruct (get_property current1 part) as [child| |] eqn:Hchild; try discriminate.
    destruct (set_parts child (next :: rest') v) as [r' child'] eqn:Hrec.
    injection Hset as -> <-.
    assert (Hown : exists kd props, current1 = VObj kd props
                                    /\ is_Some (lookup_prop part props)).
    { destruct present.
      - injection Hcreate as <-.
        destruct current as [| | | | |kd props]; try discriminate.
        exists kd, props. split; [reflexivity|].
        destruct (lookup_prop part props) eqn:El; [eauto|].
        exfalso. cbn [has_property] in Hhas. rewrite El in Hhas.
        rewrite bool_decide_eq_false_2 in Hhas by (intros [? ?]; discriminate).
        cbn [orb negb andb] in Hhas.
        destruct kd as [|len]; [destruct (inherited part); discriminate|].
        (* the length of an array is a number: nothing can be set under it *)
        cbn [get_property] in Hchild. rewrite El in Hchild.
        destruct (is_length part); [|destruct (inherited part); discriminate].
        injection Hchild as <-.
        destruct rest'; cbn [set_parts set_property has_property] in Hrec;
          [destruct (is_proto next)|]; discriminate.
      - apply set_property_get in Hcreate as [_ H]. exact H. }
    destruct Hown as (kd & props & -> & Hsome).
    cbn [store_child get_parts get_property].
    rewrite (lookup_update_prop _ _ _ Hsome).
    apply (IH child v child'); [discriminate | exact Hrec].
Qed.

Lemma split_on_nonempty sep s : split_on sep s <> [].
Proof.
  induction s as [|c s IH]; simpl; [discriminate|].
  destruct (ch_eqb c sep); [discriminate|].
  destruct (split_on sep s); [congruence | discriminate].
Qed.


Lemma absent_own k : own_name k = true -> absent k = Return VUndef.
Proof. unfold own_name, absent. destruct (inherited k); [discriminate | reflexivity]. Qed.

Lemma own_name_not_proto k : own_name k = true -> is_proto k = false.
Proof.
  unfold own_name, is_proto. intros Hk. apply bool_decide_eq_false_2. intros ->.
  discriminate Hk.
Qed.







Lemma get_parts_app o l1 l2 :
  get_parts o (l1 ++ l2)
  = match get_parts o l1 with Return v => get_parts v l2 | other => other end.
Proof.
  revert o. induction l1 as [|k l1 IH]; intros o; [reflexivity|].
  cbn [app get_parts].
  destruct o; try (destruct l2; reflexivity);
    (destruct (get_property _ k) as [child| |]; [apply IH | reflexivity | reflexivity]).
Qed.

Lemma get_property_some_obj o k kd props :
  get_property o k = Return (VObj kd props) ->
  exists kd' props', o = VObj kd' props' /\ lookup_prop k props' = Some (VObj kd props).
Proof.
  destruct o as [| | | | s |kd' props']; cbn [get_property]; unfold absent;
    try discriminate; try (destruct (inherited k); discriminate).
  - destruct (is_length k); [discriminate|].
    destruct (array_index k); [|destruct (inherited k); discriminate].
    destruct (s !! _); discriminate.
  - destruct (lookup_prop k props') eqn:E.
    + intros [= ->]. eauto.
    + destruct kd'; [destruct (inherited k); discriminate|].
      destruct (is_length k); [discriminate | destruct (inherited k); discriminate].
Qed.

Lemma set_property_obj kd props k v :
  is_length k = false -> is_proto k = false ->
  exists kd', set_property (VObj kd props) k v = (Return tt, VObj kd' (put_prop k v props)).
Proof.
  intros Hk Hp. destruct kd; cbn [set_property]; rewrite ?Hk, Hp; cbn [andb]; eauto.
Qed.

Lemma get_parts_cons_obj o k rest kd props :
  get_parts o (k :: rest) = Return (VObj kd props) ->
  exists child, get_property o k = Return child
                /\ get_parts child rest = Return (VObj kd props).
Proof.
  cbn [get_parts].
  destruct o; try discriminate;
    (destruct (get_property _ k) as [child| |]; [eauto | discriminate | discriminate]).
Qed.

(** C6: when [a.b] is a one-element array holding a marker and the output
    for the placeholder at [a.b[0]] is an array of three strings, the write
    goes to [a.b]: afterwards [a.b] is the three-element array and [a.b[0]]
    its first element. *)
Theorem array_placeholder_replaces_parent doc marker s1 s2 s3 prompt :
  output_type prompt = ARRAY_OF_STRINGS ->
  getAtPath doc (js "a.b") = Return (mk_array [VStr marker]) ->
  let output := mk_array [VStr s1; VStr s2; VStr s3] in
  exists doc',
    setAtPath doc (target_path prompt output (js "a.b[0]")) output = (Return tt, doc')
    /\ getAtPath doc' (js "a.b") = Return output
    /\ getAtPath doc' (js "a.b[0]") = Return (VStr s1).
Proof.
  intros Htype Hget output.
  assert (Htarget : target_path prompt output (js "a.b[0]") = js "a.b").
  { unfold target_path. rewrite Htype, bool_decide_eq_true_2 by reflexivity. reflexivity. }
  rewrite Htarget.
  unfold getAtPath, setAtPath in *.
  change (path_parts (js "a.b")) with [js "a"; js "b"] in *.
  change (path_parts (js "a.b[0]")) with ([js "a"; js "b"] ++ [js "0"]).
  assert (Hset : exists doc', set_parts doc [js "a"; js "b"] output = (Return tt, doc')).
  { apply get_parts_cons_obj in Hget as (child & Ea & Hget).
    apply get_parts_cons_obj in Hget as (arr & Eb & Hget).
    cbn [get_parts] in Hget. injection Hget as ->.
    apply get_property_some_obj in Eb as (kd' & props' & -> & Hlb).
    apply get_property_some_obj in Ea as (kd & props & -> & Hla).
    rewrite set_parts_step.
    assert (Hhas : has_property (js "a") (VObj kd props) = Return true).
    { destruct kd; cbn [has_property]; rewrite Hla; reflexivity. }
    rewrite Hhas. cbn [get_property]. rewrite Hla.
    destruct (set_property_obj kd' props' (js "b") output eq_refl eq_refl) as [kd'' Hs].
    cbn [set_parts]. rewrite Hs. eauto. }
  destruct Hset as [doc' Hset]. exists doc'.
  assert (Hround : get_parts doc' [js "a"; js "b"] = Return output).
  { apply (set_parts_get_parts _ doc); [discriminate | exact Hset]. }
  split; [exact Hset|]. split; [exact Hround|].
  rewrite get_parts_app, Hround. reflexivity.
Qed.



(** An instance: the array placeholder of the sample report. *)
Lemma array_placeholder_replaces_parent_witness :
  output_type sample_items_prompt = ARRAY_OF_STRINGS
  /\ getAtPath sample_report (js "a.b")
     = Return (mk_array [VStr (js "[LLM_PLACEHOLDER: scope_items]")])
  /\ exists doc',
       setAtPath sample_report
         (target_path sample_items_prompt
            (mk_array [VStr (js "x"); VStr (js "y"); VStr (js "z")]) (js "a.b[0]"))
         (mk_array [VStr (js "x"); VStr (js "y"); VStr (js "z")]) = (Return tt, doc')
       /\ getAtPath doc' (js "a.b")
          = Return (mk_array [VStr (js "x"); VStr (js "y"); VStr (js "z")])
       /\ getAtPath doc' (js "a.b[0]") = Return (VStr (js "x")).
Proof.
  split; [reflexivity|]. split; [reflexivity|].
  apply (array_placeholder_replaces_parent sample_report
           (js "[LLM_PLACEHOLDER: scope_items]") (js "x") (js "y") (js "z")
           sample_items_prompt); reflexivity.
Defined.

(** ** Reasoning about computations *)

Lemma triple_conseq {E A} (P P' : World E -> Prop) (m : M E A) Q Q' X X' :
  triple P' m Q' X' ->
  (forall w, P w -> P' w) -> (forall a w, Q' a w -> Q a w) -> (forall w, X' w -> X w) ->
  triple P m Q X.
Proof.
  intros H HP HQ HX w Hw. specialize (H w (HP w Hw)).
  destruct (m w) as [[a|e|] w']; auto.
Qed.

Lemma triple_ret {E A} (P : World E -> Prop) (a : A) Q X :
  (forall w, P w -> Q a w) -> triple P (ret a) Q X.
Proof. intros H w Hw. apply H, Hw. Qed.

Lemma triple_bind {E A B} (P : World E -> Prop) (m : M E A) (f : A -> M E B) Q' Q X :
  triple P m Q' X -> (forall a, triple (Q' a) (f a) Q X) -> triple P (bind m f) Q X.
Proof.
  intros Hm Hf w Hw. specialize (Hm w Hw). unfold bind.
  destruct (m w) as [[a|e|] w']; [|exact Hm|exact Hm].
  apply (Hf a w' Hm).
Qed.

Lemma triple_try_catch {E A} (P : World E -> Prop) (m : M E A) h Q X X' :
  triple P m Q X' -> (forall e, triple X' (h e) Q X) -> (forall w, X' w -> X w) ->
  triple P (try_catch m h) Q X.
Proof.
  intros Hm Hh HX w Hw. specialize (Hm w Hw). unfold try_catch.
  destruct (m w) as [[a|e|] w']; [exact Hm | | apply HX, Hm].
  apply (Hh e w' Hm).
Qed.

Lemma triple_lift {E A} (P : World E -> Prop) (c : completion A) Q X :
  (forall w, P w -> match c with Return a => Q a w | _ => X w end) ->
  triple P (lift c) Q X.
Proof. intros H w Hw. specialize (H w Hw). unfold lift. destruct c; exact H. Qed.

Lemma triple_throw {E A} (P : World E -> Prop) e (Q : A -> _) X :
  (forall w, P w -> X w) -> triple P (throw e) Q X.
Proof. intros H w Hw. apply H, Hw. Qed.

Lemma triple_stuck {E A} (P : World E -> Prop) (Q : A -> _) X :
  (forall w, P w -> X w) -> triple P stuck Q X.
Proof. intros H w Hw. apply H, Hw. Qed.

Lemma triple_this {E} (P : World E -> Prop) Q X :
  (forall w, P w -> Q (executor w) w) -> triple P this Q X.
Proof. intros H w Hw. apply H, Hw. Qed.

Lemma triple_bind_this {E B} (P : World E -> Prop) (f : E -> M E B) Q X :
  (forall e, triple (fun w => P w /\ executor w = e) (f e) Q X) ->
  triple P (bind this f) Q X.
Proof. intros H w Hw. apply (H (executor w) w). auto. Qed.

(** An invariant that does not look at what a step changes survives it. *)
Lemma keeps_bind {E A B} (I : World E -> Prop) (m : M E A) (f : A -> M E B) :
  keeps I m -> (forall a, keeps I (f a)) -> keeps I (bind m f).
Proof. intros Hm Hf. eapply triple_bind; [exact Hm | exact Hf]. Qed.

Lemma keeps_try_catch {E A} (I : World E -> Prop) (m : M E A) h :
  keeps I m -> (forall e, keeps I (h e)) -> keeps I (try_catch m h).
Proof. intros Hm Hh. eapply triple_try_catch; [exact Hm | exact Hh | auto]. Qed.

Lemma keeps_ret {E A} (I : World E -> Prop) (a : A) : keeps I (ret a).
Proof. apply triple_ret. auto. Qed.

Lemma keeps_lift {E A} (I : World E -> Prop) (c : completion A) : keeps I (lift c).
Proof. apply triple_lift. intros w Hw. destruct c; exact Hw. Qed.

Lemma keeps_throw {E A} (I : World E -> Prop) e : keeps I (throw (A:=A) e).
Proof. apply triple_throw. auto. Qed.

Lemma keeps_stuck {E A} (I : World E -> Prop) : keeps I (stuck (A:=A)).
Proof. apply triple_stuck. auto. Qed.

Lemma keeps_this {E} (I : World E -> Prop) : keeps I this.
Proof. apply triple_this. auto. Qed.

Lemma keeps_if {E A} (I : World E -> Prop) (b : bool) (m1 m2 : M E A) :
  keeps I m1 -> keeps I m2 -> keeps I (if b then m1 else m2).
Proof. destruct b; auto. Qed.

(** ** The per-placeholder run *)

(** *** Invariants of the run

    An invariant that survives the steps the executor is built from
    survives callLLM, the write of an answer and the whole loop over the
    placeholders. *)

Lemma keeps_read_doc {E} (I : World E -> Prop) r : keeps I (read_doc r).
Proof. intros w Hw. unfold read_doc. destruct (heap w !! r); exact Hw. Qed.

Lemma triple_weaken {E A} (P I : World E -> Prop) (m : M E A) :
  keeps I m -> (forall w, P w -> I w) -> triple P m (fun _ => I) I.
Proof. intros H HP. eapply triple_conseq; [exact H | exact HP | auto | auto]. Qed.

Section Stable.
Context (cfg : ModelConfig) (host : Host) (filled : nat) (I : World LLMExecutor -> Prop).
Hypothesis I_request : forall e text,
  triple (fun w => I w /\ executor w = e) (request host (currentModel e) text) (fun _ => I) I.
Hypothesis I_sleep : forall ms, keeps I (sleep host ms).
Hypothesis I_Date_now : keeps I (Date_now host).
Hypothesis I_fallback : keeps I (fallbackToNextModel cfg host).
Hypothesis I_stats : forall e s,
  triple (fun w => I w /\ executor w = e) (set_this (with_stats s e)) (fun _ => I) I.
Hypothesis I_write : forall v, keeps I (write_doc filled v).
Hypothesis I_called : forall e t,
  triple (fun w => I w /\ executor w = e) (log (Called (currentModel e) t)) (fun _ => I) I.

Lemma stable_callLLM_loop fuel : forall text attempt fa le,
  keeps I (callLLM_loop cfg host fuel text attempt fa le).
Proof.
  induction fuel as [|fuel IH]; intros text attempt fa le; cbn [callLLM_loop].
  { apply keeps_stuck. }
  apply triple_bind_this. intros e.
  destruct (attempt <=? maxRetries e); [|apply triple_ret; tauto].
  eapply triple_bind; [apply I_request | intros [content tokens|err]].
  - apply triple_bind_this. intros e1.
    eapply triple_bind; [apply I_stats | intros ?; apply keeps_ret].
  - destruct (isRateLimitError cfg err && negb fa).
    + eapply triple_bind; [apply I_fallback | intros [|]]; [apply IH|].
      eapply triple_bind; [apply I_sleep | intros ?; apply IH].
    + destruct (isRetryable err && (attempt <? maxRetries e)); [|apply keeps_ret].
      eapply triple_bind; [apply I_sleep | intros ?; apply IH].
Qed.

Lemma stable_callLLM prompt context : keeps I (callLLM cfg host prompt context).
Proof.
  unfold callLLM, renderPrompt.
  eapply triple_bind; [apply keeps_lift | intros userPrompt].
  apply triple_bind_this. intros e. apply triple_weaken; [|tauto].
  destruct (dryRun e); [apply keeps_ret|].
  destruct (apiKey e) as [[|c key]|]; try apply keeps_throw.
  eapply triple_bind; [apply stable_callLLM_loop | intros [content tokens|[lastError|]]].
  - apply keeps_ret.
  - apply triple_bind_this. intros e'.
    eapply triple_bind; [apply I_stats | intros ?; apply keeps_throw].
  - apply keeps_throw.
Qed.

Lemma stable_setAtPath_in target output : keeps I (setAtPath_in filled target output).
Proof.
  unfold setAtPath_in.
  eapply triple_bind; [apply keeps_read_doc | intros doc].
  destruct (setAtPath doc target output) as [r doc'].
  eapply triple_bind; [apply I_write | intros ?; apply keeps_lift].
Qed.

Lemma stable_call_and_write placeholder prompt context :
  keeps I (call_and_write cfg host filled placeholder prompt context).
Proof.
  unfold call_and_write.
  eapply triple_bind; [apply stable_callLLM | intros result].
  eapply triple_bind; [|intros output; apply stable_setAtPath_in].
  destruct (bool_decide _); [apply keeps_lift | apply keeps_ret].
Qed.

Lemma stable_rate_limit_wait lrt : keeps I (rate_limit_wait cfg host lrt).
Proof.
  unfold rate_limit_wait. apply triple_bind_this. intros e. apply triple_weaken; [|tauto].
  eapply triple_bind; [apply I_Date_now | intros now].
  destruct (_ && _); [apply I_sleep | apply keeps_ret].
Qed.

Lemma stable_fill_each skip placeholders : forall lrt,
  keeps I (fill_each cfg host skip filled placeholders lrt).
Proof.
  induction placeholders as [|p rest IH]; intros lrt; cbn [fill_each]; [apply keeps_ret|].
  destruct (table_lookup _ _) as [promptId|]; [|apply IH].
  apply triple_bind_this. intros e.
  destruct (getPrompt e promptId) as [prompt|]; [|apply triple_weaken; [apply IH | tauto]].
  eapply triple_bind.
  { destruct (_ && _); [apply I_stats | apply triple_ret; tauto]. }
  intros ?. eapply triple_bind.
  { apply keeps_try_catch; [|intros ?; apply keeps_ret].
    eapply triple_bind; [apply stable_rate_limit_wait | intros ?].
    eapply triple_bind; [apply keeps_read_doc | intros doc].
    eapply triple_bind; [apply keeps_lift | intros ?; apply keeps_ret]. }
  intros [context|]; [|apply IH].
  eapply triple_bind; [apply I_Date_now | intros now].
  apply triple_bind_this. intros e'.
  eapply triple_bind; [apply I_called | intros ?].
  eapply triple_bind; [|intros ?; apply IH].
  apply keeps_try_catch; [apply stable_call_and_write | intros ?; apply keeps_ret].
Qed.
End Stable.

(** *** The model pointer only moves down the chain *)

Lemma next_in_chain_In chain m n : next_in_chain chain m = Some n -> n ∈ chain.
Proof.
  induction chain as [|x rest IH]; simpl; [discriminate|].
  destruct (decide (x = m)).
  - destruct rest; simpl; [discriminate|]. intros [= ->]. right. left.
  - intros H. right. apply IH, H.
Qed.

Lemma rank_from_next i chain m n :
  NoDup chain -> next_in_chain chain m = Some n ->
  rank_from i chain n = S (rank_from i chain m).
Proof.
  revert i. induction chain as [|x rest IH]; intros i Hnd; simpl; [discriminate|].
  apply NoDup_cons in Hnd as [Hx Hnd].
  destruct (decide (x = m)) as [->|Hne].
  - destruct rest as [|y rest']; simpl; [discriminate|]. intros [= ->].
    destruct (decide (m = n)) as [->|_]; [exfalso; apply Hx; left|].
    destruct (decide (n = n)); congruence.
  - intros Hnext. pose proof (next_in_chain_In _ _ _ Hnext) as Hin.
    destruct (decide (x = n)) as [->|_]; [contradiction|].
    apply IH; assumption.
Qed.

Lemma rank_next cfg m n :
  NoDup (MODEL_FALLBACK_ORDER cfg) -> getNextFallbackModel cfg m = Some n ->
  rank cfg n = S (rank cfg m).
Proof. apply rank_from_next. Qed.

Lemma requested_app tr1 tr2 : requested (tr1 ++ tr2) = requested tr1 ++ requested tr2.
Proof. unfold requested. apply flat_map_app. Qed.

Lemma StronglySorted_snoc {A} (R : A -> A -> Prop) l x :
  StronglySorted R l -> Forall (fun y => R y x) l -> StronglySorted R (l ++ [x]).
Proof.
  induction 1 as [|y l Hs IH Hy]; intros Hall; simpl.
  - repeat constructor.
  - apply Forall_cons in Hall as [Hyx Hall]. constructor; [apply IH, Hall|].
    apply Forall_app. split; [exact Hy | repeat constructor; exact Hyx].
Qed.

Ltac tr_simpl :=
  cbn [trace]; rewrite ?requested_app; cbn [requested flat_map app];
  rewrite ?app_nil_r; reflexivity.

Lemma replay_app cfg tr1 : forall cur tr2,
  replay cfg cur (tr1 ++ tr2)
  = match replay cfg cur tr1 with
    | Some x => replay cfg x tr2
    | None => None
    end.
Proof.
  induction tr1 as [|ev tr1 IH]; intros cur tr2; [reflexivity|].
  destruct ev as [m t|ms|m t|a b]; cbn [app replay]; try apply IH.
  - destruct (decide (m = cur)); [apply IH | reflexivity].
  - destruct (decide (a = cur)); [|reflexivity].
    destruct (decide (getNextFallbackModel cfg a = Some b)); [apply IH | reflexivity].
Qed.

(** Along a trace that follows the pointer, ranks only grow: the requests
    go to models ranked between the first and the last model, in order. *)
Lemma replay_ranks cfg tr : forall cur last,
  NoDup (MODEL_FALLBACK_ORDER cfg) ->
  replay cfg cur tr = Some last ->
  (rank cfg cur <= rank cfg last)%nat
  /\ Forall (fun m => (rank cfg cur <= rank cfg m)%nat) (requested tr)
  /\ StronglySorted (fun a b => (rank cfg a <= rank cfg b)%nat) (requested tr).
Proof.
  induction tr as [|ev tr IH]; intros cur last Hnd Hrun.
  { injection Hrun as <-. cbn. repeat constructor. }
  destruct ev as [m t|ms|m t|a b]; cbn [replay] in Hrun;
    try (apply (IH cur last Hnd Hrun)).
  - destruct (decide (m = cur)) as [->|]; [|discriminate].
    destruct (IH cur last Hnd Hrun) as (Hle & Hall & Hsorted).
    change (requested (Requested cur t :: tr)) with (cur :: requested tr).
    split; [exact Hle|]. split; constructor; auto.
  - destruct (decide (a = cur)) as [->|]; [|discriminate].
    destruct (decide (getNextFallbackModel cfg cur = Some b)) as [Hnext|]; [|discriminate].
    pose proof (rank_next cfg cur b Hnd Hnext) as Hrank.
    destruct (IH b last Hnd Hrun) as (Hle & Hall & Hsorted).
    change (requested (Switched cur b :: tr)) with (requested tr).
    split; [lia|]. split; [|exact Hsorted].
    eapply Forall_impl; [exact Hall|]. cbn. intros m Hm. lia.
Qed.

(** Once the pointer has left a model, no request goes to it or to a model
    ranked before it. *)
Lemma replay_left_behind cfg first before a b after last :
  NoDup (MODEL_FALLBACK_ORDER cfg) ->
  replay cfg first (before ++ Switched a b :: after) = Some last ->
  rank cfg b = S (rank cfg a)
  /\ forall m t, In (Requested m t) after -> (rank cfg a < rank cfg m)%nat.
Proof.
  intros Hnd Hrun. rewrite replay_app in Hrun.
  destruct (replay cfg first before) as [x|]; [|discriminate].
  cbn [replay] in Hrun.
  destruct (decide (a = x)) as [->|]; [|discriminate].
  destruct (decide (getNextFallbackModel cfg x = Some b)) as [Hnext|]; [|discriminate].
  pose proof (rank_next cfg x b Hnd Hnext) as Hrank. split; [exact Hrank|].
  intros m t Hin. destruct (replay_ranks cfg after b last Hnd Hrun) as (_ & Hall & _).
  rewrite Forall_forall in Hall.
  assert (Hm : (rank cfg b <= rank cfg m)%nat).
  { apply Hall. apply list_elem_of_In. unfold requested. apply in_flat_map.
    exists (Requested m t). split; [exact Hin | left; reflexivity]. }
  lia.
Qed.

Section Degrade.
Context (cfg : ModelConfig) (host : Host) (first : jstring) (start : nat).
Hypothesis chain_distinct : NoDup (MODEL_FALLBACK_ORDER cfg).
Local Abbreviation I := (degrades_only cfg first start).

Lemma degrade_ext (w w' : World LLMExecutor) more :
  I w -> currentModel (executor w') = currentModel (executor w) ->
  trace w' = trace w ++ more -> forallb passive more = true ->
  I w'.
Proof.
  unfold degrades_only. intros [Hrun Hlow] Hm Htr Hmore. rewrite Hm, Htr, replay_app, Hrun.
  split; [|exact Hlow]. clear -Hmore.
  induction more as [|ev more IH]; [reflexivity|].
  cbn [forallb] in Hmore. apply andb_prop in Hmore as [Hev Hmore].
  destruct ev; try discriminate; apply IH, Hmore.
Qed.

Lemma degrade_same (w w' : World LLMExecutor) :
  I w -> currentModel (executor w') = currentModel (executor w) ->
  trace w' = trace w -> I w'.
Proof.
  intros Hw Hm Htr. apply (degrade_ext w w' []); [exact Hw | exact Hm | | reflexivity].
  rewrite app_nil_r. exact Htr.
Qed.

Lemma degrade_fallbackToNextModel : keeps I (fallbackToNextModel cfg host).
Proof.
  intros w Hw. unfold fallbackToNextModel. cbn.
  destruct (getNextFallbackModel cfg (currentModel (executor w))) as [[|c n]|] eqn:Hn;
    cbn; [exact Hw | | exact Hw].
  pose proof (rank_next _ _ _ chain_distinct Hn) as Hr.
  destruct Hw as [Hrun Hlow]. unfold degrades_only. cbn.
  rewrite replay_app, Hrun. cbn [replay].
  rewrite decide_True by reflexivity. rewrite decide_True by exact Hn.
  split; [reflexivity | lia].
Qed.

Lemma degrade_sleep ms : keeps I (sleep host ms).
Proof.
  intros w Hw. cbn. apply (degrade_ext w _ [Slept ms]); [exact Hw | reflexivity..].
Qed.

Lemma degrade_Date_now : keeps I (Date_now host).
Proof. intros w Hw. cbn. apply (degrade_same w); [exact Hw | reflexivity..]. Qed.

Lemma degrade_request_t e text :
  triple (fun w => I w /\ executor w = e) (request host (currentModel e) text)
         (fun _ => I) I.
Proof.
  intros w [[Hrun Hlow] <-]. unfold degrades_only. cbn.
  rewrite replay_app, Hrun. cbn [replay]. rewrite decide_True by reflexivity.
  split; [reflexivity | exact Hlow].
Qed.

Lemma degrade_stats e s :
  triple (fun w => I w /\ executor w = e) (set_this (with_stats s e)) (fun _ => I) I.
Proof.
  intros w [Hw <-]. cbn. apply (degrade_same w); [exact Hw | reflexivity..].
Qed.

Lemma degrade_write_doc r v : keeps I (write_doc r v).
Proof. intros w Hw. cbn. apply (degrade_same w); [exact Hw | reflexivity..]. Qed.

Lemma degrade_alloc_doc v : keeps I (alloc_doc v).
Proof. intros w Hw. cbn. apply (degrade_same w); [exact Hw | reflexivity..]. Qed.

Lemma degrade_log_called e t :
  triple (fun w => I w /\ executor w = e) (log (Called (currentModel e) t)) (fun _ => I) I.
Proof.
  intros w [Hw _]. cbn.
  apply (degrade_ext w _ [Called (currentModel e) t]); [exact Hw | reflexivity..].
Qed.

Lemma degrade_fill_each skip filled placeholders lrt :
  keeps I (fill_each cfg host skip filled placeholders lrt).
Proof.
  apply stable_fill_each;
    auto using degrade_request_t, degrade_sleep, degrade_Date_now,
      degrade_fallbackToNextModel, degrade_stats, degrade_write_doc, degrade_log_called.
Qed.

Lemma degrade_fillPlaceholders reportJson skip :
  keeps I (fillPlaceholders cfg host reportJson skip).
Proof.
  unfold fillPlaceholders.
  eapply triple_bind; [apply keeps_read_doc | intros doc].
  eapply triple_bind; [apply keeps_lift | intros copy].
  eapply triple_bind; [apply degrade_alloc_doc | intros filled].
  eapply triple_bind; [apply degrade_fill_each | intros ?; apply keeps_ret].
Qed.

End Degrade.

(** C4: a run of fillPlaceholders follows the model pointer down the
    fallback chain.  If so far every request went to the model the pointer
    was on when it was sent and every move of the pointer went to the
    successor of the model it left, then the same holds after the run.  So
    the pointer ends no earlier in the chain than it started, the requests
    go to models of non-decreasing rank, every move goes one rank down the
    chain, and once the pointer has left a model no later request goes to
    that model or to one ranked before it. *)
Theorem fallback_only_moves_forward cfg host reportJson skip first w :
  NoDup (MODEL_FALLBACK_ORDER cfg) ->
  replay cfg first (trace w) = Some (currentModel (executor w)) ->
  let w' := snd (fillPlaceholders cfg host reportJson skip w) in
  replay cfg first (trace w') = Some (currentModel (executor w'))
  /\ (rank cfg (currentModel (executor w)) <= rank cfg (currentModel (executor w')))%nat
  /\ StronglySorted (fun a b => (rank cfg a <= rank cfg b)%nat) (requested (trace w'))
  /\ (forall before a b after,
        trace w' = before ++ Switched a b :: after ->
        rank cfg b = S (rank cfg a)
        /\ forall m t, In (Requested m t) after -> (rank cfg a < rank cfg m)%nat).
Proof.
  intros Hnd Hw w'.
  assert (H : degrades_only cfg first (rank cfg (currentModel (executor w))) w').
  { pose proof (degrade_fillPlaceholders cfg host first
                  (rank cfg (currentModel (executor w))) Hnd reportJson skip w
                  (conj Hw (Nat.le_refl _))) as H.
    subst w'. destruct (fillPlaceholders cfg host reportJson skip w) as [[?|?|] ?]; exact H. }
  destruct H as [Hrun Hlow]. split; [exact Hrun|]. split; [exact Hlow|]. split.
  - apply (replay_ranks cfg (trace w') first _ Hnd Hrun).
  - intros before a b after Htr. rewrite Htr in Hrun.
    apply (replay_left_behind cfg first before a b after _ Hnd Hrun).
Qed.

(** *** One fallback per call *)

Section OneFallback.
Context (cfg : ModelConfig) (host : Host).

Lemma transitions_fallbackToNextModel k X :
  triple (fun w => transitions w = k) (fallbackToNextModel cfg host)
         (fun b w => transitions w = if b then S k else k) X.
Proof.
  intros w Hw. unfold fallbackToNextModel. cbn.
  destruct (getNextFallbackModel cfg (currentModel (executor w))) as [[|c n]|]; cbn;
    [exact Hw | | exact Hw].
  unfold transitions in *. cbn. rewrite length_app. cbn. lia.
Qed.

Lemma transitions_request k model text X :
  triple (fun w => transitions w = k) (request host model text)
         (fun _ w => transitions w = k) X.
Proof. intros w Hw. exact Hw. Qed.

Lemma transitions_sleep k ms X :
  triple (fun w => transitions w = k) (sleep (E:=LLMExecutor) host ms)
         (fun _ w => transitions w = k) X.
Proof. intros w Hw. exact Hw. Qed.

Lemma transitions_set_this k e e' X :
  fallbackHistory e' = fallbackHistory e ->
  triple (fun w => transitions w = k /\ executor w = e) (set_this e')
         (fun _ w => transitions w = k) X.
Proof. intros Hh w [Hw <-]. unfold transitions in *. cbn. rewrite Hh. exact Hw. Qed.

Lemma recorded_same fa k w : transitions w = k -> recorded fa k w.
Proof. unfold recorded. destruct fa; lia. Qed.

Lemma transitions_callLLM_loop fuel : forall text attempt fa le k,
  triple (fun w => transitions w = k)
         (callLLM_loop cfg host fuel text attempt fa le)
         (fun _ => recorded fa k) (recorded fa k).
Proof.
  induction fuel as [|fuel IH]; intros text attempt fa le k; cbn [callLLM_loop].
  { apply triple_stuck. apply recorded_same. }
  apply triple_bind_this. intros e.
  destruct (attempt <=? maxRetries e).
  2:{ apply triple_ret. intros w [Hw _]. apply recorded_same, Hw. }
  eapply triple_bind.
  { eapply triple_conseq; [apply (transitions_request k) | tauto | | ];
      intros; eassumption. }
  intros [content tokens|err].
  - apply triple_bind_this. intros e1.
    eapply triple_bind.
    + apply (transitions_set_this k e1). reflexivity.
    + intros ?. apply triple_ret. apply recorded_same.
  - destruct fa; cbn [negb andb].
    + rewrite Bool.andb_false_r.
      destruct (isRetryable err && (attempt <? maxRetries e));
        [|apply triple_ret; apply recorded_same].
      eapply triple_bind; [apply (transitions_sleep k) | intros ?; apply (IH _ _ true)].
    + rewrite Bool.andb_true_r. destruct (isRateLimitError cfg err).
      * eapply triple_bind; [apply (transitions_fallbackToNextModel k)|].
        intros [|].
        -- eapply triple_conseq; [apply (IH _ _ true _ (S k)) | auto | |];
             unfold recorded; intros; lia.
        -- eapply triple_bind; [apply (transitions_sleep k) | intros ?; apply (IH _ _ false)].
      * destruct (isRetryable err && (attempt <? maxRetries e));
          [|apply triple_ret; apply recorded_same].
        eapply triple_bind; [apply (transitions_sleep k) | intros ?; apply (IH _ _ false)].
Qed.

Lemma transitions_callLLM prompt context k :
  triple (fun w => transitions w = k) (callLLM cfg host prompt context)
         (fun _ => recorded false k) (recorded false k).
Proof.
  unfold callLLM, renderPrompt.
  eapply triple_bind with (Q' := fun _ w => transitions w = k).
  { apply triple_lift. intros w Hw.
    destruct (Mustache_render _ _ _); [exact Hw | |]; apply recorded_same, Hw. }
  intros userPrompt. apply triple_bind_this. intros e.
  destruct (dryRun e); [apply triple_ret; intros w [Hw _]; apply recorded_same, Hw|].
  destruct (apiKey e) as [[|c key]|];
    try (apply triple_throw; intros w [Hw _]; apply recorded_same, Hw).
  eapply triple_bind.
  { eapply triple_conseq; [apply (transitions_callLLM_loop _ _ _ false _ k) | tauto | |];
      intros; eassumption. }
  intros [content tokens|[lastError|]]; cbn.
  - apply triple_ret. auto.
  - apply triple_bind_this. intros e'. cbn.
    eapply triple_bind with (Q' := fun _ => recorded false k).
    + intros w [Hw <-]. exact Hw.
    + intros ?. apply triple_throw. auto.
  - apply triple_throw. auto.
Qed.
End OneFallback.

(** *** The trace only grows *)

Section Grows.
Context (cfg : ModelConfig) (host : Host) (pre : list Event).
Local Abbreviation G := (fun w : World LLMExecutor => pre `prefix_of` trace w).

Lemma grows_trace (w w' : World LLMExecutor) :
  trace w `prefix_of` trace w' -> G w -> G w'.
Proof. cbn. intros H Hw. etransitivity; eassumption. Qed.

Lemma grows_sleep ms : keeps G (sleep host ms).
Proof. intros w Hw. eapply grows_trace; [|exact Hw]. cbn. apply prefix_app_r. reflexivity. Qed.

Lemma grows_callLLM_loop fuel text attempt fa le :
  keeps G (callLLM_loop cfg host fuel text attempt fa le).
Proof.
  apply stable_callLLM_loop.
  - intros e text' w [Hw _]. eapply grows_trace; [|exact Hw]. cbn.
    apply prefix_app_r. reflexivity.
  - apply grows_sleep.
  - intros w Hw. unfold fallbackToNextModel. cbn.
    destruct (getNextFallbackModel cfg (currentModel (executor w))) as [[|c n]|];
      try exact Hw.
    eapply grows_trace; [|exact Hw]. cbn. apply prefix_app_r. reflexivity.
  - intros e s w [Hw _]. exact Hw.
Qed.
End Grows.

(** *** A service that always signals a rate limit *)

Lemma triple_snd {E A} (P R : World E -> Prop) (m : M E A) w :
  triple P m (fun _ => R) R -> P w -> R (snd (m w)).
Proof. intros H Hw. specialize (H w Hw). destruct (m w) as [[a|e|] w']; exact H. Qed.

Lemma slept_app l1 l2 : slept (l1 ++ l2) = slept l1 ++ slept l2.
Proof. unfold slept. apply flat_map_app. Qed.

Lemma fallbackToNextModel_moves cfg host (w : World LLMExecutor) next :
  getNextFallbackModel cfg (currentModel (executor w)) = Some next -> next <> [] ->
  fallbackToNextModel cfg host w
  = (Return true,
     mkWorld (with_fallback
                (mkFallbackInfo (currentModel (executor w)) next
                   (clock w + Z.abs (elapse host (steps w))))
                (with_currentModel next (executor w)))
       (heap w) (clock w + Z.abs (elapse host (steps w))) (S (steps w)) (sent w)
       (trace w ++ [Switched (currentModel (executor w)) next])).
Proof.
  intros Hnext Hne. unfold fallbackToNextModel. unfold bind at 1. cbn [this].
  rewrite Hnext. destruct next as [|c next']; [contradiction | reflexivity].
Qed.

Section AlwaysLimited.
Context (cfg : ModelConfig) (host : Host) (err : Error).
Context (retries : Z).
Hypothesis limited : isRateLimitError cfg err = true.
Hypothesis always : forall n model text, respond host n model text = Failure err.
Hypothesis retries_nonneg : 0 <= retries.

Lemma at_model_executor m k (w w' : World LLMExecutor) :
  executor w' = executor w -> at_model m k retries w -> at_model m k retries w'.
Proof. unfold at_model, transitions. intros ->. auto. Qed.

Lemma at_model_sleep m k ms X :
  triple (at_model m k retries) (sleep host ms) (fun _ => at_model m k retries) X.
Proof. intros w Hw. eapply at_model_executor; [|exact Hw]. reflexivity. Qed.

Lemma at_model_request m k model text X :
  triple (at_model m k retries) (request host model text)
         (fun r w => r = Failure err /\ at_model m k retries w) X.
Proof.
  intros w Hw. cbn. split; [apply always|].
  eapply at_model_executor; [|exact Hw]. reflexivity.
Qed.

(** After its fallback a call stays on the model it moved to. *)
Lemma at_model_loop_spent m k fuel : forall text attempt le,
  keeps (at_model m k retries) (callLLM_loop cfg host fuel text attempt true le).
Proof.
  induction fuel as [|fuel IH]; intros text attempt le; cbn [callLLM_loop].
  { apply keeps_stuck. }
  apply triple_bind_this. intros e.
  destruct (attempt <=? maxRetries e); [|apply triple_ret; tauto].
  eapply triple_bind.
  { eapply triple_conseq; [apply (at_model_request m k) | tauto | |];
      intros; eassumption. }
  intros r. apply triple_conseq with
    (P' := fun w => r = Failure err /\ at_model m k retries w)
    (Q' := fun _ => at_model m k retries) (X' := at_model m k retries); auto.
  intros w [-> Hw]. revert w Hw. change (keeps (at_model m k retries)
    (if isRateLimitError cfg err && negb true
     then switched <- fallbackToNextModel cfg host ;;
          if (switched : bool)
          then callLLM_loop cfg host fuel text 0 true (Some err)
          else sleep host (parseRetryAfter cfg err) ;;;
               callLLM_loop cfg host fuel text (attempt + 1) true (Some err)
     else if isRetryable err && (attempt <? maxRetries e)
          then sleep host (5000 * (attempt + 1)) ;;;
               callLLM_loop cfg host fuel text (attempt + 1) true (Some err)
          else ret (GaveUp (Some err)))).
  rewrite Bool.andb_false_r.
  destruct (isRetryable err && (attempt <? maxRetries e)); [|apply keeps_ret].
  eapply triple_bind; [apply at_model_sleep | intros ?; apply IH].
Qed.

Lemma at_model_fallbackToNextModel m next k X :
  getNextFallbackModel cfg m = Some next -> next <> [] ->
  triple (at_model m k retries) (fallbackToNextModel cfg host)
         (fun b w => b = true /\ at_model next (S k) retries w) X.
Proof.
  intros Hnext Hne w (Hm & Hk & Hkey & Hr & Hd). unfold fallbackToNextModel.
  unfold bind at 1. cbn [this]. rewrite Hm, Hnext.
  destruct next as [|c next']; [contradiction|]. cbn. split; [reflexivity|].
  unfold at_model, transitions in *. cbn. rewrite length_app. cbn.
  repeat split; auto. lia.
Qed.

Lemma at_model_fallbackToNextModel_last m k X :
  getNextFallbackModel cfg m = None ->
  triple (at_model m k retries) (fallbackToNextModel cfg host)
         (fun b w => b = false /\ at_model m k retries w) X.
Proof.
  intros Hnext w Hw. unfold fallbackToNextModel. cbn.
  destruct Hw as (Hm & Hw). rewrite Hm, Hnext. cbn. unfold at_model. auto.
Qed.

(** The first rate limit of a call moves it to the next model. *)
Lemma at_model_loop_fallback m next k fuel text attempt le :
  getNextFallbackModel cfg m = Some next -> next <> [] ->
  attempt <= retries ->
  triple (at_model m k retries)
         (callLLM_loop cfg host (S fuel) text attempt false le)
         (fun _ => at_model next (S k) retries) (at_model next (S k) retries).
Proof.
  intros Hnext Hne Hle w Hw. cbn [callLLM_loop]. unfold bind at 1. cbn [this].
  assert (Hr : maxRetries (executor w) = retries) by apply Hw.
  rewrite Hr. destruct (Z.leb_spec attempt retries) as [_|]; [|lia].
  unfold bind at 1.
  pose proof (at_model_request m k (currentModel (executor w)) text (fun _ => False) w Hw)
    as Hreq.
  destruct (request host (currentModel (executor w)) text w) as [[r|?|] w1];
    [|contradiction|contradiction].
  destruct Hreq as [-> Hw1]. rewrite limited. cbn [negb andb].
  unfold bind at 1.
  pose proof (at_model_fallbackToNextModel m next k (fun _ => False) Hnext Hne w1 Hw1)
    as Hfb.
  destruct (fallbackToNextModel cfg host w1) as [[b|?|] w2]; [|contradiction|contradiction].
  destruct Hfb as [-> Hw2].
  apply (at_model_loop_spent next (S k) fuel text 0 (Some err) w2 Hw2).
Qed.

Lemma at_model_callLLM m next k prompt context text :
  Mustache_render host (user_prompt_template prompt) context = Return text ->
  getNextFallbackModel cfg m = Some next -> next <> [] ->
  triple (at_model m k retries) (callLLM cfg host prompt context)
         (fun _ => at_model next (S k) retries) (at_model next (S k) retries).
Proof.
  intros Hrender Hnext Hne w Hw. unfold callLLM, renderPrompt. rewrite Hrender.
  unfold bind at 1. cbn [lift]. unfold bind at 1. cbn [this].
  destruct Hw as (Hm & Hk & (c & key & Hkey) & Hr & Hd). rewrite Hd, Hkey.
  unfold callLLM_fuel. unfold bind at 1.
  match goal with |- context [callLLM_loop cfg host (S ?f) ?t 0 false None w] =>
    pose proof (at_model_loop_fallback m next k f t 0 None Hnext Hne retries_nonneg w
                  ltac:(unfold at_model; eauto 10)) as Hloop;
    destruct (callLLM_loop cfg host (S f) t 0 false None w) as [[[c1 t1|[e1|]]|?|] w1]
  end; cbn; auto.
Qed.

(** On the last model every attempt is a request, a sleep for the time the
    service asked for, and one attempt less. *)
Lemma at_model_loop_last m k text : forall j fuel attempt le w,
  getNextFallbackModel cfg m = None ->
  attempt = retries + 1 - Z.of_nat j -> (j < fuel)%nat ->
  at_model m k retries w ->
  exists w',
    callLLM_loop cfg host fuel text attempt false le w
      = (Return (GaveUp (match j with O => le | S _ => Some err end)), w')
    /\ at_model m k retries w'
    /\ slept (trace w') = slept (trace w) ++ repeat (parseRetryAfter cfg err) j
    /\ requested (trace w') = requested (trace w) ++ repeat m j.
Proof.
  induction j as [|j IH]; intros fuel attempt le w Hnext Hatt Hfuel Hw;
    (destruct fuel as [|fuel]; [lia|]); cbn [callLLM_loop]; unfold bind at 1; cbn [this];
    assert (Hr : maxRetries (executor w) = retries) by apply Hw; rewrite Hr.
  - destruct (Z.leb_spec attempt retries); [lia|].
    exists w. cbn. rewrite !app_nil_r. auto.
  - destruct (Z.leb_spec attempt retries); [|lia].
    assert (Hm : currentModel (executor w) = m) by apply Hw. rewrite Hm.
    unfold bind at 1.
    pose proof (at_model_request m k m text (fun _ => False) w Hw) as Hreq.
    assert (Htr : forall w1, snd (request host m text w) = w1 ->
              slept (trace w1) = slept (trace w)
              /\ requested (trace w1) = requested (trace w) ++ [m]).
    { intros w1 <-. cbn. rewrite slept_app, requested_app. cbn.
      rewrite app_nil_r. auto. }
    destruct (request host m text w) as [[r|?|] w1]; [|contradiction|contradiction].
    destruct Hreq as [-> Hw1]. destruct (Htr w1 eq_refl) as [Hs1 Hq1].
    rewrite limited. cbn [negb andb]. unfold bind at 1.
    pose proof (at_model_fallbackToNextModel_last m k (fun _ => False) Hnext w1 Hw1) as Hfb.
    assert (Hsame : forall w2, snd (fallbackToNextModel cfg host w1) = w2 ->
              getNextFallbackModel cfg (currentModel (executor w1)) = None -> w2 = w1).
    { intros w2 <- Hn. unfold fallbackToNextModel. cbn. rewrite Hn. reflexivity. }
    destruct (fallbackToNextModel cfg host w1) as [[b|?|] w2]; [|contradiction|contradiction].
    destruct Hfb as [-> Hw2].
    assert (w2 = w1) as ->.
    { apply Hsame; [reflexivity|]. destruct Hw1 as [-> _]. exact Hnext. }
    unfold bind at 1.
    pose proof (at_model_sleep m k (parseRetryAfter cfg err) (fun _ => False) w1 Hw1) as Hsl.
    assert (Htr3 : forall w3, snd (sleep host (parseRetryAfter cfg err) w1) = w3 ->
              slept (trace w3) = slept (trace w1) ++ [parseRetryAfter cfg err]
              /\ requested (trace w3) = requested (trace w1)).
    { intros w3 <-. cbn. rewrite slept_app, requested_app. cbn.
      rewrite app_nil_r. auto. }
    destruct (sleep host (parseRetryAfter cfg err) w1) as [[[]|?|] w3];
      [|contradiction|contradiction].
    destruct (Htr3 w3 eq_refl) as [Hs3 Hq3].
    destruct (IH fuel (attempt + 1) (Some err) w3 Hnext ltac:(lia) ltac:(lia) Hsl)
      as (w' & Heq & Hw' & Hs' & Hq').
    exists w'. rewrite Heq. split; [destruct j; reflexivity|]. split; [exact Hw'|].
    rewrite Hs', Hq', Hs3, Hq3, Hs1, Hq1, <- !app_assoc. cbn [app repeat]. auto.
Qed.

(** A call on a model that has a successor: a request to the model, the
    move to the successor, and at once a request to the successor. *)
Lemma callLLM_with_next m next k prompt context text w :
  Mustache_render host (user_prompt_template prompt) context = Return text ->
  getNextFallbackModel cfg m = Some next -> next <> [] ->
  at_model m k retries w ->
  exists t1 t2,
    (trace w ++ [Requested m t1; Switched m next; Requested next t2])
      `prefix_of` trace (snd (callLLM cfg host prompt context w)).
Proof.
  intros Hrender Hnext Hne (Hm & Hk & (c & key & Hkey) & Hr & Hd).
  unfold callLLM, renderPrompt. rewrite Hrender.
  unfold bind at 1. cbn [lift]. unfold bind at 1. cbn [this].
  rewrite Hd, Hkey. unfold callLLM_fuel. rewrite Hr.
  destruct (Z.to_nat (retries + 1)) as [|n] eqn:Hn; [lia|].
  replace (2 * S n)%nat with (S (n + S n)) by lia.
  set (full := if nonempty (system_prompt prompt) then _ else _).
  assert (Hgo : exists t1 t2,
    (trace w ++ [Requested m t1; Switched m next; Requested next t2])
      `prefix_of` trace (snd (callLLM_loop cfg host (S (S (n + S n))) full 0 false None w))).
  { cbn [callLLM_loop]. unfold bind at 1. cbn [this]. rewrite Hr.
    destruct (Z.leb_spec 0 retries) as [_|]; [|lia].
    unfold bind at 1. unfold request at 1. unfold bind at 1. cbn [pass_time].
    cbn [sent executor heap clock steps trace]. rewrite always, limited. cbn [negb andb].
    unfold bind at 1.
    rewrite (fallbackToNextModel_moves cfg host _ next)
      by (cbn [executor]; (rewrite Hm; exact Hnext) || exact Hne).
    cbn -[callLLM_loop Z.add Z.abs]. rewrite Hr.
    destruct (Z.leb_spec 0 retries) as [_|]; [|lia].
    unfold bind at 1. unfold request at 1. unfold bind at 1. cbn [pass_time].
    cbn [sent executor heap clock steps trace currentModel]. rewrite always, limited.
    cbn [negb andb].
    eexists _, _.
    match goal with |- _ `prefix_of` trace (snd (?body ?w3)) =>
      set (W := w3);
      assert (Hk3 : keeps (fun w' : World LLMExecutor => trace W `prefix_of` trace w') body)
    end.
    { apply keeps_if; [|apply keeps_ret].
      apply keeps_bind; [apply grows_sleep | intros; apply grows_callLLM_loop]. }
    etransitivity;
      [|apply (triple_snd (fun w' : World LLMExecutor => trace W `prefix_of` trace w')
                 _ _ W Hk3); exists []; symmetry; apply app_nil_r].
    subst W. cbn [trace]. rewrite Hm, <- !app_assoc. exists []. rewrite app_nil_r.
    reflexivity. }
  destruct Hgo as (t1 & t2 & Hgo). exists t1, t2.
  unfold bind at 1.
  destruct (callLLM_loop cfg host (S (S (n + S n))) full 0 false None w)
    as [[[c1 k1|[e1|]]|?|] w1]; exact Hgo.
Qed.

(** A call on the last model: every attempt sleeps for the time the
    service asked for, and the call ends with the error. *)
Lemma callLLM_on_last m k prompt context text w :
  Mustache_render host (user_prompt_template prompt) context = Return text ->
  getNextFallbackModel cfg m = None ->
  at_model m k retries w ->
  exists w',
    callLLM cfg host prompt context w = (Throw err, w')
    /\ at_model m k retries w'
    /\ slept (trace w')
       = slept (trace w) ++ repeat (parseRetryAfter cfg err) (Z.to_nat (retries + 1))
    /\ requested (trace w') = requested (trace w) ++ repeat m (Z.to_nat (retries + 1)).
Proof.
  intros Hrender Hnext Hw. unfold callLLM, renderPrompt. rewrite Hrender.
  unfold bind at 1. cbn [lift]. unfold bind at 1. cbn [this].
  pose proof Hw as (Hm & Hk & (c & key & Hkey) & Hr & Hd).
  rewrite Hd, Hkey. unfold callLLM_fuel. rewrite Hr.
  set (full := if nonempty (system_prompt prompt) then _ else _).
  destruct (at_model_loop_last m k full (Z.to_nat (retries + 1))
              (S (2 * Z.to_nat (retries + 1))) 0 None w Hnext ltac:(lia) ltac:(lia) Hw)
    as (w' & Heq & Hw' & Hs & Hq).
  unfold bind at 1. rewrite Heq.
  destruct (Z.to_nat (retries + 1)) as [|n] eqn:Hn; [lia|].
  cbn. eexists. split; [reflexivity|]. cbn [trace]. split; [|split; assumption].
  destruct Hw' as (? & ? & ? & ? & ?). unfold at_model, transitions in *. cbn. auto 10.
Qed.
End AlwaysLimited.

(** C2, as the code has it: a call takes at most one fallback transition.
    With a service that always signals a rate limit and models [m1], [m2],
    [m3] in chain order, a first call requests [m1], moves to [m2] and at
    once requests [m2]; a second call moves to [m3]; a third call, on the
    last model, records no transition, sleeps for the signalled time after
    each of its [retries + 1] requests to [m3], and throws the error. *)
Theorem one_fallback_per_call cfg host err retries m1 m2 m3 k p1 c1 u1 p2 c2 u2 p3 c3 u3
    w0 :
  isRateLimitError cfg err = true ->
  (forall n model text, respond host n model text = Failure err) ->
  Mustache_render host (user_prompt_template p1) c1 = Return u1 ->
  Mustache_render host (user_prompt_template p2) c2 = Return u2 ->
  Mustache_render host (user_prompt_template p3) c3 = Return u3 ->
  0 <= retries ->
  getNextFallbackModel cfg m1 = Some m2 -> m2 <> [] ->
  getNextFallbackModel cfg m2 = Some m3 -> m3 <> [] ->
  getNextFallbackModel cfg m3 = None ->
  at_model m1 k retries w0 ->
  let w1 := snd (callLLM cfg host p1 c1 w0) in
  let w2 := snd (callLLM cfg host p2 c2 w1) in
  let r3 := callLLM cfg host p3 c3 w2 in
  (forall prompt context w,
      (transitions w <= transitions (snd (callLLM cfg host prompt context w))
       <= S (transitions w))%nat)
  /\ at_model m2 (S k) retries w1
  /\ (exists t1 t2,
        (trace w0 ++ [Requested m1 t1; Switched m1 m2; Requested m2 t2])
          `prefix_of` trace w1)
  /\ at_model m3 (S (S k)) retries w2
  /\ fst r3 = Throw err
  /\ at_model m3 (S (S k)) retries (snd r3)
  /\ slept (trace (snd r3))
     = slept (trace w2) ++ repeat (parseRetryAfter cfg err) (Z.to_nat (retries + 1))
  /\ requested (trace (snd r3)) = requested (trace w2) ++ repeat m3 (Z.to_nat (retries + 1)).
Proof.
  intros Hlim Halways Hu1 Hu2 Hu3 Hretries H12 Hm2 H23 Hm3 H3 Hw0 w1 w2 r3.
  assert (Hw1 : at_model m2 (S k) retries w1).
  { apply (triple_snd (at_model m1 k retries)); [|exact Hw0].
    apply (at_model_callLLM cfg host err retries Hlim Halways Hretries m1 m2 k p1 c1 u1);
      assumption. }
  assert (Hw2 : at_model m3 (S (S k)) retries w2).
  { apply (triple_snd (at_model m2 (S k) retries)); [|exact Hw1].
    apply (at_model_callLLM cfg host err retries Hlim Halways Hretries m2 m3 (S k)
             p2 c2 u2); assumption. }
  split.
  { intros prompt context w.
    apply (triple_snd (fun w' => transitions w' = transitions w)
             (recorded false (transitions w))); [|reflexivity].
    apply transitions_callLLM. }
  split; [exact Hw1|]. split.
  { apply (callLLM_with_next cfg host err retries Hlim Halways Hretries
             m1 m2 k p1 c1 u1 w0 Hu1 H12 Hm2 Hw0). }
  split; [exact Hw2|].
  destruct (callLLM_on_last cfg host err retries Hlim Halways Hretries
              m3 (S (S k)) p3 c3 u3 w2 Hu3 H3 Hw2) as (w' & Heq & Hw' & Hs & Hq).
  subst r3. rewrite Heq. cbn [fst snd]. auto.
Qed.

(** C2 fails as stated: with three models and a service that always signals
    a rate limit, one call records one transition, not two; it never
    sleeps, and it ends with the error while the executor is on the second
    model. *)
Lemma one_call_records_one_transition :
  let r := callLLM sample_config limited_host sample_title_prompt empty_object
             sample_world in
  fst r = Throw quota_error
  /\ transitions (snd r) = 1%nat
  /\ currentModel (executor (snd r)) = js "gemini-2.5-flash-lite"
  /\ requested (trace (snd r)) = [js "gemini-2.5-flash"; js "gemini-2.5-flash-lite"]
  /\ slept (trace (snd r)) = [].
Proof. vm_compute. repeat split. Qed.

(** An instance: three calls on the sample chain, every request refused. *)
Lemma one_fallback_per_call_witness :
  isRateLimitError sample_config quota_error = true
  /\ (forall n model text, respond limited_host n model text = Failure quota_error)
  /\ at_model (js "gemini-2.5-flash") 0 2 sample_world
  /\ getNextFallbackModel sample_config (js "gemini-2.5-flash")
     = Some (js "gemini-2.5-flash-lite")
  /\ getNextFallbackModel sample_config (js "gemini-2.5-flash-lite")
     = Some (js "gemma-3-27b")
  /\ getNextFallbackModel sample_config (js "gemma-3-27b") = None
  /\ Mustache_render limited_host (user_prompt_template sample_title_prompt) empty_object
     = Return SAMPLE_TEMPLATE
  /\ Mustache_render limited_host (user_prompt_template sample_items_prompt) empty_object
     = Return SAMPLE_TEMPLATE
  /\ Mustache_render limited_host (user_prompt_template sample_risk_prompt) empty_object
     = Return SAMPLE_TEMPLATE
  /\ let w1 := snd (callLLM sample_config limited_host sample_title_prompt empty_object
                      sample_world) in
     let w2 := snd (callLLM sample_config limited_host sample_items_prompt empty_object
                      w1) in
     let r3 := callLLM sample_config limited_host sample_risk_prompt empty_object w2 in
     transitions w2 = 2%nat
     /\ fst r3 = Throw quota_error
     /\ slept (trace (snd r3)) = slept (trace w2) ++ [60000; 60000; 60000].
Proof.
  assert (Hw : at_model (js "gemini-2.5-flash") 0 2 sample_world).
  { unfold at_model. repeat split; try reflexivity. eexists _, _. reflexivity. }
  split; [reflexivity|]. split; [reflexivity|]. split; [exact Hw|].
  split; [reflexivity|]. split; [reflexivity|]. split; [reflexivity|].
  split; [reflexivity|]. split; [reflexivity|]. split; [reflexivity|].
  destruct (one_fallback_per_call sample_config limited_host quota_error 2
              (js "gemini-2.5-flash") (js "gemini-2.5-flash-lite") (js "gemma-3-27b") 0
              sample_title_prompt empty_object SAMPLE_TEMPLATE
              sample_items_prompt empty_object SAMPLE_TEMPLATE
              sample_risk_prompt empty_object SAMPLE_TEMPLATE
              sample_world eq_refl (fun _ _ _ => eq_refl) eq_refl eq_refl eq_refl
              ltac:(lia)
              eq_refl ltac:(discriminate) eq_refl ltac:(discriminate) eq_refl Hw)
    as (_ & _ & _ & Hw2 & Hthrow & _ & Hslept & _).
  split; [apply Hw2|]. split; [exact Hthrow | exact Hslept].
Defined.

(** *** The report passed in is left alone *)

Section Frame.
Context (cfg : ModelConfig) (host : Host) (r : nat) (v : value) (filled : nat).
Hypothesis other : filled <> r.

Lemma frame_fill_each skip placeholders lrt :
  keeps (doc_is r v) (fill_each cfg host skip filled placeholders lrt).
Proof.
  apply stable_fill_each.
  - intros e text w [Hw _]. exact Hw.
  - intros ms w Hw. exact Hw.
  - intros w Hw. exact Hw.
  - intros w Hw. unfold fallbackToNextModel. cbn.
    destruct (getNextFallbackModel cfg (currentModel (executor w))) as [[|c n]|]; exact Hw.
  - intros e s w [Hw _]. exact Hw.
  - intros v' w Hw. unfold doc_is in *. cbn. rewrite lookup_insert_ne by exact other.
    exact Hw.
  - intros e t w [Hw _]. exact Hw.
Qed.
End Frame.

(** C9: fillPlaceholders works on a copy held under a reference of its own;
    the document under the reference passed in is, after the call, what it
    was before, whether the call returns (a reference other than the one
    passed in) or stops on an error. *)
Theorem fillPlaceholders_preserves_input cfg host reportJson skip w :
  heap (snd (fillPlaceholders cfg host reportJson skip w)) !! reportJson
    = heap w !! reportJson
  /\ (forall filledReport,
        fst (fillPlaceholders cfg host reportJson skip w) = Return filledReport ->
        filledReport <> reportJson).
Proof.
  cbv [fillPlaceholders bind read_doc lift alloc_doc ret].
  destruct (heap w !! reportJson) as [doc|] eqn:Hdoc;
    [|split; [exact Hdoc | intros ? [=]]].
  destruct (json_clone doc) as [copy| |]; [|split; [exact Hdoc | intros ? [=]] ..].
  set (filled := fresh (dom (heap w))).
  assert (Hne : filled <> reportJson).
  { intros Heq. apply (is_fresh (dom (heap w))). fold filled. rewrite Heq.
    apply elem_of_dom. eauto. }
  set (w1 := mkWorld _ _ _ _ _ _).
  assert (H1 : doc_is reportJson doc w1).
  { unfold doc_is, w1. cbn. rewrite lookup_insert_ne by exact Hne. exact Hdoc. }
  pose proof (frame_fill_each cfg host reportJson doc filled Hne skip
                (findPlaceholders copy []) 0 w1 H1) as Hk.
  destruct (fill_each _ _ _ _ _ _ w1) as [[[]|e|] w2]; cbn [fst snd];
    (split; [exact Hk | intros f [=]; try subst f; exact Hne]).
Qed.

(** *** Spacing of the calls *)

Lemma called_app tr1 tr2 : called (tr1 ++ tr2) = called tr1 ++ called tr2.
Proof. unfold called. apply flat_map_app. Qed.

Lemma spaced_snoc cfg paid calls m t :
  spaced cfg paid calls ->
  (forall m' t', last calls = Some (m', t') -> getModelDelay cfg m paid <= t - t') ->
  spaced cfg paid (calls ++ [(m, t)]).
Proof.
  induction calls as [|[m1 t1] rest IH]; intros Hs Hlast; cbn; [auto|].
  destruct Hs as [Hhead Hs]. split.
  - destruct rest as [|[m2 t2] rest']; cbn; [|exact Hhead].
    apply (Hlast m1 t1). reflexivity.
  - apply IH; [exact Hs|]. intros m' t' Hl. apply (Hlast m' t').
    destruct rest; [discriminate|]. exact Hl.
Qed.

Lemma spaced_lookup cfg paid calls : forall i m1 t1 m2 t2,
  spaced cfg paid calls ->
  calls !! i = Some (m1, t1) -> calls !! S i = Some (m2, t2) ->
  getModelDelay cfg m2 paid <= t2 - t1.
Proof.
  induction calls as [|[m t] rest IH]; intros i m1 t1 m2 t2 Hs H1 H2; [discriminate|].
  destruct Hs as [Hhead Hs]. destruct i as [|i].
  - injection H1 as -> ->. destruct rest as [|[m' t'] rest']; [discriminate|].
    injection H2 as -> ->. exact Hhead.
  - apply (IH i m1 t1 m2 t2 Hs H1 H2).
Qed.

Section Pacing.
Context (cfg : ModelConfig) (host : Host) (paid : bool).

Lemma pacing_later lrt (w w' : World LLMExecutor) :
  pacing cfg paid lrt w ->
  called (trace w') = called (trace w) -> clock w <= clock w' ->
  usePaidTier (executor w') = usePaidTier (executor w) ->
  pacing cfg paid lrt w'.
Proof.
  unfold pacing. intros (Hs & Hl & Hc & Hpos & Hp) -> Hle ->.
  repeat split; try assumption; try lia; apply (Hl m t); assumption.
Qed.

Lemma pacing_request lrt e text :
  triple (fun w => pacing cfg paid lrt w /\ executor w = e)
         (request host (currentModel e) text) (fun _ => pacing cfg paid lrt)
         (pacing cfg paid lrt).
Proof.
  intros w [Hw _]. cbn. apply (pacing_later lrt w); [exact Hw | | cbn; lia | reflexivity].
  cbn. rewrite called_app. cbn. apply app_nil_r.
Qed.

Lemma pacing_sleep lrt ms : keeps (pacing cfg paid lrt) (sleep host ms).
Proof.
  intros w Hw. cbn. apply (pacing_later lrt w); [exact Hw | | cbn; lia | reflexivity].
  cbn. rewrite called_app. cbn. apply app_nil_r.
Qed.

Lemma pacing_fallbackToNextModel lrt : keeps (pacing cfg paid lrt) (fallbackToNextModel cfg host).
Proof.
  intros w Hw. unfold fallbackToNextModel. cbn.
  destruct (getNextFallbackModel cfg (currentModel (executor w))) as [[|c n]|]; cbn;
    [exact Hw | | exact Hw].
  apply (pacing_later lrt w); [exact Hw | | cbn; lia | reflexivity].
  cbn. rewrite called_app. cbn. apply app_nil_r.
Qed.

Lemma pacing_stats lrt e s :
  triple (fun w => pacing cfg paid lrt w /\ executor w = e) (set_this (with_stats s e))
         (fun _ => pacing cfg paid lrt) (pacing cfg paid lrt).
Proof.
  intros w [Hw <-]. cbn.
  apply (pacing_later lrt w); [exact Hw | reflexivity | cbn; lia | reflexivity].
Qed.

Lemma pacing_write_doc lrt r v : keeps (pacing cfg paid lrt) (write_doc r v).
Proof.
  intros w Hw. cbn.
  apply (pacing_later lrt w); [exact Hw | reflexivity | cbn; lia | reflexivity].
Qed.

Lemma pacing_call_and_write lrt filled placeholder prompt context :
  keeps (pacing cfg paid lrt) (call_and_write cfg host filled placeholder prompt context).
Proof.
  apply stable_call_and_write;
    auto using pacing_request, pacing_sleep, pacing_fallbackToNextModel, pacing_stats,
      pacing_write_doc.
Qed.

(** After the wait the delay of the current model has passed since the
    last call started. *)
Lemma pacing_rate_limit_wait lrt :
  triple (pacing cfg paid lrt) (rate_limit_wait cfg host lrt)
         (fun _ w => pacing cfg paid lrt w /\ waited cfg paid lrt w)
         (pacing cfg paid lrt).
Proof.
  intros w Hw. unfold rate_limit_wait. unfold bind at 1. cbn [this].
  unfold bind at 1. cbn [Date_now bind pass_time].
  cbn [clock executor heap steps sent trace].
  pose proof Hw as (_ & _ & Hc & Hpos & Hp). rewrite Hp.
  set (now := clock w + Z.abs (elapse host (steps w))).
  set (delay := getModelDelay cfg (currentModel (executor w)) paid).
  destruct (Z.ltb_spec 0 lrt) as [Hlrt|Hlrt]; cbn [andb];
    [destruct (Z.ltb_spec (now - lrt) delay) as [Hlt|Hge]|]; cbn.
  - split.
    + apply (pacing_later lrt w); [exact Hw | | cbn; lia | reflexivity].
      cbn. rewrite called_app. cbn. apply app_nil_r.
    + unfold waited. cbn. fold delay. fold now. lia.
  - split.
    + apply (pacing_later lrt w); [exact Hw | reflexivity | cbn; lia | reflexivity].
    + unfold waited. cbn. fold delay. fold now. lia.
  - split.
    + apply (pacing_later lrt w); [exact Hw | reflexivity | cbn; lia | reflexivity].
    + unfold waited. lia.
Qed.

Lemma pacing_log_called lrt (w : World LLMExecutor) :
  pacing cfg paid lrt w -> waited cfg paid lrt w ->
  pacing cfg paid (clock w)
    (snd (log (Called (currentModel (executor w)) (clock w)) w)).
Proof.
  intros (Hs & Hl & Hc & Hpos & Hp) Hwait. unfold pacing. cbn.
  rewrite called_app. cbn. split; [|split; [|split; [|split]]]; try assumption; try lia.
  - apply spaced_snoc; [exact Hs|]. intros m' t' Hlast.
    destruct (Hl m' t' Hlast) as [-> Ht]. specialize (Hwait Ht). lia.
  - intros m t. rewrite last_snoc. intros [= <- <-]. auto.
Qed.

Lemma pacing_fill_each skip filled placeholders : forall lrt,
  triple (pacing cfg paid lrt) (fill_each cfg host skip filled placeholders lrt)
         (fun _ w => spaced cfg paid (called (trace w)))
         (fun w => spaced cfg paid (called (trace w))).
Proof.
  induction placeholders as [|p rest IH]; intros lrt; cbn [fill_each].
  { apply triple_ret. intros w Hw. apply Hw. }
  destruct (table_lookup _ _) as [promptId|]; [|apply IH].
  apply triple_bind_this. intros e.
  destruct (getPrompt e promptId) as [prompt|];
    [|eapply triple_conseq; [apply IH | tauto | auto | auto]].
  eapply triple_bind with (Q' := fun _ => pacing cfg paid lrt).
  { eapply triple_conseq with
      (P' := fun w => pacing cfg paid lrt w /\ executor w = e)
      (Q' := fun _ => pacing cfg paid lrt) (X' := pacing cfg paid lrt);
      [| auto | auto | intros w Hw; apply Hw].
    destruct (_ && _); [apply pacing_stats | apply triple_ret; tauto]. }
  intros ?.
  eapply triple_bind with
    (Q' := fun ready w => pacing cfg paid lrt w
                          /\ (ready <> None -> waited cfg paid lrt w)).
  { eapply triple_try_catch with (X' := pacing cfg paid lrt).
    - eapply triple_bind; [apply pacing_rate_limit_wait | intros ?].
      intros w [Hw Hwait]. unfold bind, read_doc. destruct (heap w !! filled); [|exact Hw].
      cbn. destruct (buildContextForPlaceholder host p v); cbn; auto.
    - intros ?. apply triple_ret. intros w Hw. split; [exact Hw | congruence].
    - intros w Hw. apply Hw. }
  intros [context|]; [|eapply triple_conseq; [apply IH | tauto | auto | auto]].
  intros w [Hw Hwait]. specialize (Hwait ltac:(discriminate)).
  unfold bind at 1. cbn [Date_now bind pass_time]. unfold bind at 1. cbn [this].
  unfold bind at 1.
  set (w1 := mkWorld (executor w) (heap w) _ (S (steps w)) (sent w) (trace w)).
  assert (Hw1 : pacing cfg paid lrt w1).
  { apply (pacing_later lrt w); [exact Hw | reflexivity | cbn; lia | reflexivity]. }
  assert (Hwait1 : waited cfg paid lrt w1).
  { unfold waited in *. cbn. intros Hl. specialize (Hwait Hl). lia. }
  pose proof (pacing_log_called lrt w1 Hw1 Hwait1) as Hlog.
  change (executor
            {| executor := executor w; heap := heap w;
               clock := clock w + Z.abs (elapse host (steps w));
               steps := S (steps w); sent := sent w; trace := trace w |})
    with (executor w1).
  change (clock w + Z.abs (elapse host (steps w))) with (clock w1).
  destruct (log (Called (currentModel (executor w1)) (clock w1)) w1) as [[[]|?|] w2] eqn:Hl2;
    try discriminate.
  cbn [snd] in Hlog.
  apply (triple_bind (pacing cfg paid (clock w1)) _ _ (fun _ => pacing cfg paid (clock w1)));
    [| intros ?; apply IH | exact Hlog].
  eapply triple_try_catch with (X' := pacing cfg paid (clock w1)).
  - apply pacing_call_and_write.
  - intros ?. apply triple_ret. auto.
  - intros w' Hw'. apply Hw'.
Qed.
End Pacing.

Lemma pacing_fillPlaceholders cfg host paid reportJson skip :
  triple (pacing cfg paid 0) (fillPlaceholders cfg host reportJson skip)
         (fun _ w => spaced cfg paid (called (trace w)))
         (fun w => spaced cfg paid (called (trace w))).
Proof.
  unfold fillPlaceholders.
  eapply triple_bind with (Q' := fun _ => pacing cfg paid 0).
  { eapply triple_conseq;
      [apply (keeps_read_doc (pacing cfg paid 0) reportJson) | auto | auto |].
    intros w Hw. apply Hw. }
  intros doc. eapply triple_bind with (Q' := fun _ => pacing cfg paid 0).
  { apply triple_lift. intros w Hw. destruct (json_clone doc); [exact Hw | apply Hw ..]. }
  intros copy. eapply triple_bind with (Q' := fun _ => pacing cfg paid 0).
  { intros w Hw. cbn.
    apply (pacing_later cfg paid 0 w); [exact Hw | reflexivity | cbn; lia | reflexivity]. }
  intros filled. eapply triple_bind; [apply pacing_fill_each|].
  intros ?. apply triple_ret. auto.
Qed.

(** C8: in one run of fillPlaceholders that starts after the epoch, a call
    starts no earlier than the delay of its model after the start of the
    call before it, whichever placeholders the two calls serve. *)
Theorem calls_are_spaced cfg host reportJson skip w i m1 t1 m2 t2 :
  0 < clock w ->
  called (trace w) = [] ->
  called (trace (snd (fillPlaceholders cfg host reportJson skip w))) !! i = Some (m1, t1) ->
  called (trace (snd (fillPlaceholders cfg host reportJson skip w))) !! S i = Some (m2, t2) ->
  getModelDelay cfg m2 (usePaidTier (executor w)) <= t2 - t1.
Proof.
  intros Hpos Hnone H1 H2.
  eapply (spaced_lookup cfg (usePaidTier (executor w)) _ i m1 t1 m2 t2);
    [|exact H1|exact H2].
  apply (triple_snd (pacing cfg (usePaidTier (executor w)) 0)).
  - apply pacing_fillPlaceholders.
  - unfold pacing. rewrite Hnone. cbn. repeat split; try lia; discriminate.
Qed.

(** An instance: the three calls of a run on the sample report. *)
Lemma calls_are_spaced_witness :
  0 < clock sample_world
  /\ called (trace sample_world) = []
  /\ called (trace (snd (fillPlaceholders sample_config answering_host 0 false
                           sample_world)))
     = [ (js "gemini-2.5-flash", 1002); (js "gemini-2.5-flash", 5004);
         (js "gemini-2.5-flash", 9006) ]
  /\ getModelDelay sample_config (js "gemini-2.5-flash") false <= 5004 - 1002.
Proof.
  assert (Hcalls : called (trace (snd (fillPlaceholders sample_config answering_host 0 false
                                         sample_world)))
                   = [ (js "gemini-2.5-flash", 1002); (js "gemini-2.5-flash", 5004);
                       (js "gemini-2.5-flash", 9006) ]).
  { vm_compute. reflexivity. }
  split; [reflexivity|]. split; [reflexivity|]. split; [exact Hcalls|].
  apply (calls_are_spaced sample_config answering_host 0%nat false sample_world 0
           (js "gemini-2.5-flash") 1002 (js "gemini-2.5-flash") 5004);
    [reflexivity | reflexivity | rewrite Hcalls; reflexivity | rewrite Hcalls; reflexivity].
Defined.

(** An instance: a run on the sample report, every request refused. *)
Lemma fallback_only_moves_forward_witness :
  NoDup (MODEL_FALLBACK_ORDER sample_config)
  /\ replay sample_config (js "gemini-2.5-flash") (trace sample_world)
     = Some (currentModel (executor sample_world))
  /\ let w' := snd (fillPlaceholders sample_config limited_host 0 false sample_world) in
     replay sample_config (js "gemini-2.5-flash") (trace w')
     = Some (currentModel (executor w'))
     /\ (rank sample_config (currentModel (executor sample_world))
         <= rank sample_config (currentModel (executor w')))%nat
     /\ StronglySorted (fun a b => (rank sample_config a <= rank sample_config b)%nat)
          (requested (trace w'))
     /\ (forall before a b after,
           trace w' = before ++ Switched a b :: after ->
           rank sample_config b = S (rank sample_config a)
           /\ forall m t, In (Requested m t) after ->
                          (rank sample_config a < rank sample_config m)%nat).
Proof.
  assert (Hnd : NoDup (MODEL_FALLBACK_ORDER sample_config)).
  { refine (bool_decide_unpack _ _). vm_compute. exact I. }
  split; [exact Hnd|]. split; [reflexivity|].
  apply (fallback_only_moves_forward sample_config limited_host 0%nat false
           (js "gemini-2.5-flash") sample_world Hnd eq_refl).
Defined.


(** ** The batch run *)

Section BatchHeap.
Context (cfg : ModelConfig) (host : Host) (h : gmap nat value).
Local Abbreviation Kept := (fun w : World Batch.BatchLLMExecutor => heap w = h).

Lemma batch_heap_set_this e : keeps Kept (set_this e).
Proof. intros w Hw. exact Hw. Qed.

Lemma batch_heap_sleep ms : keeps Kept (sleep host ms).
Proof. intros w Hw. exact Hw. Qed.

Lemma batch_heap_request model text : keeps Kept (request host model text).
Proof. intros w Hw. exact Hw. Qed.

Lemma batch_heap_fallbackToNextModel : keeps Kept (Batch.fallbackToNextModel cfg).
Proof.
  unfold Batch.fallbackToNextModel. apply keeps_bind; [apply keeps_this | intros e].
  destruct (getNextFallbackModel cfg _) as [[|c n]|]; [apply keeps_ret | | apply keeps_ret].
  apply keeps_bind; [apply batch_heap_set_this | intros ?; apply keeps_ret].
Qed.

Lemma batch_heap_callLLM_loop fuel : forall text attempt fa le,
  keeps Kept (Batch.callLLM_loop cfg host fuel text attempt fa le).
Proof.
  induction fuel as [|fuel IH]; intros text attempt fa le; cbn [Batch.callLLM_loop].
  { apply keeps_stuck. }
  apply keeps_bind; [apply keeps_this | intros e].
  apply keeps_if; [|apply keeps_ret].
  apply keeps_bind; [apply batch_heap_request | intros [content tokens|err]].
  - apply keeps_bind; [apply keeps_this | intros e1].
    apply keeps_bind; [apply batch_heap_set_this | intros ?; apply keeps_ret].
  - apply keeps_if.
    + apply keeps_bind.
      { apply keeps_if; [apply keeps_ret | apply batch_heap_fallbackToNextModel]. }
      intros [|]; [apply IH|].
      apply keeps_bind; [apply batch_heap_sleep | intros ?; apply IH].
    + apply keeps_if; [|apply keeps_ret].
      apply keeps_bind; [apply batch_heap_sleep | intros ?; apply IH].
Qed.

Lemma batch_heap_groq direct model systemPrompt userPrompt :
  keeps Kept (r <- lift (groq_generate host systemPrompt userPrompt) ;;
           e1 <- this ;;
           set_this (Batch.record_groq direct model (snd r) e1) ;;;
           ret r).
Proof.
  apply keeps_bind; [apply keeps_lift | intros r].
  apply keeps_bind; [apply keeps_this | intros e1].
  apply keeps_bind; [apply batch_heap_set_this | intros ?; apply keeps_ret].
Qed.

Lemma batch_heap_callLLM systemPrompt userPrompt :
  keeps Kept (Batch.callLLM cfg host systemPrompt userPrompt).
Proof.
  unfold Batch.callLLM. apply keeps_bind; [apply keeps_this | intros e].
  apply keeps_if; [apply keeps_ret|].
  assert (Hgemini : keeps Kept
    match Batch.apiKey e with
    | Some (_ :: _) =>
        exit <- Batch.callLLM_loop cfg host (Batch.callLLM_fuel e)
                  (systemPrompt ++ [NEWLINE; NEWLINE] ++ userPrompt) 0 false None ;;
        match exit with
        | Answered content tokens => ret (content, tokens)
        | GaveUp None => stuck
        | GaveUp (Some lastError) =>
            match Batch.groqAdapter e with
            | Some groqModel =>
                if isRateLimitError cfg lastError then
                  try_catch
                    (r <- lift (groq_generate host systemPrompt userPrompt) ;;
                     e1 <- this ;;
                     set_this (Batch.record_groq false groqModel (snd r) e1) ;;;
                     ret r)
                    (fun _ => throw lastError)
                else throw lastError
            | None => throw lastError
            end
        end
    | _ => throw (mkError (js "Gemini API key not set"))
    end).
  { destruct (Batch.apiKey e) as [[|c key]|]; try apply keeps_throw.
    apply keeps_bind; [apply batch_heap_callLLM_loop|].
    intros [content tokens|[lastError|]]; [apply keeps_ret | | apply keeps_stuck].
    destruct (Batch.groqAdapter e); [|apply keeps_throw].
    apply keeps_if; [|apply keeps_throw].
    apply keeps_try_catch; [apply batch_heap_groq | intros ?; apply keeps_throw]. }
  destruct (Batch.useGroq e); [|exact Hgemini].
  destruct (Batch.groqAdapter e) as [groqModel|] eqn:Hg; [apply batch_heap_groq|].
  exact Hgemini.
Qed.
End BatchHeap.

(** C3, as the code has it: when the answer of the batch call cannot be
    parsed, fillAllNarratives throws at once; the world it leaves is the one
    the single call left (nothing is sent again), no document is returned,
    and the documents held are those held before. *)
Theorem invalid_JSON_aborts cfg host reportJson w doc prompt content tokens w1 err :
  heap w !! reportJson = Some doc ->
  buildMasterPrompt host doc = Return prompt ->
  Batch.callLLM cfg host Batch.MASTER_SYSTEM_PROMPT prompt (snd (Date_now host w))
    = (Return (content, tokens), w1) ->
  Batch.parseJSON content = Throw err ->
  Batch.fillAllNarratives cfg host reportJson w
    = (Throw (mkError (js "LLM returned invalid JSON")), w1)
  /\ heap w1 = heap w.
Proof.
  intros Hdoc Hprompt Hcall Hparse. split.
  - unfold Batch.fillAllNarratives. unfold bind at 1.
    destruct (Date_now host w) as [[startTime|?|] w0] eqn:Hnow; try discriminate.
    assert (Hheap : heap w0 = heap w) by (injection Hnow as _ <-; reflexivity).
    cbn [snd] in Hcall.
    unfold bind at 1. unfold read_doc. rewrite Hheap, Hdoc.
    unfold bind at 1. cbn [lift]. rewrite Hprompt.
    unfold bind at 1. rewrite Hcall.
    unfold bind at 1. unfold try_catch. cbn [lift fst]. rewrite Hparse. reflexivity.
  - pose proof (batch_heap_callLLM cfg host (heap w) Batch.MASTER_SYSTEM_PROMPT prompt
                  (snd (Date_now host w)) eq_refl) as Hk.
    rewrite Hcall in Hk. exact Hk.
Qed.

(** C3 fails as stated: with an answer that is not JSON, fillAllNarratives
    sends one request and throws; the call is not made again and no
    document is returned. *)
Lemma invalid_JSON_is_not_retried :
  let r := Batch.fillAllNarratives sample_config prose_host 0 batch_world in
  fst r = Throw (mkError (js "LLM returned invalid JSON"))
  /\ sent (snd r) = 1%nat
  /\ requested (trace (snd r)) = [js "gemini-2.5-flash"].
Proof. vm_compute. repeat split. Qed.

(** An instance: the service answers in prose. *)
Lemma invalid_JSON_aborts_witness :
  let w1 := snd (Batch.callLLM sample_config prose_host Batch.MASTER_SYSTEM_PROMPT
                   (js "master") (snd (Date_now prose_host batch_world))) in
  heap batch_world !! 0%nat = Some sample_report
  /\ buildMasterPrompt prose_host sample_report = Return (js "master")
  /\ Batch.parseJSON (js "Sorry, I cannot produce that.")
     = Throw (mkError (js "Could not parse JSON from LLM output"))
  /\ Batch.fillAllNarratives sample_config prose_host 0 batch_world
     = (Throw (mkError (js "LLM returned invalid JSON")), w1)
  /\ heap w1 = heap batch_world.
Proof.
  intros w1.
  split; [reflexivity|]. split; [reflexivity|]. split; [vm_compute; reflexivity|].
  apply (invalid_JSON_aborts sample_config prose_host 0%nat batch_world sample_report
           (js "master") (js "Sorry, I cannot produce that.") 12 w1
           (mkError (js "Could not parse JSON from LLM output")));
    [reflexivity | reflexivity | vm_compute; reflexivity | vm_compute; reflexivity].
Defined.


(** ** The polish pass *)

(** *** Two applications in a row *)

(** C5 fails as stated: removing a code fence can complete an
    insufficient-evidence marker, which only a second application
    replaces; a bracketed text that starts like a template variable but is
    not one of the seven is counted by every application; and a special
    sequence in a broken sentence copies the sentence to a place the loop
    has passed, where only a second application ends it. *)
Lemma polish_is_not_idempotent :
  (exists r1 r2,
      manualPolishHTML 10 fenced_marker = Return r1
      /\ manualPolishHTML 10 (result_html r1) = Return r2
      /\ result_html r1 = js "[INSUFFICIENT_EVIDENCE]"
      /\ result_html r2 = js "Data not available"
      /\ result_changes r2 <> [NO_CHANGES])
  /\ (exists r1 r2,
      manualPolishHTML 10 (js "[start here]") = Return r1
      /\ manualPolishHTML 10 (result_html r1) = Return r2
      /\ result_html r2 = result_html r1
      /\ result_changes r2 <> [NO_CHANGES])
  /\ (exists r1 r2,
      manualPolishHTML 200 dollar_sentence = Return r1
      /\ manualPolishHTML 200 (result_html r1) = Return r2
      /\ count_matches insufficient_marker (result_html r1) = 0
      /\ count_matches template_variable (result_html r1) = 0
      /\ result_html r2 <> result_html r1
      /\ result_changes r2 <> [NO_CHANGES]).
Proof.
  split; [|split].
  - eexists _, _. split; [vm_compute; reflexivity|]. split; [vm_compute; reflexivity|].
    repeat split; discriminate.
  - eexists _, _. split; [vm_compute; reflexivity|]. split; [vm_compute; reflexivity|].
    repeat split; discriminate.
  - eexists _, _. split; [vm_compute; reflexivity|]. split; [vm_compute; reflexivity|].
    split; [vm_compute; reflexivity|]. split; [vm_compute; reflexivity|].
    split; discriminate.
Qed.

(** *** Markers and replacements *)

Lemma starts_with_app_inv u r x :
  starts_with u (r ++ x) = true -> starts_with u r = true \/ starts_with r u = true.
Proof.
  revert u. induction r as [|c r IH]; intros u Hu; [right; destruct u; reflexivity|].
  destruct u as [|d u]; [left; reflexivity|]. cbn in *.
  apply andb_prop in Hu as [Hd Hu]. apply ch_eqb_eq in Hd. subst d.
  rewrite ch_eqb_refl. cbn. apply IH, Hu.
Qed.

Lemma existsb_out_of {A} (p : pattern A) f (q : ascii -> bool) :
  (forall m a, existsb q (f m a) = false) ->
  forall s skip prev, existsb q (out_of p f skip prev s) = true -> existsb q s = true.
Proof.
  intros Hf. induction s as [|c s IH]; intros skip prev Hout; [discriminate|].
  unfold out_of in *. cbn [scan_from] in Hout. cbn [existsb].
  destruct skip as [|k].
  - destruct (p prev (c :: s)) as [[n a]|]; cbn [flat_map piece_text] in Hout.
    + rewrite existsb_app, Hf in Hout. cbn in Hout. rewrite (IH _ _ Hout).
      apply orb_true_r.
    + cbn in Hout. destruct (q c); [reflexivity|]. cbn in *. apply (IH _ _ Hout).
  - rewrite (IH _ _ Hout). apply orb_true_r.
Qed.

Lemma inert_nonempty r : inert r = true -> r <> [].
Proof. unfold inert. destruct r; [discriminate | discriminate]. Qed.

Lemma inert_no_bracket r : inert r = true -> forallb no_bracket r = true.
Proof. unfold inert. intros H. apply andb_prop in H as [H _]. apply andb_prop in H as [_ H]. exact H. Qed.

Lemma inert_clash r u : inert r = true -> In u (tails MARKER_PREFIX) -> clash u r = true.
Proof.
  unfold inert. intros H Hu. apply andb_prop in H as [_ H].
  rewrite forallb_forall in H. apply H, Hu.
Qed.

Lemma inert_no_close r : inert r = true -> existsb is_close_bracket r = false.
Proof.
  intros H. apply inert_no_bracket in H. induction r as [|c r IH]; [reflexivity|].
  cbn in *. apply andb_prop in H as [Hc H]. rewrite (IH H).
  unfold no_bracket, is_close_bracket in *. apply andb_prop in Hc as [_ Hc].
  destruct (ch_eqb c "]"); [discriminate | reflexivity].
Qed.

Section Replace.
Context {A : Type} (p : pattern A) (f : jstring -> A -> jstring).
Hypothesis f_inert : forall m a, inert (f m a) = true.
Hypothesis p_not_at_close : forall prev t, p prev ("]"%char :: t) = None.

(** A text the output starts with, part of the head of a marker, is made
    of code units the input has at the same place. *)
Lemma head_transfer : forall u s prev,
  (forall x, In x (tails u) -> In x (tails MARKER_PREFIX)) ->
  starts_with u (out_of p f 0 prev s) = true ->
  starts_with u s = true
  /\ exists prev', drop (length u) (out_of p f 0 prev s)
                   = out_of p f 0 prev' (drop (length u) s).
Proof.
  induction u as [|x u IH]; intros s prev Hu Hout.
  { split; [reflexivity|]. exists prev. reflexivity. }
  destruct s as [|c s]; [discriminate|].
  unfold out_of in *. cbn [scan_from] in *.
  destruct (p prev (c :: s)) as [[n a]|]; cbn [flat_map piece_text] in *.
  - apply starts_with_app_inv in Hout.
    pose proof (inert_clash (f (take n (c :: s)) a) (x :: u) (f_inert _ _)
                  (Hu _ (or_introl eq_refl))) as Hclash.
    unfold clash in Hclash. destruct Hout as [H1|H1]; rewrite H1 in Hclash;
      [discriminate | rewrite orb_true_r in Hclash; discriminate].
  - cbn in Hout. apply andb_prop in Hout as [Hx Hout]. cbn. rewrite Hx. cbn.
    apply (IH s (Some c)); [|exact Hout].
    intros y Hy. apply Hu. right. exact Hy.
Qed.

Lemma closes_transfer s prev :
  closes (out_of p f 0 prev s) = true -> closes s = true.
Proof.
  destruct s as [|c s]; [discriminate|].
  unfold out_of. cbn [scan_from].
  assert (Hin : forall k pr, existsb is_close_bracket (out_of p f k pr s) = true ->
                             existsb is_close_bracket s = true).
  { intros k pr. apply existsb_out_of. intros m a. apply inert_no_close, f_inert. }
  destruct (p prev (c :: s)) as [[n a]|] eqn:Hp; cbn [flat_map piece_text].
  - pose proof (f_inert (take n (c :: s)) a) as Hr.
    destruct (f (take n (c :: s)) a) as [|d r] eqn:Hf;
      [apply inert_nonempty in Hr; contradiction|].
    cbn. intros H. apply andb_prop in H as [_ H].
    assert (Hc : not_close_bracket c = true).
    { unfold not_close_bracket. destruct (ch_eqb c "]") eqn:Hc; [|reflexivity].
      apply ch_eqb_eq in Hc. subst c. rewrite p_not_at_close in Hp. discriminate. }
    rewrite Hc. cbn. rewrite existsb_app in H.
    apply inert_no_close in Hr. cbn in Hr. apply orb_false_elim in Hr as [_ Hr].
    rewrite Hr in H. cbn in H. apply (Hin _ _ H).
  - cbn. intros H. apply andb_prop in H as [Hc H]. rewrite Hc. cbn. apply (Hin _ _ H).
Qed.

Lemma marker_transfer s prev :
  marker_at (out_of p f 0 prev s) = true -> marker_at s = true.
Proof.
  unfold marker_at. intros H. apply andb_prop in H as [Hhead Hbody].
  destruct (head_transfer MARKER_PREFIX s prev (fun x H => H) Hhead) as [Hs [prev' Hd]].
  rewrite Hs. cbn [andb]. rewrite Hd in Hbody. apply (closes_transfer _ _ Hbody).
Qed.

Lemma marker_at_head c s : marker_at (c :: s) = true -> c = "["%char.
Proof.
  unfold marker_at.
  change (starts_with MARKER_PREFIX (c :: s))
    with (ch_eqb "[" c && starts_with (js "LLM_PLACEHOLDER:") s).
  intros H. apply andb_prop in H as [H _]. apply andb_prop in H as [H _].
  apply ch_eqb_eq in H. symmetry. exact H.
Qed.

Lemma marker_free_app r x :
  forallb no_bracket r = true -> marker_free x = true -> marker_free (r ++ x) = true.
Proof.
  intros Hr Hx. induction r as [|c r IH]; [exact Hx|].
  cbn [forallb] in Hr. apply andb_prop in Hr as [Hc Hr]. cbn [app marker_free].
  rewrite (IH Hr), andb_true_r.
  destruct (marker_at (c :: r ++ x)) eqn:Hm; [|reflexivity].
  apply marker_at_head in Hm. subst c. discriminate Hc.
Qed.

(** Where no marker starts at a place of the input that is copied, no
    marker starts anywhere in the output. *)
Lemma out_of_marker_free : forall s skip prev,
  (forall t prev', t `suffix_of` s -> p prev' t = None -> marker_at t = false) ->
  marker_free (out_of p f skip prev s) = true.
Proof.
  induction s as [|c s IH]; intros skip prev Hsrc; [reflexivity|].
  assert (Hsrc' : forall t prev', t `suffix_of` s -> p prev' t = None -> marker_at t = false).
  { intros t prev' Ht. apply Hsrc. apply suffix_cons_r, Ht. }
  destruct skip as [|k]; [|apply (IH k (Some c) Hsrc')].
  pose proof (marker_transfer (c :: s) prev) as Htr.
  unfold out_of in *. cbn [scan_from] in *.
  destruct (p prev (c :: s)) as [[n a]|] eqn:Hp; cbn [flat_map piece_text] in *.
  - apply marker_free_app; [apply inert_no_bracket, f_inert | apply IH, Hsrc'].
  - cbn [app marker_free] in *. rewrite (IH 0%nat (Some c) Hsrc'), andb_true_r.
    assert (Hno : marker_at (c :: s) = false) by (apply (Hsrc _ prev); [reflexivity | exact Hp]).
    destruct (marker_at (c :: flat_map (piece_text f) (scan_from p 0 (Some c) s))) eqn:Hm;
      [|reflexivity].
    rewrite (Htr eq_refl) in Hno. discriminate.
Qed.
End Replace.

Lemma closes_spec t :
  closes t = (1 <=? length (take_while not_close_bracket t))%nat
             && existsb is_close_bracket t.
Proof.
  destruct t as [|c t]; [reflexivity|].
  cbn [closes take_while existsb]. unfold is_close_bracket at 2. unfold not_close_bracket at 1 2.
  destruct (ch_eqb c "]"); reflexivity.
Qed.

Lemma drop_while_close t :
  (drop_while not_close_bracket t = [] /\ existsb is_close_bracket t = false)
  \/ (exists r, drop_while not_close_bracket t = "]"%char :: r
                /\ existsb is_close_bracket t = true).
Proof.
  induction t as [|c t IH]; [left; split; reflexivity|].
  cbn. unfold is_close_bracket at 1 3. unfold not_close_bracket at 1 3.
  destruct (ch_eqb c "]") eqn:Hc; cbn.
  - right. apply ch_eqb_eq in Hc. subst c. eauto.
  - exact IH.
Qed.

Lemma bracketed_marker prev s least :
  (least <= 1)%nat ->
  bracketed (literal_prefix MARKER_PREFIX) least prev s = None ->
  (1 <=? length (take_while not_close_bracket (drop (length MARKER_PREFIX) s)))%nat = true ->
  marker_at s = false.
Proof.
  intros Hleast. unfold bracketed, literal_prefix, marker_at.
  destruct (starts_with MARKER_PREFIX s); [|reflexivity].
  cbn [andb]. rewrite closes_spec.
  destruct (drop_while_close (drop (length MARKER_PREFIX) s)) as [[-> ->]|(r & -> & ->)].
  - intros _ _. apply andb_false_r.
  - intros H Hlen. apply Nat.leb_le in Hlen.
    destruct (Nat.leb_spec least
                (length (take_while not_close_bracket (drop (length MARKER_PREFIX) s))));
      [discriminate | lia].
Qed.

Lemma unfilled_marker_none prev s : unfilled_marker prev s = None -> marker_at s = false.
Proof.
  intros H. destruct (marker_at s) eqn:Hm; [|reflexivity]. rewrite <- Hm.
  apply (bracketed_marker prev s 1); [lia | exact H|].
  unfold marker_at in Hm. apply andb_prop in Hm as [_ Hm]. rewrite closes_spec in Hm.
  apply andb_prop in Hm as [Hm _]. exact Hm.
Qed.

Lemma placeholder_marker_none prev s :
  placeholder_marker prev s = None -> marker_at s = false.
Proof.
  unfold placeholder_marker, marker_at.
  destruct (starts_with MARKER_PREFIX s); [|reflexivity].
  cbn [andb]. rewrite closes_spec.
  destruct (drop_while_close (drop (length MARKER_PREFIX) s)) as [[-> ->]|(r & -> & ->)].
  - intros _. apply andb_false_r.
  - destruct (take_while not_close_bracket (drop (length MARKER_PREFIX) s));
      [reflexivity | discriminate].
Qed.

Lemma placeholder_marker_not_at_close prev t :
  placeholder_marker prev ("]"%char :: t) = None.
Proof. reflexivity. Qed.

Lemma suffix_cons_case (t : jstring) c s :
  t `suffix_of` c :: s -> t = c :: s \/ t `suffix_of` s.
Proof.
  intros [k Hk]. destruct k as [|d k]; [left; symmetry; exact Hk|].
  right. injection Hk as _ ->. exists k. reflexivity.
Qed.

Lemma marker_free_suffix s t :
  marker_free s = true -> t `suffix_of` s -> marker_at t = false.
Proof.
  induction s as [|c s IH]; intros Hs Ht.
  - apply suffix_nil_inv in Ht. subst t. reflexivity.
  - cbn [marker_free] in Hs. apply andb_prop in Hs as [Hc Hs].
    apply suffix_cons_case in Ht as [->|Ht]; [|apply (IH Hs Ht)].
    destruct (marker_at (c :: s)); [discriminate | reflexivity].
Qed.

Lemma marker_free_intro s :
  (forall t, t `suffix_of` s -> marker_at t = false) -> marker_free s = true.
Proof.
  induction s as [|c s IH]; intros H; [reflexivity|].
  cbn [marker_free]. rewrite (H (c :: s)) by reflexivity. cbn.
  apply IH. intros t Ht. apply H, suffix_cons_r, Ht.
Qed.

(** No match in a text: the pattern fails wherever it is tried. *)
Lemma no_hits_none {A} (p : pattern A) : forall s prev,
  hits (scan_from p 0 prev s) = [] ->
  forall t, t <> [] -> t `suffix_of` s -> exists prev', p prev' t = None.
Proof.
  induction s as [|c s IH]; intros prev Hh t Hne Ht.
  - apply suffix_nil_inv in Ht. contradiction.
  - cbn [scan_from] in Hh. destruct (p prev (c :: s)) as [[n a]|] eqn:Hp; [discriminate|].
    apply suffix_cons_case in Ht as [->|Ht]; [eauto|].
    apply (IH (Some c) Hh t Hne Ht).
Qed.

Lemma none_no_hits {A} (p : pattern A) : forall s prev,
  (forall t prev', t `suffix_of` s -> t <> [] -> p prev' t = None) ->
  hits (scan_from p 0 prev s) = [].
Proof.
  induction s as [|c s IH]; intros prev H; [reflexivity|].
  cbn [scan_from]. rewrite (H (c :: s) prev) by (reflexivity || discriminate).
  cbn. apply IH. intros t prev' Ht. apply H, suffix_cons_r, Ht.
Qed.

Lemma count_matches_zero {A} (p : pattern A) s :
  count_matches p s = 0 <-> hits (scan p s) = [].
Proof.
  unfold count_matches, match_all. split.
  - intros H. destruct (hits (scan p s)); [reflexivity | cbn in H; lia].
  - intros ->. reflexivity.
Qed.

Lemma marker_free_count s :
  marker_free s = true <-> count_matches unfilled_marker s = 0.
Proof.
  rewrite count_matches_zero. split.
  - intros Hs. apply none_no_hits. intros t prev' Ht _.
    pose proof (marker_free_suffix s t Hs Ht) as Hm.
    destruct (unfilled_marker prev' t) as [[n []]|] eqn:Hu; [|reflexivity].
    exfalso. revert Hu Hm. unfold unfilled_marker, bracketed, literal_prefix, marker_at.
    destruct (starts_with MARKER_PREFIX t); [|discriminate].
    cbn [andb]. rewrite closes_spec.
    destruct (drop_while_close (drop (length MARKER_PREFIX) t)) as [[-> ->]|(r & -> & ->)];
      [discriminate|].
    destruct (_ <=? _)%nat; [discriminate | discriminate].
  - intros Hh. apply marker_free_intro. intros t Ht.
    destruct t as [|c t]; [reflexivity|].
    destruct (no_hits_none unfilled_marker s None Hh (c :: t) ltac:(discriminate) Ht)
      as [prev' Hn].
    apply (unfilled_marker_none prev' _ Hn).
Qed.

Lemma replace_all_marker_free {A} (p : pattern A) f s :
  (forall m a, inert (f m a) = true) ->
  (forall prev t, p prev ("]"%char :: t) = None) ->
  marker_free s = true ->
  marker_free (replace_all p f s) = true.
Proof.
  intros Hf Hp Hs. apply (out_of_marker_free p f Hf Hp s 0%nat None).
  intros t prev' Ht _. apply (marker_free_suffix s t Hs Ht).
Qed.

Lemma default_text_inert field : inert (default_text field) = true.
Proof. unfold default_text. repeat (destruct (includes _ field); [reflexivity|]). reflexivity. Qed.

Lemma fix_placeholders_marker_free s : marker_free (fst (fix_placeholders s)) = true.
Proof.
  unfold fix_placeholders. destruct (Z.ltb_spec 0 (count_matches unfilled_marker s)); cbn [fst].
  - apply (out_of_marker_free placeholder_marker _
             (fun _ field => default_text_inert field) placeholder_marker_not_at_close
             s 0%nat None).
    intros t prev' _. apply placeholder_marker_none.
  - apply marker_free_count. unfold count_matches in *. lia.
Qed.

Lemma replace_template_variables_marker_free s :
  marker_free s = true -> marker_free (replace_template_variables s) = true.
Proof.
  intros Hs. unfold replace_template_variables, TEMPLATE_TEXTS. cbn [fold_left fst snd].
  repeat (apply replace_all_marker_free; [reflexivity | reflexivity |]). exact Hs.
Qed.

Lemma fix_template_vars_marker_free s :
  marker_free s = true -> marker_free (fst (fix_template_vars s)) = true.
Proof.
  intros Hs. unfold fix_template_vars. destruct (_ <? _); cbn [fst]; [|exact Hs].
  apply replace_template_variables_marker_free, Hs.
Qed.

Lemma fix_whitespace_marker_free s :
  marker_free s = true -> marker_free (fst (fix_whitespace s)) = true.
Proof.
  intros Hs. unfold fix_whitespace. destruct (_ <? _); cbn [fst]; [|exact Hs].
  apply replace_all_marker_free; [reflexivity | reflexivity | exact Hs].
Qed.

(** *** The loop over broken sentences *)

Lemma broken_sentence_cons prev c t :
  broken_sentence prev (c :: t)
  = if ch_eqb c ">" then
      let text := take_while not_angle t in
      let rest := drop_while not_angle t in
      match rev text with
      | z :: _ :: _ =>
          if is_letter z && starts_with (js "</") rest then
            match first_alt [js "p"; js "div"; js "span"; js "td"] (drop 2 rest) with
            | O => None
            | n => Some (1 + length text + 2 + n, text)%nat
            end
          else None
      | _ => None
      end
    else None.
Proof. destruct c as [[] [] [] [] [] [] [] []]; reflexivity. Qed.

Lemma expand_replacement_cons c rest matched before after :
  expand_replacement (c :: rest) matched before after
  = if ch_eqb c "$" then
      match rest with
      | x :: rest' =>
          if ch_eqb x "$" then "$"%char :: expand_replacement rest' matched before after
          else if ch_eqb x "&" then matched ++ expand_replacement rest' matched before after
          else if ch_eqb x "`" then before ++ expand_replacement rest' matched before after
          else if ch_eqb x "'" then after ++ expand_replacement rest' matched before after
          else "$"%char :: expand_replacement rest matched before after
      | [] => [c]
      end
    else c :: expand_replacement rest matched before after.
Proof.
  destruct c as [[] [] [] [] [] [] [] []]; try reflexivity.
  destruct rest; reflexivity.
Qed.

Lemma expand_replacement_plain repl matched before after :
  no_special repl = true -> expand_replacement repl matched before after = repl.
Proof.
  induction repl as [|c rest IH]; intros H; [reflexivity|].
  cbn [no_special] in H. apply andb_prop in H as [Hc Hrest].
  rewrite expand_replacement_cons. destruct (ch_eqb c "$") eqn:Hd.
  - destruct rest as [|x rest']; [reflexivity|].
    cbn [andb negb] in Hc. unfold is_special in Hc.
    destruct (ch_eqb x "$"); [discriminate|]. destruct (ch_eqb x "&"); [discriminate|].
    destruct (ch_eqb x "`"); [discriminate|]. destruct (ch_eqb x "'"); [discriminate|].
    apply ch_eqb_eq in Hd. subst c. f_equal. apply IH, Hrest.
  - f_equal. apply IH, Hrest.
Qed.

Lemma no_special_suffix a b : no_special (a ++ b) = true -> no_special b = true.
Proof.
  induction a as [|c a IH]; intros H; [exact H|].
  cbn [app no_special] in H. apply andb_prop in H as [_ H]. apply IH, H.
Qed.

Lemma no_special_prefix a b : no_special (a ++ b) = true -> no_special a = true.
Proof.
  induction a as [|c a IH]; intros H; [reflexivity|].
  cbn [app no_special] in *. apply andb_prop in H as [Hc H]. rewrite (IH H), andb_true_r.
  destruct a as [|d a]; [|exact Hc]. destruct (ch_eqb c "$"); reflexivity.
Qed.

Lemma no_special_insert_dot x z y :
  no_special (x ++ z :: y) = true -> no_special (x ++ z :: "."%char :: y) = true.
Proof.
  induction x as [|c x IH]; intros H; cbn [app no_special] in *.
  - apply andb_prop in H as [_ H]. rewrite H.
    destruct (ch_eqb z "$"); reflexivity.
  - apply andb_prop in H as [Hc H]. rewrite (IH H), andb_true_r.
    destruct x as [|d x]; exact Hc.
Qed.

Lemma starts_with_nth_error u : forall a d b,
  starts_with u (a ++ d :: b) = true -> (length a < length u)%nat ->
  nth_error u (length a) = Some d.
Proof.
  induction u as [|c u IH]; intros a d b H Hlen; [cbn in Hlen; lia|].
  destruct a as [|e a]; cbn in *.
  - apply andb_prop in H as [H _]. apply ch_eqb_eq in H. subst. reflexivity.
  - apply andb_prop in H as [_ H]. apply (IH a d b H). lia.
Qed.

Lemma starts_with_long u : forall a b,
  (length u <= length a)%nat -> starts_with u (a ++ b) = starts_with u a.
Proof.
  induction u as [|c u IH]; intros a b Hlen; [reflexivity|].
  destruct a as [|e a]; cbn in *; [lia|]. rewrite IH by lia. reflexivity.
Qed.

Lemma existsb_close_insert_dot a z y :
  existsb is_close_bracket (a ++ z :: "."%char :: y)
  = existsb is_close_bracket (a ++ z :: y).
Proof. rewrite !existsb_app. reflexivity. Qed.

Lemma closes_insert_dot a z y :
  closes (a ++ z :: "."%char :: y) = closes (a ++ z :: y).
Proof.
  destruct a as [|c a]; cbn [app closes].
  - reflexivity.
  - rewrite existsb_close_insert_dot. reflexivity.
Qed.

(** A full stop put after a letter completes no marker. *)
Lemma marker_at_insert_dot w z y :
  is_letter z = true ->
  marker_at (w ++ z :: "."%char :: y) = true -> marker_at (w ++ z :: y) = true.
Proof.
  intros Hz. unfold marker_at. intros H. apply andb_prop in H as [Hhead Hbody].
  destruct (Nat.lt_ge_cases (length w) 16%nat) as [Hlt|Hge].
  - exfalso.
    pose proof (starts_with_nth_error MARKER_PREFIX (w ++ [z]) "." y) as Hn.
    rewrite <- app_assoc in Hn. specialize (Hn Hhead).
    rewrite length_app in Hn. cbn [length] in Hn.
    specialize (Hn ltac:(cbn; lia)). apply nth_error_In in Hn.
    cbn in Hn. intuition discriminate.
  - destruct (Nat.eq_dec (length w) 16%nat) as [Heq|Hne].
    + exfalso. pose proof (starts_with_nth_error MARKER_PREFIX w z _ Hhead) as Hn.
      rewrite Heq in Hn. specialize (Hn ltac:(cbn; lia)). cbn in Hn.
      injection Hn as <-. discriminate Hz.
    + assert (Hlen : (length MARKER_PREFIX <= length w)%nat) by (cbn; lia).
      rewrite starts_with_long in Hhead by exact Hlen.
      rewrite starts_with_long by exact Hlen. rewrite Hhead. cbn [andb].
      rewrite drop_app_le in Hbody by exact Hlen. rewrite drop_app_le by exact Hlen.
      rewrite closes_insert_dot in Hbody. exact Hbody.
Qed.

Lemma marker_free_tail c s : marker_free (c :: s) = true -> marker_free s = true.
Proof. cbn [marker_free]. intros H. apply andb_prop in H as [_ H]. exact H. Qed.

Lemma marker_free_insert_dot x z y :
  is_letter z = true ->
  marker_free (x ++ z :: y) = true -> marker_free (x ++ z :: "."%char :: y) = true.
Proof.
  intros Hz. induction x as [|c x IH]; intros H.
  - cbn [app marker_free] in *. apply andb_prop in H as [Hm H]. rewrite H.
    destruct (marker_at (z :: "."%char :: y)) eqn:H1.
    { apply marker_at_head in H1. subst z. discriminate Hz. }
    destruct (marker_at ("."%char :: y)) eqn:H2; [|reflexivity].
    apply marker_at_head in H2. discriminate H2.
  - change ((c :: x) ++ z :: "."%char :: y) with (c :: (x ++ z :: "."%char :: y)).
    cbn [marker_free]. rewrite (IH (marker_free_tail _ _ H)), andb_true_r.
    destruct (marker_at (c :: x ++ z :: "."%char :: y)) eqn:Hm; [|reflexivity].
    apply (marker_at_insert_dot (c :: x) z y Hz) in Hm.
    change ((c :: x) ++ z :: y) with (c :: (x ++ z :: y)) in *.
    cbn [marker_free] in H. rewrite Hm in H. discriminate H.
Qed.

Lemma find_at_spec {A} (p : pattern A) : forall s prev i pos pos' n a,
  find_at p prev s i pos = Some (pos', n, a) ->
  exists k prev',
    pos' = (pos + k)%nat /\ (i <= k)%nat /\ (k <= length s)%nat
    /\ p prev' (drop k s) = Some (n, a).
Proof.
  induction s as [|c s IH]; intros prev i pos pos' n a H.
  - destruct i as [|i]; cbn in H; [|discriminate].
    destruct (p prev []) as [[n' a']|] eqn:Hp; [|discriminate].
    injection H as <- <- <-. exists 0%nat, prev. cbn. repeat split; try lia. exact Hp.
  - destruct i as [|i]; cbn [find_at] in H.
    + destruct (p prev (c :: s)) as [[n' a']|] eqn:Hp.
      * injection H as <- <- <-. exists 0%nat, prev. cbn. repeat split; try lia. exact Hp.
      * apply IH in H as (k & prev' & -> & _ & Hk & Hp').
        exists (S k), prev'. cbn. repeat split; try lia. exact Hp'.
    + apply IH in H as (k & prev' & -> & Hi & Hk & Hp').
      exists (S k), prev'. cbn. repeat split; try lia. exact Hp'.
Qed.

Lemma take_drop_while (q : ascii -> bool) s : take_while q s ++ drop_while q s = s.
Proof.
  induction s as [|c s IH]; [reflexivity|]. cbn. destruct (q c); [|reflexivity].
  cbn. rewrite IH. reflexivity.
Qed.

Lemma take_while_forallb (q : ascii -> bool) s : forallb q (take_while q s) = true.
Proof.
  induction s as [|c s IH]; [reflexivity|]. cbn. destruct (q c) eqn:Hq; [|reflexivity].
  cbn. rewrite Hq. exact IH.
Qed.

Lemma first_alt_spec alts s n :
  first_alt alts s = S n ->
  exists tag rest, In tag alts /\ s = tag ++ rest /\ length tag = S n.
Proof.
  induction alts as [|a alts IH]; intros H; [discriminate|]. cbn in H.
  destruct (starts_with a s) eqn:Ha.
  - apply starts_with_spec in Ha as [rest ->]. exists a, rest. auto with datatypes.
  - destruct (IH H) as (tag & rest & Hin & -> & Hlen). exists tag, rest. auto with datatypes.
Qed.

(** What the expression of the loop matches: a closing angle bracket, a
    text without angle brackets that ends in a letter, and the start of a
    closing tag. *)
Lemma broken_sentence_spec prev t n text :
  broken_sentence prev t = Some (n, text) ->
  exists text0 z tag rest,
    text = text0 ++ [z] /\ is_letter z = true /\ forallb not_angle text = true
    /\ In tag [js "p"; js "div"; js "span"; js "td"]
    /\ t = js ">" ++ text ++ js "</" ++ tag ++ rest
    /\ n = length (js ">" ++ text ++ js "</" ++ tag).
Proof.
  destruct t as [|c t]; [discriminate|]. rewrite broken_sentence_cons.
  destruct (ch_eqb c ">") eqn:Hc; [|discriminate]. apply ch_eqb_eq in Hc. subst c.
  cbn zeta. pose proof (take_drop_while not_angle t) as Ht.
  pose proof (take_while_forallb not_angle t) as Hall.
  destruct (rev (take_while not_angle t)) as [|z [|z' r]] eqn:Hrev; try discriminate.
  destruct (is_letter z) eqn:Hz; [|discriminate]. cbn [andb].
  destruct (starts_with (js "</") (drop_while not_angle t)) eqn:Hs; [|discriminate].
  apply starts_with_spec in Hs as [rest0 Hrest0]. rewrite Hrest0.
  destruct (first_alt _ _) as [|m] eqn:Hf; [discriminate|].
  intros [= <- <-].
  apply first_alt_spec in Hf as (tag & rest & Hin & Hdrop & Hlen).
  change (drop 2 (js "</" ++ rest0)) with rest0 in Hdrop. subst rest0.
  exists (rev (z' :: r)), z, tag, rest.
  assert (Htext : take_while not_angle t = rev (z' :: r) ++ [z]).
  { rewrite <- (rev_involutive (take_while not_angle t)), Hrev. reflexivity. }
  split; [exact Htext|]. split; [exact Hz|]. split; [exact Hall|]. split; [exact Hin|].
  split.
  - rewrite <- Ht at 1. rewrite Hrest0. reflexivity.
  - rewrite !length_app. cbn [length js]. rewrite Hlen. cbn. lia.
Qed.

Lemma scan_from_lit_prev w s k prev :
  scan_from (lit_pattern w) k prev s = scan_from (lit_pattern w) k None s.
Proof. destruct s as [|c s]; [reflexivity|]. destruct k; reflexivity. Qed.

Lemma scan_from_no_sep x y :
  forallb (fun c => negb (ch_eqb c "<")) x = true ->
  scan_from (lit_pattern (js "</")) 0 None (x ++ y)
  = map Lit x ++ scan_from (lit_pattern (js "</")) 0 None y.
Proof.
  induction x as [|c x IH]; intros Hx; [reflexivity|].
  cbn [forallb] in Hx. apply andb_prop in Hx as [Hc Hx].
  cbn [app scan_from map]. unfold lit_pattern at 1.
  change (starts_with (js "</") (c :: x ++ y))
    with (ch_eqb "<" c && starts_with (js "/") (x ++ y)).
  rewrite (Ascii.eqb_sym "<" c) at 1.
  fold (ch_eqb c "<"). destruct (ch_eqb c "<"); [discriminate|]. cbn [andb].
  f_equal. rewrite scan_from_lit_prev. apply IH, Hx.
Qed.

Lemma split_parts_lits x (l : list (piece unit)) part others :
  foldr (fun x parts =>
           match x, parts with
           | Lit c, part :: others => (c :: part) :: others
           | Lit c, [] => [[c]]
           | Hit _ _, _ => [] :: parts
           end) [[]] l = part :: others ->
  foldr (fun x parts =>
           match x, parts with
           | Lit c, part :: others => (c :: part) :: others
           | Lit c, [] => [[c]]
           | Hit _ _, _ => [] :: parts
           end) [[]] (map Lit x ++ l) = (x ++ part) :: others.
Proof.
  intros Hl. induction x as [|c x IH]; [exact Hl|].
  cbn [map app foldr]. rewrite IH. reflexivity.
Qed.

(** [match[0].split('</')[1]] is the name of the tag. *)
Lemma split_str_tag x tag :
  forallb (fun c => negb (ch_eqb c "<")) x = true ->
  In tag [js "p"; js "div"; js "span"; js "td"] ->
  nth 1 (split_str (js "</") (x ++ js "</" ++ tag)) (js "undefined") = tag.
Proof.
  intros Hx Htag. unfold split_str, scan. rewrite (scan_from_no_sep x _ Hx).
  cbn in Htag. destruct Htag as [<-|[<-|[<-|[<-|[]]]]];
    (erewrite split_parts_lits by reflexivity; reflexivity).
Qed.

Lemma replace_first_eq br s x repl :
  replace_first br s x repl
  = if starts_with x s
    then rev br ++ expand_replacement repl x (rev br) (drop (length x) s)
         ++ drop (length x) s
    else match s with
         | [] => rev br
         | c :: s' => replace_first (c :: br) s' x repl
         end.
Proof. destruct s; reflexivity. Qed.

(** [polished.replace(x, repl)] rewrites the first place where [x] occurs. *)
Lemma replace_first_occurs x repl : forall s br,
  (exists a b, s = a ++ x ++ b) ->
  exists a b,
    s = a ++ x ++ b
    /\ replace_first br s x repl
       = rev br ++ a ++ expand_replacement repl x (rev br ++ a) b ++ b.
Proof.
  induction s as [|c s IH]; intros br Hocc; rewrite replace_first_eq.
  - destruct Hocc as (a & b & Hs). symmetry in Hs.
    apply app_eq_nil in Hs as [-> Hs]. apply app_eq_nil in Hs as [-> ->].
    cbn. exists [], []. rewrite !app_nil_r. auto.
  - destruct (starts_with x (c :: s)) eqn:Hx.
    + apply starts_with_spec in Hx as [t Ht]. rewrite Ht.
      rewrite drop_app_length. exists [], t. rewrite !app_nil_r. auto.
    + destruct Hocc as (a & b & Hs). destruct a as [|d a].
      { rewrite Hs in Hx. cbn [app] in Hx. rewrite starts_with_app in Hx. discriminate. }
      injection Hs as <- ->.
      destruct (IH (c :: br) (ex_intro _ a (ex_intro _ b eq_refl))) as (a' & b' & Hs' & Hr).
      exists (c :: a'), b'. split; [cbn; rewrite <- Hs'; reflexivity|].
      rewrite Hr. cbn [rev]. rewrite <- !app_assoc. reflexivity.
Qed.

Lemma not_angle_not_open x :
  forallb not_angle x = true -> forallb (fun c => negb (ch_eqb c "<")) x = true.
Proof.
  intros H. rewrite forallb_forall in *. intros c Hc. specialize (H c Hc).
  unfold not_angle in H. destruct (ch_eqb c "<"); [discriminate | reflexivity].
Qed.

(** With no special sequence in the text, the loop ends, and it completes
    no marker. *)
Lemma punctuate_total : forall fuel polished lastIndex brokenCount,
  marker_free polished = true -> no_special polished = true ->
  (length polished - lastIndex < fuel)%nat ->
  exists polished' brokenCount',
    punctuate fuel polished lastIndex brokenCount = Return (polished', brokenCount')
    /\ marker_free polished' = true /\ no_special polished' = true.
Proof.
  induction fuel as [|fuel IH]; intros polished i bc Hfree Hplain Hfuel; [lia|].
  cbn [punctuate].
  destruct (exec broken_sentence polished i) as [[[pos n] text]|] eqn:Hex; [|eauto].
  unfold exec in Hex. apply find_at_spec in Hex as (k & prev' & -> & Hi & Hk & Hp).
  cbn [Nat.add].
  apply broken_sentence_spec in Hp
    as (text0 & z & tag & rest & -> & Hz & Hall & Htag & Hdrop & ->).
  set (match0 := js ">" ++ (text0 ++ [z]) ++ js "</" ++ tag) in *.
  assert (Hsplit : polished = take k polished ++ match0 ++ rest).
  { rewrite <- (take_drop k polished) at 1. rewrite Hdrop. unfold match0.
    rewrite <- !app_assoc. reflexivity. }
  assert (Hlen : (k + length match0 <= length polished)%nat).
  { rewrite Hsplit. rewrite !length_app, length_take. lia. }
  assert (Hn : (2 <= length match0)%nat).
  { unfold match0. rewrite !length_app. cbn. lia. }
  assert (Htake : take (length match0) (drop k polished) = match0).
  { rewrite Hdrop. replace (js ">" ++ (text0 ++ [z]) ++ js "</" ++ tag ++ rest)
      with (match0 ++ rest) by (unfold match0; rewrite <- !app_assoc; reflexivity).
    apply take_app_length. }
  rewrite Htake.
  destruct ((20 <? length (text0 ++ [z]))%nat && negb (ends_with_punctuation (text0 ++ [z])));
    [|apply IH; [exact Hfree | exact Hplain | lia]].
  assert (Hnth : nth 1 (split_str (js "</") match0) (js "undefined") = tag).
  { unfold match0. rewrite app_assoc. apply split_str_tag; [|exact Htag].
    change (js ">" ++ (text0 ++ [z])) with (">"%char :: (text0 ++ [z])).
    cbn [forallb]. apply not_angle_not_open in Hall. rewrite Hall. reflexivity. }
  rewrite Hnth.
  destruct (replace_first_occurs match0 (js ">" ++ (text0 ++ [z]) ++ js ".</" ++ tag)
              polished [] (ex_intro _ _ (ex_intro _ _ Hsplit))) as (a & b & Hab & Hrep).
  set (repl := js ">" ++ (text0 ++ [z]) ++ js ".</" ++ tag) in *.
  assert (Hm0 : match0 = (js ">" ++ text0) ++ z :: js "</" ++ tag).
  { unfold match0. rewrite <- !app_assoc. reflexivity. }
  assert (Hrepl : repl = (js ">" ++ text0) ++ z :: "."%char :: js "</" ++ tag).
  { unfold repl. rewrite <- !app_assoc. reflexivity. }
  assert (Hrp : no_special repl = true).
  { rewrite Hrepl. apply no_special_insert_dot. rewrite <- Hm0.
    rewrite Hab in Hplain. apply no_special_suffix in Hplain.
    apply no_special_prefix in Hplain. exact Hplain. }
  rewrite (expand_replacement_plain _ _ _ _ Hrp) in Hrep. cbn [rev app] in Hrep.
  assert (Hold : polished = (a ++ js ">" ++ text0) ++ z :: (js "</" ++ tag ++ b)).
  { rewrite Hab, Hm0. rewrite <- !app_assoc. cbn [app]. rewrite <- !app_assoc. reflexivity. }
  assert (Hnew : replace_first [] polished match0 repl
                 = (a ++ js ">" ++ text0) ++ z :: "."%char :: (js "</" ++ tag ++ b)).
  { rewrite Hrep, Hrepl. rewrite <- !app_assoc. cbn [app]. rewrite <- !app_assoc.
    reflexivity. }
  rewrite Hnew. apply IH.
  - apply marker_free_insert_dot; [exact Hz|]. rewrite <- Hold. exact Hfree.
  - apply no_special_insert_dot. rewrite <- Hold. exact Hplain.
  - rewrite Hold in Hfuel, Hlen. rewrite !length_app in *. cbn [length] in *.
    rewrite !length_app in *. lia.
Qed.

Lemma polish_before_punctuation_marker_free html :
  marker_free (fst (polish_before_punctuation html)) = true.
Proof.
  unfold polish_before_punctuation.
  destruct (fix_insufficient_evidence html) as [p1 c1].
  destruct (remove_markdown p1) as [p2 c2].
  pose proof (fix_placeholders_marker_free p2) as H3.
  destruct (fix_placeholders p2) as [p3 c3].
  pose proof (fix_template_vars_marker_free p3 H3) as H4.
  destruct (fix_template_vars p3) as [p4 c4]. exact H4.
Qed.

Lemma manualPolishHTML_marker_free fuel html :
  no_special (fst (polish_before_punctuation html)) = true ->
  (length (fst (polish_before_punctuation html)) < fuel)%nat ->
  exists r,
    manualPolishHTML fuel html = Return r
    /\ count_matches unfilled_marker (result_html r) = 0.
Proof.
  intros Hplain Hfuel.
  pose proof (polish_before_punctuation_marker_free html) as Hfree.
  unfold manualPolishHTML.
  destruct (polish_before_punctuation html) as [p4 c4]. cbn [fst] in *.
  destruct (punctuate_total fuel p4 0 0 Hfree Hplain ltac:(lia))
    as (p5 & bc & Hrun & Hfree5 & _).
  unfold fix_punctuation. rewrite Hrun. cbn [cbind].
  pose proof (fix_whitespace_marker_free p5 Hfree5) as Hfree6.
  destruct (fix_whitespace p5) as [p6 c6]. cbn [fst] in Hfree6.
  eexists. split; [reflexivity|]. cbn [result_html].
  apply marker_free_count, Hfree6.
Qed.




(** * Further properties *)

(** ** Base names of placeholders *)

Lemma index_of_from_found needle : forall a b i,
  (forall j, (j < length a)%nat -> starts_with needle (drop j (a ++ b)) = false) ->
  starts_with needle b = true ->
  index_of_from i needle (a ++ b) = i + Z.of_nat (length a).
Proof.
  induction a as [|c a IH]; intros b i Hbefore Hat.
  - cbn [app length]. destruct b; cbn [index_of_from]; rewrite Hat; lia.
  - pose proof (Hbefore 0%nat ltac:(cbn; lia)) as H0. cbn [drop app] in H0.
    cbn [app index_of_from]. rewrite H0.
    rewrite IH; [cbn [length]; lia | | exact Hat].
    intros j Hj. apply (Hbefore (S j)). cbn. lia.
Qed.

Lemma index_of_from_absent needle : forall s i,
  (forall j, (j <= length s)%nat -> starts_with needle (drop j s) = false) ->
  index_of_from i needle s = -1.
Proof.
  induction s as [|c s IH]; intros i Hnone.
  - pose proof (Hnone 0%nat ltac:(cbn; lia)) as H0. cbn [drop] in H0.
    cbn [index_of_from]. rewrite H0. reflexivity.
  - pose proof (Hnone 0%nat ltac:(cbn; lia)) as H0. cbn [drop] in H0.
    cbn [index_of_from]. rewrite H0.
    apply IH. intros j Hj. apply (Hnone (S j)). cbn. lia.
Qed.

Lemma index_of_from_first needle : forall s i r,
  index_of_from i needle s = r -> r <> -1 -> 0 <= i ->
  i <= r <= i + Z.of_nat (length s)
  /\ starts_with needle (drop (Z.to_nat (r - i)) s) = true
  /\ forall j, (j < Z.to_nat (r - i))%nat -> starts_with needle (drop j s) = false.
Proof.
  induction s as [|c s IH]; intros i r Hr Hfound Hi.
  - cbn [index_of_from] in Hr. destruct (starts_with needle []) eqn:E; [|congruence].
    subst r. rewrite Z.sub_diag. cbn [length]. split; [lia|]. split; [exact E|].
    intros j Hj. cbn in Hj. lia.
  - cbn [index_of_from] in Hr. destruct (starts_with needle (c :: s)) eqn:E.
    + subst r. rewrite Z.sub_diag. cbn [length]. split; [lia|]. split; [exact E|].
      intros j Hj. cbn in Hj. lia.
    + destruct (IH _ _ Hr Hfound ltac:(lia)) as (Hrange & Hat & Hbefore).
      cbn [length]. replace (Z.to_nat (r - i)) with (S (Z.to_nat (r - (i + 1)))) by lia.
      split; [lia|]. split; [exact Hat|].
      intros [|j] Hj; [exact E|]. apply Hbefore. lia.
Qed.

Lemma starts_with_length needle s :
  starts_with needle s = true -> (length needle <= length s)%nat.
Proof. rewrite starts_with_spec. intros [t ->]. rewrite length_app. lia. Qed.

(** X1: the base name is a prefix of the full name, and taking the base
    name twice gives what taking it once gives. *)
Theorem getBasePlaceholderName_idempotent fullName :
  getBasePlaceholderName fullName `prefix_of` fullName
  /\ getBasePlaceholderName (getBasePlaceholderName fullName)
     = getBasePlaceholderName fullName.
Proof.
  unfold getBasePlaceholderName, index_of.
  destruct (0 <? index_of_from 0 (js " for ") fullName) eqn:Epos.
  - apply Z.ltb_lt in Epos.
    destruct (index_of_from_first (js " for ") fullName 0 _ eq_refl)
      as (Hrange & Hat & Hbefore); [lia | lia |].
    set (k := index_of_from 0 (js " for ") fullName) in *.
    rewrite Z.sub_0_r in Hat, Hbefore.
    split; [apply prefix_take|].
    rewrite index_of_from_absent; [reflexivity|].
    intros j Hj. destruct (starts_with _ (drop j _)) eqn:E; [|reflexivity].
    exfalso.
    assert (Hlen := starts_with_length _ _ E).
    rewrite length_drop, length_take in Hlen. cbn [js list_ascii_of_string length] in Hlen.
    assert (Hfull : starts_with (js " for ") (drop j fullName) = true).
    { apply starts_with_spec in E as [t Ht]. apply starts_with_spec.
      exists (t ++ drop (Z.to_nat k) fullName).
      rewrite app_assoc, <- Ht, <- drop_app_le by (rewrite length_take; lia).
      rewrite take_drop. reflexivity. }
    rewrite Hbefore in Hfull by lia. discriminate.
  - split; [reflexivity|]. rewrite Epos. reflexivity.
Qed.

(** X2: a name of the form [base for rest], where [base] is not empty and
    has no space, has base name [base]. *)
Theorem getBasePlaceholderName_qualified base rest :
  base <> [] ->
  forallb (fun c => negb (ch_eqb c " ")) base = true ->
  getBasePlaceholderName (base ++ js " for " ++ rest) = base.
Proof.
  intros Hne Hplain. unfold getBasePlaceholderName, index_of.
  rewrite index_of_from_found.
  - assert (Hlen : (0 < length base)%nat) by (destruct base; [congruence | cbn; lia]).
    replace (0 <? 0 + Z.of_nat (length base)) with true by (symmetry; apply Z.ltb_lt; lia).
    rewrite Z.add_0_l, Nat2Z.id. apply take_app_length.
  - intros j Hj. rewrite drop_app_le by lia.
    destruct (drop j base) as [|c t] eqn:E.
    { apply (f_equal length) in E. rewrite length_drop in E. cbn in E. lia. }
    assert (Hc : In c base).
    { rewrite <- (take_drop j base). apply in_or_app. right. rewrite E. left. reflexivity. }
    rewrite forallb_forall in Hplain. specialize (Hplain c Hc).
    cbn [app starts_with js list_ascii_of_string].
    rewrite negb_true_iff, ch_eqb_neq in Hplain.
    destruct (ch_eqb " " c) eqn:E'; [|reflexivity].
    apply ch_eqb_eq in E'. congruence.
  - apply starts_with_app.
Qed.

(** An instance: a finding's risk field. *)
Lemma getBasePlaceholderName_qualified_witness :
  getBasePlaceholderName (js "finding_risk" ++ js " for " ++ js "Cat X") = js "finding_risk".
Proof.
  apply (getBasePlaceholderName_qualified (js "finding_risk") (js "Cat X"));
    [discriminate | reflexivity].
Defined.

(** ** The parent of an element path *)

Lemma take_while_app_stop (q : ascii -> bool) a c b :
  forallb q a = true -> q c = false ->
  take_while q (a ++ c :: b) = a /\ drop_while q (a ++ c :: b) = c :: b.
Proof.
  intros Ha Hc. induction a as [|x a IH]; cbn [app take_while drop_while forallb] in *.
  - rewrite Hc. split; reflexivity.
  - apply andb_true_iff in Ha as [Hx Ha]. rewrite Hx.
    destruct (IH Ha) as [-> ->]. split; reflexivity.
Qed.

Lemma forallb_rev_true {A} (q : A -> bool) l : forallb q l = true -> forallb q (rev l) = true.
Proof.
  rewrite !forallb_forall. intros H x Hx. apply H. apply in_rev. exact Hx.
Qed.

Lemma rev_eq_nil {A} (l : list A) : rev l = [] -> l = [].
Proof. intros H. rewrite <- (rev_involutive l), H. reflexivity. Qed.

(** X3: the parent of a path is found exactly for a path that ends in a
    bracketed run of digits after a non-empty prefix without line
    terminators, and the parent is that prefix. *)
Theorem array_parent_path_spec targetPath parent :
  array_parent_path targetPath = Some parent
  <-> exists ds,
        parent <> [] /\ forallb (fun c => negb (is_line_terminator c)) parent = true
        /\ ds <> [] /\ forallb is_digit ds = true
        /\ targetPath = parent ++ js "[" ++ ds ++ js "]".
Proof.
  unfold array_parent_path. split.
  - destruct (rev targetPath) as [|c r] eqn:Erev; [discriminate|].
    destruct (ch_eqb c "]") eqn:Ec.
    2:{ intros H. exfalso. apply ch_eqb_neq in Ec.
        destruct c as [[] [] [] [] [] [] [] []]; try discriminate H. congruence. }
    apply ch_eqb_eq in Ec. subst c.
    pose proof (take_drop_while is_digit r) as Hr.
    pose proof (take_while_forallb is_digit r) as Hds.
    destruct (take_while is_digit r) as [|d ds]; [discriminate|].
    destruct (drop_while is_digit r) as [|b pre]; [discriminate|].
    destruct (ch_eqb b "[") eqn:Eb.
    2:{ intros H. exfalso. apply ch_eqb_neq in Eb.
        destruct b as [[] [] [] [] [] [] [] []]; try discriminate H. congruence. }
    apply ch_eqb_eq in Eb. subst b.
    destruct pre as [|x pre]; [discriminate|].
    destruct (forallb _ (x :: pre)) eqn:Elt; [|discriminate].
    intros [= <-]. exists (rev (d :: ds)).
    split. { intros H. apply app_eq_nil in H as [_ H]. discriminate. }
    split. { apply (forallb_rev_true _ (x :: pre)). exact Elt. }
    split. { intros H. apply app_eq_nil in H as [_ H]. discriminate. }
    split. { apply (forallb_rev_true _ (d :: ds)). exact Hds. }
    apply (f_equal (@rev ascii)) in Erev. rewrite rev_involutive in Erev.
    rewrite Erev, <- Hr. cbn [rev js list_ascii_of_string].
    rewrite !rev_app_distr. cbn [rev app]. rewrite <- !app_assoc. reflexivity.
  - intros (ds & Hp & Hlt & Hds & Hdig & ->).
    cbn [js list_ascii_of_string]. rewrite !rev_app_distr. cbn [rev app].
    rewrite <- app_assoc. cbn [app].
    destruct (take_while_app_stop is_digit (rev ds) "["%char (rev parent)) as [-> ->].
    { apply forallb_rev_true. exact Hdig. }
    { reflexivity. }
    destruct (rev ds) as [|d ds'] eqn:Eds.
    { apply rev_eq_nil in Eds. contradiction. }
    destruct (rev parent) as [|x pre] eqn:Ep.
    { apply rev_eq_nil in Ep. contradiction. }
    rewrite <- Ep, forallb_rev_true by exact Hlt. rewrite rev_involutive. reflexivity.
Qed.

(** ** getAtPath *)

Lemma get_property_returns o k :
  own_name k = true -> o <> VUndef -> o <> VNull -> exists v, get_property o k = Return v.
Proof.
  intros Hk Hu Hn.
  destruct o as [| | | |s|kd props]; cbn [get_property]; rewrite ?(absent_own k Hk);
    try congruence; eauto.
  - destruct (is_length k); [eauto|]. destruct (array_index k); [|eauto].
    destruct (s !! _); eauto.
  - destruct (lookup_prop k props); [eauto|]. destruct kd; [eauto|].
    destruct (is_length k); eauto.
Qed.

Lemma get_parts_returns parts : forall current,
  forallb own_name parts = true -> exists v, get_parts current parts = Return v.
Proof.
  induction parts as [|part rest IH]; intros current Hparts; cbn [get_parts]; [eauto|].
  cbn [forallb] in Hparts. apply andb_prop in Hparts as [Hpart Hrest].
  destruct current as [| | | |s|kd props]; eauto.
  - destruct (get_property_returns (VBool b) part Hpart) as [v ->]; [discriminate..|].
    apply IH, Hrest.
  - destruct (get_property_returns (VNum n) part Hpart) as [v ->]; [discriminate..|].
    apply IH, Hrest.
  - destruct (get_property_returns (VStr s) part Hpart) as [v ->]; [discriminate..|].
    apply IH, Hrest.
  - destruct (get_property_returns (VObj kd props) part Hpart) as [v ->];
      [discriminate..|]. apply IH, Hrest.
Qed.

(** X4: along a path none of whose parts names an inherited member,
    getAtPath never throws: whatever the document, it returns a value. *)
Theorem getAtPath_never_throws obj p :
  forallb own_name (path_parts p) = true -> exists v, getAtPath obj p = Return v.
Proof. apply get_parts_returns. Qed.

(** An instance: a path that leaves the sample report at a missing
    property. *)
Lemma getAtPath_never_throws_witness :
  forallb own_name (path_parts (js "a.c[2].d")) = true
  /\ exists v, getAtPath sample_report (js "a.c[2].d") = Return v.
Proof.
  split; [reflexivity|].
  apply (getAtPath_never_throws sample_report (js "a.c[2].d")). reflexivity.
Defined.

(** ** Cleaning model output *)

Lemma out_of_none {A} (p : pattern A) f : forall s prev,
  (forall t prev', t `suffix_of` s -> t <> [] -> p prev' t = None) ->
  out_of p f 0 prev s = s.
Proof.
  induction s as [|c s IH]; intros prev Hnone; [reflexivity|].
  unfold out_of in *. cbn [scan_from].
  rewrite (Hnone (c :: s) prev) by (reflexivity || discriminate).
  cbn [flat_map piece_text app]. f_equal. apply IH.
  intros t prev' Ht. apply Hnone. apply suffix_cons_r. exact Ht.
Qed.

Lemma includes_suffix needle s t :
  includes needle s = false -> t `suffix_of` s -> starts_with needle t = false.
Proof.
  intros Hs [a ->]. destruct (starts_with needle t) eqn:E; [|reflexivity].
  apply starts_with_spec in E as [b ->].
  assert (H : includes needle (a ++ needle ++ b) = true) by (apply includes_spec; eauto).
  congruence.
Qed.

Lemma opening_fence_none langs prev t :
  starts_with FENCE t = false -> opening_fence langs prev t = None.
Proof. unfold opening_fence. intros ->. rewrite andb_false_r. reflexivity. Qed.

Lemma closing_fence_none prev t :
  starts_with FENCE t = false -> starts_with FENCE (drop 1 t) = false ->
  closing_fence prev t = None.
Proof.
  unfold closing_fence. destruct t as [|c t]; [reflexivity|].
  change (drop 1 (c :: t)) with t.
  intros -> ->. rewrite andb_false_r. reflexivity.
Qed.

Lemma replace_fences_none langs s :
  includes FENCE s = false ->
  replace_all closing_fence erase (replace_all (opening_fence langs) erase s) = s.
Proof.
  intros Hs.
  assert (H1 : replace_all (opening_fence langs) erase s = s).
  { apply out_of_none. intros t prev' Ht _. apply opening_fence_none.
    apply (includes_suffix _ s); assumption. }
  rewrite H1. apply out_of_none. intros t prev' Ht _. apply closing_fence_none.
  - apply (includes_suffix _ s); assumption.
  - apply (includes_suffix _ s); [assumption|].
    etransitivity; [apply suffix_drop | exact Ht].
Qed.

(** X5: a text without a code fence is only trimmed by stripMarkdown. *)
Theorem stripMarkdown_without_fence text :
  includes FENCE text = false -> stripMarkdown text = trim text.
Proof. intros H. unfold stripMarkdown. rewrite replace_fences_none by exact H. reflexivity. Qed.

(** An instance: an answer in plain prose. *)
Lemma stripMarkdown_without_fence_witness :
  stripMarkdown (js "  The intake workflow loses two days. ")
  = trim (js "  The intake workflow loses two days. ").
Proof. apply stripMarkdown_without_fence. reflexivity. Defined.

(** ** The shape of parsed output *)

Lemma span_between_head o c s m : span_between o c s = Some m -> exists r, m = o :: r.
Proof.
  unfold span_between. destruct (drop_while _ s) as [|x t]; [discriminate|].
  destruct (rev _); [discriminate|]. intros [= <-]. eauto.
Qed.

Lemma parse_elements_array fuel : forall s acc v r,
  parse_elements fuel s acc = Return (v, r) -> isArray v = true.
Proof.
  induction fuel as [|fuel IH]; intros s acc v r; [discriminate|].
  cbn [parse_elements].
  destruct (parse_value fuel s) as [[v1 r1]| |]; cbn [cbind]; try discriminate.
  destruct (skip_ws r1) as [|x r2]; [discriminate|].
  destruct (ch_eqb x ",") eqn:Ecomma.
  { apply ch_eqb_eq in Ecomma. subst x. apply IH. }
  destruct (ch_eqb x "]") eqn:Eclose.
  { apply ch_eqb_eq in Eclose. subst x. intros [= <- _]. reflexivity. }
  apply ch_eqb_neq in Ecomma, Eclose. intros H. exfalso.
  destruct x as [[] [] [] [] [] [] [] []]; try discriminate H; congruence.
Qed.

Lemma JSON_parse_bracket r v : JSON_parse ("["%char :: r) = Return v -> isArray v = true.
Proof.
  unfold JSON_parse. cbn [length].
  change (parse_value (S (S (length r))) ("["%char :: r))
    with (match skip_ws r with
          | "]"%char :: r' => Return (mk_array [], r')
          | r1 => parse_elements (S (length r)) r1 []
          end).
  intros H.
  assert (Harr : forall res, match skip_ws r with
          | "]"%char :: r' => Return (mk_array [], r')
          | r1 => parse_elements (S (length r)) r1 []
          end = Return res -> isArray (fst res) = true).
  { intros [v' r']. destruct (skip_ws r) as [|x t] eqn:E.
    - apply parse_elements_array.
    - destruct (ch_eqb x "]") eqn:Ex.
      + apply ch_eqb_eq in Ex. subst x. intros [= <- _]. reflexivity.
      + apply ch_eqb_neq in Ex. intros H'.
        apply (parse_elements_array (S (length r)) (x :: t) [] v' r').
        destruct x as [[] [] [] [] [] [] [] []]; try exact H'; congruence. }
  destruct (match skip_ws r with
            | "]"%char :: r' => Return (mk_array [], r')
            | r1 => parse_elements (S (length r)) r1 []
            end) as [[v' rest]| |] eqn:E; cbn [cbind] in H; try discriminate.
  destruct (skip_ws rest); [|discriminate]. injection H as <-.
  apply (Harr (v', rest)). reflexivity.
Qed.

(** X6: parseArrayOutput never throws, and what it returns is an array. *)
Theorem parseArrayOutput_returns_array output :
  (forall e, parseArrayOutput output <> Throw e)
  /\ (forall v, parseArrayOutput output = Return v -> isArray v = true).
Proof.
  unfold parseArrayOutput.
  destruct (span_between "[" "]" (stripMarkdown output)) as [m|] eqn:Espan.
  - apply span_between_head in Espan as [r ->].
    destruct (JSON_parse ("["%char :: r)) as [v| |] eqn:Eparse.
    + split; [discriminate|]. intros v' [= <-]. apply (JSON_parse_bracket r). exact Eparse.
    + split; [discriminate|]. intros v' [= <-]. reflexivity.
    + split; discriminate.
  - split; [discriminate|]. intros v' [= <-]. reflexivity.
Qed.

Lemma parse_members_object fuel : forall s acc v r,
  parse_members fuel s acc = Return (v, r) -> exists props, v = VObj Plain props.
Proof.
  induction fuel as [|fuel IH]; intros s acc v r; [discriminate|].
  cbn [parse_members].
  destruct (skip_ws s) as [|q t]; [discriminate|].
  destruct (ch_eqb q DQUOTE); [|discriminate].
  destruct (parse_string_body t []) as [[key r1]| |]; cbn [cbind]; try discriminate.
  destruct (skip_ws r1) as [|x r2]; [discriminate|].
  destruct (ch_eqb x ":") eqn:Ecolon.
  2:{ apply ch_eqb_neq in Ecolon. intros H. exfalso.
      destruct x as [[] [] [] [] [] [] [] []]; try discriminate H; congruence. }
  apply ch_eqb_eq in Ecolon. subst x.
  destruct (parse_value fuel r2) as [[v1 r3]| |]; cbn [cbind]; try discriminate.
  destruct (skip_ws r3) as [|y r4]; [discriminate|].
  destruct (ch_eqb y ",") eqn:Ecomma.
  { apply ch_eqb_eq in Ecomma. subst y. apply IH. }
  destruct (ch_eqb y "}") eqn:Eclose.
  { apply ch_eqb_eq in Eclose. subst y. intros [= <- _]. eauto. }
  apply ch_eqb_neq in Ecomma, Eclose. intros H. exfalso.
  destruct y as [[] [] [] [] [] [] [] []]; try discriminate H; congruence.
Qed.

Lemma JSON_parse_brace r v :
  JSON_parse ("{"%char :: r) = Return v -> exists props, v = VObj Plain props.
Proof.
  unfold JSON_parse. cbn [length].
  change (parse_value (S (S (length r))) ("{"%char :: r))
    with (match skip_ws r with
          | "}"%char :: r' => Return (VObj Plain [], r')
          | r1 => parse_members (S (length r)) r1 []
          end).
  intros H.
  assert (Hobj : forall res, match skip_ws r with
          | "}"%char :: r' => Return (VObj Plain [], r')
          | r1 => parse_members (S (length r)) r1 []
          end = Return res -> exists props, fst res = VObj Plain props).
  { intros [v' r']. destruct (skip_ws r) as [|x t] eqn:E.
    - apply parse_members_object.
    - destruct (ch_eqb x "}") eqn:Ex.
      + apply ch_eqb_eq in Ex. subst x. intros [= <- _]. cbn. eauto.
      + apply ch_eqb_neq in Ex. intros H'.
        apply (parse_members_object (S (length r)) (x :: t) [] v' r').
        destruct x as [[] [] [] [] [] [] [] []]; try exact H'; congruence. }
  destruct (match skip_ws r with
            | "}"%char :: r' => Return (VObj Plain [], r')
            | r1 => parse_members (S (length r)) r1 []
            end) as [[v' rest]| |] eqn:E; cbn [cbind] in H; try discriminate.
  destruct (skip_ws rest); [|discriminate]. injection H as <-.
  apply (Hobj (v', rest)). reflexivity.
Qed.

(** X7: what the batch executor's parseJSON returns is an object, never an
    array or a primitive. *)
Theorem parseJSON_returns_object text v :
  Batch.parseJSON text = Return v -> exists props, v = VObj Plain props.
Proof.
  unfold Batch.parseJSON.
  destruct (span_between "{" "}" _) as [m|] eqn:Espan; [|discriminate].
  apply span_between_head in Espan as [r ->]. apply JSON_parse_brace.
Qed.

(** An instance: an answer with text around the object. *)
Lemma parseJSON_returns_object_witness :
  Batch.parseJSON (js "Here you are: {} Regards")
  = Return (VObj Plain [])
  /\ exists props, VObj Plain [] = VObj Plain props.
Proof.
  split; [reflexivity|].
  apply (parseJSON_returns_object (js "Here you are: {} Regards")). reflexivity.
Defined.

(** ** A fenced answer *)

Lemma scan_from_skip {A} (p : pattern A) : forall a b prev,
  scan_from p (length a) prev (a ++ b)
  = scan_from p 0 (from_option Some prev (last a)) b.
Proof.
  induction a as [|c a IH]; intros b prev; [reflexivity|].
  cbn [length app scan_from]. rewrite IH, last_cons.
  destruct (last a); reflexivity.
Qed.

Lemma out_of_hit {A} (p : pattern A) f prev m b a :
  m <> [] -> p prev (m ++ b) = Some (length m, a) ->
  out_of p f 0 prev (m ++ b) = f m a ++ out_of p f 0 (last m) b.
Proof.
  intros Hm Hp. destruct m as [|c m]; [congruence|].
  unfold out_of. change ((c :: m) ++ b) with (c :: (m ++ b)) in *.
  cbn [scan_from]. rewrite Hp. cbn [length Nat.pred flat_map piece_text].
  rewrite scan_from_skip, last_cons.
  change (take (S (length m)) (c :: m ++ b)) with (c :: take (length m) (m ++ b)).
  rewrite take_app_length. destruct (last m); reflexivity.
Qed.

Lemma take_drop_while_app (q : ascii -> bool) a c b :
  q c = false ->
  take_while q (a ++ c :: b) = take_while q a
  /\ drop_while q (a ++ c :: b) = drop_while q a ++ c :: b.
Proof.
  intros Hc. induction a as [|x a IH]; cbn [app take_while drop_while].
  - rewrite Hc. split; reflexivity.
  - destruct (q x); [|split; reflexivity]. destruct IH as [-> ->]. split; reflexivity.
Qed.

Lemma suffix_snoc_case (t x : jstring) c :
  t `suffix_of` x ++ [c] -> t <> [] -> exists t', t = t' ++ [c] /\ t' `suffix_of` x.
Proof.
  intros [a Ha] Ht.
  destruct (rev t) as [|c' t'] eqn:E.
  { apply (f_equal (@rev ascii)) in E. rewrite rev_involutive in E. contradiction. }
  assert (Et : t = rev t' ++ [c']).
  { rewrite <- (rev_involutive t), E. reflexivity. }
  rewrite Et, app_assoc in Ha. apply app_inj_tail in Ha as [-> ->].
  exists (rev t'). split; [exact Et|]. exists a. reflexivity.
Qed.

Lemma no_fence_before_newline x t :
  includes FENCE x = false -> t `suffix_of` x ++ [NEWLINE] -> t <> [] ->
  starts_with FENCE (t ++ FENCE) = false.
Proof.
  intros Hx Ht Hne. destruct (suffix_snoc_case _ _ _ Ht Hne) as (t' & -> & Ht').
  pose proof (includes_suffix _ _ _ Hx Ht') as Hstart.
  destruct t' as [|a [|b [|c t'']]].
  - reflexivity.
  - unfold FENCE. cbn [app starts_with js list_ascii_of_string].
    destruct (ch_eqb "`" a); reflexivity.
  - unfold FENCE. cbn [app starts_with js list_ascii_of_string].
    destruct (ch_eqb "`" a); [|reflexivity]. destruct (ch_eqb "`" b); reflexivity.
  - exact Hstart.
Qed.

Lemma out_until_fence : forall u prev,
  (forall t, t `suffix_of` u -> t <> [] -> starts_with FENCE (t ++ FENCE) = false) ->
  match last u with Some c => c = NEWLINE | None => prev = Some NEWLINE end ->
  out_of (opening_fence FENCE_LANGUAGES) erase 0 prev (u ++ FENCE) = u.
Proof.
  induction u as [|x u IH]; intros prev Hnone Hlast.
  - cbn [last] in Hlast. subst prev. reflexivity.
  - unfold out_of in *. cbn [app scan_from].
    rewrite opening_fence_none by (apply (Hnone (x :: u)); [reflexivity | discriminate]).
    cbn [flat_map piece_text app]. f_equal. apply IH.
    + intros t Ht. apply Hnone. apply suffix_cons_r. exact Ht.
    + rewrite last_cons in Hlast. destruct (last u); [exact Hlast | congruence].
Qed.

Lemma opening_fence_at_start lang rest :
  lang ∈ [] :: FENCE_LANGUAGES ->
  let m := FENCE ++ lang ++ NEWLINE :: take_while is_space rest in
  opening_fence FENCE_LANGUAGES None (m ++ drop_while is_space rest) = Some (length m, tt).
Proof.
  intros Hlang m. subst m. rewrite <- !app_assoc. cbn [app].
  rewrite take_drop_while.
  unfold opening_fence. cbn [at_line_start andb].
  rewrite starts_with_app.
  change (drop 3 (FENCE ++ ?x)) with x.
  unfold FENCE_LANGUAGES in Hlang.
  repeat (apply elem_of_cons in Hlang as [->|Hlang]); [..|inversion Hlang];
    cbn; reflexivity.
Qed.

Lemma trim_end_snoc_space x c : is_space c = true -> trim_end (x ++ [c]) = trim_end x.
Proof.
  intros Hc. unfold trim_end. rewrite rev_app_distr. cbn [rev app drop_while].
  rewrite Hc. reflexivity.
Qed.

Lemma drop_while_idem (q : ascii -> bool) s : drop_while q (drop_while q s) = drop_while q s.
Proof.
  induction s as [|c s IH]; [reflexivity|]. cbn [drop_while].
  destruct (q c) eqn:E; [exact IH|]. cbn [drop_while]. rewrite E. reflexivity.
Qed.

Lemma drop_while_snoc_space body c :
  is_space c = true ->
  trim_end (drop_while is_space (body ++ [c])) = trim_end (drop_while is_space body).
Proof.
  intros Hc. induction body as [|x body IH]; cbn [app drop_while].
  - rewrite Hc. reflexivity.
  - destruct (is_space x); [exact IH|].
    change (x :: body ++ [c]) with ((x :: body) ++ [c]). apply trim_end_snoc_space, Hc.
Qed.

Lemma includes_snoc needle x c :
  needle <> [] -> last needle <> Some c ->
  includes needle x = false -> includes needle (x ++ [c]) = false.
Proof.
  intros Hne Hlast Hx. destruct (includes needle (x ++ [c])) eqn:E; [|reflexivity].
  apply includes_spec in E as (a & b & E). exfalso.
  destruct (rev b) as [|c' b'] eqn:Eb.
  - apply (f_equal (@rev ascii)) in Eb. rewrite rev_involutive in Eb. cbn in Eb. subst b.
    rewrite app_nil_r in E.
    destruct (rev needle) as [|z n'] eqn:En.
    { apply (f_equal (@rev ascii)) in En. rewrite rev_involutive in En. contradiction. }
    assert (Hn : needle = rev n' ++ [z]).
    { rewrite <- (rev_involutive needle), En. reflexivity. }
    rewrite Hn, app_assoc in E. apply app_inj_tail in E as [_ ->].
    apply Hlast. rewrite Hn, last_snoc. reflexivity.
  - assert (Hb : b = rev b' ++ [c']).
    { rewrite <- (rev_involutive b), Eb. reflexivity. }
    rewrite Hb, !app_assoc in E. apply app_inj_tail in E as [-> _].
    assert (H : includes needle ((a ++ needle) ++ rev b') = true).
    { apply includes_spec. exists a, (rev b'). rewrite app_assoc. reflexivity. }
    congruence.
Qed.

(** X8: a fenced answer is unwrapped: an opening fence with or without
    one of the languages, a line break, a body without a fence, a line break
    and a closing fence give the body, trimmed. *)
Theorem stripMarkdown_unwraps_fence lang body :
  lang ∈ [] :: FENCE_LANGUAGES ->
  includes FENCE body = false ->
  stripMarkdown (FENCE ++ lang ++ [NEWLINE] ++ body ++ [NEWLINE] ++ FENCE) = trim body.
Proof.
  intros Hlang Hbody.
  set (u := drop_while is_space (body ++ [NEWLINE])).
  assert (Hline : includes FENCE (body ++ [NEWLINE]) = false).
  { apply includes_snoc; [discriminate | discriminate | exact Hbody]. }
  assert (Hsuffix : u `suffix_of` body ++ [NEWLINE]).
  { exists (take_while is_space (body ++ [NEWLINE])). symmetry. apply take_drop_while. }
  assert (Hu : includes FENCE u = false).
  { destruct (includes FENCE u) eqn:E; [|reflexivity].
    apply includes_spec in E as (a & b & E). destruct Hsuffix as [k Hk].
    assert (H : includes FENCE (body ++ [NEWLINE]) = true).
    { apply includes_spec. exists (k ++ a), b. rewrite Hk, E, <- app_assoc. reflexivity. }
    congruence. }
  assert (Hopen : replace_all (opening_fence FENCE_LANGUAGES) erase
                    (FENCE ++ lang ++ [NEWLINE] ++ body ++ [NEWLINE] ++ FENCE) = u).
  { set (rest := (body ++ [NEWLINE]) ++ FENCE).
    replace (FENCE ++ lang ++ [NEWLINE] ++ body ++ [NEWLINE] ++ FENCE)
      with ((FENCE ++ lang ++ NEWLINE :: take_while is_space rest)
            ++ drop_while is_space rest).
    2:{ rewrite <- !app_assoc. cbn [app]. rewrite take_drop_while.
        unfold rest. rewrite <- app_assoc. reflexivity. }
    change (replace_all ?p ?f ?s) with (out_of p f 0 None s).
    rewrite (out_of_hit _ _ _ _ _ tt); [|discriminate | apply opening_fence_at_start, Hlang].
    cbn [erase app].
    destruct (take_drop_while_app is_space (body ++ [NEWLINE]) "`"%char (js "``") eq_refl)
      as [Htake Hdrop].
    change ((body ++ [NEWLINE]) ++ "`"%char :: js "``") with rest in Htake, Hdrop.
    rewrite Hdrop. fold u. change ("`"%char :: js "``") with FENCE.
    apply out_until_fence.
    - intros t Ht Hne. apply (no_fence_before_newline body); [exact Hbody | | exact Hne].
      etransitivity; [exact Ht | exact Hsuffix].
    - rewrite Htake. destruct u as [|x u'] eqn:Eu.
      + pose proof (take_drop_while is_space (body ++ [NEWLINE])) as Hall.
        fold u in Hall. rewrite Eu, app_nil_r in Hall. rewrite Hall.
        cbn [last].
        change (FENCE ++ lang ++ NEWLINE :: body ++ [NEWLINE])
          with (FENCE ++ lang ++ (NEWLINE :: body) ++ [NEWLINE]).
        rewrite !app_assoc, last_snoc. reflexivity.
      + destruct (suffix_snoc_case _ _ _ Hsuffix ltac:(discriminate)) as (t' & -> & _).
        rewrite last_snoc. reflexivity. }
  unfold stripMarkdown. fold FENCE_LANGUAGES. rewrite Hopen.
  replace (replace_all closing_fence erase u) with u.
  2:{ symmetry. apply out_of_none. intros t prev' Ht _. apply closing_fence_none.
      - apply (includes_suffix _ u); assumption.
      - apply (includes_suffix _ u); [assumption|].
        etransitivity; [apply suffix_drop | exact Ht]. }
  unfold trim, trim_start, u. rewrite drop_while_idem.
  apply drop_while_snoc_space. reflexivity.
Qed.

(** An instance: a fenced JSON answer. *)
Lemma stripMarkdown_unwraps_fence_witness :
  stripMarkdown (FENCE ++ js "json" ++ [NEWLINE] ++ js " [1, 2] " ++ [NEWLINE] ++ FENCE)
  = trim (js " [1, 2] ").
Proof.
  apply (stripMarkdown_unwraps_fence (js "json") (js " [1, 2] ")); [|reflexivity].
  unfold FENCE_LANGUAGES. apply list_elem_of_further, list_elem_of_here.
Defined.

(** ** How paths compose *)

Lemma path_parts_eq p : path_parts p = split_on "." (out_of bracket_index dotted 0 None p).
Proof. reflexivity. Qed.

Lemma bracket_index_not_open prev c t : c <> "["%char -> bracket_index prev (c :: t) = None.
Proof.
  intros Hc. unfold bracket_index.
  destruct c as [[] [] [] [] [] [] [] []]; try reflexivity. congruence.
Qed.

Lemma bracket_index_open prev t :
  bracket_index prev ("["%char :: t)
  = match take_while is_digit t, drop_while is_digit t with
    | _ :: _, c :: _ =>
        if ch_eqb c "]" then Some (S (S (length (take_while is_digit t))), take_while is_digit t)
        else None
    | _, _ => None
    end.
Proof.
  unfold bracket_index. destruct (take_while is_digit t) as [|d ds]; [reflexivity|].
  destruct (drop_while is_digit t) as [|c r]; [reflexivity|].
  destruct (ch_eqb c "]") eqn:E.
  - apply ch_eqb_eq in E. subst c. reflexivity.
  - apply ch_eqb_neq in E. destruct c as [[] [] [] [] [] [] [] []]; try reflexivity. congruence.
Qed.

Lemma bracket_index_app prev t y :
  t <> [] -> breaks y -> bracket_index prev (t ++ y) = bracket_index prev t.
Proof.
  intros Ht Hy. destruct t as [|x t]; [congruence|]. cbn [app].
  destruct (ch_eqb x "[") eqn:Ex.
  2:{ apply ch_eqb_neq in Ex. rewrite !bracket_index_not_open by exact Ex. reflexivity. }
  apply ch_eqb_eq in Ex. subst x. rewrite !bracket_index_open.
  destruct y as [|c y]; [rewrite app_nil_r; reflexivity|]. destruct Hy as [Hd Hc].
  destruct (take_drop_while_app is_digit t c y Hd) as [-> ->].
  destruct (take_while is_digit t) as [|d ds]; [reflexivity|].
  destruct (drop_while is_digit t) as [|z r]; cbn [app]; [|reflexivity].
  apply ch_eqb_neq in Hc. rewrite Hc. reflexivity.
Qed.

Lemma bracket_index_length prev t n ds :
  bracket_index prev t = Some (n, ds) -> (1 <= n <= length t)%nat.
Proof.
  destruct t as [|x t]; [discriminate|].
  destruct (ch_eqb x "[") eqn:Ex.
  2:{ apply ch_eqb_neq in Ex. rewrite bracket_index_not_open by exact Ex. discriminate. }
  apply ch_eqb_eq in Ex. subst x. rewrite bracket_index_open.
  pose proof (take_drop_while is_digit t) as Ht.
  destruct (take_while is_digit t) as [|d l]; [discriminate|].
  destruct (drop_while is_digit t) as [|c r]; [discriminate|].
  destruct (ch_eqb c "]"); [|discriminate]. intros [= <- <-].
  rewrite <- Ht. cbn [length]. rewrite length_app. cbn [length]. lia.
Qed.

Lemma out_of_bracket_prev : forall s skip prev prev',
  out_of bracket_index dotted skip prev s = out_of bracket_index dotted skip prev' s.
Proof.
  unfold out_of. induction s as [|c s IH]; intros skip prev prev'; [reflexivity|].
  cbn [scan_from]. destruct skip as [|k]; [|reflexivity].
  change (bracket_index prev (c :: s)) with (bracket_index prev' (c :: s)).
  reflexivity.
Qed.

Lemma out_of_bracket_app y : breaks y -> forall s skip prev,
  (skip <= length s)%nat ->
  out_of bracket_index dotted skip prev (s ++ y)
  = out_of bracket_index dotted skip prev s ++ out_of bracket_index dotted 0 None y.
Proof.
  intros Hy. unfold out_of. induction s as [|c s IH]; intros skip prev Hskip.
  - cbn [length] in Hskip. replace skip with 0%nat by lia. cbn [app scan_from flat_map].
    apply out_of_bracket_prev.
  - cbn [app scan_from]. destruct skip as [|k].
    + change (c :: s ++ y) with ((c :: s) ++ y).
      rewrite bracket_index_app by (discriminate || exact Hy).
      destruct (bracket_index prev (c :: s)) as [[n ds]|] eqn:E.
      * apply bracket_index_length in E. cbn [length] in E.
        cbn [flat_map piece_text]. rewrite IH by lia. rewrite app_assoc. reflexivity.
      * cbn [flat_map piece_text app]. rewrite IH by lia. reflexivity.
    + cbn [length] in Hskip. apply IH. lia.
Qed.

Lemma split_on_app sep x y :
  split_on sep (x ++ sep :: y) = split_on sep x ++ split_on sep y.
Proof.
  induction x as [|c x IH]; cbn [app split_on].
  - rewrite ch_eqb_refl. reflexivity.
  - destruct (ch_eqb c sep); [rewrite IH; reflexivity|].
    rewrite IH. pose proof (split_on_nonempty sep x) as Hx.
    destruct (split_on sep x); [congruence | reflexivity].
Qed.

Lemma split_on_plain sep k :
  forallb (fun c => negb (ch_eqb c sep)) k = true -> split_on sep k = [k].
Proof.
  induction k as [|c k IH]; cbn [forallb split_on]; [reflexivity|].
  intros H. apply andb_true_iff in H as [Hc Hk]. apply negb_true_iff in Hc.
  rewrite Hc, (IH Hk). reflexivity.
Qed.

Lemma out_of_bracket_dot q :
  out_of bracket_index dotted 0 None ("."%char :: q)
  = "."%char :: out_of bracket_index dotted 0 None q.
Proof.
  unfold out_of. cbn [scan_from].
  rewrite bracket_index_not_open by discriminate.
  cbn [flat_map piece_text app]. f_equal. apply out_of_bracket_prev.
Qed.

Lemma path_parts_dot p q : path_parts (p ++ js "." ++ q) = path_parts p ++ path_parts q.
Proof.
  rewrite !path_parts_eq. cbn [js list_ascii_of_string app].
  rewrite out_of_bracket_app by (cbn; (split; [reflexivity | discriminate]) || lia).
  rewrite out_of_bracket_dot. apply split_on_app.
Qed.

Lemma digits_no_dot ds :
  forallb is_digit ds = true -> forallb (fun c => negb (ch_eqb c ".")) ds = true.
Proof.
  rewrite !forallb_forall. intros H c Hc. specialize (H c Hc).
  destruct (ch_eqb c ".") eqn:E; [|reflexivity].
  apply ch_eqb_eq in E. subst c. discriminate.
Qed.

Lemma out_of_bracket_index ds :
  ds <> [] -> forallb is_digit ds = true ->
  out_of bracket_index dotted 0 None (js "[" ++ ds ++ js "]") = "."%char :: ds.
Proof.
  intros Hne Hds.
  assert (Hp : bracket_index None ((js "[" ++ ds ++ js "]") ++ [])
               = Some (length (js "[" ++ ds ++ js "]"), ds)).
  { rewrite app_nil_r. cbn [js list_ascii_of_string app]. rewrite bracket_index_open.
    destruct (take_while_app_stop is_digit ds "]"%char [] Hds eq_refl) as [-> ->].
    destruct ds; [congruence|]. rewrite ch_eqb_refl.
    do 2 f_equal. cbn [length app]. rewrite length_app. cbn [length]. lia. }
  rewrite <- (app_nil_r (js "[" ++ ds ++ js "]")).
  rewrite (out_of_hit _ _ _ _ _ ds) by (discriminate || exact Hp).
  unfold dotted. cbn [out_of scan_from flat_map]. rewrite app_nil_r. reflexivity.
Qed.

Lemma path_parts_index p ds :
  ds <> [] -> forallb is_digit ds = true ->
  path_parts (p ++ js "[" ++ ds ++ js "]") = path_parts p ++ [ds].
Proof.
  intros Hne Hds. rewrite !path_parts_eq.
  rewrite out_of_bracket_app by (cbn; (split; [reflexivity | discriminate]) || lia).
  rewrite out_of_bracket_index by assumption.
  rewrite split_on_app. rewrite (split_on_plain _ ds) by (apply digits_no_dot; exact Hds).
  reflexivity.
Qed.

Lemma path_parts_plain k :
  forallb (fun c => negb (ch_eqb c "." || ch_eqb c "[")) k = true -> path_parts k = [k].
Proof.
  intros Hk. rewrite path_parts_eq.
  rewrite out_of_none.
  - apply split_on_plain. rewrite forallb_forall in *. intros c Hc.
    specialize (Hk c Hc). apply negb_true_iff, orb_false_iff in Hk as [-> _]. reflexivity.
  - intros t prev' [a ->] Hne. destruct t as [|c t]; [congruence|].
    apply bracket_index_not_open. intros ->.
    rewrite forallb_app in Hk. apply andb_true_iff in Hk as [_ Hk].
    cbn [forallb] in Hk. apply andb_true_iff in Hk as [Hk _].
    rewrite ch_eqb_refl, orb_true_r in Hk. discriminate.
Qed.

(** X9: reading [p.q] is reading [q] from what [p] gives, and reading
    [p[n]] is reading [n] from what [p] gives. *)
Theorem getAtPath_composes obj p :
  (forall q, getAtPath obj (p ++ js "." ++ q)
             = match getAtPath obj p with
               | Return v => getAtPath v q
               | other => other
               end)
  /\ (forall ds, ds <> [] -> forallb is_digit ds = true ->
        getAtPath obj (p ++ js "[" ++ ds ++ js "]")
        = match getAtPath obj p with
          | Return v => getAtPath v ds
          | other => other
          end).
Proof.
  unfold getAtPath. split.
  - intros q. rewrite path_parts_dot. apply get_parts_app.
  - intros ds Hne Hds. rewrite path_parts_index by assumption.
    rewrite get_parts_app.
    rewrite (path_parts_plain ds); [reflexivity|].
    rewrite forallb_forall in *. intros c Hc. specialize (Hds c Hc).
    destruct (ch_eqb c ".") eqn:E1; [apply ch_eqb_eq in E1; subst c; discriminate|].
    destruct (ch_eqb c "[") eqn:E2; [apply ch_eqb_eq in E2; subst c; discriminate|].
    reflexivity.
Qed.

(** An instance: the first element of the array [a.b] of the sample
    report. *)
Lemma getAtPath_composes_witness :
  getAtPath sample_report (js "a.b" ++ js "[" ++ js "0" ++ js "]")
  = match getAtPath sample_report (js "a.b") with
    | Return v => getAtPath v (js "0")
    | other => other
    end.
Proof.
  apply (proj2 (getAtPath_composes sample_report (js "a.b")) (js "0"));
    [discriminate | reflexivity].
Defined.

(** ** What setAtPath leaves alone *)

Lemma lookup_update_prop_ne k k' v props :
  k' <> k -> lookup_prop k' (update_prop k v props) = lookup_prop k' props.
Proof.
  intros Hne. induction props as [|[k0 v0] rest IH]; [reflexivity|].
  cbn [update_prop]. destruct (decide (k0 = k)) as [->|H0]; cbn [lookup_prop].
  - destruct (decide (k = k')); [congruence | reflexivity].
  - destruct (decide (k0 = k')); [reflexivity | exact IH].
Qed.

Lemma lookup_put_prop_ne k k' v props :
  k' <> k -> lookup_prop k' (put_prop k v props) = lookup_prop k' props.
Proof.
  intros Hne. unfold put_prop. destruct (lookup_prop k props).
  - apply lookup_update_prop_ne, Hne.
  - rewrite lookup_app_prop. destruct (lookup_prop k' props); [reflexivity|].
    cbn [lookup_prop]. destruct (decide (k = k')); [congruence | reflexivity].
Qed.

(** X10: a write into a plain object along a path none of whose parts
    names an inherited member changes no top-level property other than the
    one the path starts with, whether the write completes or throws. *)
Theorem setAtPath_keeps_other_properties props p v r obj' k :
  forallb own_name (path_parts p) = true ->
  setAtPath (VObj Plain props) p v = (r, obj') ->
  Some k <> head (path_parts p) ->
  get_property obj' k = get_property (VObj Plain props) k.
Proof.
  unfold setAtPath. destruct (path_parts p) as [|part rest]; cbn [head].
  { intros _ [= _ <-] _. reflexivity. }
  intros Hown Hset Hk. assert (Hne : k <> part) by congruence. clear Hk.
  cbn [forallb] in Hown. apply andb_prop in Hown as [Hpart _].
  pose proof (own_name_not_proto part Hpart) as Hproto.
  destruct rest as [|next rest].
  - cbn [set_parts set_property] in Hset. rewrite Hproto in Hset. cbn [andb] in Hset.
    injection Hset as _ <-.
    cbn [get_property]. rewrite lookup_put_prop_ne by exact Hne. reflexivity.
  - rewrite set_parts_step in Hset. cbn [has_property] in Hset.
    rewrite orb_false_r in Hset.
    replace (negb (bool_decide (is_Some (lookup_prop part props))) && inherited part)
      with false in Hset
      by (unfold own_name in Hpart; destruct (inherited part);
          [discriminate | rewrite andb_false_r; reflexivity]).
    assert (Hcur : exists props1,
      (if bool_decide (is_Some (lookup_prop part props))
       then (Return tt, VObj Plain props)
       else set_property (VObj Plain props) part
              (if isNaN_str next then empty_object else empty_array))
      = (Return tt, VObj Plain props1)
      /\ lookup_prop k props1 = lookup_prop k props).
    { destruct (bool_decide _); [eauto|]. cbn [set_property].
      rewrite Hproto. cbn [andb].
      eexists. split; [reflexivity|]. apply lookup_put_prop_ne, Hne. }
    destruct Hcur as (props1 & Hcur & Hsame). rewrite Hcur in Hset.
    destruct (get_property (VObj Plain props1) part) as [child| |] eqn:Hchild.
    + destruct (set_parts child (next :: rest) v) as [r' child'].
      injection Hset as _ <-. cbn [store_child get_property].
      rewrite lookup_update_prop_ne, Hsame by exact Hne. reflexivity.
    + injection Hset as _ <-. cbn [get_property]. rewrite Hsame. reflexivity.
    + injection Hset as _ <-. cbn [get_property]. rewrite Hsame. reflexivity.
Qed.

(** An instance: a write under [a] leaves the title of the sample report
    alone. *)
Lemma setAtPath_keeps_other_properties_witness :
  get_property (snd (setAtPath sample_report (js "a.c[2].d") (VNum 1))) (js "title")
  = get_property sample_report (js "title").
Proof.
  apply (setAtPath_keeps_other_properties _ (js "a.c[2].d") (VNum 1)
           (fst (setAtPath sample_report (js "a.c[2].d") (VNum 1))));
    [reflexivity | reflexivity | discriminate].
Defined.

(** ** The paths findPlaceholders reports *)

Lemma value_induction (P : value -> Prop) :
  P VUndef -> P VNull -> (forall b, P (VBool b)) -> (forall n, P (VNum n)) ->
  (forall s, P (VStr s)) ->
  (forall kd props, Forall (fun kv => P (snd kv)) props -> P (VObj kd props)) ->
  forall v, P v.
Proof.
  intros Hu Hn Hb Hz Hs Ho. fix IH 1. intros [| | b | n | s | kd props];
    [exact Hu | exact Hn | apply Hb | apply Hz | apply Hs |].
  apply Ho. induction props as [|kv props IHprops]; constructor; [apply IH | exact IHprops].
Qed.

Lemma insert_by_index_In {A} (x y : Z * A) l :
  In y (insert_by_index x l) <-> y = x \/ In y l.
Proof.
  induction l as [|z l IH]; cbn [insert_by_index].
  - cbn. intuition.
  - destruct (fst x <? fst z); cbn [In]; [intuition|]. rewrite IH. intuition.
Qed.

Lemma sort_by_index_In {A} (y : Z * A) l : In y (sort_by_index l) <-> In y l.
Proof.
  unfold sort_by_index. induction l as [|x l IH]; [reflexivity|].
  cbn [foldr]. rewrite insert_by_index_In, IH. cbn. intuition.
Qed.

Lemma ordered_elements_In {A} (x : jstring * A) props :
  In x (ordered_elements props) -> In x props /\ is_Some (array_index (fst x)).
Proof.
  unfold ordered_elements. rewrite in_map_iff. intros ([i kv] & <- & Hin).
  apply sort_by_index_In, in_flat_map in Hin as (kv' & Hkv' & Hin).
  destruct (array_index (fst kv')) as [j|] eqn:E; [|destruct Hin].
  destruct Hin as [[= <- <-]|[]]. cbn [snd]. rewrite E. eauto.
Qed.

Lemma ordered_props_In {A} (x : jstring * A) props :
  In x (ordered_props props) -> In x props.
Proof.
  unfold ordered_props. rewrite in_app_iff. intros [H|H].
  - apply (ordered_elements_In x props). exact H.
  - apply list_elem_of_In, list_elem_of_filter in H as [_ H].
    apply list_elem_of_In. exact H.
Qed.

Lemma lookup_prop_NoDup k (v : value) props :
  NoDup (map fst props) -> In (k, v) props -> lookup_prop k props = Some v.
Proof.
  induction props as [|[k' v'] rest IH]; [intros _ []|].
  cbn [map fst lookup_prop In]. intros Hnd [[= -> ->]|Hin].
  - destruct (decide (k = k)); congruence.
  - apply NoDup_cons in Hnd as [Hk' Hnd].
    destruct (decide (k' = k)) as [->|Hne]; [|apply IH; assumption].
    exfalso. apply Hk'. apply list_elem_of_In, in_map_iff. exists (k, v). eauto.
Qed.

Lemma array_index_digits k i :
  array_index k = Some i -> k <> [] /\ forallb is_digit k = true.
Proof.
  unfold array_index. destruct k as [|c rest]; [discriminate|].
  destruct (forallb is_digit (c :: rest)); [|discriminate]. intros _. split; [discriminate | reflexivity].
Qed.

Lemma well_keyed_obj kd props :
  well_keyed (VObj kd props) = true ->
  NoDup (map fst props)
  /\ (kd = Plain -> forall kv, In kv props -> plain_key (fst kv) = true)
  /\ (forall kv, In kv props -> well_keyed (snd kv) = true).
Proof.
  cbn [well_keyed]. rewrite !andb_true_iff. intros [[Hnd Hkeys] Hsub].
  split; [apply bool_decide_eq_true in Hnd; exact Hnd|]. split.
  - intros -> kv Hin. rewrite forallb_forall in Hkeys. apply Hkeys.
    apply in_map. exact Hin.
  - rewrite forallb_forall in Hsub. exact Hsub.
Qed.

Lemma get_parts_child kd props k v ks :
  NoDup (map fst props) -> In (k, v) props ->
  get_parts (VObj kd props) (k :: ks) = get_parts v ks.
Proof.
  intros Hnd Hin. cbn [get_parts get_property].
  rewrite (lookup_prop_NoDup k v props Hnd Hin). reflexivity.
Qed.

Lemma findPlaceholders_leads_back : forall v p ph,
  well_keyed v = true -> p <> [] ->
  In ph (findPlaceholders v p) ->
  exists ks s,
    path_parts (path ph) = path_parts p ++ ks
    /\ get_parts v ks = Return (VStr s)
    /\ findPlaceholders (VStr s) (path ph) = [ph].
Proof.
  induction v as [| | b | n | s | kd props IH] using value_induction;
    intros p ph Hwf Hp Hin; try (destruct Hin; fail).
  - (* a string *)
    exists [], s. rewrite app_nil_r. cbn [findPlaceholders] in Hin |- *.
    destruct (includes _ s); [|destruct Hin].
    destruct (match_first placeholder_marker s) as [[m name]|]; [|destruct Hin].
    destruct Hin as [<-|[]]. cbn [path]. auto.
  - (* an array or an object *)
    apply well_keyed_obj in Hwf as (Hnd & Hkeys & Hsub).
    rewrite Forall_forall in IH.
    assert (Hchild : exists kv p',
      In kv props /\ In ph (findPlaceholders (snd kv) p') /\ p' <> []
      /\ path_parts p' = path_parts p ++ [fst kv]).
    { destruct kd as [|len]; cbn [findPlaceholders] in Hin;
        apply in_flat_map in Hin as ([k phs] & Hk & Hph); cbn [snd] in Hph.
      - apply ordered_props_In, in_map_iff in Hk as (kv & [= <- <-] & Hkv).
        exists kv, (p ++ js "." ++ fst kv).
        destruct p as [|c p]; [congruence|]. cbn [nonempty] in Hph.
        split; [exact Hkv|]. split; [exact Hph|]. split; [discriminate|].
        rewrite path_parts_dot. f_equal. apply path_parts_plain.
        specialize (Hkeys eq_refl kv Hkv). unfold plain_key in Hkeys.
        apply andb_true_iff in Hkeys as [_ Hkeys]. exact Hkeys.
      - apply ordered_elements_In in Hk as [Hk [i Hi]]. cbn [fst] in Hi.
        apply in_map_iff in Hk as (kv & [= <- <-] & Hkv).
        exists kv, (p ++ js "[" ++ fst kv ++ js "]").
        split; [exact Hkv|]. split; [exact Hph|].
        split; [intros H; apply app_eq_nil in H as [_ H]; discriminate|].
        apply array_index_digits in Hi as [Hne Hds]. apply path_parts_index; assumption. }
    destruct Hchild as ([k v] & p' & Hkv & Hph & Hp' & Hparts).
    destruct (IH (k, v) ltac:(apply list_elem_of_In; exact Hkv) p' ph (Hsub _ Hkv) Hp' Hph)
      as (ks & s & Hpath & Hget & Hfind).
    exists (k :: ks), s. cbn [fst snd] in *.
    split; [rewrite Hpath, Hparts, <- app_assoc; reflexivity|].
    split; [|exact Hfind].
    rewrite (get_parts_child kd props k v ks Hnd Hkv). exact Hget.
Qed.

(** X11: in a report that is a plain object whose property names are
    distinct and carry no dot or opening bracket, every path findPlaceholders
    reports leads getAtPath to a string, and that string is where the
    placeholder was found. *)
Theorem findPlaceholders_paths_lead_back props ph :
  well_keyed (VObj Plain props) = true ->
  In ph (findPlaceholders (VObj Plain props) []) ->
  exists s,
    getAtPath (VObj Plain props) (path ph) = Return (VStr s)
    /\ findPlaceholders (VStr s) (path ph) = [ph].
Proof.
  intros Hwf Hin.
  destruct (well_keyed_obj _ _ Hwf) as (Hnd & Hkeys & Hsub).
  cbn [findPlaceholders nonempty] in Hin.
  apply in_flat_map in Hin as ([k phs] & Hk & Hph). cbn [snd] in Hph.
  apply ordered_props_In, in_map_iff in Hk as ([k' v] & [= <- <-] & Hkv).
  cbn [fst snd] in *.
  specialize (Hkeys eq_refl _ Hkv). cbn [fst] in Hkeys. unfold plain_key in Hkeys.
  apply andb_true_iff in Hkeys as [Hne Hplain].
  destruct (findPlaceholders_leads_back v k' ph (Hsub _ Hkv)
              ltac:(destruct k'; [discriminate | discriminate]) Hph)
    as (ks & s & Hpath & Hget & Hfind).
  exists s. split; [|exact Hfind].
  unfold getAtPath. rewrite Hpath, (path_parts_plain k' Hplain). cbn [app].
  rewrite (get_parts_child Plain props k' v ks Hnd Hkv). exact Hget.
Qed.

(** An instance: the array placeholder of the sample report. *)
Lemma findPlaceholders_paths_lead_back_witness :
  exists s,
    getAtPath sample_report (js "a.b[0]") = Return (VStr s)
    /\ findPlaceholders (VStr s) (js "a.b[0]")
       = [mkPlaceholder (js "a.b[0]") (js "scope_items")
            (js "[LLM_PLACEHOLDER: scope_items]")].
Proof.
  apply (findPlaceholders_paths_lead_back _
           (mkPlaceholder (js "a.b[0]") (js "scope_items")
              (js "[LLM_PLACEHOLDER: scope_items]"))).
  - reflexivity.
  - right. left. reflexivity.
Defined.

(** ** One call: requests and counters *)

Lemma bind_this_run {E B} (f : E -> M E B) w : (e <- this ;; f e) w = f (executor w) w.
Proof. reflexivity. Qed.

Lemma bind_run {E A B} (m : M E A) (f : A -> M E B) w a w' :
  m w = (Return a, w') -> (x <- m ;; f x) w = f a w'.
Proof. intros H. unfold bind. rewrite H. reflexivity. Qed.

Lemma request_run {E} host model text (w : World E) :
  exists w', request host model text w = (Return (respond host (sent w) model text), w')
             /\ executor w' = executor w /\ sent w' = S (sent w) /\ heap w' = heap w.
Proof. eexists. split; [reflexivity|]. cbn. auto. Qed.

Lemma sleep_run {E} host ms (w : World E) :
  exists w', sleep host ms w = (Return tt, w')
             /\ executor w' = executor w /\ sent w' = sent w /\ heap w' = heap w.
Proof. eexists. split; [reflexivity|]. cbn. auto. Qed.

Lemma same_counters_refl w : same_counters w w.
Proof. repeat split. Qed.

Lemma fallbackToNextModel_run cfg host (w : World LLMExecutor) :
  exists switched w',
    fallbackToNextModel cfg host w = (Return switched, w')
    /\ sent w' = sent w /\ heap w' = heap w /\ same_counters w w'.
Proof.
  unfold fallbackToNextModel. rewrite bind_this_run.
  destruct (getNextFallbackModel cfg (currentModel (executor w))) as [[|c n]|].
  - exists false, w. split; [reflexivity|]. auto using same_counters_refl.
  - eexists true, _. split; [reflexivity|]. cbn. repeat split.
  - exists false, w. split; [reflexivity|]. auto using same_counters_refl.
Qed.

Lemma callLLM_loop_accounts cfg host fuel : forall text attempt fa le w,
  0 <= attempt ->
  (attempts_left (maxRetries (executor w)) attempt fa < fuel)%nat ->
  exists exit w',
    callLLM_loop cfg host fuel text attempt fa le w = (Return exit, w')
    /\ (sent w' <= sent w + attempts_left (maxRetries (executor w)) attempt fa)%nat
    /\ heap w' = heap w
    /\ maxRetries (executor w') = maxRetries (executor w)
    /\ errors (stats (executor w')) = errors (stats (executor w))
    /\ match exit with
       | Answered content tokens =>
           promptsExecuted (stats (executor w'))
             = promptsExecuted (stats (executor w)) + 1
           /\ tokensUsed (stats (executor w')) = tokensUsed (stats (executor w)) + tokens
           /\ modelUsed (stats (executor w')) = currentModel (executor w')
       | GaveUp le' =>
           promptsExecuted (stats (executor w')) = promptsExecuted (stats (executor w))
           /\ tokensUsed (stats (executor w')) = tokensUsed (stats (executor w))
           /\ (le' = None -> le = None /\ maxRetries (executor w) < attempt)
       end.
Proof.
  induction fuel as [|fuel IH]; intros text attempt fa le w Hattempt Hfuel; [lia|].
  cbn [callLLM_loop]. rewrite bind_this_run.
  set (R := maxRetries (executor w)) in *.
  destruct (attempt <=? R) eqn:Etest.
  2:{ apply Z.leb_gt in Etest. exists (GaveUp le), w. split; [reflexivity|].
      repeat split; auto; lia. }
  apply Z.leb_le in Etest.
  destruct (request_run host (currentModel (executor w)) text w)
    as (w1 & Hreq & He1 & Hs1 & Hh1).
  rewrite (bind_run _ _ _ _ _ Hreq).
  assert (Hstep : forall attempt' fa',
    0 <= attempt' ->
    (S (attempts_left R attempt' fa') <= attempts_left R attempt fa)%nat ->
    forall w2, sent w2 = sent w1 -> heap w2 = heap w1 -> same_counters w1 w2 ->
    forall err, exists exit w',
      callLLM_loop cfg host fuel text attempt' fa' (Some err) w2 = (Return exit, w')
      /\ (sent w' <= sent w + attempts_left R attempt fa)%nat
      /\ heap w' = heap w
      /\ maxRetries (executor w') = R
      /\ errors (stats (executor w')) = errors (stats (executor w))
      /\ match exit with
         | Answered content tokens =>
             promptsExecuted (stats (executor w'))
               = promptsExecuted (stats (executor w)) + 1
             /\ tokensUsed (stats (executor w')) = tokensUsed (stats (executor w)) + tokens
             /\ modelUsed (stats (executor w')) = currentModel (executor w')
         | GaveUp le' =>
             promptsExecuted (stats (executor w')) = promptsExecuted (stats (executor w))
             /\ tokensUsed (stats (executor w')) = tokensUsed (stats (executor w))
             /\ (le' = None -> le = None /\ R < attempt)
         end).
  { intros attempt' fa' Hattempt' Hless w2 Hs2 Hh2 (HR & Hp & Ht & Herr) err.
    rewrite He1 in HR, Hp, Ht, Herr. fold R in HR.
    destruct (IH text attempt' fa' (Some err) w2 Hattempt') as (exit & w' & Hrun & H);
      [rewrite HR; lia|].
    rewrite HR, Hs2, Hs1, Hh2, Hh1, Hp, Ht, Herr in H.
    destruct H as (Hsent & Hheap & Hmax & Herrs & Hexit).
    exists exit, w'. split; [exact Hrun|]. split; [lia|].
    split; [exact Hheap|]. split; [exact Hmax|]. split; [exact Herrs|].
    destruct exit as [content tokens|le']; [exact Hexit|].
    destruct Hexit as (H1 & H2 & H3). split; [exact H1|]. split; [exact H2|].
    intros Hnone. destruct (H3 Hnone) as [[=] _]. }
  destruct (respond host (sent w) (currentModel (executor w)) text) as [content tokens|err].
  - (* an answer *)
    rewrite bind_this_run. eexists (Answered content tokens), _.
    split; [reflexivity|]. cbn. rewrite He1, Hs1, Hh1.
    unfold attempts_left. repeat split; try lia.
  - destruct (isRateLimitError cfg err && negb fa) eqn:Elimit.
    + apply andb_true_iff in Elimit as [_ Hfa]. apply negb_true_iff in Hfa. subst fa.
      destruct (fallbackToNextModel_run cfg host w1) as (switched & w2 & Hfb & Hs2 & Hh2 & Hc2).
      rewrite (bind_run _ _ _ _ _ Hfb). destruct switched.
      * apply (Hstep 0 true); [lia | unfold attempts_left; lia | assumption..].
      * destruct (sleep_run host (parseRetryAfter cfg err) w2) as (w3 & Hsl & He3 & Hs3 & Hh3).
        rewrite (bind_run _ _ _ _ _ Hsl).
        apply (Hstep (attempt + 1) false); [lia | unfold attempts_left; lia | congruence.. |].
        unfold same_counters in *. rewrite He3. exact Hc2.
    + destruct (isRetryable err && (attempt <? R)).
      * destruct (sleep_run host (5000 * (attempt + 1)) w1) as (w3 & Hsl & He3 & Hs3 & Hh3).
        rewrite (bind_run _ _ _ _ _ Hsl).
        apply (Hstep (attempt + 1) fa); [lia | unfold attempts_left; lia | congruence.. |].
        unfold same_counters. rewrite He3. repeat split.
      * exists (GaveUp (Some err)), w1. split; [reflexivity|].
        rewrite He1, Hs1, Hh1. split; [unfold attempts_left; lia|]. do 5 (split; [reflexivity|]). intros [=].
Qed.

(** X12: one callLLM sends at most two rounds of [maxRetries + 1] requests,
    and it always comes to an end: it returns or throws, unless rendering
    the prompt is outside the fragment. *)
Theorem callLLM_sends_bounded cfg host prompt context w :
  (sent (snd (callLLM cfg host prompt context w))
   <= sent w + 2 * Z.to_nat (maxRetries (executor w) + 1))%nat
  /\ (fst (callLLM cfg host prompt context w) = Stuck ->
      Mustache_render host (user_prompt_template prompt) context = Stuck).
Proof.
  unfold callLLM, renderPrompt.
  destruct (Mustache_render host (user_prompt_template prompt) context) as [up|e|] eqn:Er.
  2,3: (cbn; split; [lia | congruence]).
  rewrite (bind_run _ _ w up w) by reflexivity.
  rewrite bind_this_run.
  destruct (dryRun (executor w)); [cbn; split; [lia | discriminate]|].
  destruct (apiKey (executor w)) as [[|c key]|]; try (cbn; split; [lia | discriminate]).
  destruct (callLLM_loop_accounts cfg host (callLLM_fuel (executor w))
              (if nonempty (system_prompt prompt)
               then system_prompt prompt ++ [NEWLINE; NEWLINE] ++ up else up)
              0 false None w ltac:(lia))
    as (exit & w' & Hrun & Hsent & _).
  { unfold attempts_left, callLLM_fuel. rewrite Z.sub_0_r. lia. }
  rewrite (bind_run _ _ _ _ _ Hrun).
  unfold attempts_left in Hsent. rewrite Z.sub_0_r in Hsent.
  destruct exit as [content tokens|[lastError|]]; cbn; (split; [lia | discriminate]).
Qed.

(** X13: a live call is counted once.  When the prompt renders and callLLM
    returns, one prompt more has been executed and the tokens of the answer
    are added; when the prompt renders and callLLM throws, the counters
    stand and one error is recorded, with the prompt, the model at hand and
    the message of the error thrown.  When rendering the prompt throws,
    callLLM throws that error at once and nothing is counted or recorded. *)
Theorem callLLM_counts_once cfg host prompt context w c key :
  dryRun (executor w) = false ->
  apiKey (executor w) = Some (c :: key) ->
  0 <= maxRetries (executor w) ->
  let s := stats (executor w) in
  match Mustache_render host (user_prompt_template prompt) context with
  | Return _ =>
      match callLLM cfg host prompt context w with
      | (Return (content, tokens), w') =>
          promptsExecuted (stats (executor w')) = promptsExecuted s + 1
          /\ tokensUsed (stats (executor w')) = tokensUsed s + tokens
          /\ modelUsed (stats (executor w')) = currentModel (executor w')
          /\ errors (stats (executor w')) = errors s
      | (Throw err, w') =>
          promptsExecuted (stats (executor w')) = promptsExecuted s
          /\ tokensUsed (stats (executor w')) = tokensUsed s
          /\ errors (stats (executor w'))
             = errors s ++ [mkErrorEntry (prompt_id prompt) (currentModel (executor w'))
                              (message err)]
      | (Stuck, _) => False
      end
  | Throw e => callLLM cfg host prompt context w = (Throw e, w)
  | Stuck => callLLM cfg host prompt context w = (Stuck, w)
  end.
Proof.
  intros Hlive Hkey Hretries s.
  destruct (Mustache_render host (user_prompt_template prompt) context)
    as [userPrompt|e|] eqn:Hrender.
  2,3: (unfold callLLM, renderPrompt, bind, lift; rewrite Hrender; reflexivity).
  unfold callLLM, renderPrompt.
  rewrite (bind_run _ _ w userPrompt w) by (unfold lift; rewrite Hrender; reflexivity).
  rewrite bind_this_run, Hlive, Hkey.
  destruct (callLLM_loop_accounts cfg host (callLLM_fuel (executor w))
              (if nonempty (system_prompt prompt)
               then system_prompt prompt ++ [NEWLINE; NEWLINE] ++ userPrompt
               else userPrompt)
              0 false None w ltac:(lia))
    as (exit & w' & Hrun & _ & _ & _ & Herrs & Hexit).
  { unfold attempts_left, callLLM_fuel. rewrite Z.sub_0_r. lia. }
  rewrite (bind_run _ _ _ _ _ Hrun).
  destruct exit as [content tokens|[lastError|]].
  - cbn. destruct Hexit as (H1 & H2 & H3). auto.
  - cbn. destruct Hexit as (H1 & H2 & _). rewrite Herrs. auto.
  - destruct Hexit as (_ & _ & H). destruct (H eq_refl) as [_ Hlt]. lia.
Qed.

(** An instance: every model of the chain is over its quota. *)
Lemma callLLM_counts_once_witness :
  Mustache_render limited_host (user_prompt_template sample_title_prompt) empty_object
    = Return SAMPLE_TEMPLATE
  /\ let s := stats (executor sample_world) in
     match Mustache_render limited_host (user_prompt_template sample_title_prompt)
             empty_object with
     | Return _ =>
         match callLLM sample_config limited_host sample_title_prompt empty_object
                 sample_world with
         | (Return (content, tokens), w') =>
             promptsExecuted (stats (executor w')) = promptsExecuted s + 1
             /\ tokensUsed (stats (executor w')) = tokensUsed s + tokens
             /\ modelUsed (stats (executor w')) = currentModel (executor w')
             /\ errors (stats (executor w')) = errors s
         | (Throw err, w') =>
             promptsExecuted (stats (executor w')) = promptsExecuted s
             /\ tokensUsed (stats (executor w')) = tokensUsed s
             /\ errors (stats (executor w'))
                = errors s ++ [mkErrorEntry (prompt_id sample_title_prompt)
                                 (currentModel (executor w')) (message err)]
         | (Stuck, _) => False
         end
     | Throw e =>
         callLLM sample_config limited_host sample_title_prompt empty_object sample_world
         = (Throw e, sample_world)
     | Stuck =>
         callLLM sample_config limited_host sample_title_prompt empty_object sample_world
         = (Stuck, sample_world)
     end.
Proof.
  split; [reflexivity|].
  apply (callLLM_counts_once sample_config limited_host sample_title_prompt empty_object
           sample_world "k"%char (js "ey") eq_refl eq_refl).
  cbn. lia.
Defined.

(** ** A dry run of fillPlaceholders *)

Section DryRun.
Context (cfg : ModelConfig) (host : Host) (w0 : World LLMExecutor).
Local Abbreviation Dry := (dry_since w0).

Lemma dry_callLLM prompt context : keeps Dry (callLLM cfg host prompt context).
Proof.
  unfold callLLM, renderPrompt.
  eapply triple_bind; [apply keeps_lift | intros userPrompt].
  apply triple_bind_this. intros e.
  destruct (dryRun e) eqn:Edry; [apply triple_ret; tauto|].
  intros w [[Hdry _] He]. subst e. congruence.
Qed.

Lemma dry_sleep ms : keeps Dry (sleep host ms).
Proof.
  intros w (H1 & H2 & H3 & H4). cbn. unfold dry_since. cbn.
  rewrite requested_app. cbn. rewrite app_nil_r. auto.
Qed.

Lemma dry_Date_now : keeps Dry (Date_now host).
Proof. intros w Hw. exact Hw. Qed.

Lemma dry_write_doc r v : keeps Dry (write_doc r v).
Proof. intros w Hw. exact Hw. Qed.

Lemma dry_alloc_doc v : keeps Dry (alloc_doc v).
Proof. intros w Hw. exact Hw. Qed.

Lemma dry_call_and_write filled placeholder prompt context :
  keeps Dry (call_and_write cfg host filled placeholder prompt context).
Proof.
  unfold call_and_write.
  eapply triple_bind; [apply dry_callLLM | intros result].
  eapply triple_bind; [|intros output; apply stable_setAtPath_in; apply dry_write_doc].
  destruct (bool_decide _); [apply keeps_lift | apply keeps_ret].
Qed.

Lemma dry_fill_each skip filled placeholders : forall lrt,
  keeps Dry (fill_each cfg host skip filled placeholders lrt).
Proof.
  induction placeholders as [|p rest IH]; intros lrt; cbn [fill_each]; [apply keeps_ret|].
  destruct (table_lookup _ _) as [promptId|]; [|apply IH].
  apply triple_bind_this. intros e.
  destruct (getPrompt e promptId) as [prompt|]; [|apply triple_weaken; [apply IH | tauto]].
  eapply triple_bind with (Q' := fun _ => dry_since w0).
  { destruct (_ && _); [|apply triple_ret; tauto].
    intros w [Hw He]. subst e. exact Hw. }
  intros ?. eapply triple_bind.
  { apply keeps_try_catch; [|intros ?; apply keeps_ret].
    eapply triple_bind;
      [apply stable_rate_limit_wait; [apply dry_sleep | apply dry_Date_now] | intros ?].
    eapply triple_bind; [apply keeps_read_doc | intros doc].
    eapply triple_bind; [apply keeps_lift | intros ?; apply keeps_ret]. }
  intros [context|]; [|apply IH].
  eapply triple_bind; [apply dry_Date_now | intros now].
  apply triple_bind_this. intros e'.
  eapply triple_bind with (Q' := fun _ => dry_since w0); [|intros ?].
  { intros w [Hw _]. destruct Hw as (H1 & H2 & H3 & H4). cbn. unfold dry_since. cbn.
    rewrite requested_app. cbn. rewrite app_nil_r. auto. }
  eapply triple_bind; [|intros ?; apply IH].
  apply keeps_try_catch; [apply dry_call_and_write | intros ?; apply keeps_ret].
Qed.
End DryRun.

(** X14: in a dry run fillPlaceholders sends no request to the service and
    counts neither prompts nor tokens, whether it returns or stops. *)
Theorem fillPlaceholders_dry_run_sends_nothing cfg host reportJson skip w :
  dryRun (executor w) = true ->
  let w' := snd (fillPlaceholders cfg host reportJson skip w) in
  sent w' = sent w
  /\ requested (trace w') = requested (trace w)
  /\ promptsExecuted (stats (executor w')) = promptsExecuted (stats (executor w))
  /\ tokensUsed (stats (executor w')) = tokensUsed (stats (executor w)).
Proof.
  intros Hdry w'.
  assert (Hkeeps : keeps (dry_since w) (fillPlaceholders cfg host reportJson skip)).
  { unfold fillPlaceholders.
    apply keeps_bind; [apply keeps_read_doc | intros doc].
    apply keeps_bind; [apply keeps_lift | intros copy].
    apply keeps_bind; [apply dry_alloc_doc | intros filled].
    apply keeps_bind; [apply dry_fill_each | intros ?; apply keeps_ret]. }
  apply (triple_snd (dry_since w) (dry_since w)) with (w := w) in Hkeeps.
  - destruct Hkeeps as (_ & H). exact H.
  - unfold dry_since. auto.
Qed.

(** An instance: a dry run over the sample report. *)
Lemma fillPlaceholders_dry_run_sends_nothing_witness :
  let w' := snd (fillPlaceholders sample_config limited_host 0 false dry_sample_world) in
  sent w' = 0%nat
  /\ requested (trace w') = []
  /\ promptsExecuted (stats (executor w')) = 0
  /\ tokensUsed (stats (executor w')) = 0.
Proof.
  apply (fillPlaceholders_dry_run_sends_nothing sample_config limited_host 0%nat false
           dry_sample_world).
  reflexivity.
Defined.

(** ** The batch run: the report passed in is left alone *)

Lemma keeps_as {E A} (I : World E -> Prop) (m : M E A) (X : World E -> Prop) :
  keeps I m -> (forall w, I w -> X w) -> triple I m (fun _ => I) X.
Proof. intros H HX. eapply triple_conseq; [exact H | auto | auto | exact HX]. Qed.

Section BatchFrame.
Context {E : Type} (r : nat) (report : nat) (d : option value).
Hypothesis other : report <> r.
Local Abbreviation Held := (fun w : World E => heap w !! r = d).

Lemma held_write_doc v : keeps Held (write_doc report v).
Proof. intros w Hw. cbn. rewrite lookup_insert_ne by exact other. exact Hw. Qed.

Lemma held_assign keys v : keeps Held (Batch.assign report keys v).
Proof.
  unfold Batch.assign. apply keeps_bind; [apply keeps_read_doc | intros doc].
  destruct (Batch.assign_in doc keys v) as [c doc'].
  apply keeps_bind; [apply held_write_doc | intros ?; apply keeps_lift].
Qed.

Lemma held_read_in keys : keeps Held (Batch.read_in report keys).
Proof.
  unfold Batch.read_in. apply keeps_bind; [apply keeps_read_doc | intros doc; apply keeps_lift].
Qed.

Lemma held_copy_field generated field keys :
  keeps Held (Batch.copy_field report generated field keys).
Proof.
  unfold Batch.copy_field. apply keeps_bind; [apply keeps_lift | intros v].
  apply keeps_if; [apply held_assign | apply keeps_ret].
Qed.

Lemma held_has_list k1 k2 : keeps Held (Batch.has_list report k1 k2).
Proof.
  unfold Batch.has_list. apply keeps_bind; [apply keeps_read_doc | intros doc].
  apply keeps_bind; [apply keeps_lift | intros o].
  apply keeps_bind; [apply keeps_lift | intros l; apply keeps_ret].
Qed.

Lemma held_for_each {A} (f : A -> M E unit) l :
  (forall x, keeps Held (f x)) -> keeps Held (Batch.for_each f l).
Proof.
  intros Hf. induction l as [|x l IH]; cbn [Batch.for_each]; [apply keeps_ret|].
  apply keeps_bind; [apply Hf | intros ?; exact IH].
Qed.

Ltac held :=
  repeat first
    [ apply keeps_ret | apply keeps_lift | apply held_assign | apply held_read_in
    | apply held_copy_field | apply held_has_list
    | apply keeps_if
    | apply keeps_bind; [|intros ?] ].

Lemma held_apply_finding finding : keeps Held (Batch.apply_finding report finding).
Proof. unfold Batch.apply_finding. held. Qed.

Lemma held_apply_fix fix_ : keeps Held (Batch.apply_fix report fix_).
Proof. unfold Batch.apply_fix. held. Qed.

Lemma held_apply_all generated :
  triple Held
    (Batch.copy_field report generated (js "document_title") [js "document"; js "title"] ;;;
     Batch.copy_field report generated (js "scope_statement")
       [js "audit"; js "scope"; js "scope_statement"] ;;;
     Batch.copy_field report generated (js "in_scope")
       [js "audit"; js "scope"; js "in_scope"] ;;;
     Batch.copy_field report generated (js "out_of_scope")
       [js "audit"; js "scope"; js "out_of_scope"] ;;;
     Batch.copy_field report generated (js "limitations")
       [js "audit"; js "methodology"; js "limitations"] ;;;
     Batch.copy_field report generated (js "executive_summary")
       [js "scorecard"; js "executive_summary"; js "body"] ;;;
     findings <- lift (get_property generated (js "scorecard_findings")) ;;
     (if Batch.truthy findings then
        rows <- Batch.has_list report (js "scorecard") (js "rows") ;;
        if (rows : bool) then
          l <- lift (Batch.forEach_elements findings) ;;
          Batch.for_each (Batch.apply_finding report) l
        else ret tt
      else ret tt) ;;;
     Batch.copy_field report generated (js "math_defender")
       [js "bleed"; js "math_defender_text"] ;;;
     fixes <- lift (get_property generated (js "fixes")) ;;
     (if Batch.truthy fixes then
        items <- Batch.has_list report (js "fixes") (js "items") ;;
        if (items : bool) then
          l <- lift (Batch.forEach_elements fixes) ;;
          Batch.for_each (Batch.apply_fix report) l
        else ret tt
      else ret tt) ;;;
     Batch.copy_field report generated (js "cta_headline") [js "cta"; js "headline"] ;;;
     Batch.copy_field report generated (js "cta_subtext") [js "cta"; js "subtext"] ;;;
     ret report)
    (fun res w => Held w /\ res = report) Held.
Proof.
  repeat (eapply (triple_bind _ _ _ (fun _ => Held));
          [solve [held; apply held_for_each;
                  first [apply held_apply_finding | apply held_apply_fix]]
          | intros ?]).
  apply triple_ret. auto.
Qed.
End BatchFrame.

Lemma batch_applyGeneratedContent_frame {E} reportJson generated (h : gmap nat value) :
  triple (fun w : World E => heap w = h)
    (Batch.applyGeneratedContent reportJson generated)
    (fun report w => heap w !! reportJson = h !! reportJson /\ report <> reportJson)
    (fun w => heap w !! reportJson = h !! reportJson).
Proof.
  intros w Hw. unfold Batch.applyGeneratedContent.
  unfold bind at 1. unfold read_doc at 1. rewrite Hw.
  destruct (h !! reportJson) as [doc|] eqn:Hdoc; [|rewrite Hw; exact Hdoc].
  unfold bind at 1. unfold lift at 1.
  destruct (json_clone doc) as [copy| |]; [|rewrite Hw; exact Hdoc..].
  unfold bind at 1. unfold alloc_doc at 1. rewrite Hw.
  set (report := fresh (dom h)).
  assert (Hne : report <> reportJson).
  { intros Heq. apply (is_fresh (dom h)). fold report. rewrite Heq.
    apply elem_of_dom. eauto. }
  set (w1 := mkWorld _ _ _ _ _ _).
  assert (H1 : heap w1 !! reportJson = Some doc).
  { unfold w1. cbn. rewrite lookup_insert_ne by exact Hne. exact Hdoc. }
  pose proof (held_apply_all reportJson report (Some doc) Hne generated w1 H1) as Hk.
  match type of Hk with
  | (let (_, _) := ?t in _) => destruct t as [[report'|e|] w2]
  end.
  - destruct Hk as [Hk ->]. split; [exact Hk | exact Hne].
  - exact Hk.
  - exact Hk.
Qed.

Lemma batch_heap_Date_now host (h : gmap nat value) :
  keeps (fun w : World Batch.BatchLLMExecutor => heap w = h) (Date_now host).
Proof. intros w Hw. exact Hw. Qed.

Lemma batch_heap_refine cfg host h reportJson generatedContent :
  keeps (fun w : World Batch.BatchLLMExecutor => heap w = h)
    (Batch.refine cfg host reportJson generatedContent).
Proof.
  unfold Batch.refine.
  apply keeps_bind; [apply batch_heap_Date_now | intros refineStart].
  apply keeps_bind; [apply keeps_read_doc | intros doc].
  apply keeps_bind; [apply keeps_lift | intros sourceData].
  apply keeps_bind; [apply keeps_lift | intros refinePrompt].
  apply keeps_bind; [apply batch_heap_callLLM | intros refineResult].
  apply keeps_try_catch; [|intros ?; apply keeps_ret].
  apply keeps_bind; [apply keeps_lift | intros refined].
  apply keeps_bind; [apply batch_heap_Date_now | intros now].
  apply keeps_bind; [apply keeps_this | intros e].
  apply keeps_bind; [apply batch_heap_set_this | intros ?; apply keeps_ret].
Qed.

(** X15: fillAllNarratives works on a copy held under a reference of its
    own; the document under the reference passed in is, after the call, what
    it was before, whether the call returns (a reference other than the one
    passed in) or stops on an error. *)
Theorem fillAllNarratives_preserves_input cfg host reportJson w :
  heap (snd (Batch.fillAllNarratives cfg host reportJson w)) !! reportJson
    = heap w !! reportJson
  /\ (forall report,
        fst (Batch.fillAllNarratives cfg host reportJson w) = Return report ->
        report <> reportJson).
Proof.
  set (Kept := fun w' : World Batch.BatchLLMExecutor => heap w' = heap w).
  assert (Hrun : triple Kept (Batch.fillAllNarratives cfg host reportJson)
                   (fun report w' => heap w' !! reportJson = heap w !! reportJson
                                     /\ report <> reportJson)
                   (fun w' => heap w' !! reportJson = heap w !! reportJson)).
  { assert (Hout : forall w', Kept w' -> heap w' !! reportJson = heap w !! reportJson).
    { intros w' Hw'. unfold Kept in Hw'. rewrite Hw'. reflexivity. }
    unfold Batch.fillAllNarratives.
    eapply triple_bind; [apply keeps_as; [apply batch_heap_Date_now | exact Hout] | intros startTime].
    eapply triple_bind; [apply keeps_as; [apply keeps_read_doc | exact Hout] | intros doc].
    eapply triple_bind; [apply keeps_as; [apply keeps_lift | exact Hout] | intros masterPrompt].
    eapply triple_bind; [apply keeps_as; [apply batch_heap_callLLM | exact Hout] | intros genResult].
    eapply triple_bind.
    { apply keeps_as; [|exact Hout].
      apply keeps_try_catch; [apply keeps_lift | intros ?; apply keeps_throw]. }
    intros generatedContent.
    eapply triple_bind; [apply keeps_as; [apply batch_heap_Date_now | exact Hout] | intros now].
    apply triple_bind_this. intros e.
    eapply triple_bind with (Q' := fun _ => Kept).
    { intros w' [Hw' _]. exact Hw'. }
    intros _.
    eapply triple_bind with (Q' := fun _ => Kept).
    { apply keeps_as; [|exact Hout].
      destruct (Batch.skipRefinement e); [apply keeps_ret | apply batch_heap_refine]. }
    intros content. apply batch_applyGeneratedContent_frame. }
  specialize (Hrun w eq_refl).
  destruct (Batch.fillAllNarratives cfg host reportJson w) as [[report|e|] w']; cbn [fst snd].
  - destruct Hrun as [Hheap Hne]. split; [exact Hheap|]. intros ? [= <-]. exact Hne.
  - split; [exact Hrun | intros ? [=]].
  - split; [exact Hrun | intros ? [=]].
Qed.

(** ** A dry run of the batch *)

Lemma triple_lift_return {E A} (P : World E -> Prop) (c : completion A) a X :
  c = Return a -> triple P (lift c) (fun x w => P w /\ x = a) X.
Proof. intros -> w Hw. cbn. auto. Qed.

Lemma triple_swap_pure {E A} (phi : Prop) (P : World E -> Prop) (m : M E A) Q X :
  (phi -> triple P m Q X) -> triple (fun w => P w /\ phi) m Q X.
Proof. intros H w [Hw Hphi]. apply H; assumption. Qed.

Section BatchDry.
Context (cfg : ModelConfig) (host : Host) (h : gmap nat value) (n : nat) (skip : bool).

(** The executor runs dry over the documents [h], and [n] requests have
    been sent. *)
Local Abbreviation Dry :=
  (fun w : World Batch.BatchLLMExecutor =>
     Batch.dryRun (executor w) = true /\ Batch.skipRefinement (executor w) = skip
     /\ heap w = h /\ sent w = n).
Local Abbreviation Never := (fun _ : World Batch.BatchLLMExecutor => False).

Lemma dry_batch_Date_now : triple Dry (Date_now host) (fun _ => Dry) Never.
Proof. intros w Hw. exact Hw. Qed.

Lemma dry_batch_callLLM systemPrompt userPrompt :
  triple Dry (Batch.callLLM cfg host systemPrompt userPrompt)
    (fun r w => Dry w /\ r = (js "{}", 0)) Never.
Proof.
  intros w Hw. unfold Batch.callLLM. rewrite bind_this_run.
  destruct Hw as (Hdry & Hw). rewrite Hdry. cbn. auto.
Qed.

Lemma dry_batch_read_doc r doc :
  h !! r = Some doc -> triple Dry (read_doc r) (fun v w => Dry w /\ v = doc) Never.
Proof.
  intros Hdoc w Hw. unfold read_doc. destruct Hw as (H1 & H2 & H3 & H4).
  rewrite H3, Hdoc. auto.
Qed.

Lemma dry_batch_parse :
  triple Dry (lift (Batch.parseJSON (js "{}"))) (fun v w => Dry w /\ v = VObj Plain []) Never.
Proof. apply triple_lift_return. reflexivity. Qed.

Lemma dry_batch_refine reportJson doc sourceData refinePrompt :
  h !! reportJson = Some doc ->
  Batch.source_data doc = Return sourceData ->
  buildRefinementPrompt host (VObj Plain []) sourceData = Return refinePrompt ->
  triple Dry (Batch.refine cfg host reportJson (VObj Plain []))
    (fun v w => Dry w /\ v = VObj Plain []) Never.
Proof.
  intros Hdoc Hsource Hprompt. unfold Batch.refine.
  eapply triple_bind; [apply dry_batch_Date_now | intros refineStart].
  eapply triple_bind; [apply (dry_batch_read_doc _ _ Hdoc) | intros doc'].
  apply triple_swap_pure. intros ->.
  eapply triple_bind; [apply (triple_lift_return _ _ _ _ Hsource) | intros sd].
  apply triple_swap_pure. intros ->.
  eapply triple_bind; [apply (triple_lift_return _ _ _ _ Hprompt) | intros rp].
  apply triple_swap_pure. intros ->.
  eapply triple_bind; [apply dry_batch_callLLM | intros refineResult].
  apply triple_swap_pure. intros ->. cbn [fst].
  apply triple_try_catch with (X' := Never); [|intros ? ? []|auto].
  eapply triple_bind; [apply dry_batch_parse | intros refined].
  apply triple_swap_pure. intros ->.
  eapply triple_bind; [apply dry_batch_Date_now | intros now].
  apply triple_bind_this. intros e.
  eapply triple_bind with (Q' := fun _ => Dry).
  { intros w [Hw He]. subst e. exact Hw. }
  intros _. apply triple_ret. auto.
Qed.
End BatchDry.

(** X16: a dry run of fillAllNarratives sends no request and returns, under
    a reference of its own, a copy of the report with nothing applied to
    it. *)
Theorem fillAllNarratives_dry_run cfg host reportJson w doc masterPrompt :
  Batch.dryRun (executor w) = true ->
  heap w !! reportJson = Some doc ->
  doc <> VUndef ->
  buildMasterPrompt host doc = Return masterPrompt ->
  (Batch.skipRefinement (executor w) = false ->
   exists sourceData refinePrompt,
     Batch.source_data doc = Return sourceData
     /\ buildRefinementPrompt host (VObj Plain []) sourceData = Return refinePrompt) ->
  exists w',
    Batch.fillAllNarratives cfg host reportJson w = (Return (fresh (dom (heap w))), w')
    /\ heap w' = <[fresh (dom (heap w)) := json_copy doc]> (heap w)
    /\ sent w' = sent w.
Proof.
  intros Hdry Hdoc Hdef Hmaster Hrefine.
  set (Dry := fun w' : World Batch.BatchLLMExecutor =>
     Batch.dryRun (executor w') = true
     /\ Batch.skipRefinement (executor w') = Batch.skipRefinement (executor w)
     /\ heap w' = heap w /\ sent w' = sent w).
  assert (Hrun : triple Dry (Batch.fillAllNarratives cfg host reportJson)
                   (fun report w' =>
                      report = fresh (dom (heap w))
                      /\ heap w' = <[fresh (dom (heap w)) := json_copy doc]> (heap w)
                      /\ sent w' = sent w)
                   (fun _ => False)).
  { unfold Batch.fillAllNarratives.
    eapply triple_bind; [apply dry_batch_Date_now | intros startTime].
    eapply triple_bind; [apply (dry_batch_read_doc _ _ _ _ _ Hdoc) | intros doc'].
    apply triple_swap_pure. intros ->.
    eapply triple_bind; [apply (triple_lift_return _ _ _ _ Hmaster) | intros mp].
    apply triple_swap_pure. intros ->.
    eapply triple_bind; [apply dry_batch_callLLM | intros genResult].
    apply triple_swap_pure. intros ->. cbn [fst].
    eapply triple_bind.
    { apply triple_try_catch with (X' := fun _ => False);
        [apply dry_batch_parse | intros ? ? [] | auto]. }
    intros generatedContent. apply triple_swap_pure. intros ->.
    eapply triple_bind; [apply dry_batch_Date_now | intros now].
    apply triple_bind_this. intros e.
    eapply triple_bind with (Q' := fun _ w' => Dry w' /\ Batch.skipRefinement e
                                               = Batch.skipRefinement (executor w)).
    { intros w' [Hw' He]. subst e. split; [exact Hw' | apply Hw']. }
    intros _. apply triple_swap_pure. intros Hskip.
    eapply triple_bind with (Q' := fun v w' => Dry w' /\ v = VObj Plain []).
    { destruct (Batch.skipRefinement e) eqn:Es; [apply triple_ret; auto|].
      destruct (Hrefine (eq_sym Hskip)) as (sd & rp & Hsd & Hrp).
      apply (dry_batch_refine _ _ _ _ _ _ _ sd rp Hdoc Hsd Hrp). }
    intros content. apply triple_swap_pure. intros ->.
    intros w' (_ & _ & Hheap & Hsent).
    unfold Batch.applyGeneratedContent.
    unfold bind at 1. unfold read_doc at 1. rewrite Hheap, Hdoc.
    unfold bind at 1. unfold lift at 1.
    assert (Hclone : json_clone doc = Return (json_copy doc)) by (destruct doc; first [reflexivity | congruence]).
    rewrite Hclone. unfold Batch.copy_field, bind, lift, alloc_doc, ret.
    cbn [get_property lookup_prop]. unfold absent.
    repeat match goal with
           | |- context [inherited ?k] =>
               replace (inherited k) with false by (vm_compute; reflexivity)
           end.
    cbn. rewrite Hheap. auto. }
  assert (Hstart : Dry w) by (unfold Dry; auto).
  specialize (Hrun w Hstart).
  destruct (Batch.fillAllNarratives cfg host reportJson w) as [[report|e|] w'];
    [|destruct Hrun..].
  destruct Hrun as (-> & Hheap & Hsent). eauto.
Qed.

(** An instance: a dry run over the sample report, with the refinement
    pass on. *)
Lemma fillAllNarratives_dry_run_witness :
  exists w',
    Batch.fillAllNarratives sample_config limited_host 0 dry_batch_world
    = (Return (fresh (dom (heap dry_batch_world))), w')
    /\ heap w' = <[fresh (dom (heap dry_batch_world)) := json_copy sample_report]>
                   (heap dry_batch_world)
    /\ sent w' = sent dry_batch_world.
Proof.
  apply (fillAllNarratives_dry_run sample_config limited_host 0%nat dry_batch_world
           sample_report (js "master"));
    [reflexivity | reflexivity | discriminate | reflexivity |].
  intros _. exists (VObj Plain [(js "measurements", VUndef); (js "bleed", VUndef);
                                (js "client", VUndef)]), (js "refine").
  split; reflexivity.
Defined.

(** ** The polish pass: what the steps count and what they leave *)

Lemma close_bracket_case {A} (c : ascii) (r : jstring) (x y : A) :
  match c :: r with
  | "]"%char :: _ => x
  | _ => y
  end = if ch_eqb c "]" then x else y.
Proof.
  destruct (ch_eqb c "]") eqn:E.
  - apply ch_eqb_eq in E. subst c. reflexivity.
  - apply ch_eqb_neq in E. destruct c as [[] [] [] [] [] [] [] []]; try reflexivity. congruence.
Qed.

Lemma markers_agree prev s :
  option_map fst (unfilled_marker prev s) = option_map fst (placeholder_marker prev s).
Proof.
  unfold unfilled_marker, bracketed, literal_prefix, placeholder_marker.
  destruct (starts_with MARKER_PREFIX s); [|reflexivity].
  set (t := drop (length MARKER_PREFIX) s).
  destruct (drop_while not_close_bracket t) as [|c r].
  - destruct (take_while not_close_bracket t); reflexivity.
  - assert (Hl : (match c :: r with
                  | "]"%char :: _ =>
                      if (1 <=? length (take_while not_close_bracket t))%nat
                      then Some (length MARKER_PREFIX
                                 + length (take_while not_close_bracket t) + 1, tt)%nat
                      else None
                  | _ => None
                  end)
                 = if ch_eqb c "]"
                   then (if (1 <=? length (take_while not_close_bracket t))%nat
                         then Some (length MARKER_PREFIX
                                    + length (take_while not_close_bracket t) + 1, tt)%nat
                         else None)
                   else None) by apply (close_bracket_case c r).
    rewrite Hl. clear Hl.
    destruct (take_while not_close_bracket t) as [|b body] eqn:Eb.
    + cbn [length Nat.leb]. destruct (ch_eqb c "]"); reflexivity.
    + rewrite (close_bracket_case c r). cbn [length Nat.leb].
      destruct (ch_eqb c "]"); reflexivity.
Qed.

Lemma scan_hits_agree {A B} (p : pattern A) (q : pattern B) :
  (forall prev s, option_map fst (p prev s) = option_map fst (q prev s)) ->
  forall s skip prev,
    length (hits (scan_from p skip prev s)) = length (hits (scan_from q skip prev s)).
Proof.
  intros Hpq. induction s as [|c s IH]; intros skip prev; [reflexivity|].
  cbn [scan_from]. destruct skip as [|k]; [|apply IH].
  specialize (Hpq prev (c :: s)).
  destruct (p prev (c :: s)) as [[n a]|], (q prev (c :: s)) as [[m b]|];
    cbn [option_map fst] in Hpq; try discriminate.
  - injection Hpq as ->. unfold hits. cbn [flat_map app length]. f_equal. apply IH.
  - unfold hits. cbn [flat_map app]. apply IH.
Qed.

(** X17: the count fix_placeholders records is the number of markers it
    replaces: the expression it counts with and the expression it replaces
    with match at the same places. *)
Theorem fix_placeholders_counts_replacements s change :
  In change (snd (fix_placeholders s)) ->
  change_count change = Some (Z.of_nat (length (match_all placeholder_marker s)))
  /\ fst (fix_placeholders s)
     = replace_all placeholder_marker (fun _ field => default_text field) s.
Proof.
  unfold fix_placeholders.
  destruct (0 <? count_matches unfilled_marker s); [|intros []].
  cbn [fst snd]. intros [<-|[]]. cbn [change_count]. split; [|reflexivity].
  unfold count_matches, match_all, scan. rewrite !length_map.
  rewrite (scan_hits_agree unfilled_marker placeholder_marker markers_agree). reflexivity.
Qed.

(** An instance: the sample page. *)
Lemma fix_placeholders_counts_replacements_witness :
  change_count
    (mkChange (Some (js "fix_placeholders")) (Some 1)
       (js "Replaced 1 unfilled placeholders with default text"))
  = Some (Z.of_nat (length (match_all placeholder_marker sample_page)))
  /\ fst (fix_placeholders sample_page)
     = replace_all placeholder_marker (fun _ field => default_text field) sample_page.
Proof.
  apply (fix_placeholders_counts_replacements sample_page
           (mkChange (Some (js "fix_placeholders")) (Some 1)
              (js "Replaced 1 unfilled placeholders with default text"))).
  vm_compute. left. reflexivity.
Defined.

Lemma code_fence_not_backquote prev c t : c <> "`"%char -> code_fence prev (c :: t) = None.
Proof.
  intros Hc. unfold code_fence, FENCE. cbn [js list_ascii_of_string starts_with].
  apply ch_eqb_neq in Hc. rewrite Ascii.eqb_sym in Hc. unfold ch_eqb in *. rewrite Hc.
  reflexivity.
Qed.

Lemma code_fence_none_start prev s :
  code_fence prev s = None -> starts_with FENCE s = false.
Proof. unfold code_fence. destruct (starts_with FENCE s); [discriminate | reflexivity]. Qed.

Lemma out_of_lit {A} (p : pattern A) f prev c s :
  p prev (c :: s) = None -> out_of p f 0 prev (c :: s) = c :: out_of p f 0 (Some c) s.
Proof. intros H. unfold out_of. cbn [scan_from]. rewrite H. reflexivity. Qed.

Lemma includes_cons needle c s :
  includes needle (c :: s) = starts_with needle (c :: s) || includes needle s.
Proof. reflexivity. Qed.

Lemma fence_after_lit prev c s :
  code_fence prev (c :: s) = None ->
  starts_with FENCE (c :: out_of code_fence erase 0 (Some c) s) = false.
Proof.
  intros Hnone. apply code_fence_none_start in Hnone.
  destruct (ch_eqb "`" c) eqn:Ec.
  2:{ unfold FENCE. cbn [js list_ascii_of_string starts_with]. rewrite Ec. reflexivity. }
  destruct s as [|d s].
  { unfold FENCE, out_of. cbn [js list_ascii_of_string starts_with scan_from flat_map].
    rewrite Ec. reflexivity. }
  destruct (ch_eqb "`" d) eqn:Ed.
  2:{ rewrite out_of_lit
        by (apply code_fence_not_backquote; intros ->; rewrite ch_eqb_refl in Ed; discriminate).
      unfold FENCE. cbn [js list_ascii_of_string starts_with]. rewrite Ec, Ed. reflexivity. }
  assert (Hs : starts_with (js "`") s = false).
  { unfold FENCE in Hnone. cbn [js list_ascii_of_string starts_with] in Hnone.
    rewrite Ec, Ed in Hnone. cbn [andb] in Hnone.
    destruct s as [|x s]; [reflexivity|]. cbn [js list_ascii_of_string starts_with] in *.
    rewrite andb_true_r in *. exact Hnone. }
  assert (Hd : code_fence (Some c) (d :: s) = None).
  { unfold code_fence, FENCE. cbn [js list_ascii_of_string starts_with]. rewrite Ed.
    cbn [andb]. destruct s as [|x s]; [reflexivity|].
    cbn [js list_ascii_of_string starts_with] in Hs |- *. rewrite andb_true_r in Hs.
    rewrite Hs. reflexivity. }
  rewrite (out_of_lit _ _ _ _ _ Hd).
  unfold FENCE. cbn [js list_ascii_of_string starts_with]. rewrite Ec, Ed. cbn [andb].
  destruct s as [|x s]; [reflexivity|].
  cbn [js list_ascii_of_string starts_with] in Hs. rewrite andb_true_r in Hs.
  rewrite out_of_lit
    by (apply code_fence_not_backquote; intros ->; rewrite ch_eqb_refl in Hs; discriminate).
  cbn [starts_with]. rewrite Hs. reflexivity.
Qed.

Lemma erase_code_fence_leaves_none : forall s skip prev,
  includes FENCE (out_of code_fence erase skip prev s) = false.
Proof.
  induction s as [|c s IH]; intros skip prev; [reflexivity|].
  destruct skip as [|k]; [|apply IH].
  destruct (code_fence prev (c :: s)) as [[n []]|] eqn:E.
  - unfold out_of in *. cbn [scan_from]. rewrite E. cbn [flat_map piece_text erase app].
    apply IH.
  - rewrite (out_of_lit _ _ _ _ _ E), includes_cons, IH, (fence_after_lit _ _ _ E).
    reflexivity.
Qed.

Lemma out_of_no_hits {A} (p : pattern A) f : forall s prev,
  hits (scan_from p 0 prev s) = [] -> out_of p f 0 prev s = s.
Proof.
  unfold out_of. induction s as [|c s IH]; intros prev; [reflexivity|].
  cbn [scan_from]. destruct (p prev (c :: s)) as [[n a]|]; [discriminate|].
  cbn [hits flat_map piece_text app]. intros H. f_equal. apply IH. exact H.
Qed.

(** X18: after the step that removes markdown no code fence is left in the
    text. *)
Theorem remove_markdown_leaves_no_fence s :
  includes FENCE (fst (remove_markdown s)) = false.
Proof.
  unfold remove_markdown. destruct (0 <? count_matches code_fence s) eqn:E; cbn [fst].
  - apply erase_code_fence_leaves_none.
  - assert (H0 : count_matches code_fence s = 0).
    { apply Z.ltb_ge in E. unfold count_matches in *. lia. }
    apply count_matches_zero in H0.
    rewrite <- (out_of_no_hits code_fence erase s None H0).
    apply erase_code_fence_leaves_none.
Qed.

(** ** The polish pass, applied twice *)

(** *** The loop over broken sentences leaves none behind *)

Lemma find_at_least {A} (p : pattern A) : forall s prev i pos pos' n a,
  find_at p prev s i pos = Some (pos', n, a) ->
  exists k,
    pos' = (pos + k)%nat /\ (i <= k)%nat /\ (k <= length s)%nat
    /\ (exists prev', p prev' (drop k s) = Some (n, a))
    /\ forall j, (i <= j < k)%nat -> exists prev', p prev' (drop j s) = None.
Proof.
  induction s as [|c s IH]; intros prev i pos pos' n a H.
  - destruct i as [|i]; cbn in H; [|discriminate].
    destruct (p prev []) as [[n' a']|] eqn:Hp; [|discriminate].
    injection H as <- <- <-. exists 0%nat. cbn.
    split; [lia|]. split; [lia|]. split; [lia|]. split; [eauto|]. intros j Hj. lia.
  - destruct i as [|i]; cbn [find_at] in H.
    + destruct (p prev (c :: s)) as [[n' a']|] eqn:Hp.
      * injection H as <- <- <-. exists 0%nat. cbn.
        split; [lia|]. split; [lia|]. split; [lia|]. split; [eauto|]. intros j Hj. lia.
      * apply IH in H as (k & -> & _ & Hk & Hp' & Hmin).
        exists (S k). cbn [drop length].
        split; [lia|]. split; [lia|]. split; [lia|]. split; [exact Hp'|].
        intros [|j] Hj; [cbn; eauto|]. cbn [drop]. apply Hmin. lia.
    + apply IH in H as (k & -> & Hi & Hk & Hp' & Hmin).
      exists (S k). cbn [drop length].
      split; [lia|]. split; [lia|]. split; [lia|]. split; [exact Hp'|].
      intros [|j] Hj; [lia|]. cbn [drop]. apply Hmin. lia.
Qed.

Lemma find_at_nowhere {A} (p : pattern A) : forall s prev i pos,
  find_at p prev s i pos = None ->
  forall j, (i <= j <= length s)%nat -> exists prev', p prev' (drop j s) = None.
Proof.
  induction s as [|c s IH]; intros prev i pos H j Hj.
  - cbn [length] in Hj. assert (j = 0%nat) by lia. subst j.
    assert (i = 0%nat) by lia. subst i. cbn in H.
    destruct (p prev []) as [[n a]|] eqn:Hp; [discriminate|]. cbn. eauto.
  - destruct i as [|i]; cbn [find_at] in H.
    + destruct (p prev (c :: s)) as [[n a]|] eqn:Hp; [discriminate|].
      destruct j as [|j]; [cbn; eauto|]. cbn [drop].
      apply (IH _ _ _ H). cbn [length] in Hj. lia.
    + destruct j as [|j]; [lia|]. cbn [drop].
      apply (IH _ _ _ H). cbn [length] in Hj. lia.
Qed.

Lemma broken_sentence_not_here prev c t :
  c <> ">"%char -> broken_sentence prev (c :: t) = None.
Proof.
  intros Hc. rewrite broken_sentence_cons. apply ch_eqb_neq in Hc. rewrite Hc. reflexivity.
Qed.

Lemma take_while_stop (q : ascii -> bool) x c y :
  forallb q x = true -> q c = false -> take_while q (x ++ c :: y) = x.
Proof.
  intros Hx Hc. induction x as [|d x IH]; cbn [app take_while].
  - rewrite Hc. reflexivity.
  - cbn [forallb] in Hx. apply andb_prop in Hx as [Hd Hx]. rewrite Hd, (IH Hx). reflexivity.
Qed.

Lemma drop_while_stop (q : ascii -> bool) x c y :
  forallb q x = true -> q c = false -> drop_while q (x ++ c :: y) = c :: y.
Proof.
  intros Hx Hc. induction x as [|d x IH]; cbn [app drop_while].
  - rewrite Hc. reflexivity.
  - cbn [forallb] in Hx. apply andb_prop in Hx as [Hd Hx]. rewrite Hd. apply (IH Hx).
Qed.

Lemma first_alt_tag tag rest :
  In tag TAGS -> first_alt TAGS (tag ++ rest) = length tag.
Proof.
  intros Htag. cbn in Htag. destruct Htag as [<-|[<-|[<-|[<-|[]]]]]; reflexivity.
Qed.

Lemma tag_length tag : In tag TAGS -> exists n, length tag = S n.
Proof.
  intros Htag. cbn in Htag. destruct Htag as [<-|[<-|[<-|[<-|[]]]]]; cbn; eauto.
Qed.

(** The converse of [broken_sentence_spec]. *)
Lemma broken_sentence_intro prev text0 z tag rest :
  text0 <> [] -> is_letter z = true -> forallb not_angle (text0 ++ [z]) = true ->
  In tag TAGS ->
  broken_sentence prev (js ">" ++ (text0 ++ [z]) ++ js "</" ++ tag ++ rest)
  = Some (length (js ">" ++ (text0 ++ [z]) ++ js "</" ++ tag), text0 ++ [z]).
Proof.
  intros Hne Hz Hall Htag.
  change (js ">" ++ (text0 ++ [z]) ++ js "</" ++ tag ++ rest)
    with (">"%char :: ((text0 ++ [z]) ++ "<"%char :: ("/"%char :: tag ++ rest))).
  rewrite broken_sentence_cons. rewrite ch_eqb_refl. cbn zeta.
  rewrite (take_while_stop not_angle _ "<" _ Hall eq_refl).
  rewrite (drop_while_stop not_angle _ "<" _ Hall eq_refl).
  rewrite rev_app_distr. cbn [rev app].
  destruct (rev text0) as [|z' r] eqn:Hrev.
  { exfalso. apply Hne. rewrite <- (rev_involutive text0), Hrev. reflexivity. }
  rewrite Hz. cbn [andb].
  change (starts_with (js "</") ("<"%char :: "/"%char :: tag ++ rest)) with true.
  cbv iota. change (drop 2 ("<"%char :: "/"%char :: tag ++ rest)) with (tag ++ rest).
  fold TAGS. rewrite (first_alt_tag tag rest Htag).
  destruct (tag_length tag Htag) as [m Hm]. rewrite Hm.
  f_equal. f_equal. rewrite !length_app. cbn [length js list_ascii_of_string].
  rewrite ?length_app. cbn [length]. lia.
Qed.

Lemma split_at_first (q : ascii -> bool) : forall u,
  forallb q u = true
  \/ exists t a u', u = t ++ a :: u' /\ forallb q t = true /\ q a = false.
Proof.
  induction u as [|c u IH]; [left; reflexivity|].
  destruct (q c) eqn:Hc.
  - destruct IH as [IH|(t & a & u' & -> & Ht & Ha)].
    + left. cbn. rewrite Hc, IH. reflexivity.
    + right. exists (c :: t), a, u'. cbn. rewrite Hc, Ht. auto.
  - right. exists [], c, u. auto.
Qed.

Lemma starts_with_stop w c : forall x v v',
  forallb (fun d => negb (ch_eqb d c)) w = true ->
  starts_with w (x ++ c :: v) = starts_with w (x ++ c :: v').
Proof.
  induction w as [|d w IH]; intros x v v' Hw; [reflexivity|].
  cbn [forallb] in Hw. apply andb_prop in Hw as [Hd Hw].
  destruct x as [|e x]; cbn [app starts_with].
  - destruct (ch_eqb d c); [discriminate | reflexivity].
  - rewrite (IH x v v' Hw). reflexivity.
Qed.

Lemma first_alt_stop x v v' :
  first_alt TAGS (x ++ ">"%char :: v) = first_alt TAGS (x ++ ">"%char :: v').
Proof.
  unfold TAGS. cbn [first_alt].
  rewrite (starts_with_stop (js "p") ">" x v v' eq_refl).
  rewrite (starts_with_stop (js "div") ">" x v v' eq_refl).
  rewrite (starts_with_stop (js "span") ">" x v v' eq_refl).
  rewrite (starts_with_stop (js "td") ">" x v v' eq_refl).
  reflexivity.
Qed.

(** Whether a broken sentence starts a text is settled by the text up to
    the next closing angle bracket. *)
Lemma broken_sentence_local u v v' :
  u <> [] ->
  broken_sentence None (u ++ ">"%char :: v) = broken_sentence None (u ++ ">"%char :: v').
Proof.
  intros Hu. destruct u as [|c u]; [contradiction|]. cbn [app].
  rewrite !broken_sentence_cons. destruct (ch_eqb c ">"); [|reflexivity]. cbn zeta.
  destruct (split_at_first not_angle u) as [Hall|(t & a & u' & -> & Ht & Ha)].
  - rewrite !(take_while_stop not_angle u ">" _ Hall eq_refl).
    rewrite !(drop_while_stop not_angle u ">" _ Hall eq_refl).
    destruct (rev u) as [|z [|z' r]]; try reflexivity.
    change (starts_with (js "</") (">"%char :: v)) with false.
    change (starts_with (js "</") (">"%char :: v')) with false.
    rewrite andb_false_r. reflexivity.
  - rewrite <- !app_assoc. cbn [app].
    rewrite !(take_while_stop not_angle t a _ Ht Ha).
    rewrite !(drop_while_stop not_angle t a _ Ht Ha).
    destruct (rev t) as [|z [|z' r]]; try reflexivity.
    destruct u' as [|b u'].
    + cbn [app]. change (starts_with (js "</") (a :: ">"%char :: v))
        with (ch_eqb "<" a && false).
      change (starts_with (js "</") (a :: ">"%char :: v'))
        with (ch_eqb "<" a && false).
      rewrite !andb_false_r. reflexivity.
    + cbn [app].
      change (starts_with (js "</") (a :: b :: u' ++ ">"%char :: v))
        with (ch_eqb "<" a && (ch_eqb "/" b && true)).
      change (starts_with (js "</") (a :: b :: u' ++ ">"%char :: v'))
        with (ch_eqb "<" a && (ch_eqb "/" b && true)).
      change (drop 2 (a :: b :: u' ++ ">"%char :: v)) with (u' ++ ">"%char :: v).
      change (drop 2 (a :: b :: u' ++ ">"%char :: v')) with (u' ++ ">"%char :: v').
      fold TAGS. rewrite (first_alt_stop u' v v'). reflexivity.
Qed.

Lemma short_at_local u v v' :
  u <> [] -> short_at (u ++ ">"%char :: v) = short_at (u ++ ">"%char :: v').
Proof. intros Hu. unfold short_at. rewrite (broken_sentence_local u v v' Hu). reflexivity. Qed.

Lemma short_at_not_here c t : c <> ">"%char -> short_at (c :: t) = true.
Proof. intros Hc. unfold short_at. rewrite broken_sentence_not_here by exact Hc. reflexivity. Qed.

Lemma settled_drop s : settled s = true -> forall k, short_at (drop k s) = true.
Proof.
  induction s as [|c s IH]; intros Hs k.
  - rewrite drop_nil. reflexivity.
  - cbn [settled] in Hs. apply andb_prop in Hs as [Hc Hs].
    destruct k as [|k]; [exact Hc|]. cbn [drop]. apply IH, Hs.
Qed.

Lemma settled_intro s :
  (forall k, (k < length s)%nat -> short_at (drop k s) = true) -> settled s = true.
Proof.
  induction s as [|c s IH]; intros H; [reflexivity|].
  cbn [settled]. change (short_at (c :: s)) with (short_at (drop 0 (c :: s))).
  rewrite (H 0%nat) by (cbn; lia). cbn [andb].
  apply IH. intros k Hk. apply (H (S k)). cbn. lia.
Qed.

(** [polished.replace(x, repl)] rewrites the first place where [x] occurs,
    and no place before it holds [x]. *)
Lemma replace_first_least x repl : forall s br,
  (exists a b, s = a ++ x ++ b) ->
  exists a b,
    s = a ++ x ++ b
    /\ replace_first br s x repl
       = rev br ++ a ++ expand_replacement repl x (rev br ++ a) b ++ b
    /\ forall a' b', s = a' ++ x ++ b' -> (length a <= length a')%nat.
Proof.
  induction s as [|c s IH]; intros br Hocc; rewrite replace_first_eq.
  - destruct Hocc as (a & b & Hs). symmetry in Hs.
    apply app_eq_nil in Hs as [-> Hs]. apply app_eq_nil in Hs as [-> ->].
    cbn. exists [], []. rewrite !app_nil_r. split; [reflexivity|]. split; [reflexivity|].
    intros a' b' _. cbn. lia.
  - destruct (starts_with x (c :: s)) eqn:Hx.
    + apply starts_with_spec in Hx as [t Ht]. rewrite Ht.
      rewrite drop_app_length. exists [], t. rewrite !app_nil_r.
      split; [reflexivity|]. split; [reflexivity|]. intros a' b' _. cbn. lia.
    + destruct Hocc as (a & b & Hs). destruct a as [|d a].
      { rewrite Hs in Hx. cbn [app] in Hx. rewrite starts_with_app in Hx. discriminate. }
      injection Hs as <- ->.
      destruct (IH (c :: br) (ex_intro _ a (ex_intro _ b eq_refl)))
        as (a0 & b0 & Hs0 & Hr & Hmin).
      exists (c :: a0), b0. split; [cbn; rewrite <- Hs0; reflexivity|]. split.
      * rewrite Hr. cbn [rev]. rewrite <- !app_assoc. reflexivity.
      * intros a' b' Hs'. destruct a' as [|d' a'].
        { rewrite Hs' in Hx. cbn [app] in Hx. rewrite starts_with_app in Hx. discriminate. }
        injection Hs' as _ Hs'. cbn [length]. specialize (Hmin a' b' Hs'). lia.
Qed.

Lemma ends_with_letter text0 z :
  is_letter z = true -> ends_with_punctuation (text0 ++ [z]) = false.
Proof.
  intros Hz. unfold ends_with_punctuation. rewrite rev_app_distr. cbn [rev app].
  destruct z as [[] [] [] [] [] [] [] []]; try discriminate Hz; reflexivity.
Qed.

Lemma drop_inside (q : ascii -> bool) : forall x j,
  forallb q x = true -> (j < length x)%nat ->
  exists d y, drop j x = d :: y /\ q d = true.
Proof.
  induction x as [|c x IH]; intros j Hx Hj; [cbn in Hj; lia|].
  cbn [forallb] in Hx. apply andb_prop in Hx as [Hc Hx].
  destruct j as [|j]; [cbn; eauto|]. cbn [drop]. apply IH; [exact Hx | cbn in Hj; lia].
Qed.

Lemma not_angle_not_gt x : forallb not_angle x = true -> forallb not_gt x = true.
Proof.
  intros H. rewrite forallb_forall in *. intros c Hc. specialize (H c Hc).
  unfold not_angle, not_gt in *. destruct (ch_eqb c ">"); [|reflexivity].
  rewrite orb_true_r in H. discriminate.
Qed.

Lemma tag_not_gt tag : In tag TAGS -> forallb not_gt tag = true.
Proof. intros Htag. cbn in Htag. destruct Htag as [<-|[<-|[<-|[<-|[]]]]]; reflexivity. Qed.

Lemma not_gt_neq d : not_gt d = true -> d <> ">"%char.
Proof.
  unfold not_gt. intros H ->. rewrite ch_eqb_refl in H. discriminate.
Qed.

(** [broken_sentence_spec], with the text of two code units at least. *)
Lemma broken_sentence_shape prev t n text :
  broken_sentence prev t = Some (n, text) ->
  exists text0 z tag rest,
    text = text0 ++ [z] /\ text0 <> [] /\ is_letter z = true
    /\ forallb not_angle text = true
    /\ In tag TAGS
    /\ t = js ">" ++ text ++ js "</" ++ tag ++ rest
    /\ n = length (js ">" ++ text ++ js "</" ++ tag).
Proof.
  destruct t as [|c t]; [discriminate|]. rewrite broken_sentence_cons.
  destruct (ch_eqb c ">") eqn:Hc; [|discriminate]. apply ch_eqb_eq in Hc. subst c.
  cbn zeta. pose proof (take_drop_while not_angle t) as Ht.
  pose proof (take_while_forallb not_angle t) as Hall.
  destruct (rev (take_while not_angle t)) as [|z [|z' r]] eqn:Hrev; try discriminate.
  destruct (is_letter z) eqn:Hz; [|discriminate]. cbn [andb].
  destruct (starts_with (js "</") (drop_while not_angle t)) eqn:Hs; [|discriminate].
  apply starts_with_spec in Hs as [rest0 Hrest0]. rewrite Hrest0.
  destruct (first_alt _ _) as [|m] eqn:Hf; [discriminate|].
  intros [= <- <-].
  apply first_alt_spec in Hf as (tag & rest & Hin & Hdrop & Hlen).
  change (drop 2 (js "</" ++ rest0)) with rest0 in Hdrop. subst rest0.
  exists (rev (z' :: r)), z, tag, rest.
  assert (Htext : take_while not_angle t = rev (z' :: r) ++ [z]).
  { rewrite <- (rev_involutive (take_while not_angle t)), Hrev. reflexivity. }
  split; [exact Htext|]. split.
  { cbn [rev]. intros H. apply app_eq_nil in H as [_ H]. discriminate H. }
  split; [exact Hz|]. split; [exact Hall|]. split; [exact Hin|].
  split.
  - rewrite <- Ht at 1. rewrite Hrest0. reflexivity.
  - rewrite !length_app. cbn [length js]. rewrite Hlen. cbn. lia.
Qed.

(** With no special sequence in the text, the loop ends, it only puts full
    stops after letters, and it leaves no long broken sentence behind. *)
Lemma punctuate_settles : forall fuel polished lastIndex brokenCount,
  no_special polished = true -> settled_below lastIndex polished ->
  (length polished - lastIndex < fuel)%nat ->
  exists polished' brokenCount',
    punctuate fuel polished lastIndex brokenCount = Return (polished', brokenCount')
    /\ with_dots polished polished' /\ settled polished' = true.
Proof.
  induction fuel as [|fuel IH]; intros polished i bc Hplain Hbelow Hfuel; [lia|].
  cbn [punctuate].
  destruct (exec broken_sentence polished i) as [[[pos n] text]|] eqn:Hex.
  2:{ exists polished, bc. split; [reflexivity|]. split; [constructor|].
      apply settled_intro. intros k Hk.
      destruct (Nat.lt_ge_cases k i) as [Hlt|Hge]; [apply Hbelow, Hlt|].
      unfold exec in Hex.
      destruct (find_at_nowhere _ _ _ _ _ Hex k ltac:(lia)) as [prev' Hnone].
      unfold short_at. change (broken_sentence None (drop k polished))
        with (broken_sentence prev' (drop k polished)). rewrite Hnone. reflexivity. }
  unfold exec in Hex.
  apply find_at_least in Hex as (k & -> & Hi & Hk & [prev' Hp] & Hmin).
  cbn [Nat.add].
  apply broken_sentence_shape in Hp
    as (text0 & z & tag & rest & -> & Hne0 & Hz & Hall & Htag & Hdrop & ->).
  set (match0 := js ">" ++ (text0 ++ [z]) ++ js "</" ++ tag) in *.
  assert (Hsplit : polished = take k polished ++ match0 ++ rest).
  { rewrite <- (take_drop k polished) at 1. rewrite Hdrop. unfold match0.
    rewrite <- !app_assoc. reflexivity. }
  assert (Hlen : (k + length match0 <= length polished)%nat).
  { rewrite Hsplit. rewrite !length_app, length_take. lia. }
  assert (Hn : (2 <= length match0)%nat).
  { unfold match0. rewrite !length_app. cbn. lia. }
  assert (Htake : take (length match0) (drop k polished) = match0).
  { rewrite Hdrop. replace (js ">" ++ (text0 ++ [z]) ++ js "</" ++ tag ++ rest)
      with (match0 ++ rest) by (unfold match0; rewrite <- !app_assoc; reflexivity).
    apply take_app_length. }
  rewrite Htake.
  assert (Hktake : length (take k polished) = k) by (rewrite length_take; lia).
  (* the positions inside the match hold no closing angle bracket *)
  assert (Hinner : forallb not_gt ((text0 ++ [z]) ++ js "</" ++ tag) = true).
  { rewrite forallb_app, (not_angle_not_gt _ Hall). cbn [andb].
    change (js "</" ++ tag) with ("<"%char :: "/"%char :: tag). cbn [forallb].
    rewrite (tag_not_gt tag Htag). reflexivity. }
  set (inner := (text0 ++ [z]) ++ js "</" ++ tag).
  assert (Hm0 : match0 = ">"%char :: inner) by reflexivity.
  assert (Hinside : forall tail j front body,
            length front = k -> forallb not_gt body = true ->
            (k < j)%nat -> (j - k - 1 < length body)%nat ->
            short_at (drop j (front ++ (">"%char :: body) ++ tail)) = true).
  { intros tail j front body Hfront Hin Hj Hjl.
    replace j with (length front + S (j - k - 1))%nat by lia.
    rewrite drop_app_add. cbn [app drop].
    rewrite drop_app_le by lia.
    destruct (drop_inside not_gt body (j - k - 1) Hin Hjl) as (d & y & -> & Hd).
    cbn [app]. apply short_at_not_here, not_gt_neq, Hd. }
  rewrite (ends_with_letter text0 z Hz). cbn [negb]. rewrite andb_true_r.
  destruct (20 <? length (text0 ++ [z]))%nat eqn:Hlong.
  2:{ (* a short text: the loop moves on *)
      apply IH; [exact Hplain | | lia].
      intros j Hj.
      destruct (Nat.lt_ge_cases j i) as [Hlt|Hge]; [apply Hbelow, Hlt|].
      destruct (Nat.lt_ge_cases j k) as [Hltk|Hgek].
      { destruct (Hmin j ltac:(lia)) as [prev'' Hnone].
        unfold short_at. change (broken_sentence None (drop j polished))
          with (broken_sentence prev'' (drop j polished)). rewrite Hnone. reflexivity. }
      destruct (Nat.eq_dec j k) as [->|Hne].
      { unfold short_at. rewrite Hdrop.
        rewrite (broken_sentence_intro None text0 z tag rest Hne0 Hz Hall Htag).
        apply Nat.ltb_ge in Hlong. apply Nat.leb_le. exact Hlong. }
      rewrite Hsplit, Hm0.
      apply (Hinside rest j); [exact Hktake | exact Hinner | lia |].
      rewrite Hm0 in Hj. cbn [length] in Hj. lia. }
  (* a long text: the first place that holds the match is the match *)
  assert (Hnth : nth 1 (split_str (js "</") match0) (js "undefined") = tag).
  { unfold match0. rewrite app_assoc. apply split_str_tag; [|exact Htag].
    change (js ">" ++ (text0 ++ [z])) with (">"%char :: (text0 ++ [z])).
    cbn [forallb]. apply not_angle_not_open in Hall. rewrite Hall. reflexivity. }
  rewrite Hnth.
  set (repl := js ">" ++ (text0 ++ [z]) ++ js ".</" ++ tag).
  destruct (replace_first_least match0 repl polished []
              (ex_intro _ _ (ex_intro _ _ Hsplit))) as (a & b & Hab & Hrep & Hleast).
  assert (Hshort : forall j, (j < k)%nat -> short_at (drop j polished) = true).
  { intros j Hj. destruct (Nat.lt_ge_cases j i) as [Hlt|Hge]; [apply Hbelow, Hlt|].
    destruct (Hmin j ltac:(lia)) as [prev'' Hnone].
    unfold short_at. change (broken_sentence None (drop j polished))
      with (broken_sentence prev'' (drop j polished)). rewrite Hnone. reflexivity. }
  assert (Hak : length a = k).
  { pose proof (Hleast _ _ Hsplit) as Hle. rewrite Hktake in Hle.
    destruct (Nat.eq_dec (length a) k) as [Heq|Hneq]; [exact Heq|]. exfalso.
    pose proof (Hshort (length a) ltac:(lia)) as Hs.
    rewrite Hab in Hs. rewrite drop_app_length in Hs.
    assert (Heq : match0 ++ b = js ">" ++ (text0 ++ [z]) ++ js "</" ++ tag ++ b)
      by (unfold match0; rewrite <- !app_assoc; reflexivity).
    rewrite Heq in Hs. unfold short_at in Hs.
    rewrite (broken_sentence_intro None text0 z tag b Hne0 Hz Hall Htag) in Hs.
    apply Nat.ltb_lt in Hlong. apply Nat.leb_le in Hs. lia. }
  assert (Hb : b = rest).
  { assert (Ha : a = take k polished).
    { rewrite Hab at 1. rewrite <- Hak. rewrite take_app_length. reflexivity. }
    rewrite Hsplit in Hab at 1. rewrite <- Ha in Hab.
    apply app_inv_head in Hab. apply app_inv_head in Hab. symmetry. exact Hab. }
  subst b.
  assert (Hm0' : match0 = (js ">" ++ text0) ++ z :: js "</" ++ tag).
  { unfold match0. rewrite <- !app_assoc. reflexivity. }
  assert (Hrepl : repl = (js ">" ++ text0) ++ z :: "."%char :: js "</" ++ tag).
  { unfold repl. rewrite <- !app_assoc. reflexivity. }
  assert (Hrp : no_special repl = true).
  { rewrite Hrepl. apply no_special_insert_dot. rewrite <- Hm0'.
    rewrite Hab in Hplain. apply no_special_suffix in Hplain.
    apply no_special_prefix in Hplain. exact Hplain. }
  rewrite (expand_replacement_plain _ _ _ _ Hrp) in Hrep. cbn [rev app] in Hrep.
  assert (Hold : polished = (a ++ js ">" ++ text0) ++ z :: (js "</" ++ tag ++ rest)).
  { rewrite Hab, Hm0'. rewrite <- !app_assoc. cbn [app]. rewrite <- !app_assoc. reflexivity. }
  assert (Hnew : replace_first [] polished match0 repl
                 = (a ++ js ">" ++ text0) ++ z :: "."%char :: (js "</" ++ tag ++ rest)).
  { rewrite Hrep, Hrepl. rewrite <- !app_assoc. cbn [app]. rewrite <- !app_assoc.
    reflexivity. }
  rewrite Hnew.
  set (inner' := (text0 ++ [z; "."%char]) ++ js "</" ++ tag).
  assert (Hnew' : (a ++ js ">" ++ text0) ++ z :: "."%char :: (js "</" ++ tag ++ rest)
                  = a ++ (">"%char :: inner') ++ rest).
  { unfold inner'. rewrite <- !app_assoc. cbn [app]. rewrite <- !app_assoc. reflexivity. }
  assert (Hold' : polished = a ++ (">"%char :: inner) ++ rest).
  { rewrite Hab, Hm0. reflexivity. }
  destruct (IH ((a ++ js ">" ++ text0) ++ z :: "."%char :: (js "</" ++ tag ++ rest))
              (k + length match0)%nat (bc + 1)) as (p' & bc' & Hrun & Hdots & Hset).
  - apply no_special_insert_dot. rewrite <- Hold. exact Hplain.
  - intros j Hj. rewrite Hnew'.
    destruct (Nat.lt_ge_cases j k) as [Hltk|Hgek].
    { transitivity (short_at (drop j polished)); [|apply Hshort, Hltk].
      rewrite Hold'. rewrite !drop_app_le by lia. cbn [app].
      apply short_at_local. intros Hnil.
      apply (f_equal length) in Hnil. rewrite length_drop in Hnil. cbn in Hnil. lia. }
    destruct (Nat.eq_dec j k) as [->|Hne].
    { rewrite <- Hak at 1. rewrite drop_app_length.
      unfold short_at. cbn [app]. rewrite broken_sentence_cons, ch_eqb_refl. cbn zeta.
      unfold inner'.
      rewrite <- (app_assoc (text0 ++ [z; "."%char]) (js "</" ++ tag) rest).
      change ((js "</" ++ tag) ++ rest) with ("<"%char :: ("/"%char :: tag ++ rest)).
      assert (Hall' : forallb not_angle (text0 ++ [z; "."%char]) = true).
      { rewrite forallb_app in Hall |- *. apply andb_prop in Hall as [H0 Hz'].
        rewrite H0. cbn [forallb andb] in Hz' |- *.
        rewrite andb_true_r in Hz'. rewrite Hz'. reflexivity. }
      rewrite (take_while_stop not_angle _ "<" _ Hall' eq_refl).
      rewrite rev_app_distr. cbn [rev app]. reflexivity. }
    apply (Hinside rest j); [exact Hak | | lia |].
    + unfold inner'. rewrite forallb_app. rewrite forallb_app in Hinner.
      apply andb_prop in Hinner as [H1 H2]. rewrite H2, andb_true_r.
      rewrite forallb_app in H1 |- *. apply andb_prop in H1 as [H0 Hz'].
      rewrite H0. cbn [forallb andb] in Hz' |- *. rewrite andb_true_r in Hz'.
      rewrite Hz'. reflexivity.
    + rewrite Hm0 in Hj. cbn [length] in Hj. unfold inner', inner in *.
      rewrite !length_app in *. cbn [length] in *. lia.
  - rewrite Hold in Hfuel, Hlen. rewrite !length_app in *. cbn [length] in *.
    rewrite !length_app in *. lia.
  - exists p', bc'. split; [exact Hrun|]. split; [|exact Hset].
    rewrite Hold. apply with_dots_more; [exact Hz | exact Hdots].
Qed.


(** Over a text without long broken sentences the loop changes nothing. *)
Lemma punctuate_quiet : forall fuel s lastIndex brokenCount,
  settled s = true -> (length s - lastIndex < fuel)%nat ->
  punctuate fuel s lastIndex brokenCount = Return (s, brokenCount).
Proof.
  induction fuel as [|fuel IH]; intros s i bc Hs Hfuel; [lia|].
  cbn [punctuate].
  destruct (exec broken_sentence s i) as [[[pos n] text]|] eqn:Hex; [|reflexivity].
  unfold exec in Hex. apply find_at_least in Hex as (k & -> & Hi & Hk & [prev' Hp] & _).
  cbn [Nat.add].
  pose proof (settled_drop s Hs k) as Hshort. unfold short_at in Hshort.
  change (broken_sentence None (drop k s)) with (broken_sentence prev' (drop k s)) in Hshort.
  rewrite Hp in Hshort. apply Nat.leb_le in Hshort.
  replace (20 <? length text)%nat with false by (symmetry; apply Nat.ltb_ge; exact Hshort).
  cbn [andb].
  assert (Hklt : (k < length s)%nat).
  { destruct (Nat.eq_dec k (length s)) as [->|]; [|lia].
    rewrite drop_all in Hp. discriminate Hp. }
  apply broken_sentence_shape in Hp as (t0 & z & tag & rest & _ & _ & _ & _ & _ & _ & ->).
  apply IH; [exact Hs|]. cbn [js list_ascii_of_string app length]. lia.
Qed.

(** *** Runs of spaces *)

Section Squeeze.
Local Abbreviation blank := (fun c : ascii => ch_eqb c " ").

Lemma scan_from_spaces_prev k prev s :
  scan_from double_spaces k prev s = scan_from double_spaces k None s.
Proof. destruct s as [|c s]; [reflexivity|]. destruct k; reflexivity. Qed.

Lemma take_while_none (q : ascii -> bool) s : take_while q s = [] -> drop_while q s = s.
Proof. destruct s as [|c s]; [reflexivity|]. cbn. destruct (q c); [discriminate | reflexivity]. Qed.

Lemma scan_from_lead : forall s prev,
  scan_from double_spaces (length (take_while blank s)) prev s
  = scan_from double_spaces 0 None (drop_while blank s).
Proof.
  induction s as [|c s IH]; intros prev; [reflexivity|].
  cbn [take_while drop_while]. destruct (ch_eqb c " ") eqn:Hc.
  - cbn [length scan_from]. apply IH.
  - cbn [length]. apply scan_from_spaces_prev.
Qed.

Lemma squeeze_cons c s : ch_eqb c " " = false -> squeeze (c :: s) = c :: squeeze s.
Proof.
  intros Hc. unfold squeeze, replace_all, scan. cbn [scan_from].
  unfold double_spaces at 1. cbn [take_while]. rewrite Hc.
  cbn [flat_map piece_text app]. rewrite scan_from_spaces_prev. reflexivity.
Qed.

Lemma squeeze_space s : squeeze (" "%char :: s) = " "%char :: squeeze (drop_while blank s).
Proof.
  unfold squeeze, replace_all, scan. cbn [scan_from].
  unfold double_spaces at 1. cbn [take_while]. change (ch_eqb " " " ") with true. cbv iota.
  destruct (take_while blank s) as [|d r] eqn:Htw.
  - cbn [flat_map piece_text app]. rewrite scan_from_spaces_prev.
    rewrite (take_while_none _ _ Htw). reflexivity.
  - cbn [flat_map piece_text app js list_ascii_of_string length Nat.pred].
    change (S (length r)) with (length (d :: r)). rewrite <- Htw.
    rewrite scan_from_lead. reflexivity.
Qed.

Lemma length_drop_while (q : ascii -> bool) s : (length (drop_while q s) <= length s)%nat.
Proof.
  induction s as [|c s IH]; [reflexivity|]. cbn. destruct (q c); cbn; lia.
Qed.

Lemma squeeze_ind (P : list ascii -> Prop) :
  P [] ->
  (forall c s, ch_eqb c " " = false -> P s -> P (c :: s)) ->
  (forall s, P (drop_while blank s) -> P (" "%char :: s)) ->
  forall s : list ascii, P s.
Proof.
  intros Hnil Hcons Hspace s.
  assert (H : forall n s, (length s < n)%nat -> P s).
  { clear s. induction n as [|n IH]; intros s Hn; [lia|].
    destruct s as [|c s]; [exact Hnil|]. cbn [length] in Hn.
    destruct (ch_eqb c " ") eqn:Hc.
    - apply ch_eqb_eq in Hc. subst c. apply Hspace, IH.
      pose proof (length_drop_while blank s). lia.
    - apply Hcons; [exact Hc | apply IH; lia]. }
  apply (H (S (length s))). lia.
Qed.

Lemma drop_while_app_stop (q : ascii -> bool) x c y :
  q c = false -> drop_while q (x ++ c :: y) = drop_while q x ++ c :: y.
Proof.
  intros Hc. induction x as [|d x IH]; cbn [app drop_while].
  - rewrite Hc. reflexivity.
  - destruct (q d); [exact IH | reflexivity].
Qed.

(** A code unit other than a space stays where it is. *)
Lemma squeeze_stop c y : ch_eqb c " " = false ->
  forall x, squeeze (x ++ c :: y) = squeeze x ++ c :: squeeze y.
Proof.
  intros Hc x. induction x as [|d x Hd IH|x IH] using squeeze_ind.
  - cbn [app]. rewrite squeeze_cons by exact Hc. reflexivity.
  - cbn [app]. rewrite !squeeze_cons by exact Hd. rewrite IH. reflexivity.
  - cbn [app]. rewrite !squeeze_space. rewrite (drop_while_app_stop blank x c y Hc).
    rewrite IH. reflexivity.
Qed.

Lemma forallb_drop_while (q r : ascii -> bool) s :
  forallb q s = true -> forallb q (drop_while r s) = true.
Proof.
  induction s as [|c s IH]; intros H; [reflexivity|]. cbn [drop_while].
  destruct (r c); [|exact H]. cbn [forallb] in H. apply andb_prop in H as [_ H]. apply IH, H.
Qed.

Lemma squeeze_forallb (q : ascii -> bool) s :
  forallb q s = true -> forallb q (squeeze s) = true.
Proof.
  induction s as [|d s Hd IH|s IH] using squeeze_ind; intros H.
  - reflexivity.
  - rewrite squeeze_cons by exact Hd. cbn [forallb] in *.
    apply andb_prop in H as [H1 H2]. rewrite H1, (IH H2). reflexivity.
  - rewrite squeeze_space. cbn [forallb] in *. apply andb_prop in H as [H1 H2].
    rewrite H1. cbn [andb]. apply IH, forallb_drop_while, H2.
Qed.

Lemma last_cons (c : ascii) s d : List.last (c :: s) d = List.last s c.
Proof.
  revert c d. induction s as [|e s IH]; intros c d; [reflexivity|].
  change (List.last (c :: e :: s) d) with (List.last (e :: s) d). rewrite !IH. reflexivity.
Qed.

Lemma last_drop_while_blank s : List.last (drop_while blank s) " "%char = List.last s " "%char.
Proof.
  induction s as [|c s IH]; [reflexivity|]. cbn [drop_while].
  destruct (ch_eqb c " ") eqn:Hc; [|reflexivity].
  apply ch_eqb_eq in Hc. subst c. rewrite last_cons. exact IH.
Qed.

Lemma squeeze_last s : forall d, List.last (squeeze s) d = List.last s d.
Proof.
  induction s as [|c s Hc IH|s IH] using squeeze_ind; intros d.
  - reflexivity.
  - rewrite squeeze_cons by exact Hc. rewrite !last_cons. apply IH.
  - rewrite squeeze_space. rewrite !last_cons. rewrite IH. apply last_drop_while_blank.
Qed.

Lemma squeeze_length s : (length (squeeze s) <= length s)%nat.
Proof.
  induction s as [|c s Hc IH|s IH] using squeeze_ind.
  - reflexivity.
  - rewrite squeeze_cons by exact Hc. cbn [length]. lia.
  - rewrite squeeze_space. cbn [length]. pose proof (length_drop_while blank s). lia.
Qed.

(** A text without spaces that starts the squeezed text starts the text. *)
Lemma squeeze_head : forall w r rest',
  forallb (fun c => negb (ch_eqb c " ")) w = true ->
  squeeze r = w ++ rest' ->
  exists rest, r = w ++ rest /\ squeeze rest = rest'.
Proof.
  induction w as [|c w IH]; intros r rest' Hw Hr; [exists r; auto|].
  cbn [forallb] in Hw. apply andb_prop in Hw as [Hc Hw].
  destruct r as [|d r]; [discriminate Hr|].
  destruct (ch_eqb d " ") eqn:Hd.
  - apply ch_eqb_eq in Hd. subst d. rewrite squeeze_space in Hr.
    injection Hr as <- _. discriminate Hc.
  - rewrite squeeze_cons in Hr by exact Hd. injection Hr as <- Hr.
    destruct (IH r rest' Hw Hr) as (rest & -> & Hrest). exists rest. auto.
Qed.

Lemma app_stop_unique (q : ascii -> bool) x x' c c' y y' :
  forallb q x = true -> forallb q x' = true -> q c = false -> q c' = false ->
  x ++ c :: y = x' ++ c' :: y' -> x = x' /\ c = c' /\ y = y'.
Proof.
  intros Hx Hx' Hc Hc' H.
  pose proof (f_equal (take_while q) H) as Ht.
  rewrite (take_while_stop q x c y Hx Hc), (take_while_stop q x' c' y' Hx' Hc') in Ht.
  subst x'. apply app_inv_head in H. injection H as -> ->. auto.
Qed.

Lemma settled_suffix s k : settled s = true -> settled (drop k s) = true.
Proof.
  intros Hs. apply settled_intro. intros j _. rewrite drop_drop. apply settled_drop, Hs.
Qed.

Lemma drop_while_drop (q : ascii -> bool) s :
  drop_while q s = drop (length (take_while q s)) s.
Proof.
  induction s as [|c s IH]; [reflexivity|]. cbn [drop_while take_while].
  destruct (q c); [exact IH | reflexivity].
Qed.

Lemma tag_no_space tag :
  In tag TAGS -> forallb (fun c => negb (ch_eqb c " ")) tag = true.
Proof. intros Htag. cbn in Htag. destruct Htag as [<-|[<-|[<-|[<-|[]]]]]; reflexivity. Qed.

Lemma not_angle_false a : not_angle a = false -> a = "<"%char \/ a = ">"%char.
Proof.
  unfold not_angle. destruct (ch_eqb a "<") eqn:H1; [left; apply ch_eqb_eq, H1|].
  destruct (ch_eqb a ">") eqn:H2; [right; apply ch_eqb_eq, H2 | discriminate].
Qed.

(** A broken sentence of the squeezed text comes from one of the text that
    is as long at least. *)
Lemma short_at_squeeze s :
  short_at (">"%char :: s) = true -> short_at (">"%char :: squeeze s) = true.
Proof.
  intros Hs. unfold short_at at 1.
  destruct (broken_sentence None (">"%char :: squeeze s)) as [[n' text']|] eqn:Hb;
    [|reflexivity].
  apply Nat.leb_le. destruct (Nat.le_gt_cases (length text') 20) as [Hle|Hgt]; [exact Hle|].
  exfalso.
  apply broken_sentence_shape in Hb
    as (text0' & z & tag & rest' & -> & _ & Hz & Hall & Htag & Heq & _).
  injection Heq as Heq.
  destruct (split_at_first not_angle s) as [Hs_all|(t & a & u & -> & Ht & Ha)].
  { apply (squeeze_forallb not_angle) in Hs_all. rewrite Heq in Hs_all.
    rewrite forallb_app in Hs_all. apply andb_prop in Hs_all as [_ H]. discriminate H. }
  assert (Hasp : ch_eqb a " " = false).
  { destruct (not_angle_false a Ha) as [->| ->]; reflexivity. }
  rewrite (squeeze_stop a u Hasp t) in Heq.
  change ((text0' ++ [z]) ++ js "</" ++ tag ++ rest')
    with ((text0' ++ [z]) ++ "<"%char :: ("/"%char :: tag ++ rest')) in Heq.
  apply (app_stop_unique not_angle) in Heq as (Htext & -> & Hu);
    [|apply squeeze_forallb, Ht | exact Hall | exact Ha | reflexivity].
  destruct (squeeze_head ("/"%char :: tag) u rest') as (rest & -> & _);
    [cbn [forallb]; rewrite (tag_no_space tag Htag); reflexivity | exact Hu |].
  assert (Hlen : (20 < length t)%nat).
  { pose proof (squeeze_length t) as Hl. rewrite Htext in Hl. lia. }
  assert (Hlast : List.last t " "%char = z).
  { rewrite <- squeeze_last, Htext, last_last. reflexivity. }
  assert (Htne : t <> []) by (intros ->; cbn in Hlen; lia).
  pose proof (app_removelast_last " "%char Htne) as Hsplit. rewrite Hlast in Hsplit.
  set (t0 := removelast t) in *.
  assert (Ht0 : t0 <> []).
  { intros H0. rewrite H0 in Hsplit. rewrite Hsplit in Hlen. cbn in Hlen. lia. }
  unfold short_at in Hs. rewrite Hsplit in Hs, Ht.
  change (">"%char :: (t0 ++ [z]) ++ "<"%char :: ("/"%char :: tag) ++ rest)
    with (js ">" ++ (t0 ++ [z]) ++ js "</" ++ tag ++ rest) in Hs.
  rewrite (broken_sentence_intro None t0 z tag rest Ht0 Hz Ht Htag) in Hs.
  apply Nat.leb_le in Hs. rewrite <- Hsplit in Hs. lia.
Qed.

Lemma squeeze_settled s : settled s = true -> settled (squeeze s) = true.
Proof.
  induction s as [|c s Hc IH|s IH] using squeeze_ind; intros Hs.
  - reflexivity.
  - rewrite squeeze_cons by exact Hc. cbn [settled] in *.
    apply andb_prop in Hs as [H1 H2]. rewrite (IH H2), andb_true_r.
    destruct (ch_eqb c ">") eqn:Hgt.
    + apply ch_eqb_eq in Hgt. subst c. apply short_at_squeeze, H1.
    + apply short_at_not_here. apply ch_eqb_neq, Hgt.
  - rewrite squeeze_space. cbn [settled] in *. apply andb_prop in Hs as [_ H2].
    rewrite short_at_not_here by discriminate. cbn [andb].
    apply IH. rewrite drop_while_drop. apply settled_suffix, H2.
Qed.

(** The squeezed text has no two spaces in a row. *)
Lemma squeeze_single s : forall t prev,
  t `suffix_of` squeeze s -> double_spaces prev t = None.
Proof.
  induction s as [|c s Hc IH|s IH] using squeeze_ind; intros t prev Ht.
  - apply suffix_nil_inv in Ht. subst t. reflexivity.
  - rewrite squeeze_cons in Ht by exact Hc.
    apply suffix_cons_case in Ht as [->|Ht]; [|apply IH, Ht].
    unfold double_spaces. cbn [take_while]. rewrite Hc. reflexivity.
  - rewrite squeeze_space in Ht.
    apply suffix_cons_case in Ht as [->|Ht]; [|apply IH, Ht].
    unfold double_spaces. cbn [take_while]. change (ch_eqb " " " ") with true. cbv iota.
    destruct (drop_while blank s) as [|d r] eqn:Hdw; [reflexivity|].
    assert (Hd : ch_eqb d " " = false).
    { clear -Hdw. induction s as [|e s IH]; [discriminate|]. cbn [drop_while] in Hdw.
      destruct (ch_eqb e " ") eqn:He; [apply IH, Hdw|]. injection Hdw as <- _. exact He. }
    rewrite squeeze_cons by exact Hd. cbn [take_while]. rewrite Hd. reflexivity.
Qed.

Lemma squeeze_count s : count_matches double_spaces (squeeze s) = 0.
Proof.
  apply count_matches_zero. apply none_no_hits. intros t prev' Ht _.
  apply (squeeze_single s t prev' Ht).
Qed.

End Squeeze.

(** *** Code fences *)

Lemma ch_eqb_swap a b : ch_eqb a b = ch_eqb b a.
Proof. apply Ascii.eqb_sym. Qed.

Lemma starts_fence_ticks s : starts_with FENCE s = (3 <=? ticks s)%nat.
Proof.
  unfold FENCE, ticks. cbn [js list_ascii_of_string].
  destruct s as [|a s]; [reflexivity|]. cbn [starts_with take_while].
  rewrite (ch_eqb_swap "`" a). destruct (ch_eqb a "`"); [|reflexivity].
  destruct s as [|b s]; [reflexivity|]. cbn [starts_with take_while].
  rewrite (ch_eqb_swap "`" b). destruct (ch_eqb b "`"); [|reflexivity].
  destruct s as [|c s]; [reflexivity|]. cbn [starts_with take_while].
  rewrite (ch_eqb_swap "`" c). destruct (ch_eqb c "`"); reflexivity.
Qed.

Lemma ticks_cons c s : ticks (c :: s) = if ch_eqb c "`" then S (ticks s) else 0%nat.
Proof. unfold ticks. cbn [take_while]. destruct (ch_eqb c "`"); reflexivity. Qed.

Lemma plain_prefix r o :
  forallb (fun c => negb (ch_eqb c "`")) r = true ->
  includes FENCE o = false -> includes FENCE (r ++ o) = false.
Proof.
  intros Hr Ho. induction r as [|c r IH]; [exact Ho|].
  cbn [forallb] in Hr. apply andb_prop in Hr as [Hc Hr].
  cbn [app]. rewrite includes_cons, (IH Hr), starts_fence_ticks, ticks_cons.
  destruct (ch_eqb c "`"); [discriminate | reflexivity].
Qed.

Section Fence.
Context {A : Type} (p : pattern A) (f : jstring -> A -> jstring).
Hypothesis f_plain : forall m a, plain_text (f m a) = true.

(** Replacing matches by such texts completes no code fence. *)
Lemma out_of_fence : forall s skip prev,
  includes FENCE s = false ->
  includes FENCE (out_of p f skip prev s) = false
  /\ (skip = 0%nat -> (ticks (out_of p f skip prev s) <= ticks s)%nat).
Proof.
  induction s as [|c s IH]; intros skip prev Hs.
  - split; [reflexivity | intros _; reflexivity].
  - rewrite includes_cons in Hs. apply orb_false_elim in Hs as [Hhead Hs].
    destruct skip as [|k].
    + destruct (p prev (c :: s)) as [[n a]|] eqn:E.
      * assert (Hout : out_of p f 0 prev (c :: s)
                       = f (take n (c :: s)) a ++ out_of p f (Nat.pred n) (Some c) s).
        { unfold out_of. cbn [scan_from]. rewrite E. reflexivity. }
        rewrite Hout. pose proof (f_plain (take n (c :: s)) a) as Hf.
        unfold plain_text in Hf. apply andb_prop in Hf as [Hne Hf].
        split; [apply plain_prefix; [exact Hf | apply IH, Hs]|].
        intros _. destruct (f (take n (c :: s)) a) as [|d r]; [discriminate Hne|].
        cbn [app forallb] in *. apply andb_prop in Hf as [Hd _]. rewrite ticks_cons.
        destruct (ch_eqb d "`"); [discriminate | lia].
      * rewrite (out_of_lit _ _ _ _ _ E).
        destruct (IH 0%nat (Some c) Hs) as [Ho Ht]. specialize (Ht eq_refl).
        rewrite includes_cons, Ho, orb_false_r, starts_fence_ticks.
        rewrite starts_fence_ticks in Hhead. rewrite ticks_cons in Hhead.
        rewrite (ticks_cons c s), (ticks_cons c (out_of p f 0 (Some c) s)).
        destruct (ch_eqb c "`").
        -- apply Nat.leb_gt in Hhead. split; [apply Nat.leb_gt; lia | intros _; lia].
        -- split; [reflexivity | intros _; lia].
    + split; [|discriminate]. apply (IH k (Some c) Hs).
Qed.

Lemma replace_all_fence s :
  includes FENCE s = false -> includes FENCE (replace_all p f s) = false.
Proof. intros Hs. apply (out_of_fence s 0%nat None Hs). Qed.

End Fence.

Lemma letter_not_tick z : is_letter z = true -> ch_eqb z "`" = false.
Proof. destruct z as [[] [] [] [] [] [] [] []]; try discriminate; reflexivity. Qed.

Lemma insert_dot_fence z y : ch_eqb z "`" = false -> forall x,
  includes FENCE (x ++ z :: y) = false -> includes FENCE (x ++ z :: "."%char :: y) = false.
Proof.
  intros Hz. induction x as [|c x IH]; intros H.
  - cbn [app] in *. rewrite includes_cons in H. apply orb_false_elim in H as [_ H].
    rewrite !includes_cons, H, !starts_fence_ticks, !ticks_cons, Hz. reflexivity.
  - cbn [app] in *. rewrite includes_cons in H |- *. apply orb_false_elim in H as [Hh H].
    rewrite (IH H), orb_false_r. rewrite <- Hh.
    apply (starts_with_stop FENCE z (c :: x)).
    unfold FENCE. cbn [js list_ascii_of_string forallb].
    rewrite (ch_eqb_swap "`" z), Hz. reflexivity.
Qed.

Lemma with_dots_fence s s' :
  with_dots s s' -> includes FENCE s = false -> includes FENCE s' = false.
Proof.
  induction 1 as [s|x z y s' Hz _ IH]; intros Hs; [exact Hs|].
  apply IH. apply insert_dot_fence; [apply letter_not_tick, Hz | exact Hs].
Qed.

Lemma fenceless_count s : includes FENCE s = false -> count_matches code_fence s = 0.
Proof.
  intros Hs. apply count_matches_zero. apply none_no_hits. intros t prev' Ht _.
  unfold code_fence. rewrite (includes_suffix FENCE s t Hs Ht). reflexivity.
Qed.

Lemma default_text_plain field : plain_text (default_text field) = true.
Proof. unfold default_text. repeat (destruct (includes _ field); [reflexivity|]). reflexivity. Qed.

Lemma polish_before_punctuation_fenceless html :
  includes FENCE (fst (polish_before_punctuation html)) = false.
Proof.
  unfold polish_before_punctuation.
  destruct (fix_insufficient_evidence html) as [p1 c1].
  assert (H2 : includes FENCE (fst (remove_markdown p1)) = false).
  { unfold remove_markdown. destruct (0 <? count_matches code_fence p1) eqn:E; cbn [fst].
    - apply erase_code_fence_leaves_none.
    - assert (H0 : count_matches code_fence p1 = 0).
      { apply Z.ltb_ge in E. unfold count_matches in *. lia. }
      apply count_matches_zero in H0.
      rewrite <- (out_of_no_hits code_fence erase p1 None H0).
      apply erase_code_fence_leaves_none. }
  destruct (remove_markdown p1) as [p2 c2]. cbn [fst] in H2.
  assert (H3 : includes FENCE (fst (fix_placeholders p2)) = false).
  { unfold fix_placeholders. destruct (_ <? _); cbn [fst]; [|exact H2].
    apply replace_all_fence; [intros m a; apply default_text_plain | exact H2]. }
  destruct (fix_placeholders p2) as [p3 c3]. cbn [fst] in H3.
  assert (H4 : includes FENCE (fst (fix_template_vars p3)) = false).
  { unfold fix_template_vars. destruct (_ <? _); cbn [fst]; [|exact H3].
    unfold replace_template_variables, TEMPLATE_TEXTS. cbn [fold_left fst snd].
    repeat (apply replace_all_fence; [reflexivity|]). exact H3. }
  destruct (fix_template_vars p3) as [p4 c4]. exact H4.
Qed.

(** *** Texts without an opening bracket *)

Lemma out_of_no_open {A} (p : pattern A) f :
  (forall m a, existsb is_open_bracket (f m a) = false) ->
  forall s skip prev,
    existsb is_open_bracket s = false ->
    existsb is_open_bracket (out_of p f skip prev s) = false.
Proof.
  intros Hf s skip prev Hs.
  destruct (existsb is_open_bracket (out_of p f skip prev s)) eqn:E; [|reflexivity].
  apply (existsb_out_of p f is_open_bracket Hf) in E. congruence.
Qed.

Lemma with_dots_no_open s s' :
  with_dots s s' -> existsb is_open_bracket s = false ->
  existsb is_open_bracket s' = false.
Proof.
  induction 1 as [s|x z y s' Hz _ IH]; intros Hs; [exact Hs|].
  apply IH. rewrite existsb_app in Hs |- *. cbn [existsb] in Hs |- *.
  apply orb_false_elim in Hs as [Hx Hzy]. apply orb_false_elim in Hzy as [Hz' Hy].
  rewrite Hx, Hz', Hy. reflexivity.
Qed.

Lemma default_text_no_open field : existsb is_open_bracket (default_text field) = false.
Proof. unfold default_text. repeat (destruct (includes _ field); [reflexivity|]). reflexivity. Qed.

Lemma no_open_suffix s t :
  existsb is_open_bracket s = false -> t `suffix_of` s ->
  match t with c :: _ => ch_eqb c "[" = false | [] => True end.
Proof.
  intros Hs [k ->]. rewrite existsb_app in Hs. apply orb_false_elim in Hs as [_ Ht].
  destruct t as [|c t]; [exact I|]. cbn [existsb] in Ht.
  apply orb_false_elim in Ht as [Hc _]. exact Hc.
Qed.

Lemma not_open_case {A} (c : ascii) (t : jstring) (x y : A) :
  ch_eqb c "[" = false ->
  match c :: t with
  | "["%char :: _ => x
  | _ => y
  end = y.
Proof.
  intros Hc. destruct c as [[] [] [] [] [] [] [] []]; try reflexivity. discriminate Hc.
Qed.

(** A text without an opening bracket holds no insufficient-evidence
    marker and no template variable. *)
Lemma no_open_counts s :
  existsb is_open_bracket s = false ->
  count_matches insufficient_marker s = 0 /\ count_matches template_variable s = 0.
Proof.
  intros Hs. split; apply count_matches_zero, none_no_hits; intros t prev' Ht _;
    pose proof (no_open_suffix s t Hs Ht) as Hc; destruct t as [|c t]; try reflexivity.
  - unfold insufficient_marker, bracketed, literal_prefix, INSUFFICIENT_PREFIX.
    cbn [js list_ascii_of_string starts_with]. rewrite ch_eqb_swap, Hc. reflexivity.
  - unfold template_variable, bracketed, template_prefix.
    rewrite (not_open_case c t _ _ Hc). reflexivity.
Qed.

Lemma polish_before_punctuation_no_open html :
  existsb is_open_bracket html = false ->
  existsb is_open_bracket (fst (polish_before_punctuation html)) = false.
Proof.
  intros H0. unfold polish_before_punctuation.
  assert (H1 : existsb is_open_bracket (fst (fix_insufficient_evidence html)) = false).
  { unfold fix_insufficient_evidence. destruct (_ <? _); cbn [fst]; [|exact H0].
    apply out_of_no_open; [reflexivity | exact H0]. }
  destruct (fix_insufficient_evidence html) as [p1 c1]. cbn [fst] in H1.
  assert (H2 : existsb is_open_bracket (fst (remove_markdown p1)) = false).
  { unfold remove_markdown. destruct (_ <? _); cbn [fst]; [|exact H1].
    apply out_of_no_open; [reflexivity | exact H1]. }
  destruct (remove_markdown p1) as [p2 c2]. cbn [fst] in H2.
  assert (H3 : existsb is_open_bracket (fst (fix_placeholders p2)) = false).
  { unfold fix_placeholders. destruct (_ <? _); cbn [fst]; [|exact H2].
    apply out_of_no_open; [intros m a; apply default_text_no_open | exact H2]. }
  destruct (fix_placeholders p2) as [p3 c3]. cbn [fst] in H3.
  assert (H4 : existsb is_open_bracket (fst (fix_template_vars p3)) = false).
  { unfold fix_template_vars. destruct (_ <? _); cbn [fst]; [|exact H3].
    unfold replace_template_variables, TEMPLATE_TEXTS. cbn [fold_left fst snd].
    repeat (apply out_of_no_open; [reflexivity|]). exact H3. }
  destruct (fix_template_vars p3) as [p4 c4]. exact H4.
Qed.

(** *** One application, then another *)

(** What one application leaves: no code fence, no long broken sentence,
    and ten runs of spaces at most; and no opening bracket, when it was
    given none. *)
Lemma manualPolishHTML_clean fuel html :
  no_special (fst (polish_before_punctuation html)) = true ->
  (length (fst (polish_before_punctuation html)) < fuel)%nat ->
  exists r,
    manualPolishHTML fuel html = Return r
    /\ includes FENCE (result_html r) = false
    /\ settled (result_html r) = true
    /\ count_matches double_spaces (result_html r) <= 10
    /\ (existsb is_open_bracket html = false ->
        existsb is_open_bracket (result_html r) = false).
Proof.
  intros Hplain Hfuel.
  pose proof (polish_before_punctuation_fenceless html) as Hfence.
  pose proof (polish_before_punctuation_no_open html) as Hopen.
  unfold manualPolishHTML.
  destruct (polish_before_punctuation html) as [p4 c4]. cbn [fst] in *.
  destruct (punctuate_settles fuel p4 0 0 Hplain) as (p5 & bc & Hrun & Hdots & Hset);
    [intros k Hk; lia | lia |].
  unfold fix_punctuation. rewrite Hrun. cbn [cbind].
  pose proof (with_dots_fence _ _ Hdots Hfence) as Hfence5.
  unfold fix_whitespace.
  destruct (10 <? count_matches double_spaces p5) eqn:Hten.
  - eexists. split; [reflexivity|]. cbn [result_html]. fold (squeeze p5).
    split; [apply replace_all_fence; [reflexivity | exact Hfence5]|].
    split; [apply squeeze_settled, Hset|]. split; [rewrite squeeze_count; lia|].
    intros H0. apply out_of_no_open; [reflexivity|].
    apply (with_dots_no_open _ _ Hdots), Hopen, H0.
  - eexists. split; [reflexivity|]. cbn [result_html].
    split; [exact Hfence5|]. split; [exact Hset|]. split; [apply Z.ltb_ge, Hten|].
    intros H0. apply (with_dots_no_open _ _ Hdots), Hopen, H0.
Qed.

(** An application to a clean text changes nothing. *)
Lemma manualPolishHTML_quiet fuel y :
  count_matches insufficient_marker y = 0 ->
  includes FENCE y = false ->
  count_matches unfilled_marker y = 0 ->
  count_matches template_variable y = 0 ->
  settled y = true ->
  count_matches double_spaces y <= 10 ->
  (length y < fuel)%nat ->
  manualPolishHTML fuel y = Return (mkPolishResult y [NO_CHANGES]).
Proof.
  intros H1 H2 H3 H4 H5 H6 Hfuel.
  unfold manualPolishHTML, polish_before_punctuation.
  unfold fix_insufficient_evidence. rewrite H1. cbn [Z.ltb Z.compare].
  unfold remove_markdown. rewrite (fenceless_count y H2). cbn [Z.ltb Z.compare].
  unfold fix_placeholders. rewrite H3. cbn [Z.ltb Z.compare].
  unfold fix_template_vars. rewrite H4. cbn [Z.ltb Z.compare app].
  unfold fix_punctuation. rewrite (punctuate_quiet fuel y 0 0 H5) by lia.
  cbn [cbind Z.ltb Z.compare].
  unfold fix_whitespace.
  replace (10 <? count_matches double_spaces y) with false
    by (symmetry; apply Z.ltb_ge; exact H6).
  reflexivity.
Qed.

(** What a second application records tells what the first one left. *)
Lemma manualPolishHTML_no_changes fuel y r :
  manualPolishHTML fuel y = Return r ->
  result_changes r = [NO_CHANGES] ->
  count_matches insufficient_marker y = 0 /\ count_matches template_variable y = 0.
Proof.
  unfold manualPolishHTML, polish_before_punctuation. intros Hrun Hlog.
  assert (Hzero : forall {A} (p : pattern A) s,
            (0 <? count_matches p s) = false -> count_matches p s = 0).
  { intros A p s H. apply Z.ltb_ge in H. unfold count_matches in *. lia. }
  unfold fix_insufficient_evidence, remove_markdown, fix_placeholders, fix_template_vars
    in Hrun.
  destruct (0 <? count_matches insufficient_marker y) eqn:E1.
  { exfalso. destruct (0 <? count_matches code_fence _);
      destruct (0 <? count_matches unfilled_marker _);
      destruct (0 <? count_matches template_variable _);
      destruct (fix_punctuation _ _) as [[p5 c5]| |]; cbn in Hrun; try discriminate;
      destruct (fix_whitespace p5) as [p6 c6]; injection Hrun as <-;
      cbn in Hlog; discriminate Hlog. }
  split; [apply Hzero, E1|].
  destruct (0 <? count_matches code_fence y) eqn:E2.
  { exfalso.
      destruct (0 <? count_matches unfilled_marker _);
      destruct (0 <? count_matches template_variable _);
      destruct (fix_punctuation _ _) as [[p5 c5]| |]; cbn in Hrun; try discriminate;
      destruct (fix_whitespace p5) as [p6 c6]; injection Hrun as <-;
      cbn in Hlog; discriminate Hlog. }
  destruct (0 <? count_matches unfilled_marker y) eqn:E3.
  { exfalso.
      destruct (0 <? count_matches template_variable _);
      destruct (fix_punctuation _ _) as [[p5 c5]| |]; cbn in Hrun; try discriminate;
      destruct (fix_whitespace p5) as [p6 c6]; injection Hrun as <-;
      cbn in Hlog; discriminate Hlog. }
  destruct (0 <? count_matches template_variable y) eqn:E4.
  { exfalso.
      destruct (fix_punctuation _ _) as [[p5 c5]| |]; cbn in Hrun; try discriminate;
      destruct (fix_whitespace p5) as [p6 c6]; injection Hrun as <-;
      cbn in Hlog; discriminate Hlog. }
  apply Hzero, E4.
Qed.

(** C5, as the code has it.  When the text that reaches the loop over
    broken sentences has no dollar sign followed by [$], [&], a backquote
    or a quote, and [fuel] exceeds its length, the deterministic pass
    returns; and a second application returns the text of the first with
    only the "no changes" entry exactly when that text holds no
    insufficient-evidence marker and no bracketed text that starts like a
    template variable.  It holds neither when the input has no opening
    bracket: on such a text two applications yield what one yields. *)
Theorem second_polish_changes_nothing fuel html :
  no_special (fst (polish_before_punctuation html)) = true ->
  (length (fst (polish_before_punctuation html)) < fuel)%nat ->
  exists r1,
    manualPolishHTML fuel html = Return r1
    /\ forall fuel2, (length (result_html r1) < fuel2)%nat ->
         (manualPolishHTML fuel2 (result_html r1)
          = Return (mkPolishResult (result_html r1) [NO_CHANGES])
          <-> count_matches insufficient_marker (result_html r1) = 0
              /\ count_matches template_variable (result_html r1) = 0)
         /\ (existsb is_open_bracket html = false ->
             manualPolishHTML fuel2 (result_html r1)
             = Return (mkPolishResult (result_html r1) [NO_CHANGES])).
Proof.
  intros Hplain Hfuel.
  destruct (manualPolishHTML_clean fuel html Hplain Hfuel)
    as (r1 & Hrun & Hfence & Hset & Hspaces & Hopen).
  destruct (manualPolishHTML_marker_free fuel html Hplain Hfuel) as (r1' & Hrun' & Hmarker).
  rewrite Hrun in Hrun'. injection Hrun' as <-.
  exists r1. split; [exact Hrun|]. intros fuel2 Hfuel2. split; [split|].
  - intros Hsecond. apply (manualPolishHTML_no_changes _ _ _ Hsecond). reflexivity.
  - intros [Hins Htpl]. apply manualPolishHTML_quiet; assumption.
  - intros H0. destruct (no_open_counts _ (Hopen H0)) as [Hins Htpl].
    apply manualPolishHTML_quiet; assumption.
Qed.

(** An instance: the second pass over a fenced sentence. *)
Lemma second_polish_changes_nothing_witness :
  no_special (fst (polish_before_punctuation fenced_sentence)) = true
  /\ (length (fst (polish_before_punctuation fenced_sentence)) < 100)%nat
  /\ exists r1,
       manualPolishHTML 100 fenced_sentence = Return r1
       /\ result_html r1 = js "<p>The intake workflow loses two days.</p>"
       /\ count_matches insufficient_marker (result_html r1) = 0
       /\ count_matches template_variable (result_html r1) = 0
       /\ manualPolishHTML 100 (result_html r1)
          = Return (mkPolishResult (result_html r1) [NO_CHANGES]).
Proof.
  assert (H1 : no_special (fst (polish_before_punctuation fenced_sentence)) = true)
    by (vm_compute; reflexivity).
  assert (H2 : (length (fst (polish_before_punctuation fenced_sentence)) < 100)%nat)
    by (vm_compute; lia).
  split; [exact H1|]. split; [exact H2|].
  destruct (second_polish_changes_nothing 100 fenced_sentence H1 H2) as (r1 & Hrun & Hiff).
  exists r1. split; [exact Hrun|].
  assert (Hr : result_html r1 = js "<p>The intake workflow loses two days.</p>").
  { vm_compute in Hrun. injection Hrun as <-. reflexivity. }
  split; [exact Hr|].
  assert (Hins : count_matches insufficient_marker (result_html r1) = 0)
    by (rewrite Hr; vm_compute; reflexivity).
  assert (Htpl : count_matches template_variable (result_html r1) = 0)
    by (rewrite Hr; vm_compute; reflexivity).
  split; [exact Hins|]. split; [exact Htpl|].
  apply (Hiff 100%nat); [rewrite Hr; vm_compute; lia | split; assumption].
Defined.

(** ** Where the generated narrative goes *)

Lemma get_property_update_ne o k k' child :
  k' <> k -> get_property (store_child o k child) k' = get_property o k'.
Proof.
  intros Hne. destruct o as [| | | | |kd props]; try reflexivity.
  cbn [store_child get_property]. rewrite lookup_update_prop_ne by exact Hne. reflexivity.
Qed.

Lemma get_property_set_ne o k k' v r o' :
  set_property o k v = (r, o') -> k' <> k -> is_length k' = false ->
  get_property o' k' = get_property o k'.
Proof.
  intros Hset Hne Hlen. destruct o as [| | | | |[|len] props]; cbn [set_property] in Hset;
    try (injection Hset as _ <-; reflexivity);
    try (destruct (is_proto k); injection Hset as _ <-; reflexivity).
  - destruct (_ && _); injection Hset as _ <-; [reflexivity|]. cbn [get_property].
    rewrite lookup_put_prop_ne by exact Hne. reflexivity.
  - destruct (is_length k); [injection Hset as _ <-; reflexivity|].
    destruct (_ && _); injection Hset as _ <-; [reflexivity|].
    cbn [get_property]. rewrite lookup_put_prop_ne by exact Hne. rewrite Hlen.
    reflexivity.
Qed.

Lemma get_property_store_same o k child child' :
  get_property o k = Return child ->
  get_property (store_child o k child') k = Return child' \/ store_child o k child' = o.
Proof.
  destruct o as [| | | | |kd props]; try (right; reflexivity).
  cbn [store_child get_property]. destruct (lookup_prop k props) as [x|] eqn:E.
  - intros _. left. rewrite lookup_update_prop by (rewrite E; eauto). reflexivity.
  - intros _. right. f_equal.
    clear -E. induction props as [|[k0 v0] rest IH]; [reflexivity|].
    cbn [lookup_prop update_prop] in *. destruct (decide (k0 = k)); [discriminate|].
    rewrite IH by exact E. reflexivity.
Qed.

Lemma assign_in_unfold o k k2 rest v :
  Batch.assign_in o (k :: k2 :: rest) v
  = match get_property o k with
    | Return child =>
        let '(r, child') := Batch.assign_in child (k2 :: rest) v in
        (r, store_child o k child')
    | Throw e => (Throw e, o)
    | Stuck => (Stuck, o)
    end.
Proof. reflexivity. Qed.

(** A write leaves alone what a place shows that parts ways with it. *)
Lemma assign_in_frame keys : forall place o v r o',
  Batch.assign_in o keys v = (r, o') ->
  diverge keys place = true ->
  Batch.get_in o' place = Batch.get_in o place.
Proof.
  induction keys as [|k keys IH]; intros place o v r o' Hset Hdiv; [discriminate|].
  destruct place as [|k' place]; [destruct keys; discriminate|].
  cbn [diverge] in Hdiv. cbn [Batch.get_in].
  destruct (decide (k = k')) as [<-|Hne].
  - (* the same property: the write goes on below it *)
    destruct keys as [|k2 rest]; [discriminate|].
    rewrite assign_in_unfold in Hset.
    destruct (get_property o k) as [child| |] eqn:Hchild;
      [|injection Hset as _ <-; rewrite Hchild; reflexivity..].
    destruct (Batch.assign_in child (k2 :: rest) v) as [r' child'] eqn:Hrec.
    injection Hset as _ <-.
    destruct (get_property_store_same o k child child' Hchild) as [Hnew|Hsame].
    + rewrite Hnew. cbn [cbind]. apply (IH place child v r' child' Hrec Hdiv).
    + rewrite Hsame, Hchild. reflexivity.
  - (* another property *)
    apply negb_true_iff in Hdiv.
    assert (Hk : get_property o' k' = get_property o k').
    { destruct keys as [|k2 rest].
      - cbn [Batch.assign_in] in Hset.
        apply (get_property_set_ne o k k' v r o' Hset); [congruence | exact Hdiv].
      - rewrite assign_in_unfold in Hset.
        destruct (get_property o k) as [child| |];
          [|injection Hset as _ <-; reflexivity..].
        destruct (Batch.assign_in child (k2 :: rest) v) as [r' child'].
        injection Hset as _ <-. apply get_property_update_ne. congruence. }
    rewrite Hk. reflexivity.
Qed.

Lemma get_property_primitive o k child :
  primitive o -> get_property o k = Return child -> primitive child.
Proof.
  destruct o as [| | | | s |kd props]; cbn [get_property primitive]; unfold absent;
    try discriminate.
  - intros _. destruct (inherited k); [discriminate|]. intros [= <-]. exact I.
  - intros _. destruct (inherited k); [discriminate|]. intros [= <-]. exact I.
  - intros _. destruct (is_length k); [intros [= <-]; exact I|].
    destruct (array_index k); [destruct (s !! _)|destruct (inherited k); [discriminate|]];
      intros [= <-]; exact I.
  - intros [].
Qed.

Lemma get_property_absent kd props k child :
  lookup_prop k props = None -> get_property (VObj kd props) k = Return child ->
  primitive child.
Proof.
  intros E. cbn [get_property]. rewrite E. unfold absent.
  destruct kd; [|destruct (is_length k); [intros [= <-]; exact I|]];
    (destruct (inherited k); [discriminate|]); intros [= <-]; exact I.
Qed.

(** Nothing can be written below a primitive. *)
Lemma assign_in_primitive keys : forall o v o',
  primitive o -> keys <> [] -> Batch.assign_in o keys v <> (Return tt, o').
Proof.
  induction keys as [|k keys IH]; intros o v o' Hprim Hne; [congruence|].
  destruct keys as [|k2 rest].
  - cbn [Batch.assign_in]. destruct o as [| | | | |kd props]; [| | | | |destruct Hprim];
      cbn [set_property]; try (destruct (is_proto k)); discriminate.
  - rewrite assign_in_unfold.
    destruct (get_property o k) as [child| |] eqn:Hchild; [|discriminate..].
    destruct (Batch.assign_in child (k2 :: rest) v) as [r child'] eqn:Hrec.
    intros [= -> _].
    apply (IH child v child' (get_property_primitive o k child Hprim Hchild)
             ltac:(discriminate) Hrec).
Qed.

(** A write that completes shows at its place. *)
Lemma assign_in_lands keys : forall o v o',
  keys <> [] ->
  Batch.assign_in o keys v = (Return tt, o') ->
  Batch.get_in o' keys = Return v.
Proof.
  induction keys as [|k keys IH]; intros o v o' Hne Hset; [congruence|].
  destruct keys as [|k2 rest].
  - cbn [Batch.assign_in] in Hset. apply set_property_get in Hset as [Hget _].
    cbn [Batch.get_in]. rewrite Hget. reflexivity.
  - rewrite assign_in_unfold in Hset.
    destruct (get_property o k) as [child| |] eqn:Hchild; try discriminate.
    destruct (Batch.assign_in child (k2 :: rest) v) as [r' child'] eqn:Hrec.
    injection Hset as -> <-.
    pose proof (IH child v child' ltac:(discriminate) Hrec) as Hin.
    cbn [Batch.get_in].
    assert (Hown : exists kd props x, o = VObj kd props /\ lookup_prop k props = Some x).
    { destruct o as [| | | | |kd props].
      1-5: exfalso; apply (assign_in_primitive (k2 :: rest) child v child');
        [apply (get_property_primitive _ k child) in Hchild; [exact Hchild | exact I]
        | discriminate | exact Hrec].
      destruct (lookup_prop k props) as [x|] eqn:E; [eauto|].
      exfalso. apply (assign_in_primitive (k2 :: rest) child v child');
        [apply (get_property_absent kd props k child E Hchild) | discriminate | exact Hrec]. }
    destruct Hown as (kd & props & x & -> & E).
    cbn [store_child get_property].
    rewrite lookup_update_prop by (rewrite E; eauto). exact Hin.
Qed.

Section Landing.
Context {E : Type} (report : nat) (place : list jstring) (t : value).
Local Abbreviation Landed := (landed (E := E) report place t).
Local Abbreviation Anything := (fun _ : World E => True).

Lemma landed_assign keys v :
  diverge keys place = true -> triple Landed (Batch.assign report keys v) (fun _ => Landed) Anything.
Proof.
  intros Hdiv w (doc & Hdoc & Hget). unfold Batch.assign, bind, read_doc. rewrite Hdoc.
  destruct (Batch.assign_in doc keys v) as [r doc'] eqn:Hset.
  assert (Hl : landed report place t
                 (mkWorld (executor w) (<[report := doc']> (heap w)) (clock w) (steps w)
                    (sent w) (trace w))).
  { exists doc'. split; [apply lookup_insert_eq|].
    rewrite (assign_in_frame keys place doc v r doc' Hset Hdiv). exact Hget. }
  destruct r as [[]| |]; cbn; auto.
Qed.

Lemma landed_step {A} (m : M E A) : triple Anything m (fun _ => Anything) Anything.
Proof. intros w _. destruct (m w) as [[a| |] w']; exact I. Qed.

Lemma landed_lift {A} (c : completion A) : triple Landed (lift c) (fun _ => Landed) Anything.
Proof. intros w Hw. destruct c; cbn; auto. Qed.

Lemma landed_ret {A} (a : A) : triple Landed (ret a) (fun _ => Landed) Anything.
Proof. intros w Hw. exact Hw. Qed.

Lemma landed_read_doc r : triple Landed (read_doc r) (fun _ => Landed) Anything.
Proof. intros w Hw. unfold read_doc. destruct (heap w !! r); auto. Qed.

Lemma landed_copy_field generated field keys :
  diverge keys place = true ->
  triple Landed (Batch.copy_field report generated field keys) (fun _ => Landed) Anything.
Proof.
  intros Hdiv. unfold Batch.copy_field.
  eapply triple_bind; [apply landed_lift | intros v].
  destruct (Batch.truthy v); [apply landed_assign, Hdiv | apply landed_ret].
Qed.

Lemma landed_has_list k1 k2 :
  triple Landed (Batch.has_list report k1 k2) (fun _ => Landed) Anything.
Proof.
  unfold Batch.has_list.
  eapply triple_bind; [apply landed_read_doc | intros doc].
  eapply triple_bind; [apply landed_lift | intros o].
  eapply triple_bind; [apply landed_lift | intros l; apply landed_ret].
Qed.

Lemma landed_read_in keys :
  triple Landed (Batch.read_in report keys) (fun _ => Landed) Anything.
Proof.
  unfold Batch.read_in.
  eapply triple_bind; [apply landed_read_doc | intros doc; apply landed_lift].
Qed.

Lemma landed_for_each {A} (f : A -> M E unit) l :
  (forall x, triple Landed (f x) (fun _ => Landed) Anything) ->
  triple Landed (Batch.for_each f l) (fun _ => Landed) Anything.
Proof.
  intros Hf. induction l as [|x l IH]; cbn [Batch.for_each]; [apply landed_ret|].
  eapply triple_bind; [apply Hf | intros ?; exact IH].
Qed.

Lemma landed_here_diverge prefix key more :
  diverge prefix place = true -> diverge (prefix ++ key :: more) place = true.
Proof.
  revert place. clear. induction prefix as [|k prefix IH]; intros place H; [discriminate|].
  destruct place as [|k' place]; [destruct prefix; discriminate|].
  cbn [app diverge] in *. destruct (decide (k = k')); [apply IH, H | exact H].
Qed.

Ltac landed_steps :=
  repeat first
    [ apply landed_ret | apply landed_lift | apply landed_read_in | apply landed_has_list
    | apply landed_assign; assumption
    | match goal with |- triple _ (if ?b then _ else _) _ _ => destruct b end
    | eapply triple_bind; [|intros ?] ].

Lemma landed_apply_finding finding :
  diverge [js "scorecard"; js "rows"] place = true ->
  triple Landed (Batch.apply_finding report finding) (fun _ => Landed) Anything.
Proof.
  intros Hdiv. unfold Batch.apply_finding.
  eapply triple_bind; [apply landed_lift | intros idx].
  eapply triple_bind; [apply landed_lift | intros key].
  assert (H0 : diverge [js "scorecard"; js "rows"; key] place = true)
    by (apply (landed_here_diverge [js "scorecard"; js "rows"] key []); exact Hdiv).
  assert (H1 : diverge ([js "scorecard"; js "rows"; key] ++ [js "finding"]) place = true)
    by (apply (landed_here_diverge [js "scorecard"; js "rows"] key [js "finding"]); exact Hdiv).
  assert (H2 : diverge ([js "scorecard"; js "rows"; key] ++ [js "finding"; js "summary"])
                 place = true)
    by (apply (landed_here_diverge [js "scorecard"; js "rows"] key
                 [js "finding"; js "summary"]); exact Hdiv).
  assert (H3 : diverge ([js "scorecard"; js "rows"; key] ++ [js "finding"; js "risk"])
                 place = true)
    by (apply (landed_here_diverge [js "scorecard"; js "rows"] key
                 [js "finding"; js "risk"]); exact Hdiv).
  landed_steps.
Qed.

Lemma landed_apply_fix fix_ :
  diverge [js "fixes"; js "items"] place = true ->
  triple Landed (Batch.apply_fix report fix_) (fun _ => Landed) Anything.
Proof.
  intros Hdiv. unfold Batch.apply_fix.
  eapply triple_bind; [apply landed_lift | intros idx].
  eapply triple_bind; [apply landed_lift | intros key].
  assert (H1 : diverge ([js "fixes"; js "items"; key] ++ [js "problem"]) place = true)
    by (apply (landed_here_diverge [js "fixes"; js "items"] key [js "problem"]); exact Hdiv).
  assert (H2 : diverge ([js "fixes"; js "items"; key] ++ [js "solution"]) place = true)
    by (apply (landed_here_diverge [js "fixes"; js "items"] key [js "solution"]); exact Hdiv).
  assert (H3 : diverge ([js "fixes"; js "items"; key] ++ [js "impact"; js "basis"])
                 place = true)
    by (apply (landed_here_diverge [js "fixes"; js "items"] key
                 [js "impact"; js "basis"]); exact Hdiv).
  assert (H4 : diverge ([js "fixes"; js "items"; key] ++ [js "acceptance_criteria"])
                 place = true)
    by (apply (landed_here_diverge [js "fixes"; js "items"] key
                 [js "acceptance_criteria"]); exact Hdiv).
  landed_steps.
Qed.

(** The write of a field that is there lands. *)
Lemma landing generated field :
  get_property generated field = Return t -> Batch.truthy t = true -> place <> [] ->
  triple Anything (Batch.copy_field report generated field place) (fun _ => Landed) Anything.
Proof.
  intros Hfield Htruthy Hplace w _. unfold Batch.copy_field, bind, lift. rewrite Hfield, Htruthy.
  unfold Batch.assign, bind, read_doc.
  destruct (heap w !! report) as [doc|]; [|exact I].
  destruct (Batch.assign_in doc place t) as [r doc'] eqn:Hset.
  destruct r as [[]| |]; cbn; auto.
  exists doc'. split; [apply lookup_insert_eq|].
  apply (assign_in_lands place doc t doc' Hplace Hset).
Qed.
End Landing.

Ltac landed_after :=
  repeat first
    [ apply landed_ret | apply landed_lift | apply landed_has_list
    | apply landed_copy_field; reflexivity
    | apply landed_for_each; intros ?;
      first [apply landed_apply_finding; reflexivity | apply landed_apply_fix; reflexivity]
    | match goal with |- triple _ (if ?b then _ else _) _ _ => destruct b end
    | apply triple_ret; intros ? ?; assumption
    | eapply triple_bind; [|intros ?] ].

Ltac landed_chain Hfield Htruthy :=
  repeat first
    [ eapply triple_bind;
      [ apply (landing _ _ _ _ _ Hfield Htruthy); discriminate | intros ? ];
      landed_after
    | eapply triple_bind with (Q' := fun _ _ => True); [apply landed_step | intros ?] ].

(** X25: when applyGeneratedContent returns, every narrative field the
    generated content holds a truthy value for is found at its place in the
    returned report. *)
Theorem applyGeneratedContent_lands {E} reportJson generated field place t report
    (w w' : World E) :
  In (field, place) NARRATIVE_FIELDS ->
  get_property generated field = Return t ->
  Batch.truthy t = true ->
  Batch.applyGeneratedContent reportJson generated w = (Return report, w') ->
  exists doc, heap w' !! report = Some doc /\ Batch.get_in doc place = Return t.
Proof.
  intros Hin Hfield Htruthy Hrun.
  assert (Ht : triple (fun _ : World E => True) (Batch.applyGeneratedContent reportJson generated)
                 (fun r (w1 : World E) => landed r place t w1) (fun _ => True)).
  { unfold Batch.applyGeneratedContent.
    eapply triple_bind with (Q' := fun _ _ => True); [apply landed_step | intros doc].
    eapply triple_bind with (Q' := fun _ _ => True); [apply landed_step | intros copy].
    eapply triple_bind with (Q' := fun _ _ => True); [apply landed_step | intros r].
    cbn [In NARRATIVE_FIELDS] in Hin.
    repeat (destruct Hin as [[= <- <-]|Hin]; [landed_chain Hfield Htruthy|]).
    destruct Hin. }
  specialize (Ht w I). rewrite Hrun in Ht. exact Ht.
Qed.

(** An instance: the generated title replaces the placeholder of the
    skeleton report. *)
Lemma applyGeneratedContent_lands_witness :
  exists doc,
    heap (snd (Batch.applyGeneratedContent 0%nat titled_answer skeleton_world)) !! 1%nat
    = Some doc
    /\ Batch.get_in doc [js "document"; js "title"]
       = Return (VStr (js "Audit of the intake workflow")).
Proof.
  apply (applyGeneratedContent_lands 0%nat titled_answer (js "document_title")
           [js "document"; js "title"] (VStr (js "Audit of the intake workflow")) 1%nat
           skeleton_world).
  - left. reflexivity.
  - reflexivity.
  - reflexivity.
  - vm_compute. reflexivity.
Defined.

(** ** One call of the batch executor: requests and calls counted *)

Lemma batch_fallbackToNextModel_run cfg (w : World Batch.BatchLLMExecutor) :
  exists switched w',
    Batch.fallbackToNextModel cfg w = (Return switched, w')
    /\ sent w' = sent w
    /\ batch_settings (executor w') = batch_settings (executor w)
    /\ Batch.stats (executor w') = Batch.stats (executor w).
Proof.
  unfold Batch.fallbackToNextModel. rewrite bind_this_run.
  destruct (getNextFallbackModel cfg (Batch.currentModel (executor w))) as [[|c n]|].
  - exists false, w. split; [reflexivity|]. auto.
  - eexists true, _. split; [reflexivity|]. cbn. auto.
  - exists false, w. split; [reflexivity|]. auto.
Qed.

Lemma batch_callLLM_loop_accounts cfg host fuel : forall text attempt fa le w,
  0 <= attempt ->
  (attempts_left (Batch.maxRetries (executor w)) attempt fa < fuel)%nat ->
  exists exit w',
    Batch.callLLM_loop cfg host fuel text attempt fa le w = (Return exit, w')
    /\ (sent w' <= sent w + attempts_left (Batch.maxRetries (executor w)) attempt fa)%nat
    /\ batch_settings (executor w') = batch_settings (executor w)
    /\ match exit with
       | Answered content tokens =>
           Batch.apiCalls (Batch.stats (executor w'))
           = Batch.apiCalls (Batch.stats (executor w)) + 1
       | GaveUp le' =>
           Batch.apiCalls (Batch.stats (executor w'))
           = Batch.apiCalls (Batch.stats (executor w))
       end.
Proof.
  induction fuel as [|fuel IH]; intros text attempt fa le w Hattempt Hfuel; [lia|].
  cbn [Batch.callLLM_loop]. rewrite bind_this_run.
  set (R := Batch.maxRetries (executor w)) in *.
  destruct (attempt <=? R) eqn:Etest.
  2:{ exists (GaveUp le), w. split; [reflexivity|]. split; [lia|]. split; reflexivity. }
  apply Z.leb_le in Etest.
  destruct (request_run host (Batch.currentModel (executor w)) text w)
    as (w1 & Hreq & He1 & Hs1 & Hh1).
  rewrite (bind_run _ _ _ _ _ Hreq).
  assert (Hstep : forall attempt' fa',
    0 <= attempt' ->
    (S (attempts_left R attempt' fa') <= attempts_left R attempt fa)%nat ->
    forall w2, sent w2 = sent w1 ->
    batch_settings (executor w2) = batch_settings (executor w) ->
    Batch.stats (executor w2) = Batch.stats (executor w) ->
    forall err, exists exit w',
      Batch.callLLM_loop cfg host fuel text attempt' fa' (Some err) w2 = (Return exit, w')
      /\ (sent w' <= sent w + attempts_left R attempt fa)%nat
      /\ batch_settings (executor w') = batch_settings (executor w)
      /\ match exit with
         | Answered content tokens =>
             Batch.apiCalls (Batch.stats (executor w'))
             = Batch.apiCalls (Batch.stats (executor w)) + 1
         | GaveUp le' =>
             Batch.apiCalls (Batch.stats (executor w'))
             = Batch.apiCalls (Batch.stats (executor w))
         end).
  { intros attempt' fa' Hattempt' Hless w2 Hs2 Hset Hstats err.
    assert (HR : Batch.maxRetries (executor w2) = R) by (injection Hset; auto).
    destruct (IH text attempt' fa' (Some err) w2 Hattempt') as (exit & w' & Hrun & H);
      [rewrite HR; lia|].
    rewrite HR, Hs2, Hs1, Hstats, Hset in H. destruct H as (Hsent & Hkeep & Hexit).
    exists exit, w'. split; [exact Hrun|]. split; [lia|]. split; [exact Hkeep | exact Hexit]. }
  destruct (respond host (sent w) (Batch.currentModel (executor w)) text)
    as [content tokens|err].
  - (* an answer *)
    rewrite bind_this_run. eexists (Answered content tokens), _.
    split; [reflexivity|]. cbn. rewrite He1, Hs1.
    unfold attempts_left. split; [lia|]. split; reflexivity.
  - destruct (isRateLimitError cfg err).
    + (* over the quota: the fallback once, then waiting *)
      assert (Hswitch : exists switched w2,
        (if fa then ret false else Batch.fallbackToNextModel cfg) w1 = (Return switched, w2)
        /\ (switched = true -> fa = false)
        /\ sent w2 = sent w1
        /\ batch_settings (executor w2) = batch_settings (executor w)
        /\ Batch.stats (executor w2) = Batch.stats (executor w)).
      { destruct fa.
        - exists false, w1. split; [reflexivity|]. rewrite He1. auto.
        - destruct (batch_fallbackToNextModel_run cfg w1)
            as (switched & w2 & Hfb & Hs2 & Hm2 & Hst2).
          exists switched, w2. rewrite Hm2, Hst2, He1. auto. }
      destruct Hswitch as (switched & w2 & Hfb & Hfa & Hs2 & Hm2 & Hst2).
      rewrite (bind_run _ _ _ _ _ Hfb). destruct switched.
      * rewrite (Hfa eq_refl) in *.
        apply (Hstep 0 true); [lia | unfold attempts_left; lia | assumption..].
      * destruct (sleep_run host (parseRetryAfter cfg err) w2) as (w3 & Hsl & He3 & Hs3 & Hh3).
        rewrite (bind_run _ _ _ _ _ Hsl).
        apply (Hstep (attempt + 1) fa);
          [lia | unfold attempts_left; lia | congruence | rewrite He3; assumption..].
    + destruct (Batch.isRetryable err && (attempt <? R)).
      * destruct (sleep_run host (5000 * (attempt + 1)) w1) as (w3 & Hsl & He3 & Hs3 & Hh3).
        rewrite (bind_run _ _ _ _ _ Hsl).
        apply (Hstep (attempt + 1) fa);
          [lia | unfold attempts_left; lia | congruence | rewrite He3, He1; reflexivity..].
      * exists (GaveUp (Some err)), w1. split; [reflexivity|].
        rewrite He1, Hs1. split; [unfold attempts_left; lia|]. split; reflexivity.
Qed.

(** X26: one callLLM of the batch executor sends at most two rounds of
    [maxRetries + 1] requests to Gemini, and none on a dry run or when Groq
    is used directly.  A live call that returns is counted as one API call,
    whether Gemini or Groq answered; a call that throws, and a dry run, are
    not counted. *)
Theorem batch_callLLM_accounts cfg host systemPrompt userPrompt w :
  let e := executor w in
  let w' := snd (Batch.callLLM cfg host systemPrompt userPrompt w) in
  (sent w' <= sent w + 2 * Z.to_nat (Batch.maxRetries e + 1))%nat
  /\ (Batch.dryRun e = true \/ (Batch.useGroq e = true /\ is_Some (Batch.groqAdapter e)) ->
      sent w' = sent w)
  /\ Batch.apiCalls (Batch.stats (executor w'))
     = match fst (Batch.callLLM cfg host systemPrompt userPrompt w) with
       | Return _ =>
           if Batch.dryRun e then Batch.apiCalls (Batch.stats e)
           else Batch.apiCalls (Batch.stats e) + 1
       | _ => Batch.apiCalls (Batch.stats e)
       end.
Proof.
  unfold Batch.callLLM. rewrite bind_this_run.
  destruct (Batch.dryRun (executor w)) eqn:Edry.
  { cbn. split; [lia|]. split; reflexivity. }
  assert (Hdirect : forall groqModel,
    let run := (r <- lift (groq_generate host systemPrompt userPrompt) ;;
                e1 <- this ;;
                set_this (Batch.record_groq true groqModel (snd r) e1) ;;;
                ret r) w in
    sent (snd run) = sent w
    /\ Batch.apiCalls (Batch.stats (executor (snd run)))
       = match fst run with
         | Return _ => Batch.apiCalls (Batch.stats (executor w)) + 1
         | _ => Batch.apiCalls (Batch.stats (executor w))
         end).
  { intros groqModel. unfold bind, lift.
    destruct (groq_generate host systemPrompt userPrompt) as [r| |]; cbn; auto. }
  destruct (Batch.useGroq (executor w)) eqn:Euse, (Batch.groqAdapter (executor w))
    as [groqModel|] eqn:Egroq.
  { destruct (Hdirect groqModel) as [Hs Ha]. cbn zeta in Hs, Ha. cbn zeta.
    rewrite Hs, Ha. split; [lia|]. split; reflexivity. }
  all: (split; [|split; [intros [[=]|[Hu Hg]];
                         first [discriminate Hu | destruct Hg as [? [=]]]|]]).
  all: destruct (Batch.apiKey (executor w)) as [[|c key]|]; try (cbn; first [lia | reflexivity]).
  all: destruct (batch_callLLM_loop_accounts cfg host (Batch.callLLM_fuel (executor w))
              (systemPrompt ++ [NEWLINE; NEWLINE] ++ userPrompt) 0 false None w ltac:(lia))
    as (exit & w' & Hrun & Hsent & _ & Hexit);
    [unfold attempts_left, Batch.callLLM_fuel; rewrite Z.sub_0_r; lia|].
  all: cbn zeta; rewrite (bind_run _ _ _ _ _ Hrun).
  all: unfold attempts_left in Hsent; rewrite Z.sub_0_r in Hsent.
  all: destruct exit as [content tokens|[lastError|]]; cbn [fst snd ret stuck throw];
    try first [lia | exact Hexit].
  all: try (destruct (isRateLimitError cfg lastError); cbn [fst snd throw];
            try first [lia | exact Hexit]).
  all: unfold try_catch, bind, lift;
    destruct (groq_generate host systemPrompt userPrompt) as [r| |]; cbn;
    first [lia | rewrite Hexit; reflexivity | exact Hexit].
Qed.

(** ** Requests of a whole run *)

Lemma quiet_ret {E A} (a : A) : quiet (E := E) (ret a).
Proof. intros w. split; reflexivity. Qed.

Lemma quiet_lift {E A} (c : completion A) : quiet (E := E) (lift c).
Proof. intros w. split; reflexivity. Qed.

Lemma quiet_throw {E A} e : quiet (E := E) (throw (A := A) e).
Proof. intros w. split; reflexivity. Qed.

Lemma quiet_stuck {E A} : quiet (E := E) (stuck (A := A)).
Proof. intros w. split; reflexivity. Qed.

Lemma quiet_this {E} : quiet (E := E) this.
Proof. intros w. split; reflexivity. Qed.

Lemma quiet_read_doc {E} r : quiet (E := E) (read_doc r).
Proof. intros w. unfold read_doc. destruct (heap w !! r); split; reflexivity. Qed.

Lemma quiet_write_doc {E} r v : quiet (E := E) (write_doc r v).
Proof. intros w. split; reflexivity. Qed.

Lemma quiet_alloc_doc {E} v : quiet (E := E) (alloc_doc v).
Proof. intros w. split; reflexivity. Qed.

Lemma quiet_log {E} ev : quiet (E := E) (log ev).
Proof. intros w. split; reflexivity. Qed.

Lemma quiet_sleep {E} host ms : quiet (E := E) (sleep host ms).
Proof. intros w. split; reflexivity. Qed.

Lemma quiet_Date_now {E} host : quiet (E := E) (Date_now host).
Proof. intros w. split; reflexivity. Qed.

Lemma quiet_bind {E A B} (m : M E A) (f : A -> M E B) :
  quiet m -> (forall a, quiet (f a)) -> quiet (bind m f).
Proof.
  intros Hm Hf w. specialize (Hm w). unfold bind.
  destruct (m w) as [[a|e|] w1]; cbn [snd] in *; [|exact Hm..].
  destruct (Hf a w1) as [He Hs]. rewrite He, Hs. exact Hm.
Qed.

Lemma quiet_try_catch {E A} (m : M E A) h :
  quiet m -> (forall e, quiet (h e)) -> quiet (try_catch m h).
Proof.
  intros Hm Hh w. specialize (Hm w). unfold try_catch.
  destruct (m w) as [[a|e|] w1]; cbn [snd] in *; [exact Hm| |exact Hm].
  destruct (Hh e w1) as [He Hs]. rewrite He, Hs. exact Hm.
Qed.

Lemma quiet_if {E A} (b : bool) (m1 m2 : M E A) :
  quiet m1 -> quiet m2 -> quiet (if b then m1 else m2).
Proof. destruct b; auto. Qed.

Ltac quiet_with known :=
  repeat first
    [ known | progress cbn zeta | apply quiet_ret | apply quiet_lift | apply quiet_throw | apply quiet_stuck
    | apply quiet_this | apply quiet_read_doc | apply quiet_write_doc
    | apply quiet_alloc_doc | apply quiet_log | apply quiet_sleep | apply quiet_Date_now
    | apply quiet_if
    | apply quiet_bind; [|intros ?]
    | apply quiet_try_catch; [|intros ?] ].

Ltac quiet_steps := quiet_with fail.

Lemma quiet_batch_assign {E} report keys v : quiet (E := E) (Batch.assign report keys v).
Proof.
  unfold Batch.assign. apply quiet_bind; [apply quiet_read_doc | intros doc].
  destruct (Batch.assign_in doc keys v) as [c doc']. quiet_steps.
Qed.

Lemma quiet_batch_for_each {E A} (f : A -> M E unit) l :
  (forall x, quiet (f x)) -> quiet (Batch.for_each f l).
Proof.
  intros Hf. induction l as [|x l IH]; cbn [Batch.for_each]; [apply quiet_ret|].
  apply quiet_bind; [apply Hf | intros ?; exact IH].
Qed.

Lemma quiet_batch_apply_finding {E} report finding :
  quiet (E := E) (Batch.apply_finding report finding).
Proof.
  unfold Batch.apply_finding, Batch.read_in.
  quiet_with ltac:(apply quiet_batch_assign).
Qed.

Lemma quiet_batch_apply_fix {E} report fix_ :
  quiet (E := E) (Batch.apply_fix report fix_).
Proof.
  unfold Batch.apply_fix, Batch.read_in.
  quiet_with ltac:(apply quiet_batch_assign).
Qed.

Lemma quiet_applyGeneratedContent {E} reportJson generated :
  quiet (E := E) (Batch.applyGeneratedContent reportJson generated).
Proof.
  unfold Batch.applyGeneratedContent, Batch.copy_field, Batch.has_list.
  quiet_with ltac:(first
    [ apply quiet_batch_assign
    | apply quiet_batch_for_each; intros ?;
      first [apply quiet_batch_apply_finding | apply quiet_batch_apply_fix] ]).
Qed.

Section Sends.
Context {E T : Type} (proj : E -> T) (s0 : T).

Lemma sends_quiet {A} (m : M E A) : quiet m -> sends proj s0 m 0.
Proof. intros Hm w Hw. destruct (Hm w) as [He Hs]. rewrite He, Hs. split; [lia | exact Hw]. Qed.

Lemma sends_weaken {A} (m : M E A) k k' :
  sends proj s0 m k -> (k <= k')%nat -> sends proj s0 m k'.
Proof. intros Hm Hk w Hw. destruct (Hm w Hw). split; [lia | assumption]. Qed.

Lemma sends_bind {A B} (m : M E A) (f : A -> M E B) k1 k2 :
  sends proj s0 m k1 -> (forall a, sends proj s0 (f a) k2) ->
  sends proj s0 (bind m f) (k1 + k2).
Proof.
  intros Hm Hf w Hw. specialize (Hm w Hw). unfold bind.
  destruct (m w) as [[a|e|] w1]; cbn [snd] in *;
    [|destruct Hm; split; [lia | assumption]..].
  destruct Hm as [Hs Hp]. destruct (Hf a w1 Hp). split; [lia | assumption].
Qed.

Lemma sends_try_catch {A} (m : M E A) h k1 k2 :
  sends proj s0 m k1 -> (forall e, sends proj s0 (h e) k2) ->
  sends proj s0 (try_catch m h) (k1 + k2).
Proof.
  intros Hm Hh w Hw. specialize (Hm w Hw). unfold try_catch.
  destruct (m w) as [[a|e|] w1]; cbn [snd] in *;
    [destruct Hm; split; [lia | assumption] | | destruct Hm; split; [lia | assumption]].
  destruct Hm as [Hs Hp]. destruct (Hh e w1 Hp). split; [lia | assumption].
Qed.

Lemma sends_bind_this {B} (f : E -> M E B) k :
  (forall e, proj e = s0 -> sends proj s0 (f e) k) -> sends proj s0 (bind this f) k.
Proof. intros Hf w Hw. apply (Hf (executor w) Hw w Hw). Qed.

Lemma sends_set_this e : proj e = s0 -> sends proj s0 (set_this e) 0.
Proof. intros He w Hw. cbn. split; [lia | exact He]. Qed.
End Sends.

(** *** The batch run *)

Lemma sends_batch_callLLM cfg host s0 systemPrompt userPrompt :
  sends batch_settings s0 (Batch.callLLM cfg host systemPrompt userPrompt)
    (2 * Z.to_nat (fst s0 + 1)).
Proof.
  intros w Hw.
  assert (HR : Batch.maxRetries (executor w) = fst s0) by (rewrite <- Hw; reflexivity).
  rewrite <- HR. clear HR. revert Hw.
  unfold Batch.callLLM. rewrite bind_this_run.
  destruct (Batch.dryRun (executor w)); [cbn; intros; split; [lia | assumption]|].
  assert (Hgroq : forall direct groqModel w1,
    batch_settings (executor w1) = s0 ->
    let w2 := snd ((r <- lift (groq_generate host systemPrompt userPrompt) ;;
                    e1 <- this ;;
                    set_this (Batch.record_groq direct groqModel (snd r) e1) ;;;
                    ret r) w1) in
    sent w2 = sent w1 /\ batch_settings (executor w2) = s0).
  { intros direct groqModel w1 Hw1. unfold bind, lift.
    destruct (groq_generate host systemPrompt userPrompt) as [r| |]; cbn; auto. }
  assert (Hgemini : batch_settings (executor w) = s0 ->
    let w' := snd (
      match Batch.apiKey (executor w) with
      | Some (_ :: _) =>
          exit <- Batch.callLLM_loop cfg host (Batch.callLLM_fuel (executor w))
                    (systemPrompt ++ [NEWLINE; NEWLINE] ++ userPrompt) 0 false None ;;
          match exit with
          | Answered content tokens => ret (content, tokens)
          | GaveUp None => stuck
          | GaveUp (Some lastError) =>
              match Batch.groqAdapter (executor w) with
              | Some groqModel =>
                  if isRateLimitError cfg lastError then
                    try_catch
                      (r <- lift (groq_generate host systemPrompt userPrompt) ;;
                       e1 <- this ;;
                       set_this (Batch.record_groq false groqModel (snd r) e1) ;;;
                       ret r)
                      (fun _ => throw lastError)
                  else throw lastError
              | None => throw lastError
              end
          end
      | _ => throw (mkError (js "Gemini API key not set"))
      end w) in
    (sent w' <= sent w + 2 * Z.to_nat (Batch.maxRetries (executor w) + 1))%nat
    /\ batch_settings (executor w') = s0).
  { intros Hw. destruct (Batch.apiKey (executor w)) as [[|c key]|];
      try (cbn; split; [lia | assumption]).
    destruct (batch_callLLM_loop_accounts cfg host (Batch.callLLM_fuel (executor w))
                (systemPrompt ++ [NEWLINE; NEWLINE] ++ userPrompt) 0 false None w ltac:(lia))
      as (exit & w' & Hrun & Hsent & Hkeep & _);
      [unfold attempts_left, Batch.callLLM_fuel; rewrite Z.sub_0_r; lia|].
    cbn zeta. rewrite (bind_run _ _ _ _ _ Hrun).
    unfold attempts_left in Hsent. rewrite Z.sub_0_r in Hsent. rewrite Hw in Hkeep.
    destruct exit as [content tokens|[lastError|]]; try (cbn; split; [lia | assumption]).
    destruct (Batch.groqAdapter (executor w)) as [groqModel|];
      [|cbn; split; [lia | assumption]].
    destruct (isRateLimitError cfg lastError); [|cbn; split; [lia | assumption]].
    pose proof (Hgroq false groqModel w' Hkeep) as Hg. cbn zeta in Hg.
    unfold try_catch.
    destruct ((r <- lift (groq_generate host systemPrompt userPrompt) ;;
               e1 <- this ;;
               set_this (Batch.record_groq false groqModel (snd r) e1) ;;;
               ret r) w') as [[r|e|] w2]; cbn [snd throw] in *;
      destruct Hg as [Hs Hp]; (split; [lia | assumption]). }
  destruct (Batch.useGroq (executor w)); [|exact Hgemini].
  destruct (Batch.groqAdapter (executor w)) as [groqModel|] eqn:Eg; [|exact Hgemini].
  intros Hw. destruct (Hgroq true groqModel w Hw) as [Hs Hp]. split; [lia | assumption].
Qed.

Ltac sends_steps :=
  repeat first
    [ apply sends_batch_callLLM
    | apply sends_quiet;
      solve [first [apply quiet_applyGeneratedContent | quiet_steps]]
    | apply sends_bind_this; intros ? ?
    | apply sends_set_this; assumption
    | eapply sends_bind; [|intros ?]
    | eapply sends_try_catch; [|intros ?] ].

Lemma sends_batch_refine cfg host s0 reportJson generatedContent :
  sends batch_settings s0 (Batch.refine cfg host reportJson generatedContent)
    (2 * Z.to_nat (fst s0 + 1)).
Proof.
  unfold Batch.refine. eapply sends_weaken; [sends_steps | cbn; lia].
Qed.

(** X27: one run of fillAllNarratives sends at most two calls' worth of
    requests, each of two rounds of [maxRetries + 1], and one call's worth
    when the refinement pass is skipped. *)
Theorem fillAllNarratives_sends_bounded cfg host reportJson w :
  let e := executor w in
  (sent (snd (Batch.fillAllNarratives cfg host reportJson w))
   <= sent w + (if Batch.skipRefinement e then 1 else 2)
               * (2 * Z.to_nat (Batch.maxRetries e + 1)))%nat.
Proof.
  cbn zeta.
  assert (H : sends batch_settings (batch_settings (executor w))
                (Batch.fillAllNarratives cfg host reportJson)
                ((if Batch.skipRefinement (executor w) then 1 else 2)
                 * (2 * Z.to_nat (Batch.maxRetries (executor w) + 1)))).
  { unfold Batch.fillAllNarratives.
    set (K := (2 * Z.to_nat (Batch.maxRetries (executor w) + 1))%nat).
    assert (Hcall : forall sp up,
      sends batch_settings (batch_settings (executor w)) (Batch.callLLM cfg host sp up) K)
      by (intros; apply sends_batch_callLLM).
    assert (Hrefine : forall g,
      sends batch_settings (batch_settings (executor w))
        (Batch.refine cfg host reportJson g) K)
      by (intros; apply sends_batch_refine).
    assert (Hquiet : forall {A} (m : M Batch.BatchLLMExecutor A),
      quiet m -> sends batch_settings (batch_settings (executor w)) m 0)
      by (intros; apply sends_quiet; assumption).
    eapply sends_weaken.
    { eapply sends_bind; [apply Hquiet, quiet_Date_now | intros startTime].
      eapply sends_bind; [apply Hquiet, quiet_read_doc | intros doc].
      eapply sends_bind; [apply Hquiet, quiet_lift | intros masterPrompt].
      eapply sends_bind; [apply Hcall | intros genResult].
      eapply sends_bind; [apply Hquiet; quiet_steps | intros generatedContent].
      eapply sends_bind; [apply Hquiet, quiet_Date_now | intros now].
      apply sends_bind_this. intros e He.
      eapply sends_bind; [apply sends_set_this; exact He | intros ?].
      eapply sends_bind with (k1 := if Batch.skipRefinement (executor w) then 0%nat else K).
      - assert (Hskip : Batch.skipRefinement e = Batch.skipRefinement (executor w))
          by (injection He; auto).
        rewrite Hskip. destruct (Batch.skipRefinement (executor w));
          [apply Hquiet, quiet_ret | apply Hrefine].
      - intros content. apply Hquiet, quiet_applyGeneratedContent. }
    destruct (Batch.skipRefinement (executor w)); lia. }
  apply (H w eq_refl).
Qed.

(** *** The run over the placeholders *)

Lemma sends_callLLM cfg host R prompt context :
  sends maxRetries R (callLLM cfg host prompt context) (2 * Z.to_nat (R + 1)).
Proof.
  intros w Hw. rewrite <- Hw. unfold callLLM, renderPrompt.
  destruct (Mustache_render host (user_prompt_template prompt) context) as [up|e|] eqn:Er.
  2,3: (cbn; split; [lia | reflexivity]).
  rewrite (bind_run _ _ w up w) by reflexivity.
  rewrite bind_this_run.
  destruct (dryRun (executor w)); [cbn; split; [lia | reflexivity]|].
  destruct (apiKey (executor w)) as [[|c key]|]; try (cbn; split; [lia | reflexivity]).
  destruct (callLLM_loop_accounts cfg host (callLLM_fuel (executor w))
              (if nonempty (system_prompt prompt)
               then system_prompt prompt ++ [NEWLINE; NEWLINE] ++ up else up)
              0 false None w ltac:(lia))
    as (exit & w' & Hrun & Hsent & _ & Hmax & _).
  { unfold attempts_left, callLLM_fuel. rewrite Z.sub_0_r. lia. }
  rewrite (bind_run _ _ _ _ _ Hrun).
  unfold attempts_left in Hsent. rewrite Z.sub_0_r in Hsent.
  destruct exit as [content tokens|[lastError|]]; cbn; (split; [lia | exact Hmax]).
Qed.

Lemma quiet_setAtPath_in filledReport targetPath output :
  quiet (setAtPath_in filledReport targetPath output).
Proof.
  unfold setAtPath_in. apply quiet_bind; [apply quiet_read_doc | intros doc].
  destruct (setAtPath doc targetPath output) as [r doc']. quiet_steps.
Qed.

Lemma quiet_rate_limit_wait cfg host lastRequestTime :
  quiet (rate_limit_wait cfg host lastRequestTime).
Proof. unfold rate_limit_wait. quiet_steps. Qed.

Lemma sends_call_and_write cfg host R filledReport placeholder prompt context :
  sends maxRetries R (call_and_write cfg host filledReport placeholder prompt context)
    (2 * Z.to_nat (R + 1)).
Proof.
  unfold call_and_write. eapply sends_weaken.
  { eapply sends_bind; [apply sends_callLLM | intros result].
    cbn zeta.
    eapply sends_bind; [apply sends_quiet; quiet_steps | intros output].
    apply sends_quiet, quiet_setAtPath_in. }
  lia.
Qed.

Lemma sends_fill_each cfg host R skipApproval filledReport placeholders :
  forall lastRequestTime,
  sends maxRetries R
    (fill_each cfg host skipApproval filledReport placeholders lastRequestTime)
    (length placeholders * (2 * Z.to_nat (R + 1))).
Proof.
  set (K := (2 * Z.to_nat (R + 1))%nat).
  induction placeholders as [|placeholder rest IH]; intros lastRequestTime;
    cbn [fill_each length].
  { apply sends_quiet, quiet_ret. }
  assert (Hskip : sends maxRetries R
            (fill_each cfg host skipApproval filledReport rest lastRequestTime)
            (S (length rest) * K)).
  { eapply sends_weaken; [apply IH | lia]. }
  cbn zeta.
  destruct (table_lookup _ PLACEHOLDER_TO_PROMPT) as [promptId|]; [|exact Hskip].
  apply sends_bind_this. intros e He.
  destruct (getPrompt e promptId) as [prompt|]; [|exact Hskip].
  eapply sends_weaken.
  { eapply sends_bind.
    { instantiate (1 := 0%nat).
      destruct (approval_required prompt && negb skipApproval);
        [apply sends_set_this; exact He | apply sends_quiet, quiet_ret]. }
    intros ?.
    eapply sends_bind.
    { apply sends_quiet.
      quiet_with ltac:(apply quiet_rate_limit_wait). }
    intros [context|]; [|apply Hskip].
    eapply sends_weaken.
    { eapply sends_bind; [apply sends_quiet, quiet_Date_now | intros now].
      apply sends_bind_this. intros e' He'.
      eapply sends_bind; [apply sends_quiet, quiet_log | intros ?].
      eapply sends_bind.
      { eapply sends_try_catch;
          [apply sends_call_and_write | intros ?; apply sends_quiet, quiet_ret]. }
      intros ?. apply IH. }
    fold K. lia. }
  lia.
Qed.

(** X28: one run of fillPlaceholders sends, for every placeholder found in
    the report, at most two rounds of [maxRetries + 1] requests. *)
Theorem fillPlaceholders_sends_bounded cfg host reportJson skipApproval w :
  (sent (snd (fillPlaceholders cfg host reportJson skipApproval w))
   <= sent w + length (placeholders_in (heap w) reportJson)
               * (2 * Z.to_nat (maxRetries (executor w) + 1)))%nat.
Proof.
  unfold fillPlaceholders, placeholders_in, bind at 1, read_doc.
  destruct (heap w !! reportJson) as [doc|]; [|cbn; lia].
  unfold bind at 1, lift, json_clone.
  destruct doc as [| | | | |kd props] eqn:Edoc; [cbn; lia|..].
  all: rewrite <- Edoc.
  all: set (copy := json_copy doc).
  all: set (K := (2 * Z.to_nat (maxRetries (executor w) + 1))%nat).
  all: assert (H : sends maxRetries (maxRetries (executor w))
                     (filledReport <- alloc_doc copy ;;
                      fill_each cfg host skipApproval filledReport
                        (findPlaceholders copy []) 0 ;;;
                      ret filledReport)
                     (length (findPlaceholders copy []) * K))
    by (eapply sends_weaken;
        [ eapply sends_bind; [apply sends_quiet, quiet_alloc_doc | intros filledReport];
          eapply sends_bind; [apply sends_fill_each | intros ?];
          apply sends_quiet, quiet_ret
        | fold K; lia ]).
  all: apply (H w eq_refl).
Qed.

(** ** The Puter adapter's generate *)

Lemma puter_next_position a next :
  Puter.getNextFallbackModel a = Return (Some next) ->
  next <> []
  /\ 0 <= Puter.indexOf Puter.PUTER_FALLBACK_ORDER (Puter.model a)
  /\ Puter.indexOf Puter.PUTER_FALLBACK_ORDER next
     = Puter.indexOf Puter.PUTER_FALLBACK_ORDER (Puter.model a) + 1.
Proof.
  destruct a as [m]. cbn [Puter.model].
  destruct (decide (m ∈ Puter.PUTER_FALLBACK_ORDER)) as [Hin|Hout].
  - unfold Puter.PUTER_FALLBACK_ORDER in Hin.
    repeat (apply elem_of_cons in Hin as [->|Hin]); [..|inversion Hin];
      intros H; vm_compute in H; try discriminate H; injection H as <-;
      (split; [discriminate | split; [discriminate | reflexivity]]).
  - unfold Puter.getNextFallbackModel, Puter.indexOf. cbn [Puter.model].
    rewrite (puter_indexOf_from_absent _ _ _ Hout). discriminate.
Qed.

Lemma puter_next_never_fails a :
  exists next, Puter.getNextFallbackModel a = Return next.
Proof.
  unfold Puter.getNextFallbackModel. destruct (_ || _); eauto.
Qed.

Lemma set_this_run {E B} (x : E) (k : M E B) w :
  (set_this x ;;; k) w = k (mkWorld x (heap w) (clock w) (steps w) (sent w) (trace w)).
Proof. reflexivity. Qed.

Lemma puter_fetch_run {E} host net model (w : World E) :
  exists w', PuterAdapter.fetch host net model w = (Return (net (sent w) model), w')
             /\ executor w' = executor w /\ sent w' = S (sent w).
Proof. eexists. split; [reflexivity|]. cbn. auto. Qed.

Lemma puter_forward_refl w : puter_forward w w.
Proof. unfold puter_forward. split; [lia | reflexivity]. Qed.

Lemma puter_forward_trans w w' w'' :
  puter_forward w w' -> puter_forward w' w'' -> puter_forward w w''.
Proof.
  unfold puter_forward. intros [H1 H2] [H3 H4]. split; [lia|].
  intros Hneg. rewrite <- (H2 Hneg). apply H4.
  unfold puter_position in *. rewrite (H2 Hneg). exact Hneg.
Qed.

(** One pass through the body of the [try]: one request is sent, the
    adapter does not move back, and a request is counted only on the way to
    the [return] or to the error of a text that is not a string. *)
Lemma puter_attempt_body host net le w :
  let r := PuterAdapter.attempt_body host net le w in
  sent (snd r) = S (sent w)
  /\ puter_forward w (snd r)
  /\ match fst r with
     | Return (PuterAdapter.Done _) => puter_requests (snd r) = puter_requests w + 1
     | Return (PuterAdapter.Continue le') => le' = le /\ puter_requests (snd r) = puter_requests w
     | Return (PuterAdapter.Break _) => False
     | Throw e =>
         puter_requests (snd r) = puter_requests w
         \/ (puter_requests (snd r) = puter_requests w + 1
             /\ PuterAdapter.isRetryable e = false)
     | Stuck => True
     end.
Proof.
  unfold PuterAdapter.attempt_body. rewrite bind_this_run.
  destruct (puter_fetch_run host net (Puter.model (PuterAdapter.self (executor w))) w)
    as (w1 & Hfetch & He1 & Hs1).
  rewrite (bind_run _ _ _ _ _ Hfetch).
  assert (Hsame : puter_forward w w1 /\ puter_requests w1 = puter_requests w).
  { unfold puter_forward, puter_position, puter_requests. rewrite He1.
    split; [split; [lia | reflexivity] | reflexivity]. }
  destruct Hsame as [Hfw Hreq].
  destruct (net (sent w) _) as [e|status statusText body].
  { cbn. auto. }
  destruct ((status =? 429) || (status =? 503)).
  - destruct (puter_next_never_fails (PuterAdapter.self (executor w))) as [next Hnext].
    rewrite (bind_run _ _ w1 next w1) by (unfold lift; rewrite Hnext; reflexivity).
    destruct next as [[|c n]|]; try (cbn; auto).
    apply puter_next_position in Hnext as (_ & Hpos & Hstep).
    cbn. split; [exact Hs1|]. split; [|split; reflexivity].
    unfold puter_forward, puter_position.
    cbn [executor PuterAdapter.self PuterAdapter.with_model Puter.model].
    rewrite Hstep. split; lia.
  - destruct (JSON_parse body) as [data| |] eqn:Edata; [|cbn; auto..].
    rewrite (bind_run _ _ w1 data w1) by reflexivity.
    destruct (negb (PuterAdapter.ok status)).
    + destruct (get_property data (js "error")) as [detail| |] eqn:Edetail; [|cbn; auto..].
      rewrite (bind_run _ _ w1 detail w1) by reflexivity.
      destruct (Batch.get_optional detail (js "message")) as [m| |] eqn:Em;
        [|cbn; auto..].
      rewrite (bind_run _ _ w1 m w1) by reflexivity.
      destruct (PuterAdapter.template_text _) as [errorMsg| |] eqn:Emsg;
        unfold bind, lift; cbn; auto.
    + destruct (PuterAdapter.answer_text data) as [text| |] eqn:Etext;
        [|cbn; auto..].
      rewrite (bind_run _ _ w1 text w1) by reflexivity.
      destruct (PuterAdapter.usage_tokens data) as [tokens| |] eqn:Etokens;
        [|cbn; auto..].
      rewrite (bind_run _ _ w1 tokens w1) by reflexivity.
      rewrite bind_this_run.
      assert (Hcount : forall w2 : World PuterAdapter.Adapter,
                executor w2 = PuterAdapter.record_request tokens (executor w1) ->
                sent w2 = sent w1 ->
                sent w2 = S (sent w) /\ puter_forward w w2
                /\ puter_requests w2 = puter_requests w + 1).
      { intros w2 He2 Hs2. split; [congruence|].
        unfold puter_forward, puter_position, puter_requests in *. rewrite He2. cbn.
        rewrite He1. repeat split; lia. }
      rewrite set_this_run. set (w2 := mkWorld _ _ _ _ _ _).
      destruct (Hcount w2 eq_refl eq_refl) as (H1 & H2 & H3).
      assert (Hthrow : forall e, PuterAdapter.isRetryable e = false ->
        let r := throw (A := PuterAdapter.Step) e w2 in
        sent (snd r) = S (sent w) /\ puter_forward w (snd r)
        /\ match fst r with
           | Return (PuterAdapter.Done _) => puter_requests (snd r) = puter_requests w + 1
           | Return (PuterAdapter.Continue le') =>
               le' = le /\ puter_requests (snd r) = puter_requests w
           | Return (PuterAdapter.Break _) => False
           | Throw e =>
               puter_requests (snd r) = puter_requests w
               \/ (puter_requests (snd r) = puter_requests w + 1
                   /\ PuterAdapter.isRetryable e = false)
           | Stuck => True
           end).
      { intros e He. cbn. auto. }
      destruct text as [| | b | n | s | kd props]; try (apply Hthrow; reflexivity).
      destruct (JSON_parse (PuterAdapter.json_text s)) as [v| |]; cbn; auto.
Qed.

Lemma puter_handle host retries attempt err w :
  let r := PuterAdapter.handle host retries attempt err w in
  sent (snd r) = sent w /\ executor (snd r) = executor w
  /\ match fst r with
     | Return (PuterAdapter.Continue _) => PuterAdapter.isRetryable err = true
     | Return (PuterAdapter.Break _) => True
     | _ => False
     end.
Proof.
  unfold PuterAdapter.handle.
  destruct (PuterAdapter.isRetryable err) eqn:Er; [|cbn; auto].
  destruct (attempt <? retries); cbn; auto.
Qed.

Lemma puter_fail_with le w :
  snd (PuterAdapter.fail_with le w) = w
  /\ exists e, fst (PuterAdapter.fail_with le w) = Throw e.
Proof. destruct le; cbn; eauto. Qed.

Lemma puter_loop host net retries fuel : forall attempt le w,
  0 <= attempt ->
  let r := PuterAdapter.generate_loop host net fuel retries attempt le w in
  (sent (snd r) <= sent w + Z.to_nat (retries + 1 - attempt))%nat
  /\ puter_forward w (snd r)
  /\ (forall v, fst r = Return v -> puter_requests (snd r) = puter_requests w + 1).
Proof.
  induction fuel as [|fuel IH]; intros attempt le w Hattempt.
  { cbn. split; [lia|]. split; [apply puter_forward_refl | discriminate]. }
  cbn [PuterAdapter.generate_loop].
  destruct (attempt <=? retries) eqn:Etest.
  2:{ destruct (puter_fail_with le w) as [Hw [e He]].
      rewrite Hw, He. split; [lia|]. split; [apply puter_forward_refl | discriminate]. }
  apply Z.leb_le in Etest.
  pose proof (puter_attempt_body host net le w) as Hbody. cbv zeta in Hbody.
  unfold bind, try_catch.
  destruct (PuterAdapter.attempt_body host net le w) as [[step|err|] w1];
    cbn [fst snd] in Hbody; destruct Hbody as (Hs1 & Hf1 & Hr1).
  - destruct step as [v|le'|le']; [| |destruct Hr1].
    + cbn. split; [lia|]. split; [exact Hf1|]. intros _ _. exact Hr1.
    + destruct Hr1 as [-> Hr1].
      specialize (IH (attempt + 1) le w1 ltac:(lia)). cbv zeta in IH.
      destruct IH as (Hs & Hf & Hr).
      split; [lia|]. split; [eapply puter_forward_trans; eassumption|].
      intros v Hv. rewrite (Hr v Hv). lia.
  - pose proof (puter_handle host retries attempt err w1) as Hh. cbv zeta in Hh.
    destruct (PuterAdapter.handle host retries attempt err w1) as [[step| |] w2];
      cbn [fst snd] in Hh; destruct Hh as (Hs2 & He2 & Hk); try destruct Hk.
    destruct step as [v|le'|le']; [destruct Hk| |].
    + specialize (IH (attempt + 1) le' w2 ltac:(lia)). cbv zeta in IH.
      destruct IH as (Hs & Hf & Hr).
      assert (Hf2 : puter_forward w w2).
      { unfold puter_forward, puter_position in *. rewrite He2. exact Hf1. }
      split; [lia|]. split; [eapply puter_forward_trans; eassumption|].
      intros v Hv. rewrite (Hr v Hv).
      unfold puter_requests in *. rewrite He2.
      destruct Hr1 as [Hr1|[_ Hno]]; [lia | congruence].
    + destruct (puter_fail_with le' w2) as [Hw [e He]]. rewrite Hw, He.
      split; [lia|]. split; [|discriminate].
      unfold puter_forward, puter_position in *. rewrite He2. exact Hf1.
  - cbn. split; [lia|]. split; [exact Hf1 | discriminate].
Qed.

(** X19: one generate sends at most [maxRetries + 1] requests, never moves
    the adapter back in the chain of models, leaves an adapter whose model
    is outside the chain on its model, and counts exactly one request when
    it returns. *)
Theorem puter_generate_bounded host net maxRetries w :
  let r := PuterAdapter.generate host net maxRetries w in
  (sent (snd r) <= sent w + Z.to_nat (PuterAdapter.retries_of maxRetries + 1))%nat
  /\ puter_forward w (snd r)
  /\ (forall v, fst r = Return v -> puter_requests (snd r) = puter_requests w + 1).
Proof.
  unfold PuterAdapter.generate.
  pose proof (puter_loop host net (PuterAdapter.retries_of maxRetries)
                (S (Z.to_nat (PuterAdapter.retries_of maxRetries + 1))) 0 None w
                ltac:(lia)) as H.
  cbv zeta in H |- *. rewrite Z.sub_0_r in H. exact H.
Qed.

Lemma puter_next_after a :
  match Puter.getNextFallbackModel a with
  | Return (Some next) =>
      next <> [] /\ models_after next = models_after (Puter.model a) - 1
      /\ 0 < models_after (Puter.model a)
  | Return None => models_after (Puter.model a) = 0
  | _ => False
  end.
Proof.
  destruct a as [m]. cbn [Puter.model].
  destruct (decide (m ∈ Puter.PUTER_FALLBACK_ORDER)) as [Hin|Hout].
  - unfold Puter.PUTER_FALLBACK_ORDER in Hin.
    repeat (apply elem_of_cons in Hin as [->|Hin]); [..|inversion Hin];
      vm_compute; repeat split; discriminate.
  - unfold Puter.getNextFallbackModel, models_after, Puter.indexOf. cbn [Puter.model].
    rewrite (puter_indexOf_from_absent _ _ _ Hout). reflexivity.
Qed.

Section AllLimited.
Context (host : Host) (net : nat -> jstring -> PuterAdapter.Fetched) (retries : Z).
Hypothesis limited : forall n m, exists status statusText body,
  net n m = PuterAdapter.Responded status statusText body
  /\ (status = 429 \/ status = 503).

Lemma puter_body_limited le (w : World PuterAdapter.Adapter) :
  let k := models_after (Puter.model (PuterAdapter.self (executor w))) in
  exists w1,
    sent w1 = S (sent w)
    /\ if 0 <? k
       then PuterAdapter.attempt_body host net le w = (Return (PuterAdapter.Continue le), w1)
            /\ models_after (Puter.model (PuterAdapter.self (executor w1))) = k - 1
       else PuterAdapter.attempt_body host net le w
            = (Throw (mkError (js "Puter rate limited on all models")), w1)
            /\ models_after (Puter.model (PuterAdapter.self (executor w1))) = 0.
Proof.
  intros k. unfold PuterAdapter.attempt_body. rewrite bind_this_run.
  destruct (puter_fetch_run host net (Puter.model (PuterAdapter.self (executor w))) w)
    as (w1 & Hfetch & He1 & Hs1).
  rewrite (bind_run _ _ _ _ _ Hfetch).
  destruct (limited (sent w) (Puter.model (PuterAdapter.self (executor w))))
    as (status & statusText & body & -> & Hstatus).
  replace ((status =? 429) || (status =? 503)) with true
    by (destruct Hstatus as [-> | ->]; reflexivity).
  pose proof (puter_next_after (PuterAdapter.self (executor w))) as Hnext. fold k in Hnext.
  destruct (Puter.getNextFallbackModel (PuterAdapter.self (executor w)))
    as [[next|]| |] eqn:Enext; [| |destruct Hnext..].
  - destruct Hnext as (Hne & Hafter & Hpos).
    rewrite (bind_run _ _ w1 (Some next) w1) by reflexivity.
    destruct next as [|c n]; [congruence|].
    replace (0 <? k) with true by (symmetry; apply Z.ltb_lt; lia).
    eexists. split; [|split; [reflexivity|]]; cbn; [exact Hs1 | exact Hafter].
  - rewrite (bind_run _ _ w1 None w1) by reflexivity.
    replace (0 <? k) with false by (symmetry; apply Z.ltb_ge; lia).
    exists w1. split; [exact Hs1|]. split; [reflexivity|]. rewrite He1. exact Hnext.
Qed.

Lemma puter_loop_limited fuel : forall attempt (w : World PuterAdapter.Adapter),
  0 <= attempt ->
  (Z.to_nat (retries + 1 - attempt) < fuel)%nat ->
  let k := models_after (Puter.model (PuterAdapter.self (executor w))) in
  let r := PuterAdapter.generate_loop host net fuel retries attempt None w in
  if attempt + k <=? retries
  then fst r = Throw RATE_LIMITED_ON_ALL /\ sent (snd r) = (sent w + Z.to_nat (k + 1))%nat
  else fst r = Throw LAST_ERROR_UNDEFINED
       /\ sent (snd r) = (sent w + Z.to_nat (retries + 1 - attempt))%nat.
Proof.
  induction fuel as [|fuel IH]; intros attempt w Hattempt Hfuel k; [lia|].
  assert (Hk : 0 <= k).
  { pose proof (puter_next_after (PuterAdapter.self (executor w))) as H. fold k in H.
    destruct (Puter.getNextFallbackModel _) as [[next|]| |]; [| |destruct H..]; lia. }
  cbn [PuterAdapter.generate_loop].
  destruct (attempt <=? retries) eqn:Etest.
  2:{ apply Z.leb_gt in Etest.
      replace (attempt + k <=? retries) with false by (symmetry; apply Z.leb_gt; lia).
      cbn. split; [reflexivity | lia]. }
  apply Z.leb_le in Etest.
  destruct (puter_body_limited None w) as (w1 & Hs1 & Hbody). fold k in Hbody.
  unfold bind, try_catch.
  destruct (0 <? k) eqn:Epos; destruct Hbody as [-> Hafter].
  - apply Z.ltb_lt in Epos.
    specialize (IH (attempt + 1) w1 ltac:(lia) ltac:(lia)). cbv zeta in IH.
    rewrite Hafter in IH.
    replace (attempt + 1 + (k - 1)) with (attempt + k) in IH by lia.
    destruct (attempt + k <=? retries); destruct IH as [-> ->]; (split; [reflexivity | lia]).
  - apply Z.ltb_ge in Epos. assert (k = 0) by lia.
    replace (attempt + k <=? retries) with true by (symmetry; apply Z.leb_le; lia).
    cbn. split; [reflexivity | lia].
Qed.
End AllLimited.

(** X20: when the service is over its limit for every model (status 429
    or 503 on every request), generate throws.  If the retries outlast the
    models left in the chain the error says so, after one request to each
    model from the adapter's on; otherwise every pass through the loop has
    gone to a change of model, no error was kept, and reading the message of
    the last error throws a TypeError after [maxRetries + 1] requests. *)
Theorem puter_generate_all_limited host net maxRetries w :
  (forall n m, exists status statusText body,
     net n m = PuterAdapter.Responded status statusText body
     /\ (status = 429 \/ status = 503)) ->
  let retries := PuterAdapter.retries_of maxRetries in
  let k := models_after (Puter.model (PuterAdapter.self (executor w))) in
  let r := PuterAdapter.generate host net maxRetries w in
  if k <=? retries
  then fst r = Throw RATE_LIMITED_ON_ALL /\ sent (snd r) = (sent w + Z.to_nat (k + 1))%nat
  else fst r = Throw LAST_ERROR_UNDEFINED
       /\ sent (snd r) = (sent w + Z.to_nat (retries + 1))%nat.
Proof.
  intros Hlimited retries k r.
  pose proof (puter_loop_limited host net retries Hlimited
                (S (Z.to_nat (retries + 1))) 0 w ltac:(lia) ltac:(lia)) as H.
  cbv zeta in H. rewrite Z.add_0_l, Z.sub_0_r in H. exact H.
Qed.

(** An instance: one retry allowed, three models left. *)
Lemma puter_generate_all_limited_witness :
  fst (PuterAdapter.generate limited_host busy_net (Some 1) puter_world)
    = Throw LAST_ERROR_UNDEFINED
  /\ sent (snd (PuterAdapter.generate limited_host busy_net (Some 1) puter_world)) = 2%nat.
Proof.
  apply (puter_generate_all_limited limited_host busy_net (Some 1) puter_world).
  intros n m. exists 429, (js "Too Many Requests"), []. split; [reflexivity | left; reflexivity].
Defined.

(** ** Checking an answer *)

Lemma flat_map_nil_iff {A B} (f : A -> list B) l :
  flat_map f l = [] <-> forall x, In x l -> f x = [].
Proof.
  induction l as [|y l IH]; cbn [flat_map].
  - split; [intros _ x [] | reflexivity].
  - split.
    + intros H. apply app_eq_nil in H as [Hy Hl]. intros x [<-|Hx]; [exact Hy|].
      apply IH; assumption.
    + intros H. rewrite (H y (or_introl eq_refl)). cbn [app]. apply IH.
      intros x Hx. apply H. right. exact Hx.
Qed.

(** X21: validateOutput reports no error exactly when the output is no
    longer than a non-zero maximum allows, holds every required phrase as
    written, holds no forbidden phrase in any case, and does not hold the
    insufficient-evidence marker. *)
Theorem validateOutput_accepts_iff c output :
  validateOutput (Some c) output = []
  <-> (forall n, max_length_chars c = Some n -> n = 0 \/ Z.of_nat (length output) <= n)
      /\ (forall phrases phrase, must_contain c = Some phrases -> In phrase phrases ->
            includes phrase output = true)
      /\ (forall phrases phrase, must_not_contain c = Some phrases -> In phrase phrases ->
            includes (toLowerCase phrase) (toLowerCase output) = false)
      /\ includes INSUFFICIENT_EVIDENCE output = false.
Proof.
  unfold validateOutput. split.
  - intros H. apply app_eq_nil in H as [Hmax H]. apply app_eq_nil in H as [Hmust H].
    apply app_eq_nil in H as [Hnot Hmark]. repeat split.
    + intros n Hn. rewrite Hn in Hmax.
      destruct (n =? 0) eqn:E0; [left; apply Z.eqb_eq; exact E0|]. right.
      destruct (n <? Z.of_nat (length output)) eqn:El; [discriminate Hmax|].
      apply Z.ltb_ge. exact El.
    + intros phrases phrase Hc Hin. rewrite Hc in Hmust.
      pose proof (proj1 (flat_map_nil_iff _ _) Hmust phrase Hin) as Hp. cbv beta in Hp.
      destruct (includes phrase output); [reflexivity | discriminate Hp].
    + intros phrases phrase Hc Hin. rewrite Hc in Hnot.
      pose proof (proj1 (flat_map_nil_iff _ _) Hnot phrase Hin) as Hp. cbv beta in Hp.
      destruct (includes _ (toLowerCase output)); [discriminate Hp | reflexivity].
    + destruct (includes INSUFFICIENT_EVIDENCE output); [discriminate Hmark | reflexivity].
  - intros (Hmax & Hmust & Hnot & Hmark). rewrite Hmark.
    replace (match max_length_chars c with
             | Some n =>
                 if negb (n =? 0) && (n <? Z.of_nat (length output))
                 then [js "Output exceeds max length (" ++ Z_to_js (Z.of_nat (length output))
                       ++ js " > " ++ Z_to_js n ++ js ")"]
                 else []
             | None => []
             end) with (@nil jstring).
    2:{ destruct (max_length_chars c) as [n|]; [|reflexivity].
        destruct (Hmax n eq_refl) as [->|Hle]; [reflexivity|].
        replace (n <? Z.of_nat (length output)) with false
          by (symmetry; apply Z.ltb_ge; exact Hle).
        rewrite andb_false_r. reflexivity. }
    replace (match must_contain c with
             | Some phrases => flat_map _ phrases
             | None => []
             end) with (@nil jstring).
    2:{ destruct (must_contain c) as [phrases|]; [|reflexivity]. symmetry.
        apply flat_map_nil_iff. intros phrase Hin. rewrite (Hmust phrases phrase eq_refl Hin).
        reflexivity. }
    replace (match must_not_contain c with
             | Some phrases => flat_map _ phrases
             | None => []
             end) with (@nil jstring).
    2:{ destruct (must_not_contain c) as [phrases|]; [|reflexivity]. symmetry.
        apply flat_map_nil_iff. intros phrase Hin. rewrite (Hnot phrases phrase eq_refl Hin).
        reflexivity. }
    reflexivity.
Qed.

(** X22: in text whose code units are all below 256, where toLowerCase
    works one unit at a time, a forbidden phrase is reported in whatever
    case the output has it. *)
Theorem validateOutput_forbidden_any_case c phrases phrase before found after :
  must_not_contain c = Some phrases ->
  In phrase phrases ->
  toLowerCase found = toLowerCase phrase ->
  In (js "Output contains forbidden phrase: " ++ [DQUOTE] ++ phrase ++ [DQUOTE])
     (validateOutput (Some c) (before ++ found ++ after)).
Proof.
  intros Hc Hin Hcase. unfold validateOutput. rewrite Hc.
  apply in_or_app. right. apply in_or_app. right. apply in_or_app. left.
  apply in_flat_map. exists phrase. split; [exact Hin|].
  replace (includes (toLowerCase phrase) (toLowerCase (before ++ found ++ after))) with true.
  { left. reflexivity. }
  symmetry. apply includes_spec. exists (toLowerCase before), (toLowerCase after).
  unfold toLowerCase in *. rewrite !map_app, Hcase. reflexivity.
Qed.

(** An instance: a guarantee promised in capitals. *)
Lemma validateOutput_forbidden_any_case_witness :
  In (js "Output contains forbidden phrase: " ++ [DQUOTE] ++ js "guarantee" ++ [DQUOTE])
     (validateOutput (Some (mkOutputConstraints None None (Some [js "guarantee"])))
        (js "We " ++ js "GUARANTEE" ++ js " savings.")).
Proof.
  apply (validateOutput_forbidden_any_case
           (mkOutputConstraints None None (Some [js "guarantee"]))
           [js "guarantee"] (js "guarantee") (js "We ") (js "GUARANTEE") (js " savings."));
    [reflexivity | left; reflexivity | reflexivity].
Defined.

(** End of the development. *)

